(** * A shallow embedding of DuckDB's [JoinHashTable]

    The development follows [src/execution/join_hashtable.cpp]: the chained
    hash table built by [Build] / [Finalize] and walked by the probe-side
    [ScanStructure].  Integers of type [idx_t], [hash_t] and [data_ptr_t] are
    unsigned 64-bit words, modelled as [Z]; row memory is a finite map from
    addresses to words; vectors and selection buffers are lists updated by
    index. *)

From Stdlib Require Import ZArith Lia.
From stdpp Require Import base tactics option list gmap.

(** ** Machine words *)

Abbreviation idx_t := Z (only parsing).
Abbreviation hash_t := Z (only parsing).
Abbreviation data_ptr_t := Z (only parsing).

(** A read out of the bounds of a buffer is undefined in the source; here
    such a read of a word gives 0 and of a [bool] gives [false]. *)
#[global] Instance word_inhabited : Inhabited Z := populate 0%Z.
#[global] Instance flag_inhabited : Inhabited bool := populate false.

Definition nullptr : data_ptr_t := 0%Z.

(** Unsigned 64-bit wrap-around of [idx_t] arithmetic. *)
Definition wrap64 (z : Z) : idx_t := (z mod 2 ^ 64)%Z.

(** Row memory: the word stored at each address ([Load] / [Store]). *)
Abbreviation Memory := (gmap Z Z) (only parsing).

Definition Load (mem : Memory) (addr : data_ptr_t) : Z := default 0%Z (mem !! addr).
Definition Store (v : Z) (addr : data_ptr_t) (mem : Memory) : Memory := <[addr := v]> mem.

(** ** Enumerations *)

Inductive JoinType :=
| INVALID | LEFT | RIGHT | INNER | OUTER | SEMI | ANTI | MARK | SINGLE.

(** Modelled from the spec: [IsRightOuterJoin] (declared with the join-type
    enumeration, outside the sources at hand) holds of the right and the full
    outer join, the two kinds that carry a found flag per build row. *)
Definition IsRightOuterJoin (type : JoinType) : bool :=
  match type with
  | OUTER | RIGHT => true
  | _ => false
  end.

#[global] Instance JoinType_eq_dec : EqDecision JoinType.
Proof. solve_decision. Defined.

Inductive ExpressionType :=
| COMPARE_EQUAL
| COMPARE_NOTEQUAL
| COMPARE_LESSTHAN
| COMPARE_GREATERTHAN
| COMPARE_LESSTHANOREQUALTO
| COMPARE_GREATERTHANOREQUALTO
| COMPARE_DISTINCT_FROM
| COMPARE_NOT_DISTINCT_FROM.

Inductive LogicalType :=
| BOOLEAN | INTEGER | BIGINT | VARCHAR | HASH | POINTER.

Record JoinCondition := {
  return_type : LogicalType;
  comparison : ExpressionType
}.

(** ** Selection vectors, validity masks and vectors *)

(** Modelled from the spec: a selection vector is an array of lane indices;
    the shared incremental vector has no buffer and maps every index to
    itself.  [get_index] out of the buffer is undefined in the source and
    reads 0 here. *)
Inductive SelectionVector :=
| IncrementalSelectionVector
| SelectionBuffer (sel_vector : list nat).

Definition get_index (sel : SelectionVector) (idx : nat) : nat :=
  match sel with
  | IncrementalSelectionVector => idx
  | SelectionBuffer l => l !!! idx
  end.

(** Modelled from the spec: a validity mask records per row whether the value
    is non-null.  A mask without a buffer ([None]) means that all rows are
    valid; [SetInvalid] allocates the buffer on demand, [SetValid] on a mask
    without a buffer has nothing to do, and [Set] writes the given bit. *)
Definition ValidityMask := option (list bool).

Section Validity.
Variable STANDARD_VECTOR_SIZE : nat.

Definition AllValid (mask : ValidityMask) : bool :=
  match mask with None => true | Some _ => false end.

Definition RowIsValid (mask : ValidityMask) (row_idx : nat) : bool :=
  match mask with
  | None => true
  | Some bits => default true (bits !! row_idx)
  end.

(** The unchecked read; callers guard it with [AllValid]. *)
Definition RowIsValidUnsafe (mask : ValidityMask) (row_idx : nat) : bool :=
  RowIsValid mask row_idx.

Definition SetInvalid (mask : ValidityMask) (row_idx : nat) : ValidityMask :=
  match mask with
  | None => Some (<[row_idx := false]> (replicate STANDARD_VECTOR_SIZE true))
  | Some bits => Some (<[row_idx := false]> bits)
  end.

Definition SetValid (mask : ValidityMask) (row_idx : nat) : ValidityMask :=
  match mask with
  | None => None
  | Some bits => Some (<[row_idx := true]> bits)
  end.

Definition ValiditySet (mask : ValidityMask) (row_idx : nat) (valid : bool) : ValidityMask :=
  if valid then SetValid mask row_idx else SetInvalid mask row_idx.

Definition SetAllInvalid (count : nat) : ValidityMask :=
  Some (replicate count false ++ replicate (STANDARD_VECTOR_SIZE - count) true).
End Validity.

(** The unified ("orrified") view of a vector: a selection into the data and
    the validity of the data entries. *)
Record VectorData := {
  vd_sel : SelectionVector;
  vd_data : list Z;
  vd_validity : ValidityMask
}.

(** Modelled from the spec: a vector is a column of a batch.  It is flat, a
    constant, or a dictionary (a selection over the entries of a child); a
    [bool] entry is the word 0 or 1. *)
Inductive Vector :=
| FLAT_VECTOR (data : list Z) (validity : ValidityMask)
| CONSTANT_VECTOR (value : Z) (is_null : bool)
| DICTIONARY_VECTOR (sel : list nat) (data : list Z) (validity : ValidityMask).

Definition Orrify (v : Vector) (count : nat) : VectorData :=
  match v with
  | FLAT_VECTOR data validity =>
      {| vd_sel := IncrementalSelectionVector; vd_data := data; vd_validity := validity |}
  | CONSTANT_VECTOR value is_null =>
      {| vd_sel := SelectionBuffer (replicate count 0);
         vd_data := [value];
         vd_validity := if is_null then Some [false] else None |}
  | DICTIONARY_VECTOR sel data validity =>
      {| vd_sel := SelectionBuffer sel; vd_data := data; vd_validity := validity |}
  end.

(** [Vector::Slice]: the selected entries of a vector, as a dictionary. *)
Definition SliceVector (v : Vector) (sel : list nat) (count : nat) : Vector :=
  match v with
  | FLAT_VECTOR data validity => DICTIONARY_VECTOR (take count sel) data validity
  | CONSTANT_VECTOR value is_null => CONSTANT_VECTOR value is_null
  | DICTIONARY_VECTOR s data validity =>
      DICTIONARY_VECTOR ((fun i => s !!! i) <$> take count sel) data validity
  end.

Record DataChunk := {
  data : list Vector;
  size : nat
}.

Definition ColumnCount (chunk : DataChunk) : nat := length (data chunk).

Definition DataChunk_Orrify (chunk : DataChunk) : list VectorData :=
  (fun v => Orrify v (size chunk)) <$> data chunk.

(** [result.Slice(other, sel, count)]: the leading columns of [result] become
    the columns of [other], sliced; the cardinality becomes [count]. *)
Definition DataChunk_Slice (result other : DataChunk) (sel : list nat) (count : nat)
    : DataChunk :=
  {| data := ((fun v => SliceVector v sel count) <$> data other)
               ++ drop (ColumnCount other) (data result);
     size := count |}.

(** [result.data[i].Reference(other.data[i])] for every column of [other]. *)
Definition DataChunk_Reference (result other : DataChunk) : list Vector :=
  data other ++ drop (ColumnCount other) (data result).

(** A null-or-value reading of row [i] of an orrified column. *)
Definition vd_is_null (vdata : VectorData) (i : nat) : bool :=
  negb (RowIsValid (vd_validity vdata) (get_index (vd_sel vdata) i)).

(** A selection argument of a loop that writes a selection buffer of its own:
    the incremental vector, that very buffer (the caller passes the buffer it
    also hands over as the output, so reads see earlier writes), or a
    separate buffer. *)
Inductive SelArg :=
| IncrementalSel
| AliasedSel
| OtherSel (sel : list nat).

Definition sel_read (sel : SelArg) (target : list nat) (i : nat) : nat :=
  match sel with
  | IncrementalSel => i
  | AliasedSel => target !!! i
  | OtherSel l => l !!! i
  end.

(** What a [SelArg] denotes once the loop is over. *)
Definition sel_deref (sel : SelArg) (target : list nat) : SelectionVector :=
  match sel with
  | IncrementalSel => IncrementalSelectionVector
  | AliasedSel => SelectionBuffer target
  | OtherSel l => SelectionBuffer l
  end.

(** ** Outcomes of a call *)

(** A call returns, runs out of the fuel that bounds its loops, or throws the
    internal exception of an unhandled join type. *)
Inductive Outcome (A : Type) :=
| Returns (a : A)
| OutOfFuel
| InternalException.

Arguments Returns {A} a.
Arguments OutOfFuel {A}.
Arguments InternalException {A}.

Definition Outcome_bind {A B : Type} (x : Outcome A) (k : A -> Outcome B) : Outcome B :=
  match x with
  | Returns a => k a
  | OutOfFuel => OutOfFuel
  | InternalException => InternalException
  end.

Notation "'let*' x ':=' c1 'in' c2" := (Outcome_bind c1 (fun x => c2))
  (at level 10, x name, c1 at level 100, c2 at level 200).

Definition of_fuel {A : Type} (x : option A) : Outcome A :=
  match x with
  | Some a => Returns a
  | None => OutOfFuel
  end.

(** ** Row blocks and the hash table *)

Record RowDataBlock := {
  block_ptr : data_ptr_t;   (* address of the pinned buffer *)
  block_count : nat
}.

Record RowDataCollection := {
  blocks : list RowDataBlock;
  rdc_count : nat;
  block_capacity : Z;
  rdc_entry_size : Z
}.

Record RowLayout := {
  GetTypes : list LogicalType;
  GetOffsets : list Z;
  GetRowWidth : Z;
  AllConstant : bool
}.

Record CorrelatedMarkJoinInfo := {
  correlated_types : list LogicalType;
  (* the chunks fed to the COUNT( * ) / COUNT(col) aggregate, newest first *)
  correlated_counts : list (DataChunk * DataChunk)
}.

Record JoinHashTable := {
  build_types : list LogicalType;
  equality_types : list LogicalType;
  condition_types : list LogicalType;
  predicates : list ExpressionType;
  null_values_are_equal : list bool;
  layout : RowLayout;
  entry_size : Z;
  tuple_size : Z;
  pointer_offset : Z;
  join_type : JoinType;
  finalized : bool;
  has_null : bool;
  current_radix_bits : Z;
  histogram_ptr : list idx_t;
  block_collection : RowDataCollection;
  string_heap : RowDataCollection;
  hash_map : list data_ptr_t;
  bitmask : Z;
  pinned_handles : list data_ptr_t;
  correlated_mark_join_info : CorrelatedMarkJoinInfo
}.

Definition Count (ht : JoinHashTable) : nat := rdc_count (block_collection ht).

(** Field updates. *)
Definition with_has_null (b : bool) (ht : JoinHashTable) : JoinHashTable :=
  {| build_types := build_types ht; equality_types := equality_types ht;
     condition_types := condition_types ht; predicates := predicates ht;
     null_values_are_equal := null_values_are_equal ht; layout := layout ht;
     entry_size := entry_size ht; tuple_size := tuple_size ht;
     pointer_offset := pointer_offset ht; join_type := join_type ht;
     finalized := finalized ht; has_null := b;
     current_radix_bits := current_radix_bits ht; histogram_ptr := histogram_ptr ht;
     block_collection := block_collection ht; string_heap := string_heap ht;
     hash_map := hash_map ht; bitmask := bitmask ht;
     pinned_handles := pinned_handles ht;
     correlated_mark_join_info := correlated_mark_join_info ht |}.

Definition with_finalized (b : bool) (ht : JoinHashTable) : JoinHashTable :=
  {| build_types := build_types ht; equality_types := equality_types ht;
     condition_types := condition_types ht; predicates := predicates ht;
     null_values_are_equal := null_values_are_equal ht; layout := layout ht;
     entry_size := entry_size ht; tuple_size := tuple_size ht;
     pointer_offset := pointer_offset ht; join_type := join_type ht;
     finalized := b; has_null := has_null ht;
     current_radix_bits := current_radix_bits ht; histogram_ptr := histogram_ptr ht;
     block_collection := block_collection ht; string_heap := string_heap ht;
     hash_map := hash_map ht; bitmask := bitmask ht;
     pinned_handles := pinned_handles ht;
     correlated_mark_join_info := correlated_mark_join_info ht |}.

Definition with_histogram_ptr (h : list idx_t) (ht : JoinHashTable) : JoinHashTable :=
  {| build_types := build_types ht; equality_types := equality_types ht;
     condition_types := condition_types ht; predicates := predicates ht;
     null_values_are_equal := null_values_are_equal ht; layout := layout ht;
     entry_size := entry_size ht; tuple_size := tuple_size ht;
     pointer_offset := pointer_offset ht; join_type := join_type ht;
     finalized := finalized ht; has_null := has_null ht;
     current_radix_bits := current_radix_bits ht; histogram_ptr := h;
     block_collection := block_collection ht; string_heap := string_heap ht;
     hash_map := hash_map ht; bitmask := bitmask ht;
     pinned_handles := pinned_handles ht;
     correlated_mark_join_info := correlated_mark_join_info ht |}.

Definition with_collections (bc sh : RowDataCollection) (ht : JoinHashTable) : JoinHashTable :=
  {| build_types := build_types ht; equality_types := equality_types ht;
     condition_types := condition_types ht; predicates := predicates ht;
     null_values_are_equal := null_values_are_equal ht; layout := layout ht;
     entry_size := entry_size ht; tuple_size := tuple_size ht;
     pointer_offset := pointer_offset ht; join_type := join_type ht;
     finalized := finalized ht; has_null := has_null ht;
     current_radix_bits := current_radix_bits ht; histogram_ptr := histogram_ptr ht;
     block_collection := bc; string_heap := sh;
     hash_map := hash_map ht; bitmask := bitmask ht;
     pinned_handles := pinned_handles ht;
     correlated_mark_join_info := correlated_mark_join_info ht |}.

Definition with_hash_map (hm : list data_ptr_t) (mask : Z) (ht : JoinHashTable) : JoinHashTable :=
  {| build_types := build_types ht; equality_types := equality_types ht;
     condition_types := condition_types ht; predicates := predicates ht;
     null_values_are_equal := null_values_are_equal ht; layout := layout ht;
     entry_size := entry_size ht; tuple_size := tuple_size ht;
     pointer_offset := pointer_offset ht; join_type := join_type ht;
     finalized := finalized ht; has_null := has_null ht;
     current_radix_bits := current_radix_bits ht; histogram_ptr := histogram_ptr ht;
     block_collection := block_collection ht; string_heap := string_heap ht;
     hash_map := hm; bitmask := mask;
     pinned_handles := pinned_handles ht;
     correlated_mark_join_info := correlated_mark_join_info ht |}.

Definition with_pinned_handles (hs : list data_ptr_t) (ht : JoinHashTable) : JoinHashTable :=
  {| build_types := build_types ht; equality_types := equality_types ht;
     condition_types := condition_types ht; predicates := predicates ht;
     null_values_are_equal := null_values_are_equal ht; layout := layout ht;
     entry_size := entry_size ht; tuple_size := tuple_size ht;
     pointer_offset := pointer_offset ht; join_type := join_type ht;
     finalized := finalized ht; has_null := has_null ht;
     current_radix_bits := current_radix_bits ht; histogram_ptr := histogram_ptr ht;
     block_collection := block_collection ht; string_heap := string_heap ht;
     hash_map := hash_map ht; bitmask := bitmask ht;
     pinned_handles := hs;
     correlated_mark_join_info := correlated_mark_join_info ht |}.

Definition with_correlated_counts (cs : list (DataChunk * DataChunk)) (ht : JoinHashTable)
  : JoinHashTable :=
  {| build_types := build_types ht; equality_types := equality_types ht;
     condition_types := condition_types ht; predicates := predicates ht;
     null_values_are_equal := null_values_are_equal ht; layout := layout ht;
     entry_size := entry_size ht; tuple_size := tuple_size ht;
     pointer_offset := pointer_offset ht; join_type := join_type ht;
     finalized := finalized ht; has_null := has_null ht;
     current_radix_bits := current_radix_bits ht; histogram_ptr := histogram_ptr ht;
     block_collection := block_collection ht; string_heap := string_heap ht;
     hash_map := hash_map ht; bitmask := bitmask ht;
     pinned_handles := pinned_handles ht;
     correlated_mark_join_info :=
       {| correlated_types := correlated_types (correlated_mark_join_info ht);
          correlated_counts := cs |} |}.

(** ** Construction *)

Section Model.

Set Default Proof Using "Type".

(** Constants of the engine that are declared outside the sources at hand. *)
Variable STANDARD_VECTOR_SIZE : nat.
Variable BLOCK_SIZE : Z.
Variable INITIAL_RADIX_BITS : Z.
Variable TMP_BUF_SIZE : Z.

(** External collaborators, referenced by interface only. *)
Variable RowLayout_Initialize : list LogicalType -> RowLayout.
Variable RowDataCollection_Build :
  RowDataCollection -> nat -> RowDataCollection * list data_ptr_t.
Variable HashOp : DataChunk -> nat -> nat -> hash_t.
Variable UpdateHistogram : VectorData -> nat -> bool -> list idx_t -> Z -> list idx_t.
Variable Scatter :
  DataChunk -> list VectorData -> RowLayout -> list data_ptr_t -> SelectionVector -> nat ->
  RowDataCollection -> Memory -> RowDataCollection * Memory.
Variable Gather :
  Memory -> list data_ptr_t -> SelectionVector -> Vector -> SelectionVector -> nat -> Z -> nat ->
  Vector.
Variable Match :
  JoinHashTable -> DataChunk -> list VectorData -> Memory -> list data_ptr_t -> list nat ->
  list nat * list nat.
Variable FetchAggregates : list (DataChunk * DataChunk) -> DataChunk -> list Z * list Z.

Definition is_equality_comparison (c : ExpressionType) : bool :=
  match c with
  | COMPARE_EQUAL | COMPARE_NOT_DISTINCT_FROM | COMPARE_DISTINCT_FROM => true
  | _ => false
  end.

Definition null_values_equal_for (c : ExpressionType) : bool :=
  match c with
  | COMPARE_DISTINCT_FROM | COMPARE_NOT_DISTINCT_FROM => true
  | _ => false
  end.

(** Modelled from the spec: [RadixPartitioning::InitializeHistogram] returns
    [2^bits] counters, all zero. *)
Definition InitializeHistogram (bits : Z) : list idx_t :=
  replicate (Z.to_nat (2 ^ bits)) 0%Z.

(** The constructor [JoinHashTable::JoinHashTable]. *)
Definition JoinHashTable_new (conditions : list JoinCondition) (btypes : list LogicalType)
    (type : JoinType) : JoinHashTable :=
  let equality_types :=
    return_type <$> List.filter (fun c => is_equality_comparison (comparison c)) conditions in
  let predicates := comparison <$> conditions in
  let null_values_are_equal := (fun c => null_values_equal_for (comparison c)) <$> conditions in
  let condition_types := return_type <$> conditions in
  let layout_types :=
    condition_types ++ btypes ++ (if IsRightOuterJoin type then [BOOLEAN] else []) ++ [HASH] in
  let layout := RowLayout_Initialize layout_types in
  let offsets := GetOffsets layout in
  let entry_size := GetRowWidth layout in
  let block_capacity0 := Z.max (Z.of_nat STANDARD_VECTOR_SIZE) (BLOCK_SIZE / entry_size + 1) in
  let block_capacity := (block_capacity0 + (TMP_BUF_SIZE - block_capacity0 mod TMP_BUF_SIZE))%Z in
  {| build_types := btypes;
     equality_types := equality_types;
     condition_types := condition_types;
     predicates := predicates;
     null_values_are_equal := null_values_are_equal;
     layout := layout;
     entry_size := entry_size;
     tuple_size := offsets !!! (length condition_types + length btypes)%nat;
     pointer_offset := List.last offsets 0%Z;
     join_type := type;
     finalized := false;
     has_null := false;
     current_radix_bits := INITIAL_RADIX_BITS;
     histogram_ptr := InitializeHistogram INITIAL_RADIX_BITS;
     block_collection :=
       {| blocks := []; rdc_count := 0; block_capacity := block_capacity;
          rdc_entry_size := entry_size |};
     string_heap :=
       {| blocks := []; rdc_count := 0; block_capacity := BLOCK_SIZE; rdc_entry_size := 1 |};
     hash_map := [];
     bitmask := 0%Z;
     pinned_handles := [];
     correlated_mark_join_info := {| correlated_types := []; correlated_counts := [] |} |}.

(** ** Key preparation and [Build] *)

(** [FilterNullValues]: the loop from row [i] on, [n] rows to go.  [result]
    is the buffer written; [sel] may be that same buffer. *)
Fixpoint FilterNullValues_from (vdata : VectorData) (sel : SelArg) (n i : nat)
    (result : list nat) (result_count : nat) : list nat * nat :=
  match n with
  | O => (result, result_count)
  | S n' =>
      let idx := sel_read sel result i in
      let key_idx := get_index (vd_sel vdata) idx in
      if RowIsValid (vd_validity vdata) key_idx
      then FilterNullValues_from vdata sel n' (S i) (<[result_count := idx]> result) (S result_count)
      else FilterNullValues_from vdata sel n' (S i) result result_count
  end.

Definition FilterNullValues (vdata : VectorData) (sel : SelArg) (count : nat)
    (result : list nat) : list nat * nat :=
  FilterNullValues_from vdata sel count 0 result 0.

(** The column loop of [PrepareKeys], from column [i] on.  The state is
    [current_sel], [added_count] and the buffer [sel]. *)
Fixpoint PrepareKeys_columns (nulls_equal : list bool) (key_data : list VectorData) (i : nat)
    (current_sel : SelArg) (added_count : nat) (sel : list nat) : SelArg * nat * list nat :=
  match key_data with
  | [] => (current_sel, added_count, sel)
  | vdata :: rest =>
      if negb (nulls_equal !!! i) then
        if AllValid (vd_validity vdata)
        then PrepareKeys_columns nulls_equal rest (S i) current_sel added_count sel
        else
          let '(sel', added_count') := FilterNullValues vdata current_sel added_count sel in
          PrepareKeys_columns nulls_equal rest (S i) AliasedSel added_count' sel'
      else PrepareKeys_columns nulls_equal rest (S i) current_sel added_count sel
  end.

(** [PrepareKeys] returns the orrified keys, [current_sel], the buffer [sel]
    and [added_count]. *)
Definition PrepareKeys (ht : JoinHashTable) (keys : DataChunk) (sel : list nat)
    (build_side : bool) : list VectorData * SelArg * list nat * nat :=
  let key_data := DataChunk_Orrify keys in
  let current_sel := IncrementalSel in
  let added_count := size keys in
  if build_side && IsRightOuterJoin (join_type ht)
  then (key_data, current_sel, sel, added_count)
  else
    let '(current_sel', added_count', sel') :=
      PrepareKeys_columns (null_values_are_equal ht) key_data 0 current_sel added_count sel in
    (key_data, current_sel', sel', added_count').

(** [JoinHashTable::Hash]: the hash of the equality columns, per row; with a
    selection only the selected rows are written. *)
Definition Hash (ht : JoinHashTable) (keys : DataChunk) (sel : SelectionVector) (count : nat)
    : list hash_t :=
  let h := HashOp keys (length (equality_types ht)) in
  if decide (count = size keys)
  then h <$> seq 0 (size keys)
  else
    foldl (fun hashes i => <[get_index sel i := h (get_index sel i)]> hashes)
          (replicate STANDARD_VECTOR_SIZE 0%Z) (seq 0 count).

Definition vfound : Vector := CONSTANT_VECTOR 0 false.

(** [JoinHashTable::Build]. *)
Definition Build (ht : JoinHashTable) (mem : Memory) (keys payload : DataChunk)
    : JoinHashTable * Memory :=
  if decide (size keys = 0) then (ht, mem)
  else
    (* special case: correlated mark join *)
    let info := correlated_mark_join_info ht in
    let ht1 :=
      if decide (join_type ht = MARK /\ length (correlated_types info) <> 0)
      then
        let ncorr := length (correlated_types info) in
        let group_chunk := {| data := take ncorr (data keys); size := size keys |} in
        let correlated_payload :=
          {| data := take 1 (drop ncorr (data keys)); size := size keys |} in
        with_correlated_counts ((group_chunk, correlated_payload) :: correlated_counts info) ht
      else ht in
    (* prepare the keys for processing *)
    let '(key_data, current_sel, sel, added_count) :=
      PrepareKeys ht1 keys (replicate STANDARD_VECTOR_SIZE 0) true in
    let ht2 := if decide (added_count < size keys) then with_has_null true ht1 else ht1 in
    if decide (added_count = 0) then (ht2, mem)
    else
      (* build out the buffer space *)
      let '(collection, key_locations) :=
        RowDataCollection_Build (block_collection ht2) added_count in
      (* hash the keys *)
      let hash_values := Hash ht2 keys (sel_deref current_sel sel) added_count in
      (* keys, payload, the found flag and the hashes, in layout order *)
      let found_column := if IsRightOuterJoin (join_type ht2) then [vfound] else [] in
      let source_chunk :=
        {| data := data keys ++ data payload ++ found_column ++ [FLAT_VECTOR hash_values None];
           size := size keys |} in
      let hdata := Orrify (FLAT_VECTOR hash_values None) (size keys) in
      let source_data :=
        key_data ++ DataChunk_Orrify payload
                 ++ ((fun v => Orrify v (size keys)) <$> found_column) ++ [hdata] in
      (* update the histogram *)
      let histogram :=
        UpdateHistogram hdata added_count (bool_decide (size keys = added_count))
                        (histogram_ptr ht2) INITIAL_RADIX_BITS in
      let '(heap, mem') :=
        Scatter source_chunk source_data (layout ht2) key_locations
                (sel_deref current_sel sel) added_count (string_heap ht2) mem in
      (with_histogram_ptr histogram (with_collections collection heap ht2), mem').

(** A sequence of [Build] calls. *)
Definition Build_all (ht : JoinHashTable) (mem : Memory) (batches : list (DataChunk * DataChunk))
    : JoinHashTable * Memory :=
  foldl (fun st b => Build (fst st) (snd st) (fst b) (snd b)) (ht, mem) batches.

(** ** [Finalize] and [InsertHashes] *)

Definition sizeof_data_ptr_t : Z := 8.

(** Modelled from the spec: [NextPowerOfTwo] (a helper declared outside the
    sources at hand) returns the least power of two that is not below its
    argument, as an [idx_t]. *)
Definition NextPowerOfTwo (v : idx_t) : idx_t := wrap64 (2 ^ Z.log2_up v).

(** [Vector::Normalify]: the first [count] entries as a flat vector. *)
Definition Normalify (v : Vector) (count : nat) : Vector :=
  match v with
  | FLAT_VECTOR d validity => FLAT_VECTOR d validity
  | CONSTANT_VECTOR value is_null =>
      FLAT_VECTOR (replicate count value) (if is_null then Some (replicate count false) else None)
  | DICTIONARY_VECTOR sel d validity =>
      FLAT_VECTOR ((fun i => d !!! (sel !!! i)) <$> seq 0 count)
                  (match validity with
                   | None => None
                   | Some bits => Some ((fun i => default true (bits !! (sel !!! i))) <$> seq 0 count)
                   end)
  end.

Definition FlatVector_GetData (v : Vector) : list Z :=
  match v with
  | FLAT_VECTOR d _ => d
  | _ => []
  end.

(** [ApplyBitmask(hashes, count)]: the hashes become slot indices. *)
Definition ApplyBitmask (ht : JoinHashTable) (hashes : Vector) (count : nat) : Vector :=
  match hashes with
  | CONSTANT_VECTOR value is_null => CONSTANT_VECTOR (Z.land value (bitmask ht)) is_null
  | _ =>
      match Normalify hashes count with
      | FLAT_VECTOR indices validity =>
          FLAT_VECTOR (((fun h => Z.land h (bitmask ht)) <$> take count indices)
                         ++ drop count indices) validity
      | other => other
      end
  end.

(** The loop of [InsertHashes], from row [i] on, [n] rows to go: the state is
    the pointer array of the hash map and the row memory. *)
Fixpoint InsertHashes_from (ht : JoinHashTable) (indices : list hash_t)
    (key_locations : list data_ptr_t) (n i : nat) (pointers : list data_ptr_t) (mem : Memory)
    : list data_ptr_t * Memory :=
  match n with
  | O => (pointers, mem)
  | S n' =>
      let index := Z.to_nat (indices !!! i) in
      (* set prev in current key to the value *)
      let mem' := Store (pointers !!! index) (key_locations !!! i + pointer_offset ht)%Z mem in
      (* set pointer to current tuple *)
      let pointers' := <[index := key_locations !!! i]> pointers in
      InsertHashes_from ht indices key_locations n' (S i) pointers' mem'
  end.

Definition InsertHashes (ht : JoinHashTable) (hashes : Vector) (count : nat)
    (key_locations : list data_ptr_t) (mem : Memory) : JoinHashTable * Memory :=
  let hashes1 := ApplyBitmask ht hashes count in
  let hashes2 := Normalify hashes1 count in
  let indices := FlatVector_GetData hashes2 in
  let '(pointers, mem') := InsertHashes_from ht indices key_locations count 0 (hash_map ht) mem in
  (with_hash_map pointers (bitmask ht) ht, mem').

(** The rows of one block are inserted in batches of at most
    [STANDARD_VECTOR_SIZE]; [hash_data] and [key_locations] hold the batch.
    The [while] loop runs on fuel, and [None] means that it ran out. *)
Fixpoint Finalize_block (fuel : nat) (ht : JoinHashTable) (mem : Memory) (block : RowDataBlock)
    (dataptr : data_ptr_t) (entry : nat) : option (JoinHashTable * Memory) :=
  if decide (entry < block_count block) then
    match fuel with
    | O => None
    | S fuel' =>
        let next := STANDARD_VECTOR_SIZE `min` (block_count block - entry) in
        let row i := (dataptr + Z.of_nat i * entry_size ht)%Z in
        let hash_data := (fun i => Load mem (row i + pointer_offset ht)%Z) <$> seq 0 next in
        let key_locations := row <$> seq 0 next in
        let '(ht', mem') := InsertHashes ht (FLAT_VECTOR hash_data None) next key_locations mem in
        Finalize_block fuel' ht' mem' block (dataptr + Z.of_nat next * entry_size ht)%Z
                       (entry + next)
    end
  else Some (ht, mem).

Fixpoint Finalize_blocks (ht : JoinHashTable) (mem : Memory) (bs : list RowDataBlock)
    : option (JoinHashTable * Memory) :=
  match bs with
  | [] => Some (ht, mem)
  | block :: rest =>
      match Finalize_block (block_count block) ht mem block (block_ptr block) 0 with
      | None => None
      | Some (ht', mem') =>
          Finalize_blocks (with_pinned_handles (pinned_handles ht' ++ [block_ptr block]) ht')
                          mem' rest
      end
  end.

Definition Finalize_capacity (ht : JoinHashTable) : idx_t :=
  NextPowerOfTwo (Z.max (wrap64 (Z.of_nat (Count ht) * 2))
                        (BLOCK_SIZE / sizeof_data_ptr_t + 1)).

(** The hash map right after allocation and [memset]. *)
Definition Finalize_allocate (ht : JoinHashTable) : JoinHashTable :=
  let capacity := Finalize_capacity ht in
  with_hash_map (replicate (Z.to_nat capacity) nullptr) (wrap64 (capacity - 1)) ht.

Definition Finalize (ht : JoinHashTable) (mem : Memory) : option (JoinHashTable * Memory) :=
  match Finalize_blocks (Finalize_allocate ht) mem (blocks (block_collection ht)) with
  | None => None
  | Some (ht', mem') => Some (with_finalized true ht', mem')
  end.

(** ** The radix histogram *)

(** Modelled from the spec: [RadixPartitioning::ReduceHistogram] merges
    adjacent buckets, [new[i]] being the sum of [old[i*k .. i*k + k - 1]] with
    [k = 2^(from - to)]. *)
Definition RadixPartitioning_ReduceHistogram (hist : list idx_t) (from_bits to_bits : Z)
    : list idx_t :=
  let k := Z.to_nat (2 ^ (from_bits - to_bits)) in
  (fun i => wrap64 (foldr Z.add 0%Z (take k (drop (i * k) hist))))
    <$> seq 0 (Z.to_nat (2 ^ to_bits)).

Definition PartitionsFitInMemory (histogram : list idx_t) (average_row_size : idx_t) : bool :=
  false.

(** The loop of [ReduceHistogram] for a given fit check; [None] means that
    the fuel ran out. *)
Fixpoint ReduceHistogram_loop (fits : list idx_t -> idx_t -> bool) (fuel : nat)
    (avg_row_size : idx_t) (ht : JoinHashTable) : option JoinHashTable :=
  if decide (1 < current_radix_bits ht)%Z then
    match fuel with
    | O => None
    | S fuel' =>
        let reduced_hist :=
          RadixPartitioning_ReduceHistogram (histogram_ptr ht) (current_radix_bits ht)
                                            (current_radix_bits ht - 1) in
        if fits reduced_hist avg_row_size
        then ReduceHistogram_loop fits fuel' avg_row_size (with_histogram_ptr reduced_hist ht)
        else Some ht
    end
  else Some ht.

Definition ReduceHistogram (fuel : nat) (avg_string_size : idx_t) (ht : JoinHashTable)
    : option JoinHashTable :=
  let avg_row_size := wrap64 (avg_string_size + GetRowWidth (layout ht)) in
  ReduceHistogram_loop PartitionsFitInMemory fuel avg_row_size ht.

(** The estimate named by the specification: a histogram fits a memory budget
    when [count * average row size] is within the budget for every partition. *)
Definition partitions_fit_estimate (budget : Z) (histogram : list idx_t) (avg_row_size : idx_t)
    : bool :=
  forallb (fun c => (c * avg_row_size <=? budget)%Z) histogram.

(** ** The probe cursor *)

Record ScanStructure := {
  key_data : list VectorData;
  pointers : list data_ptr_t;
  ss_count : nat;
  sel_vector : list nat;
  found_match : option (list bool);
  finished : bool
}.

Record JoinHTScanState := {
  position : nat;
  block_position : nat
}.

Definition with_cursor (ptrs : list data_ptr_t) (sel : list nat) (count : nat)
    (ss : ScanStructure) : ScanStructure :=
  {| key_data := key_data ss; pointers := ptrs; ss_count := count; sel_vector := sel;
     found_match := found_match ss; finished := finished ss |}.

Definition with_found_match (fm : option (list bool)) (ss : ScanStructure) : ScanStructure :=
  {| key_data := key_data ss; pointers := pointers ss; ss_count := ss_count ss;
     sel_vector := sel_vector ss; found_match := fm; finished := finished ss |}.

Definition with_finished (b : bool) (ss : ScanStructure) : ScanStructure :=
  {| key_data := key_data ss; pointers := pointers ss; ss_count := ss_count ss;
     sel_vector := sel_vector ss; found_match := found_match ss; finished := b |}.

(** The loop of [AdvancePointers(sel, sel_count)], from entry [i] on, [n]
    entries to go.  [sel] may be [this->sel_vector] itself. *)
Fixpoint AdvancePointers_from (ht : JoinHashTable) (mem : Memory) (sel : SelArg) (n i : nat)
    (ptrs : list data_ptr_t) (sel_vector : list nat) (new_count : nat)
    : list data_ptr_t * list nat * nat :=
  match n with
  | O => (ptrs, sel_vector, new_count)
  | S n' =>
      let idx := sel_read sel sel_vector i in
      let ptrs' := <[idx := Load mem (ptrs !!! idx + pointer_offset ht)%Z]> ptrs in
      if decide (ptrs' !!! idx <> nullptr)
      then AdvancePointers_from ht mem sel n' (S i) ptrs' (<[new_count := idx]> sel_vector)
                                (S new_count)
      else AdvancePointers_from ht mem sel n' (S i) ptrs' sel_vector new_count
  end.

Definition AdvancePointers (ht : JoinHashTable) (mem : Memory) (sel : SelArg) (sel_count : nat)
    (ss : ScanStructure) : ScanStructure :=
  let '(ptrs, sel_vector', new_count) :=
    AdvancePointers_from ht mem sel sel_count 0 (pointers ss) (sel_vector ss) 0 in
  with_cursor ptrs sel_vector' new_count ss.

(** [AdvancePointers()] advances the live lanes themselves. *)
Definition AdvancePointers_live (ht : JoinHashTable) (mem : Memory) (ss : ScanStructure)
    : ScanStructure :=
  AdvancePointers ht mem AliasedSel (ss_count ss) ss.

(** [ApplyBitmask(hashes, sel, count, pointers)]: each selected lane gets the
    address of its slot, kept here as the index of the slot in the hash map. *)
Definition ApplyBitmask_pointers (ht : JoinHashTable) (hashes : Vector) (sel : SelectionVector)
    (count : nat) (ptrs : list data_ptr_t) : list data_ptr_t :=
  let hdata := Orrify hashes count in
  foldl (fun result_data i =>
           let rindex := get_index sel i in
           let hindex := get_index (vd_sel hdata) rindex in
           let hash := vd_data hdata !!! hindex in
           <[rindex := Z.land hash (bitmask ht)]> result_data)
        ptrs (seq 0 count).

(** The loop of [InitializeSelectionVector]: every lane loads the head of its
    slot.  The slots read are logged, oldest first. *)
Fixpoint InitializeSelectionVector_from (ht : JoinHashTable) (current_sel : SelArg) (n i : nat)
    (ptrs : list data_ptr_t) (sel_vector : list nat) (non_empty_count : nat) (reads : list nat)
    : list data_ptr_t * list nat * nat * list nat :=
  match n with
  | O => (ptrs, sel_vector, non_empty_count, reads)
  | S n' =>
      let idx := sel_read current_sel sel_vector i in
      let slot := Z.to_nat (ptrs !!! idx) in
      let ptrs' := <[idx := hash_map ht !!! slot]> ptrs in
      if decide (ptrs' !!! idx <> nullptr)
      then InitializeSelectionVector_from ht current_sel n' (S i) ptrs'
             (<[non_empty_count := idx]> sel_vector) (S non_empty_count) (reads ++ [slot])
      else InitializeSelectionVector_from ht current_sel n' (S i) ptrs' sel_vector
             non_empty_count (reads ++ [slot])
  end.

Definition InitializeSelectionVector (ht : JoinHashTable) (current_sel : SelArg)
    (ss : ScanStructure) : ScanStructure * list nat :=
  let '(ptrs, sel_vector', non_empty_count, reads) :=
    InitializeSelectionVector_from ht current_sel (ss_count ss) 0 (pointers ss) (sel_vector ss)
                                   0 [] in
  (with_cursor ptrs sel_vector' non_empty_count ss, reads).

(** [InitializeScanStructure].  With [debug] the two assertions of the source
    are checked and [None] is an assertion failure; without, they are
    compiled out. *)
Definition InitializeScanStructure (debug : bool) (ht : JoinHashTable) (keys : DataChunk)
    : option (ScanStructure * SelArg) :=
  if debug && negb (bool_decide (0 < Count ht) && finalized ht) then None
  else
    let found :=
      if decide (join_type ht <> INNER) then Some (replicate STANDARD_VECTOR_SIZE false)
      else None in
    let '(key_data, current_sel, sel, count) :=
      PrepareKeys ht keys (replicate STANDARD_VECTOR_SIZE 0) false in
    Some ({| key_data := key_data;
             pointers := replicate STANDARD_VECTOR_SIZE 0%Z;
             ss_count := count;
             sel_vector := sel;
             found_match := found;
             finished := false |}, current_sel).

(** [Probe] returns the cursor and the slots of the hash map it has read. *)
Definition Probe (debug : bool) (ht : JoinHashTable) (keys : DataChunk)
    : option (ScanStructure * list nat) :=
  match InitializeScanStructure debug ht keys with
  | None => None
  | Some (ss, current_sel) =>
      if decide (ss_count ss = 0) then Some (ss, [])
      else
        (* hash all the keys *)
        let hashes := Hash ht keys (sel_deref current_sel (sel_vector ss)) (ss_count ss) in
        (* initialize the pointers of the scan structure based on the hashes *)
        let ptrs :=
          ApplyBitmask_pointers ht (FLAT_VECTOR hashes None)
                                (sel_deref current_sel (sel_vector ss)) (ss_count ss)
                                (pointers ss) in
        (* create the selection vector linking to only non-empty entries *)
        Some (InitializeSelectionVector ht current_sel
                (with_cursor ptrs (sel_vector ss) (ss_count ss) ss))
  end.

(** ** [Next] and the join kinds *)

(** [found_match[idx] = true] for the first entries of a selection. *)
Definition mark_found (fm : list bool) (sel : list nat) : list bool :=
  foldl (fun fm idx => <[idx := true]> fm) fm sel.

(** Reading [found_match[i]]; without a bitmap the source dereferences a null
    pointer, which reads [false] here. *)
Definition found_at (fm : option (list bool)) (i : nat) : bool :=
  match fm with
  | Some l => default false (l !! i)
  | None => false
  end.

(** [ResolvePredicates]: the live lanes go to [match_sel], and [Match] splits
    them into the matches and the rest. *)
Definition ResolvePredicates (ht : JoinHashTable) (mem : Memory) (keys : DataChunk)
    (ss : ScanStructure) : list nat * list nat :=
  let match_sel := take (ss_count ss) (sel_vector ss) in
  Match ht keys (key_data ss) mem (pointers ss) match_sel.

Fixpoint ScanInnerJoin (fuel : nat) (ht : JoinHashTable) (mem : Memory) (keys : DataChunk)
    (ss : ScanStructure) : option (ScanStructure * list nat * nat) :=
  match fuel with
  | O => None
  | S fuel' =>
      (* resolve the predicates for this set of keys *)
      let result_vector := fst (ResolvePredicates ht mem keys ss) in
      let result_count := length result_vector in
      (* after doing all the comparisons set the found_match vector *)
      let ss1 :=
        match found_match ss with
        | Some fm => with_found_match (Some (mark_found fm result_vector)) ss
        | None => ss
        end in
      if decide (0 < result_count) then Some (ss1, result_vector, result_count)
      else
        (* no matches found: check the next set of pointers *)
        let ss2 := AdvancePointers_live ht mem ss1 in
        if decide (ss_count ss2 = 0) then Some (ss2, result_vector, 0)
        else ScanInnerJoin fuel' ht mem keys ss2
  end.

(** [GatherResult] on the build column [i] of the result. *)
Definition GatherResult (ht : JoinHashTable) (mem : Memory) (ss : ScanStructure)
    (result : Vector) (result_vector sel_vector : SelectionVector) (count col_no : nat)
    : Vector :=
  let col_offset := GetOffsets (layout ht) !!! col_no in
  Gather mem (pointers ss) sel_vector result result_vector count col_offset col_no.

(** The loop over the build columns of a result, which start at [first]. *)
Definition gather_build_columns (ht : JoinHashTable) (first : nat)
    (f : nat -> Vector -> Vector) (columns : list Vector) : list Vector :=
  foldl (fun cols i => alter (f i) (first + i) cols) columns
        (seq 0 (length (build_types ht))).

Definition NextInnerJoin (fuel : nat) (ht : JoinHashTable) (mem : Memory)
    (keys left result : DataChunk) (ss : ScanStructure)
    : option (ScanStructure * Memory * DataChunk) :=
  if decide (ss_count ss = 0) then Some (ss, mem, result)
  else
    match ScanInnerJoin fuel ht mem keys ss with
    | None => None
    | Some (ss1, result_vector, result_count) =>
        if decide (0 < result_count) then
          (* full/right outer join: mark join matches as FOUND in the HT *)
          let mem' :=
            if IsRightOuterJoin (join_type ht)
            then foldl (fun m idx => Store 1 (pointers ss1 !!! idx + tuple_size ht)%Z m) mem
                       (take result_count result_vector)
            else mem in
          let sliced := DataChunk_Slice result left result_vector result_count in
          let columns :=
            gather_build_columns ht (ColumnCount left)
              (fun i vector =>
                 GatherResult ht mem' ss1 vector IncrementalSelectionVector
                              (SelectionBuffer result_vector) result_count
                              (i + length (condition_types ht)))
              (data sliced) in
          Some (AdvancePointers_live ht mem' ss1, mem',
                {| data := columns; size := size sliced |})
        else Some (ss1, mem, result)
    end.

(** [ScanKeyMatches]: chase every chain, marking the lanes that match. *)
Fixpoint ScanKeyMatches (fuel : nat) (ht : JoinHashTable) (mem : Memory) (keys : DataChunk)
    (ss : ScanStructure) : option ScanStructure :=
  if decide (0 < ss_count ss) then
    match fuel with
    | O => None
    | S fuel' =>
        let '(match_sel, no_match_sel) := ResolvePredicates ht mem keys ss in
        let match_count := length match_sel in
        let no_match_count := ss_count ss - match_count in
        (* mark each of the matches as found *)
        let ss1 := with_found_match ((fun fm => mark_found fm match_sel) <$> found_match ss) ss in
        (* continue searching for the ones where we did not find a match yet *)
        ScanKeyMatches fuel' ht mem keys
                       (AdvancePointers ht mem (OtherSel no_match_sel) no_match_count ss1)
    end
  else Some ss.

(** The rows [i < n] with [found_match[i] == MATCH], in order. *)
Definition select_found (fm : option (list bool)) (MATCH : bool) (n : nat) : list nat :=
  List.filter (fun i => Bool.eqb (found_at fm i) MATCH) (seq 0 n).

Definition NextSemiOrAntiJoin (MATCH : bool) (keys left result : DataChunk)
    (ss : ScanStructure) : DataChunk :=
  let sel := select_found (found_match ss) MATCH (size keys) in
  let result_count := length sel in
  if decide (0 < result_count) then DataChunk_Slice result left sel result_count
  else result.

Definition NextSemiJoin (fuel : nat) (ht : JoinHashTable) (mem : Memory)
    (keys left result : DataChunk) (ss : ScanStructure) : option (ScanStructure * DataChunk) :=
  match ScanKeyMatches fuel ht mem keys ss with
  | None => None
  | Some ss1 => Some (with_finished true ss1, NextSemiOrAntiJoin true keys left result ss1)
  end.

Definition NextAntiJoin (fuel : nat) (ht : JoinHashTable) (mem : Memory)
    (keys left result : DataChunk) (ss : ScanStructure) : option (ScanStructure * DataChunk) :=
  match ScanKeyMatches fuel ht mem keys ss with
  | None => None
  | Some ss1 => Some (with_finished true ss1, NextSemiOrAntiJoin false keys left result ss1)
  end.

(** [SetVectorType(FLAT_VECTOR)] keeps the buffers of the vector. *)
Definition SetVectorType_FLAT (v : Vector) : list Z * ValidityMask :=
  match v with
  | FLAT_VECTOR d validity => (d, validity)
  | CONSTANT_VECTOR value is_null =>
      (replicate STANDARD_VECTOR_SIZE value,
       if is_null then SetInvalid STANDARD_VECTOR_SIZE None 0 else None)
  | DICTIONARY_VECTOR _ d validity => (d, validity)
  end.

(** The inner loop of [ConstructMarkJoinResult] over the rows of one key
    column: [mask.Set(i, jdata.validity.RowIsValidUnsafe(jidx))]. *)
Definition mark_column_nulls (jdata : VectorData) (n : nat) (mask : ValidityMask)
    : ValidityMask :=
  foldl (fun mask i =>
           let jidx := get_index (vd_sel jdata) i in
           ValiditySet STANDARD_VECTOR_SIZE mask i (RowIsValidUnsafe (vd_validity jdata) jidx))
        mask (seq 0 n).

(** The loop of [ConstructMarkJoinResult] over the key columns, from column
    [col_idx] on. *)
Fixpoint mark_key_nulls (nulls_equal : list bool) (columns : list Vector) (col_idx n : nat)
    (mask : ValidityMask) : ValidityMask :=
  match columns with
  | [] => mask
  | column :: rest =>
      if (nulls_equal !!! col_idx : bool) then mark_key_nulls nulls_equal rest (S col_idx) n mask
      else
        let jdata := Orrify column n in
        let mask' :=
          if negb (AllValid (vd_validity jdata)) then mark_column_nulls jdata n mask else mask in
        mark_key_nulls nulls_equal rest (S col_idx) n mask'
  end.

(** The mark vector computed by [ConstructMarkJoinResult]: the [bool] data
    and the validity mask. *)
Definition ConstructMarkJoinResult_mark (ht : JoinHashTable) (ss : ScanStructure)
    (join_keys child : DataChunk) (mark_vector : Vector) : list Z * ValidityMask :=
  let '(bool_result, mask) := SetVectorType_FLAT mark_vector in
  (* first we set the NULL values from the join keys *)
  let mask1 := mark_key_nulls (null_values_are_equal ht) (data join_keys) 0 (size join_keys) mask in
  (* now set the remaining entries to either true or false *)
  let bool_result1 :=
    match found_match ss with
    | Some fm =>
        foldl (fun r i => <[i := Z.b2z (fm !!! i)]> r) bool_result (seq 0 (size child))
    | None => replicate (size child `min` length bool_result) 0%Z ++ drop (size child) bool_result
    end in
  (* if the right side contains NULL values, the result of any FALSE becomes NULL *)
  let mask2 :=
    if has_null ht
    then foldl (fun m i =>
                  if decide (bool_result1 !!! i = 0%Z) then SetInvalid STANDARD_VECTOR_SIZE m i
                  else m)
               mask1 (seq 0 (size child))
    else mask1 in
  (bool_result1, mask2).

Definition ConstructMarkJoinResult (ht : JoinHashTable) (ss : ScanStructure)
    (join_keys child result : DataChunk) : DataChunk :=
  let columns := DataChunk_Reference result child in
  let '(bool_result, mask) :=
    ConstructMarkJoinResult_mark ht ss join_keys child (List.last columns (FLAT_VECTOR [] None)) in
  {| data := <[length columns - 1 := FLAT_VECTOR bool_result mask]> columns;
     size := size child |}.

(** The mark vector of a correlated mark join. *)
Definition NextMarkJoin_correlated (ht : JoinHashTable) (ss : ScanStructure)
    (keys input result : DataChunk) : DataChunk :=
  let info := correlated_mark_join_info ht in
  let group_chunk :=
    {| data := take (length (correlated_types info)) (data keys); size := size keys |} in
  let '(count_star, count) := FetchAggregates (correlated_counts info) group_chunk in
  let columns := DataChunk_Reference result input in
  let last_key := List.last (data keys) (FLAT_VECTOR [] None) in
  let '(bool_result, mask) := SetVectorType_FLAT (List.last columns (FLAT_VECTOR [] None)) in
  let mask1 :=
    match last_key with
    | CONSTANT_VECTOR _ is_null =>
        if is_null then SetAllInvalid STANDARD_VECTOR_SIZE (size input) else mask
    | FLAT_VECTOR _ validity => validity
    | DICTIONARY_VECTOR _ _ _ =>
        let kdata := Orrify last_key (size keys) in
        foldl (fun m i =>
                 ValiditySet STANDARD_VECTOR_SIZE m i
                   (RowIsValid (vd_validity kdata) (get_index (vd_sel kdata) i)))
              mask (seq 0 (size input))
    end in
  let '(bool_result1, mask2) :=
    foldl (fun (st : list Z * ValidityMask) i =>
             let '(r, m) := st in
             let b := found_at (found_match ss) i in
             let r' := <[i := Z.b2z b]> r in
             let m1 :=
               if negb b && (count !!! i <? count_star !!! i)%Z
               then SetInvalid STANDARD_VECTOR_SIZE m i else m in
             let m2 := if decide (count_star !!! i = 0%Z) then SetValid m1 i else m1 in
             (r', m2))
          (bool_result, mask1) (seq 0 (size input)) in
  {| data := <[length columns - 1 := FLAT_VECTOR bool_result1 mask2]> columns;
     size := size input |}.

Definition NextMarkJoin (fuel : nat) (ht : JoinHashTable) (mem : Memory)
    (keys input result : DataChunk) (ss : ScanStructure) : option (ScanStructure * DataChunk) :=
  match ScanKeyMatches fuel ht mem keys ss with
  | None => None
  | Some ss1 =>
      let result' :=
        if decide (length (correlated_types (correlated_mark_join_info ht)) = 0)
        then ConstructMarkJoinResult ht ss1 keys input result
        else NextMarkJoin_correlated ht ss1 keys input result in
      Some (with_finished true ss1, result')
  end.

Definition NextLeftJoin (fuel : nat) (ht : JoinHashTable) (mem : Memory)
    (keys left result : DataChunk) (ss : ScanStructure)
    : option (ScanStructure * Memory * DataChunk) :=
  match NextInnerJoin fuel ht mem keys left result ss with
  | None => None
  | Some (ss1, mem1, result1) =>
      if decide (size result1 = 0) then
        (* fill in the result of the remaining left tuples *)
        let sel := select_found (found_match ss1) false (size left) in
        let remaining_count := length sel in
        let result2 :=
          if decide (0 < remaining_count) then
            let sliced := DataChunk_Slice result1 left sel remaining_count in
            {| data := take (ColumnCount left) (data sliced)
                         ++ ((fun _ => CONSTANT_VECTOR 0 true)
                               <$> drop (ColumnCount left) (data sliced));
               size := size sliced |}
          else result1 in
        Some (with_finished true ss1, mem1, result2)
      else Some (ss1, mem1, result1)
  end.

(** The loop of [NextSingleJoin]; [result_sel] collects the matched lanes. *)
Fixpoint NextSingleJoin_scan (fuel : nat) (ht : JoinHashTable) (mem : Memory) (keys : DataChunk)
    (ss : ScanStructure) (result_sel : list nat) : option (ScanStructure * list nat) :=
  if decide (0 < ss_count ss) then
    match fuel with
    | O => None
    | S fuel' =>
        let '(match_sel, no_match_sel) := ResolvePredicates ht mem keys ss in
        let match_count := length match_sel in
        let no_match_count := ss_count ss - match_count in
        let ss1 := with_found_match ((fun fm => mark_found fm match_sel) <$> found_match ss) ss in
        NextSingleJoin_scan fuel' ht mem keys
          (AdvancePointers ht mem (OtherSel no_match_sel) no_match_count ss1)
          (result_sel ++ match_sel)
    end
  else Some (ss, result_sel).

Definition NextSingleJoin (fuel : nat) (ht : JoinHashTable) (mem : Memory)
    (keys input result : DataChunk) (ss : ScanStructure) : option (ScanStructure * DataChunk) :=
  match NextSingleJoin_scan fuel ht mem keys ss [] with
  | None => None
  | Some (ss1, result_sel) =>
      let result_count := length result_sel in
      (* reference the columns of the left side from the result *)
      let columns := DataChunk_Reference result input in
      (* now fetch the data from the RHS *)
      let columns' :=
        gather_build_columns ht (ColumnCount input)
          (fun i vector =>
             let '(d, _) := SetVectorType_FLAT vector in
             let mask :=
               foldl (fun m j => SetValid m j) (SetAllInvalid STANDARD_VECTOR_SIZE (size input))
                     result_sel in
             GatherResult ht mem ss1 (FLAT_VECTOR d mask) (SelectionBuffer result_sel)
                          (SelectionBuffer result_sel) result_count
                          (i + length (condition_types ht)))
          columns in
      Some (with_finished true ss1, {| data := columns'; size := size input |})
  end.

(** [ScanStructure::Next]: the cursor, the row memory and the result chunk
    after the call. *)
Definition Next (fuel : nat) (ht : JoinHashTable) (mem : Memory) (keys left result : DataChunk)
    (ss : ScanStructure) : Outcome (ScanStructure * Memory * DataChunk) :=
  if finished ss then Returns (ss, mem, result)
  else
    match join_type ht with
    | INNER | RIGHT => of_fuel (NextInnerJoin fuel ht mem keys left result ss)
    | SEMI =>
        let* r := of_fuel (NextSemiJoin fuel ht mem keys left result ss) in
        Returns (fst r, mem, snd r)
    | MARK =>
        let* r := of_fuel (NextMarkJoin fuel ht mem keys left result ss) in
        Returns (fst r, mem, snd r)
    | ANTI =>
        let* r := of_fuel (NextAntiJoin fuel ht mem keys left result ss) in
        Returns (fst r, mem, snd r)
    | OUTER | LEFT => of_fuel (NextLeftJoin fuel ht mem keys left result ss)
    | SINGLE =>
        let* r := of_fuel (NextSingleJoin fuel ht mem keys left result ss) in
        Returns (fst r, mem, snd r)
    | INVALID => InternalException
    end.

(** ** [ScanFullOuter] *)

(** The inner loop over the rows of one block, [n] rows to go.  It stops
    early, one past the row just taken, when the output vector is full. *)
Fixpoint ScanFullOuter_block (ht : JoinHashTable) (mem : Memory) (baseptr : data_ptr_t)
    (n pos : nat) (key_locations : list data_ptr_t) (found_entries : nat)
    : nat * list data_ptr_t * nat :=
  match n with
  | O => (pos, key_locations, found_entries)
  | S n' =>
      let tuple_base := (baseptr + Z.of_nat pos * entry_size ht)%Z in
      let found := Load mem (tuple_base + tuple_size ht)%Z in
      if decide (found = 0%Z) then
        let key_locations' := <[found_entries := tuple_base]> key_locations in
        if decide (S found_entries = STANDARD_VECTOR_SIZE)
        then (S pos, key_locations', S found_entries)
        else ScanFullOuter_block ht mem baseptr n' (S pos) key_locations' (S found_entries)
      else ScanFullOuter_block ht mem baseptr n' (S pos) key_locations found_entries
  end.

(** The outer loop over the blocks, [n] blocks to go. *)
Fixpoint ScanFullOuter_blocks (ht : JoinHashTable) (mem : Memory) (n : nat)
    (state : JoinHTScanState) (key_locations : list data_ptr_t) (found_entries : nat)
    : JoinHTScanState * list data_ptr_t * nat :=
  match n with
  | O => (state, key_locations, found_entries)
  | S n' =>
      match blocks (block_collection ht) !! block_position state with
      | None => (state, key_locations, found_entries)
      | Some block =>
          let baseptr := pinned_handles ht !!! block_position state in
          let '(pos', key_locations', found_entries') :=
            ScanFullOuter_block ht mem baseptr (block_count block - position state)
                                (position state) key_locations found_entries in
          if decide (found_entries' = STANDARD_VECTOR_SIZE)
          then ({| position := pos'; block_position := block_position state |},
                key_locations', found_entries')
          else ScanFullOuter_blocks ht mem n'
                 {| position := 0; block_position := S (block_position state) |}
                 key_locations' found_entries'
      end
  end.

(** [ScanFullOuter] returns the result chunk, the scan state and the
    addresses vector. *)
Definition ScanFullOuter (ht : JoinHashTable) (mem : Memory) (result : DataChunk)
    (state : JoinHTScanState) (addresses : list data_ptr_t)
    : DataChunk * JoinHTScanState * list data_ptr_t :=
  let '(state', key_locations, found_entries) :=
    ScanFullOuter_blocks ht mem (length (blocks (block_collection ht)) - block_position state)
                         state addresses 0 in
  let result' :=
    if decide (0 < found_entries) then
      let left_column_count := ColumnCount result - length (build_types ht) in
      (* set the left side as a constant NULL *)
      let nulled :=
        ((fun _ => CONSTANT_VECTOR 0 true) <$> take left_column_count (data result))
          ++ drop left_column_count (data result) in
      (* gather the values from the RHS *)
      let columns :=
        gather_build_columns ht left_column_count
          (fun i vector =>
             let col_no := length (condition_types ht) + i in
             let col_offset := GetOffsets (layout ht) !!! col_no in
             Gather mem key_locations IncrementalSelectionVector vector
                    IncrementalSelectionVector found_entries col_offset col_no)
          nulled in
      {| data := columns; size := found_entries |}
    else {| data := data result; size := found_entries |} in
  (result', state', key_locations).

(** Modelled from the spec: once the probe side is exhausted the operator
    (outside the sources at hand) calls [ScanFullOuter] until it returns an
    empty chunk.  The chunks are collected with the addresses of their rows;
    [None] means that the fuel ran out. *)
Fixpoint ScanFullOuter_all (fuel : nat) (ht : JoinHashTable) (mem : Memory) (result : DataChunk)
    (state : JoinHTScanState)
    : option (list (DataChunk * list data_ptr_t)) :=
  match fuel with
  | O => None
  | S fuel' =>
      let '(chunk, state', addresses) :=
        ScanFullOuter ht mem result state (replicate STANDARD_VECTOR_SIZE 0%Z) in
      if decide (size chunk = 0) then Some []
      else
        match ScanFullOuter_all fuel' ht mem result state' with
        | None => None
        | Some chunks => Some ((chunk, take (size chunk) addresses) :: chunks)
        end
  end.

(** ** The assertions of the constructor *)



(** ** [FillWithHTOffsets] and [GetScanIndices] *)

(** The inner loop of [FillWithHTOffsets] over the rows of the block pinned
    at [base_ptr], [n] rows to go. *)
Fixpoint FillWithHTOffsets_block (ht : JoinHashTable) (base_ptr : data_ptr_t) (n pos : nat)
    (key_locations : list data_ptr_t) (key_count : nat) : nat * list data_ptr_t * nat :=
  match n with
  | O => (pos, key_locations, key_count)
  | S n' =>
      let tuple_base := (base_ptr + Z.of_nat pos * entry_size ht)%Z in
      (* store its locations *)
      FillWithHTOffsets_block ht base_ptr n' (S pos) (<[key_count := tuple_base]> key_locations)
                              (S key_count)
  end.

(** The outer loop over the blocks, [n] blocks to go. *)
Fixpoint FillWithHTOffsets_blocks (ht : JoinHashTable) (n : nat) (state : JoinHTScanState)
    (key_locations : list data_ptr_t) (key_count : nat)
    : JoinHTScanState * list data_ptr_t * nat :=
  match n with
  | O => (state, key_locations, key_count)
  | S n' =>
      match blocks (block_collection ht) !! block_position state with
      | None => (state, key_locations, key_count)
      | Some block =>
          let '(_, key_locations', key_count') :=
            FillWithHTOffsets_block ht (block_ptr block) (block_count block - position state)
                                    (position state) key_locations key_count in
          FillWithHTOffsets_blocks ht n'
            {| position := 0; block_position := S (block_position state) |}
            key_locations' key_count'
      end
  end.

(** [FillWithHTOffsets] returns [key_count], the array [key_locations] and
    the scan state. *)
Definition FillWithHTOffsets (ht : JoinHashTable) (key_locations : list data_ptr_t)
    (state : JoinHTScanState) : nat * list data_ptr_t * JoinHTScanState :=
  let '(state', key_locations', key_count) :=
    FillWithHTOffsets_blocks ht (length (blocks (block_collection ht)) - block_position state)
                             state key_locations 0 in
  (key_count, key_locations', state').

(** The loop of [GetScanIndices] over the blocks, [n] blocks to go. *)
Fixpoint GetScanIndices_blocks (ht : JoinHashTable) (n : nat) (state : JoinHTScanState)
    (count : nat) : JoinHTScanState * nat :=
  match n with
  | O => (state, count)
  | S n' =>
      match blocks (block_collection ht) !! block_position state with
      | None => (state, count)
      | Some block =>
          let next := block_count block `min` (STANDARD_VECTOR_SIZE - count) in
          let state1 :=
            {| position := position state + next; block_position := block_position state |} in
          let count1 := count + next in
          if decide (count1 = STANDARD_VECTOR_SIZE) then (state1, count1)
          else GetScanIndices_blocks ht n'
                 {| position := 0; block_position := S (block_position state) |} count1
      end
  end.

(** [GetScanIndices] returns the count, the outputs [position] and
    [block_position], and the scan state. *)
Definition GetScanIndices (ht : JoinHashTable) (state : JoinHTScanState)
    : nat * nat * nat * JoinHTScanState :=
  let '(state', count) :=
    GetScanIndices_blocks ht (length (blocks (block_collection ht)) - block_position state)
                          state 0 in
  (count, position state, block_position state, state').

(** ** [ConstructProbeChunk] *)

(** External collaborators of [ConstructProbeChunk]:
    [RowOperations::UnswizzlePointers] on the rows at an address against a
    heap block, and [DataChunk::Reset]. *)
Variable UnswizzlePointers : RowLayout -> data_ptr_t -> data_ptr_t -> nat -> Memory -> Memory.
Variable DataChunk_Reset : DataChunk -> DataChunk.



(** ** [CopyEmpty] and [MergeHistogram] *)

(** The conditions a table was built from; the table keeps them as the type
    and the comparison of every condition. *)
Definition conditions (ht : JoinHashTable) : list JoinCondition :=
  zip_with (fun type comparison => {| return_type := type; comparison := comparison |})
           (condition_types ht) (predicates ht).

(** [CopyEmpty]: a new table from the conditions, the build types and the
    join type of this one. *)
Definition CopyEmpty (ht : JoinHashTable) : JoinHashTable :=
  JoinHashTable_new (conditions ht) (build_types ht) (join_type ht).

(** Modelled from the spec: a histogram has [2^r] counters, one for each radix
    partition, [r] being the initial number of radix bits. *)
Definition NUM_PARTITIONS : nat := Z.to_nat (2 ^ INITIAL_RADIX_BITS).

(** [MergeHistogram]: [histogram[i] += other_hist[i]] for every partition. *)
Definition MergeHistogram (ht other : JoinHashTable) : JoinHashTable :=
  with_histogram_ptr
    (foldl (fun histogram i => <[i := wrap64 (histogram !!! i + histogram_ptr other !!! i)]> histogram)
           (histogram_ptr ht) (seq 0 NUM_PARTITIONS))
    ht.

(** ** The external build *)

(** Modelled from the spec: [RowDataCollection::Clear] leaves a collection
    without blocks and rows, and [RowDataCollection::Merge] moves all blocks
    from [other] into this collection, with their rows; [other] is empty on
    return.  The spec is silent on the block capacity and the entry size of
    the two collections, which are kept.  [RowDataCollection_Merge] returns
    this collection and the other. *)
Definition RowDataCollection_Clear (collection : RowDataCollection) : RowDataCollection :=
  {| blocks := []; rdc_count := 0; block_capacity := block_capacity collection;
     rdc_entry_size := rdc_entry_size collection |}.

Definition RowDataCollection_Merge (this other : RowDataCollection)
    : RowDataCollection * RowDataCollection :=
  ({| blocks := blocks this ++ blocks other; rdc_count := rdc_count this + rdc_count other;
      block_capacity := block_capacity this; rdc_entry_size := rdc_entry_size this |},
   RowDataCollection_Clear other).

(** A table with the members that only the external build uses: the
    swizzled collections, the collections of the partitions, and
    [string_heap->pinned_blocks], the handles of the heap blocks. *)
Record ExternalJoinHashTable := {
  table : JoinHashTable;
  swizzled_block_collection : RowDataCollection;
  swizzled_string_heap : RowDataCollection;
  partition_block_collections : list RowDataCollection;
  partition_string_heaps : list RowDataCollection;
  string_heap_pinned_blocks : list data_ptr_t
}.

Definition with_table (ht : JoinHashTable) (ext : ExternalJoinHashTable)
    : ExternalJoinHashTable :=
  {| table := ht; swizzled_block_collection := swizzled_block_collection ext;
     swizzled_string_heap := swizzled_string_heap ext;
     partition_block_collections := partition_block_collections ext;
     partition_string_heaps := partition_string_heaps ext;
     string_heap_pinned_blocks := string_heap_pinned_blocks ext |}.

Definition with_swizzled_block_collection (collection : RowDataCollection)
    (ext : ExternalJoinHashTable) : ExternalJoinHashTable :=
  {| table := table ext; swizzled_block_collection := collection;
     swizzled_string_heap := swizzled_string_heap ext;
     partition_block_collections := partition_block_collections ext;
     partition_string_heaps := partition_string_heaps ext;
     string_heap_pinned_blocks := string_heap_pinned_blocks ext |}.

Definition with_swizzled_string_heap (collection : RowDataCollection)
    (ext : ExternalJoinHashTable) : ExternalJoinHashTable :=
  {| table := table ext; swizzled_block_collection := swizzled_block_collection ext;
     swizzled_string_heap := collection;
     partition_block_collections := partition_block_collections ext;
     partition_string_heaps := partition_string_heaps ext;
     string_heap_pinned_blocks := string_heap_pinned_blocks ext |}.

Definition with_partition_block_collections (collections : list RowDataCollection)
    (ext : ExternalJoinHashTable) : ExternalJoinHashTable :=
  {| table := table ext; swizzled_block_collection := swizzled_block_collection ext;
     swizzled_string_heap := swizzled_string_heap ext;
     partition_block_collections := collections;
     partition_string_heaps := partition_string_heaps ext;
     string_heap_pinned_blocks := string_heap_pinned_blocks ext |}.

Definition with_partition_string_heaps (collections : list RowDataCollection)
    (ext : ExternalJoinHashTable) : ExternalJoinHashTable :=
  {| table := table ext; swizzled_block_collection := swizzled_block_collection ext;
     swizzled_string_heap := swizzled_string_heap ext;
     partition_block_collections := partition_block_collections ext;
     partition_string_heaps := collections;
     string_heap_pinned_blocks := string_heap_pinned_blocks ext |}.

Definition with_string_heap_pinned_blocks (handles : list data_ptr_t)
    (ext : ExternalJoinHashTable) : ExternalJoinHashTable :=
  {| table := table ext; swizzled_block_collection := swizzled_block_collection ext;
     swizzled_string_heap := swizzled_string_heap ext;
     partition_block_collections := partition_block_collections ext;
     partition_string_heaps := partition_string_heaps ext;
     string_heap_pinned_blocks := handles |}.

Definition with_block_collection (collection : RowDataCollection) (ht : JoinHashTable)
    : JoinHashTable :=
  with_collections collection (string_heap ht) ht.

Definition with_string_heap (collection : RowDataCollection) (ht : JoinHashTable)
    : JoinHashTable :=
  with_collections (block_collection ht) collection ht.

(** One round of the loop of [PinPartitions], for the partition [idx].
    [None] stands for an access past the end of a vector, which the source
    leaves undefined. *)
Definition PinPartitions_partition (ext : ExternalJoinHashTable) (idx : nat)
    : option ExternalJoinHashTable :=
  match partition_block_collections ext !! idx with
  | None => None
  | Some partition =>
      let '(merged, emptied) :=
        RowDataCollection_Merge (swizzled_block_collection ext) partition in
      let ext1 :=
        with_partition_block_collections (<[idx := emptied]> (partition_block_collections ext))
          (with_swizzled_block_collection merged ext) in
      if negb (AllConstant (layout (table ext1)))
      then
        match partition_string_heaps ext1 !! idx with
        | None => None
        | Some heap =>
            let '(merged_heap, emptied_heap) :=
              RowDataCollection_Merge (swizzled_string_heap ext1) heap in
            Some (with_partition_string_heaps
                    (<[idx := emptied_heap]> (partition_string_heaps ext1))
                    (with_swizzled_string_heap merged_heap ext1))
        end
      else Some ext1
  end.

Fixpoint PinPartitions_loop (ext : ExternalJoinHashTable) (indices : list nat)
    : option ExternalJoinHashTable :=
  match indices with
  | [] => Some ext
  | idx :: rest =>
      match PinPartitions_partition ext idx with
      | None => None
      | Some ext' => PinPartitions_loop ext' rest
      end
  end.

Definition PinPartitions (ext : ExternalJoinHashTable) : option ExternalJoinHashTable :=
  PinPartitions_loop ext (seq 0 (length (partition_block_collections ext))).

(** [blocks.push_back]. *)
Definition push_block (block : RowDataBlock) (collection : RowDataCollection)
    : RowDataCollection :=
  {| blocks := blocks collection ++ [block]; rdc_count := rdc_count collection;
     block_capacity := block_capacity collection;
     rdc_entry_size := rdc_entry_size collection |}.

Definition with_rdc_count (count : nat) (collection : RowDataCollection)
    : RowDataCollection :=
  {| blocks := blocks collection; rdc_count := count;
     block_capacity := block_capacity collection;
     rdc_entry_size := rdc_entry_size collection |}.

(** One round of the loop of [UnswizzleBlocks], for the block [block_idx] of
    the swizzled collection, on the table and the row memory.  The blocks
    that the loop moves out of the swizzled collections stay listed there
    until [Clear]. *)
Definition UnswizzleBlocks_block (st : ExternalJoinHashTable * Memory) (block_idx : nat)
    : option (ExternalJoinHashTable * Memory) :=
  let '(ext, mem) := st in
  match blocks (swizzled_block_collection ext) !! block_idx with
  | None => None
  | Some data_block =>
      let moved :=
        if negb (AllConstant (layout (table ext)))
        then
          match blocks (swizzled_string_heap ext) !! block_idx with
          | None => None
          | Some heap_block =>
              (* Unswizzle and move *)
              let mem' :=
                UnswizzlePointers (layout (table ext)) (block_ptr data_block)
                                  (block_ptr heap_block) (block_count data_block) mem in
              Some (with_string_heap_pinned_blocks
                      (string_heap_pinned_blocks ext ++ [block_ptr heap_block])
                      (with_table
                         (with_string_heap (push_block heap_block (string_heap (table ext)))
                                           (table ext))
                         ext),
                    mem')
          end
        else Some (ext, mem) in
      match moved with
      | None => None
      | Some (ext1, mem1) =>
          (* Fixed size stuff can just be moved *)
          Some (with_table
                  (with_block_collection
                     (push_block data_block (block_collection (table ext1))) (table ext1))
                  ext1,
                mem1)
      end
  end.

Fixpoint UnswizzleBlocks_loop (st : ExternalJoinHashTable * Memory) (indices : list nat)
    : option (ExternalJoinHashTable * Memory) :=
  match indices with
  | [] => Some st
  | block_idx :: rest =>
      match UnswizzleBlocks_block st block_idx with
      | None => None
      | Some st' => UnswizzleBlocks_loop st' rest
      end
  end.

(** [UnswizzleBlocks].  With [debug] the assertion of the source is checked,
    and [None] also stands for its failure. *)
Definition UnswizzleBlocks (debug : bool) (ext : ExternalJoinHashTable) (mem : Memory)
    : option (ExternalJoinHashTable * Memory) :=
  if debug && negb (bool_decide (length (blocks (swizzled_block_collection ext))
                                 = length (blocks (swizzled_string_heap ext))))
  then None
  else
    match UnswizzleBlocks_loop (ext, mem)
                               (seq 0 (length (blocks (swizzled_block_collection ext)))) with
    | None => None
    | Some (ext1, mem1) =>
        (* Update counts and clean up *)
        let ht1 :=
          with_block_collection
            (with_rdc_count (rdc_count (swizzled_block_collection ext1))
                            (block_collection (table ext1)))
            (table ext1) in
        let ht2 :=
          with_string_heap
            (with_rdc_count (rdc_count (swizzled_string_heap ext1)) (string_heap ht1)) ht1 in
        let ext2 := with_table ht2 ext1 in
        let ext3 :=
          with_swizzled_block_collection
            (RowDataCollection_Clear (swizzled_block_collection ext2)) ext2 in
        Some (with_swizzled_string_heap
                (RowDataCollection_Clear (swizzled_string_heap ext3)) ext3,
              mem1)
    end.

(** [FinalizeExternal]. *)
Definition FinalizeExternal (debug : bool) (ext : ExternalJoinHashTable) (mem : Memory)
    : option (ExternalJoinHashTable * Memory) :=
  if finalized (table ext) then Some (ext, mem)
  else
    match PinPartitions ext with
    | None => None
    | Some ext1 =>
        match UnswizzleBlocks debug ext1 mem with
        | None => None
        | Some (ext2, mem2) =>
            match Finalize (table ext2) mem2 with
            | None => None
            | Some (ht', mem') => Some (with_table ht' ext2, mem')
            end
        end
    end.

(** The first loop of [JoinHashTable::Merge], over the partitions of the
    other table, for a table without partitions: the state is this table. *)
Definition Merge_move_partition (other : ExternalJoinHashTable) (this : ExternalJoinHashTable)
    (idx : nat) : option ExternalJoinHashTable :=
  match partition_block_collections other !! idx with
  | None => None
  | Some partition =>
      let this1 :=
        with_partition_block_collections (partition_block_collections this ++ [partition])
                                         this in
      if negb (AllConstant (layout (table this1)))
      then
        match partition_string_heaps other !! idx with
        | None => None
        | Some heap =>
            Some (with_partition_string_heaps (partition_string_heaps this1 ++ [heap]) this1)
        end
      else Some this1
  end.

(** The second loop, partition by partition: the state is this table and the
    other one. *)
Definition Merge_merge_partition (st : ExternalJoinHashTable * ExternalJoinHashTable)
    (idx : nat) : option (ExternalJoinHashTable * ExternalJoinHashTable) :=
  let '(this, other) := st in
  match partition_block_collections this !! idx, partition_block_collections other !! idx with
  | Some mine, Some theirs =>
      let '(merged, emptied) := RowDataCollection_Merge mine theirs in
      let this1 :=
        with_partition_block_collections (<[idx := merged]> (partition_block_collections this))
                                         this in
      let other1 :=
        with_partition_block_collections
          (<[idx := emptied]> (partition_block_collections other)) other in
      if negb (AllConstant (layout (table this1)))
      then
        match partition_string_heaps this1 !! idx, partition_string_heaps other1 !! idx with
        | Some my_heap, Some their_heap =>
            let '(merged_heap, emptied_heap) := RowDataCollection_Merge my_heap their_heap in
            Some (with_partition_string_heaps
                    (<[idx := merged_heap]> (partition_string_heaps this1)) this1,
                  with_partition_string_heaps
                    (<[idx := emptied_heap]> (partition_string_heaps other1)) other1)
        | _, _ => None
        end
      else Some (this1, other1)
  | _, _ => None
  end.

Fixpoint Merge_move_loop (other this : ExternalJoinHashTable) (indices : list nat)
    : option ExternalJoinHashTable :=
  match indices with
  | [] => Some this
  | idx :: rest =>
      match Merge_move_partition other this idx with
      | None => None
      | Some this' => Merge_move_loop other this' rest
      end
  end.

Fixpoint Merge_merge_loop (st : ExternalJoinHashTable * ExternalJoinHashTable)
    (indices : list nat) : option (ExternalJoinHashTable * ExternalJoinHashTable) :=
  match indices with
  | [] => Some st
  | idx :: rest =>
      match Merge_merge_partition st idx with
      | None => None
      | Some st' => Merge_merge_loop st' rest
      end
  end.

(** The four collections of [JoinHashTable::Merge]. *)
Definition Merge_collections (this other : ExternalJoinHashTable)
    : ExternalJoinHashTable * ExternalJoinHashTable :=
  let '(bc, other_bc) :=
    RowDataCollection_Merge (block_collection (table this)) (block_collection (table other)) in
  let this1 := with_table (with_block_collection bc (table this)) this in
  let other1 := with_table (with_block_collection other_bc (table other)) other in
  let '(sbc, other_sbc) :=
    RowDataCollection_Merge (swizzled_block_collection this1)
                            (swizzled_block_collection other1) in
  let this2 := with_swizzled_block_collection sbc this1 in
  let other2 := with_swizzled_block_collection other_sbc other1 in
  if negb (AllConstant (layout (table this2)))
  then
    let '(sh, other_sh) :=
      RowDataCollection_Merge (string_heap (table this2)) (string_heap (table other2)) in
    let this3 := with_table (with_string_heap sh (table this2)) this2 in
    let other3 := with_table (with_string_heap other_sh (table other2)) other2 in
    let '(ssh, other_ssh) :=
      RowDataCollection_Merge (swizzled_string_heap this3) (swizzled_string_heap other3) in
    (with_swizzled_string_heap ssh this3, with_swizzled_string_heap other_ssh other3)
  else (this2, other2).

(** [JoinHashTable::Merge] returns this table and the other one.  With
    [debug] the assertions of the source are checked; [None] stands for a
    failed assertion or an access past the end of a vector. *)
Definition Merge (debug : bool) (this other : ExternalJoinHashTable)
    : option (ExternalJoinHashTable * ExternalJoinHashTable) :=
  let '(this1, other1) := Merge_collections this other in
  let indices := seq 0 (length (partition_block_collections other1)) in
  if bool_decide (partition_block_collections this1 = [])
  then
    if debug && negb (bool_decide (partition_string_heaps this1 = [])) then None
    else
      match Merge_move_loop other1 this1 indices with
      | None => None
      | Some this2 =>
          Some (this2,
                with_partition_string_heaps []
                  (with_partition_block_collections [] other1))
      end
  else
    (* Should have same number of partitions *)
    if debug
       && negb (bool_decide (length (partition_block_collections this1)
                             = length (partition_block_collections other1))
                && bool_decide (length (partition_string_heaps this1)
                                = length (partition_string_heaps other1)))
    then None
    else Merge_merge_loop (this1, other1) indices.

(** * The vocabulary of the properties *)

(** ** The shape of a table *)

(** What [Finalize] keeps of the table it was given. *)
Definition same_shape (ht ht' : JoinHashTable) : Prop :=
  bitmask ht' = bitmask ht /\ length (hash_map ht') = length (hash_map ht)
  /\ entry_size ht' = entry_size ht /\ pointer_offset ht' = pointer_offset ht
  /\ block_collection ht' = block_collection ht.

(** ** Key preparation *)

(** The lanes a selection argument denotes: its first [n] entries. *)
Definition sel_lanes (sel : SelArg) (target : list nat) (n : nat) : list nat :=
  sel_read sel target <$> seq 0 n.

(** The key of lane [idx] in a column is not null. *)
Definition key_is_valid (vdata : VectorData) (idx : nat) : bool :=
  RowIsValid (vd_validity vdata) (get_index (vd_sel vdata) idx).

(** Row [r] has a null in one of the key columns, counted from column [i],
    whose null-equals flag is false. *)
Fixpoint null_in_keys (nulls_equal : list bool) (key_data : list VectorData) (i r : nat) : bool :=
  match key_data with
  | [] => false
  | vdata :: rest =>
      (negb (nulls_equal !!! i) && vd_is_null vdata r) || null_in_keys nulls_equal rest (S i) r
  end.

(** The lanes that survive key preparation of a whole chunk. *)
Definition surviving_rows (ht : JoinHashTable) (keys : DataChunk) : list nat :=
  List.filter (fun r => negb (null_in_keys (null_values_are_equal ht) (DataChunk_Orrify keys) 0 r))
              (seq 0 (size keys)).

(** A row of the batch is dropped by the key preparation of [Build]. *)
Definition batch_drops_row (ht : JoinHashTable) (keys : DataChunk) : bool :=
  negb (IsRightOuterJoin (join_type ht))
  && existsb (null_in_keys (null_values_are_equal ht) (DataChunk_Orrify keys) 0)
             (seq 0 (size keys)).

(** Row [r] of the batch is dropped by key preparation: the join keeps no
    null build rows, and the row has a null in a column of the key chunk whose
    null-equals flag is false.  Every condition, equality or not, has its
    column in the key chunk. *)
Definition row_dropped (ht : JoinHashTable) (keys : DataChunk) (r : nat) : Prop :=
  IsRightOuterJoin (join_type ht) = false
  /\ r < size keys
  /\ exists c vdata, DataChunk_Orrify keys !! c = Some vdata
                     /\ null_values_are_equal ht !!! c = false
                     /\ vd_is_null vdata r = true.

(** The same, with the column among the equality columns, which come first. *)
Definition row_dropped_on_equality_key (ht : JoinHashTable) (keys : DataChunk) (r : nat) : Prop :=
  IsRightOuterJoin (join_type ht) = false
  /\ r < size keys
  /\ exists c vdata, c < length (equality_types ht)
                     /\ DataChunk_Orrify keys !! c = Some vdata
                     /\ null_values_are_equal ht !!! c = false
                     /\ vd_is_null vdata r = true.

(** ** Chains and live lanes *)

(** The chain that starts at [p] reaches the null pointer in at most [d]
    loads of a next pointer. *)
Fixpoint chain_within (ht : JoinHashTable) (mem : Memory) (d : nat) (p : data_ptr_t) : bool :=
  if decide (p = nullptr) then true
  else
    match d with
    | O => false
    | S d' => chain_within ht mem d' (Load mem (p + pointer_offset ht)%Z)
    end.

(** The next pointer of the row a lane points at is not null. *)
Definition lane_survives (ht : JoinHashTable) (mem : Memory) (ptrs : list data_ptr_t)
    (idx : nat) : bool :=
  bool_decide (Load mem (ptrs !!! idx + pointer_offset ht)%Z <> nullptr).

(** The lanes that the cursor still follows. *)
Definition live_lanes (ss : ScanStructure) : list nat := take (ss_count ss) (sel_vector ss).

(** The live lanes are distinct, and each points at a row whose chain ends
    within [d] loads. *)
Definition chains_within (ht : JoinHashTable) (mem : Memory) (d : nat) (ss : ScanStructure)
    : Prop :=
  ss_count ss <= length (sel_vector ss)
  /\ NoDup (live_lanes ss)
  /\ forall idx, idx ∈ live_lanes ss ->
       idx < length (pointers ss) /\ pointers ss !!! idx <> nullptr
       /\ chain_within ht mem d (pointers ss !!! idx) = true.

(** [n] calls of [AdvancePointers()] in a row. *)
Fixpoint advance_live (ht : JoinHashTable) (mem : Memory) (n : nat) (ss : ScanStructure)
    : ScanStructure :=
  match n with
  | O => ss
  | S n' => advance_live ht mem n' (AdvancePointers_live ht mem ss)
  end.

(** The join kinds that complete a probe batch in one call of [Next]. *)
Definition single_pass (type : JoinType) : bool :=
  match type with
  | SEMI | ANTI | MARK | SINGLE => true
  | _ => false
  end.

(** ** The chains of the hash map *)

(** The rows met by following the next pointers from [p] until the null
    pointer; [None] when [fuel] loads do not reach it. *)
Fixpoint chain_walk (offset : Z) (mem : Memory) (fuel : nat) (p : data_ptr_t)
    : option (list data_ptr_t) :=
  if decide (p = nullptr) then Some []
  else
    match fuel with
    | O => None
    | S fuel' => cons p <$> chain_walk offset mem fuel' (Load mem (p + offset)%Z)
    end.

(** One push: the head of the slot goes to the next-pointer slot of the
    row, and the row becomes the head. *)
Definition push_row (offset : Z) (st : list data_ptr_t * Memory) (row : nat * data_ptr_t)
    : list data_ptr_t * Memory :=
  (<[fst row := snd row]> (fst st),
   Store (fst st !!! fst row) (snd row + offset)%Z (snd st)).

(** The table after the rows [rows], given as pairs of a slot and an
    address, were pushed one after the other. *)
Definition push_rows (offset : Z) (rows : list (nat * data_ptr_t))
    (st : list data_ptr_t * Memory) : list data_ptr_t * Memory :=
  foldl (push_row offset) st rows.

(** The addresses of the rows of slot [s], in the order of [rows]. *)
Definition rows_of_slot (rows : list (nat * data_ptr_t)) (s : nat) : list data_ptr_t :=
  snd <$> List.filter (fun row => bool_decide (fst row = s)) rows.

(** Every slot heads the chain [chains s]. *)
Definition heads_chains (offset : Z) (pointers : list data_ptr_t) (mem : Memory)
    (chains : nat -> list data_ptr_t) : Prop :=
  forall s, s < length pointers ->
            chain_walk offset mem (length (chains s)) (pointers !!! s) = Some (chains s).

(** [hash & bitmask], as an index into the hash map. *)
Definition slot_of (ht : JoinHashTable) (hash : hash_t) : nat :=
  Z.to_nat (Z.land hash (bitmask ht)).

(** The address of row [k] of a block. *)
Definition row_addr (ht : JoinHashTable) (block : RowDataBlock) (k : nat) : data_ptr_t :=
  (block_ptr block + Z.of_nat k * entry_size ht)%Z.

(** The rows [entry .. entry + n - 1] of a block: the slot given by the hash
    that [mem] holds for the row, and the address of the row. *)
Definition block_rows (ht : JoinHashTable) (mem : Memory) (block : RowDataBlock) (entry n : nat)
    : list (nat * data_ptr_t) :=
  (fun k => (slot_of ht (Load mem (row_addr ht block k + pointer_offset ht)%Z),
             row_addr ht block k)) <$> seq entry n.

(** The rows of a list of blocks and of the whole table, in the order in
    which [Finalize] inserts them. *)
Definition blocks_rows (ht : JoinHashTable) (mem : Memory) (bs : list RowDataBlock)
    : list (nat * data_ptr_t) :=
  concat ((fun block => block_rows ht mem block 0 (block_count block)) <$> bs).

Definition table_rows (ht : JoinHashTable) (mem : Memory) : list (nat * data_ptr_t) :=
  blocks_rows ht mem (blocks (block_collection ht)).

(** ** The scan for unmatched build rows *)

(** The found flag of the row at [addr] is false. *)
Definition unfound (ht : JoinHashTable) (mem : Memory) (addr : data_ptr_t) : bool :=
  bool_decide (Load mem (addr + tuple_size ht)%Z = 0%Z).

(** The addresses of the rows [pos .. pos + n - 1] of the block at [baseptr]. *)
Definition scan_block_rows (ht : JoinHashTable) (baseptr : data_ptr_t) (pos n : nat)
    : list data_ptr_t :=
  (fun k => (baseptr + Z.of_nat k * entry_size ht)%Z) <$> seq pos n.

(** The rows still to visit from row [pos] of block [bp], [n] blocks to go. *)
Fixpoint scan_rows (ht : JoinHashTable) (n bp pos : nat) : list data_ptr_t :=
  match n with
  | O => []
  | S n' =>
      match blocks (block_collection ht) !! bp with
      | None => []
      | Some block =>
          scan_block_rows ht (pinned_handles ht !!! bp) pos (block_count block - pos)
            ++ scan_rows ht n' (S bp) 0
      end
  end.

(** The rows still to visit from a scan state, and those of them that no
    probe row has matched. *)
Definition rows_to_scan (ht : JoinHashTable) (state : JoinHTScanState) : list data_ptr_t :=
  scan_rows ht (length (blocks (block_collection ht)) - block_position state)
            (block_position state) (position state).

Definition unmatched_rows (ht : JoinHashTable) (mem : Memory) (state : JoinHTScanState)
    : list data_ptr_t :=
  List.filter (unfound ht mem) (rows_to_scan ht state).

(** The columns of a chunk that [ScanFullOuter] emits: the probe side is a
    constant NULL, and the build side is gathered from the rows at
    [key_locations]. *)
Definition full_outer_columns (ht : JoinHashTable) (mem : Memory) (result chunk : DataChunk)
    (key_locations : list data_ptr_t) : Prop :=
  let left_column_count := ColumnCount result - length (build_types ht) in
  ColumnCount chunk = ColumnCount result
  /\ (forall i, i < left_column_count -> data chunk !! i = Some (CONSTANT_VECTOR 0 true))
  /\ (forall i vector,
        i < length (build_types ht) ->
        data result !! (left_column_count + i) = Some vector ->
        data chunk !! (left_column_count + i)
        = Some (Gather mem key_locations IncrementalSelectionVector vector
                       IncrementalSelectionVector (size chunk)
                       (GetOffsets (layout ht) !!! (length (condition_types ht) + i))
                       (length (condition_types ht) + i))).

(** ** Empty tables and validity masks *)

(** Every slot of the hash map is null, also when read out of range. *)
Definition all_slots_null (ht : JoinHashTable) : Prop :=
  forall slot, hash_map ht !!! slot = nullptr.

(** A mask is without a buffer, or its buffer covers a whole vector. *)
Definition mask_covers (mask : ValidityMask) : Prop :=
  match mask with
  | None => True
  | Some bits => STANDARD_VECTOR_SIZE <= length bits
  end.

(** ** Probing *)

(** The hash of the equality keys of a probe row, its slot in the hash map
    and the head of the chain of that slot. *)
Definition lane_hash (ht : JoinHashTable) (keys : DataChunk) (idx : nat) : hash_t :=
  HashOp keys (length (equality_types ht)) idx.

Definition lane_slot (ht : JoinHashTable) (keys : DataChunk) (idx : nat) : nat :=
  slot_of ht (lane_hash ht keys idx).

Definition lane_head (ht : JoinHashTable) (keys : DataChunk) (idx : nat) : data_ptr_t :=
  hash_map ht !!! lane_slot ht keys idx.

(** The slot a lane points at holds a row. *)
Definition slot_occupied (ht : JoinHashTable) (ptrs : list data_ptr_t) (idx : nat) : bool :=
  bool_decide (hash_map ht !!! Z.to_nat (ptrs !!! idx) <> nullptr).

(** ** Matching rows *)

(** Whether the build row at an address satisfies every join predicate
    against the keys of a probe row: what [RowOperations::Match] decides for
    one lane. *)
Variable row_matches : JoinHashTable -> DataChunk -> Memory -> data_ptr_t -> nat -> bool.

(** Some row on the chain that starts at [p], within [d] loads, matches the
    probe row [idx]. *)
Fixpoint chain_matches (ht : JoinHashTable) (keys : DataChunk) (mem : Memory) (d : nat)
    (p : data_ptr_t) (idx : nat) : bool :=
  if decide (p = nullptr) then false
  else
    match d with
    | O => false
    | S d' =>
        row_matches ht keys mem p idx
        || chain_matches ht keys mem d' (Load mem (p + pointer_offset ht)%Z) idx
    end.

(** The probe row [idx] is followed by the cursor and has a matching row on
    its chain. *)
Definition lane_finds_match (ht : JoinHashTable) (keys : DataChunk) (mem : Memory) (d : nat)
    (ss : ScanStructure) (idx : nat) : bool :=
  bool_decide (idx ∈ live_lanes ss) && chain_matches ht keys mem d (pointers ss !!! idx) idx.

(** The live lanes whose current row satisfies the join predicates. *)
Definition matching_lanes (ht : JoinHashTable) (keys : DataChunk) (mem : Memory)
    (ss : ScanStructure) : list nat :=
  List.filter (fun idx => row_matches ht keys mem (pointers ss !!! idx) idx) (live_lanes ss).

(** The cursor with the match flags of the lanes [rv] set. *)
Definition with_matches_found (rv : list nat) (ss : ScanStructure) : ScanStructure :=
  with_found_match ((fun fm => mark_found fm rv) <$> found_match ss) ss.

(** The row memory once the found flag of the rows of the lanes [rv] is set:
    [Store<bool>(true, ptrs[idx] + tuple_size)], for a right or full outer
    join only. *)
Definition mark_rows_found (ht : JoinHashTable) (ptrs : list data_ptr_t) (rv : list nat)
    (mem : Memory) : Memory :=
  if IsRightOuterJoin (join_type ht)
  then foldl (fun m idx => Store 1 (ptrs !!! idx + tuple_size ht)%Z m) mem rv
  else mem.

(** ** The mark of a mark join *)

(** The last key column, counted from column [col_idx], whose null-equals
    flag is false and that carries a validity buffer. *)
Fixpoint last_nullable_key (nulls_equal : list bool) (columns : list Vector) (col_idx n : nat)
    : option VectorData :=
  match columns with
  | [] => None
  | column :: rest =>
      match last_nullable_key nulls_equal rest (S col_idx) n with
      | Some jdata => Some jdata
      | None =>
          if negb (nulls_equal !!! col_idx) && negb (AllValid (vd_validity (Orrify column n)))
          then Some (Orrify column n) else None
      end
  end.

(** ** Scans over the blocks *)

(** The addresses of the rows of a block from row [pos] on, and of the rows
    of a list of blocks from row [pos] of the first block on. *)
Definition block_addresses (ht : JoinHashTable) (block : RowDataBlock) (pos : nat)
    : list data_ptr_t :=
  row_addr ht block <$> seq pos (block_count block - pos).

Fixpoint addresses_from (ht : JoinHashTable) (bs : list RowDataBlock) (pos : nat)
    : list data_ptr_t :=
  match bs with
  | [] => []
  | block :: rest => block_addresses ht block pos ++ addresses_from ht rest 0
  end.

(** The rows of the table from a scan state on. *)
Definition addresses_from_state (ht : JoinHashTable) (state : JoinHTScanState)
    : list data_ptr_t :=
  addresses_from ht (drop (block_position state) (blocks (block_collection ht))) (position state).

(** The number of rows that the blocks from a scan state on hold. *)
Definition rows_in_blocks_from (ht : JoinHashTable) (state : JoinHTScanState) : nat :=
  sum_list (block_count <$> drop (block_position state) (blocks (block_collection ht))).

(** The collection with the blocks [moved] appended and its count kept. *)
Definition append_blocks (moved : list RowDataBlock) (collection : RowDataCollection)
    : RowDataCollection :=
  {| blocks := blocks collection ++ moved; rdc_count := rdc_count collection;
     block_capacity := block_capacity collection;
     rdc_entry_size := rdc_entry_size collection |}.

(** The row memory after [UnswizzlePointers] on each pair of a data block
    and its heap block, in order. *)
Definition unswizzle_all (row_layout : RowLayout) (mem : Memory)
    (pairs : list (RowDataBlock * RowDataBlock)) : Memory :=
  foldl (fun m pair =>
           UnswizzlePointers row_layout (block_ptr (fst pair)) (block_ptr (snd pair))
                             (block_count (fst pair)) m)
        mem pairs.

(** The table after the data blocks [moved] and the heap blocks
    [moved_heap] went to its collections, the heap blocks pinned. *)
Definition with_moved_blocks (moved moved_heap : list RowDataBlock)
    (ext : ExternalJoinHashTable) : ExternalJoinHashTable :=
  with_string_heap_pinned_blocks
    (string_heap_pinned_blocks ext ++ (block_ptr <$> moved_heap))
    (with_table
       (with_collections (append_blocks moved (block_collection (table ext)))
                         (append_blocks moved_heap (string_heap (table ext)))
                         (table ext))
       ext).

(** The heap blocks that [UnswizzleBlocks] moves: none with a layout of
    constant size, else one for each data block. *)
Definition moved_heap_blocks (ext : ExternalJoinHashTable) : list RowDataBlock :=
  if AllConstant (layout (table ext)) then []
  else take (length (blocks (swizzled_block_collection ext)))
            (blocks (swizzled_string_heap ext)).

(** The table that [FinalizeExternal] hands to [Finalize] when the layout
    has constant size: the blocks of the table, of the swizzled collection
    and of every partition, and the rows of the swizzled collection and of
    the partitions. *)
Definition table_of_all_blocks (ext : ExternalJoinHashTable) : JoinHashTable :=
  with_collections
    {| blocks := blocks (block_collection (table ext))
                 ++ blocks (swizzled_block_collection ext)
                 ++ concat (blocks <$> partition_block_collections ext);
       rdc_count := rdc_count (swizzled_block_collection ext)
                    + sum_list (rdc_count <$> partition_block_collections ext);
       block_capacity := block_capacity (block_collection (table ext));
       rdc_entry_size := rdc_entry_size (block_collection (table ext)) |}
    (with_rdc_count (rdc_count (swizzled_string_heap ext)) (string_heap (table ext)))
    (table ext).

(** The rows that the partitions of a table hold. *)
Definition partition_rows (ext : ExternalJoinHashTable) : nat :=
  sum_list (rdc_count <$> partition_block_collections ext).

(** The partition [idx] exists and holds neither blocks nor rows. *)
Definition partition_empty (ext : ExternalJoinHashTable) (idx : nat) : Prop :=
  exists collection,
    partition_block_collections ext !! idx = Some collection
    /\ blocks collection = [] /\ rdc_count collection = 0.

(** * Properties *)

(** ** [Build] on an empty chunk *)

(** C10: [Build] with a keys chunk of size zero returns at once and leaves
    the hash table (block collection, string heap, histogram, [has_null]) and
    the row memory as they were. *)
Theorem Build_size_zero_is_noop (ht : JoinHashTable) (mem : Memory) (keys payload : DataChunk) :
  size keys = 0 -> Build ht mem keys payload = (ht, mem).
Proof.
  intros Hsize. unfold Build.
  destruct (decide (size keys = 0)) as [_ | Hne]; [reflexivity | contradiction].
Qed.

(** ** The histogram is never reduced *)

Lemma ReduceHistogram_loop_stub fuel avg_row_size ht :
  ReduceHistogram_loop PartitionsFitInMemory (S fuel) avg_row_size ht = Some ht.
Proof.
  cbn [ReduceHistogram_loop]. destruct (decide (1 < current_radix_bits ht)%Z); reflexivity.
Qed.

(** With the fit check of the source the loop stops in its first round. *)
Lemma ReduceHistogram_keeps_histogram fuel avg_string_size ht :
  ReduceHistogram (S fuel) avg_string_size ht = Some ht.
Proof. unfold ReduceHistogram. apply ReduceHistogram_loop_stub. Qed.

(** [current_radix_bits] is never written: with a fit check that accepts, the
    loop would not come to an end. *)
Lemma ReduceHistogram_loop_diverges fits fuel avg_row_size ht :
  (forall h a, fits h a = true) ->
  (1 < current_radix_bits ht)%Z ->
  ReduceHistogram_loop fits fuel avg_row_size ht = None.
Proof.
  intros Hfits. revert ht. induction fuel as [| fuel IH]; intros ht Hbits; cbn [ReduceHistogram_loop].
  - destruct (decide (1 < current_radix_bits ht)%Z); [reflexivity | contradiction].
  - destruct (decide (1 < current_radix_bits ht)%Z); [| contradiction].
    rewrite Hfits. apply IH. exact Hbits.
Qed.

(** ** The capacity chosen by [Finalize] *)

Lemma wrap64_small z : (0 <= z < 2 ^ 64)%Z -> wrap64 z = z.
Proof. intros H. unfold wrap64. apply Z.mod_small. exact H. Qed.

Lemma NextPowerOfTwo_spec v :
  (1 <= v <= 2 ^ 63)%Z ->
  exists k, (0 <= k <= 63)%Z /\ NextPowerOfTwo v = (2 ^ k)%Z /\ (v <= 2 ^ k)%Z
            /\ (forall j, 0 <= j -> v <= 2 ^ j -> 2 ^ k <= 2 ^ j)%Z.
Proof.
  intros [Hlo Hhi]. exists (Z.log2_up v).
  assert (Hk0 : (0 <= Z.log2_up v)%Z) by apply Z.log2_up_nonneg.
  assert (Hk63 : (Z.log2_up v <= 63)%Z).
  { destruct (Z.eq_dec v 1%Z) as [-> | Hne]; [cbn; lia |].
    apply Z.log2_up_le_pow2; lia. }
  assert (Hge : (v <= 2 ^ Z.log2_up v)%Z).
  { destruct (Z.eq_dec v 1%Z) as [-> | Hne]; [cbn; lia |].
    apply Z.log2_up_spec. lia. }
  split; [lia |]. split; [| split; [exact Hge |]].
  - unfold NextPowerOfTwo. apply wrap64_small. split; [apply Z.pow_nonneg; lia |].
    apply Z.le_lt_trans with (2 ^ 63)%Z; [| reflexivity].
    apply Z.pow_le_mono_r; lia.
  - intros j Hj Hv. apply Z.pow_le_mono_r; [lia |].
    destruct (Z.eq_dec v 1%Z) as [-> | Hne]; [cbn; lia |].
    apply Z.log2_up_le_pow2; lia.
Qed.

Lemma length_hash_map_InsertHashes_from ht indices key_locations n i pointers mem :
  length (fst (InsertHashes_from ht indices key_locations n i pointers mem)) = length pointers.
Proof.
  revert i pointers mem. induction n as [| n IH]; intros i pointers mem; cbn [InsertHashes_from].
  - reflexivity.
  - rewrite IH. apply length_insert.
Qed.

Lemma same_shape_refl ht : same_shape ht ht.
Proof. repeat split. Qed.

Lemma same_shape_trans ht1 ht2 ht3 : same_shape ht1 ht2 -> same_shape ht2 ht3 -> same_shape ht1 ht3.
Proof. unfold same_shape. intros (?&?&?&?&?) (?&?&?&?&?). repeat split; congruence. Qed.

Lemma InsertHashes_same_shape ht hashes count key_locations mem :
  same_shape ht (fst (InsertHashes ht hashes count key_locations mem)).
Proof.
  unfold InsertHashes.
  pose proof (length_hash_map_InsertHashes_from ht
                (FlatVector_GetData (Normalify (ApplyBitmask ht hashes count) count))
                key_locations count 0 (hash_map ht) mem) as Hlen.
  destruct (InsertHashes_from _ _ _ _ _ _ _) as [pointers mem']. cbn in *.
  repeat split. exact Hlen.
Qed.

Lemma Finalize_block_same_shape fuel ht mem block dataptr entry ht' mem' :
  Finalize_block fuel ht mem block dataptr entry = Some (ht', mem') -> same_shape ht ht'.
Proof.
  revert ht mem dataptr entry. induction fuel as [| fuel IH]; intros ht mem dataptr entry;
    cbn [Finalize_block]; destruct (decide (entry < block_count block)); try discriminate.
  - intros [= <- <-]. apply same_shape_refl.
  - pose proof (InsertHashes_same_shape ht
      (FLAT_VECTOR ((fun i => Load mem (dataptr + Z.of_nat i * entry_size ht + pointer_offset ht)%Z)
                      <$> seq 0 (STANDARD_VECTOR_SIZE `min` (block_count block - entry))) None)
      (STANDARD_VECTOR_SIZE `min` (block_count block - entry))
      ((fun i => (dataptr + Z.of_nat i * entry_size ht)%Z)
         <$> seq 0 (STANDARD_VECTOR_SIZE `min` (block_count block - entry))) mem) as Hshape.
    destruct (InsertHashes _ _ _ _ _) as [ht1 mem1]. cbn in Hshape.
    intros H. apply IH in H. eapply same_shape_trans; [exact Hshape | exact H].
  - intros [= <- <-]. apply same_shape_refl.
Qed.

Lemma Finalize_blocks_same_shape bs ht mem ht' mem' :
  Finalize_blocks ht mem bs = Some (ht', mem') -> same_shape ht ht'.
Proof.
  revert ht mem. induction bs as [| block rest IH]; intros ht mem; cbn [Finalize_blocks].
  - intros [= <- <-]. apply same_shape_refl.
  - destruct (Finalize_block _ _ _ _ _ _) as [[ht1 mem1] |] eqn:Hblock; [| discriminate].
    intros H. apply IH in H. apply Finalize_block_same_shape in Hblock.
    eapply same_shape_trans; [exact Hblock |].
    eapply same_shape_trans; [| exact H]. repeat split.
Qed.

(** The table that [Finalize] allocates. *)
Lemma Finalize_allocate_spec ht :
  (Z.of_nat (Count ht) < 2 ^ 62)%Z ->
  (0 <= BLOCK_SIZE < 2 ^ 64)%Z ->
  exists k, (0 <= k <= 63)%Z
            /\ Finalize_capacity ht = (2 ^ k)%Z
            /\ Finalize_capacity ht
               = NextPowerOfTwo (Z.max (2 * Z.of_nat (Count ht)) (BLOCK_SIZE / 8 + 1))
            /\ (Z.max (2 * Z.of_nat (Count ht)) (BLOCK_SIZE / 8 + 1) <= 2 ^ k)%Z
            /\ hash_map (Finalize_allocate ht) = replicate (Z.to_nat (2 ^ k)) nullptr
            /\ bitmask (Finalize_allocate ht) = (2 ^ k - 1)%Z.
Proof.
  intros HN HB.
  assert (Hdiv : (0 <= BLOCK_SIZE / 8 < 2 ^ 61)%Z).
  { split; [apply Z.div_pos; lia |]. apply Z.div_lt_upper_bound; lia. }
  assert (Hwrap : wrap64 (Z.of_nat (Count ht) * 2) = (2 * Z.of_nat (Count ht))%Z).
  { rewrite wrap64_small; lia. }
  assert (Hcap : Finalize_capacity ht
                 = NextPowerOfTwo (Z.max (2 * Z.of_nat (Count ht)) (BLOCK_SIZE / 8 + 1))).
  { unfold Finalize_capacity, sizeof_data_ptr_t. rewrite Hwrap. reflexivity. }
  destruct (NextPowerOfTwo_spec (Z.max (2 * Z.of_nat (Count ht)) (BLOCK_SIZE / 8 + 1)))
    as (k & Hk & Hpow & Hge & _); [lia |].
  exists k. split; [exact Hk |]. split; [congruence |]. split; [exact Hcap |].
  split; [exact Hge |].
  assert (Hcapk : Finalize_capacity ht = (2 ^ k)%Z) by congruence.
  unfold Finalize_allocate. cbn [hash_map bitmask with_hash_map]. rewrite Hcapk.
  split; [reflexivity |]. apply wrap64_small.
  assert (0 < 2 ^ k)%Z by (apply Z.pow_pos_nonneg; lia).
  assert (2 ^ k <= 2 ^ 63)%Z by (apply Z.pow_le_mono_r; lia). lia.
Qed.

(** C5: with [N = Count()] rows, [Finalize] allocates
    [capacity = next_pow2(max(2 * N, BLOCK_SIZE / 8 + 1))] pointer slots, all
    of them null; the capacity is a power of two and [bitmask = capacity - 1].
    The finished table still has that many slots and that bitmask.  [N] is
    bounded by what a 64-bit address space holds. *)
Theorem Finalize_capacity_power_of_two (ht : JoinHashTable) :
  (Z.of_nat (Count ht) < 2 ^ 62)%Z ->
  (0 <= BLOCK_SIZE < 2 ^ 64)%Z ->
  let capacity := Finalize_capacity ht in
  capacity = NextPowerOfTwo (Z.max (2 * Z.of_nat (Count ht)) (BLOCK_SIZE / 8 + 1))
  /\ (exists k, (0 <= k <= 63)%Z /\ capacity = (2 ^ k)%Z)
  /\ (Z.max (2 * Z.of_nat (Count ht)) (BLOCK_SIZE / 8 + 1) <= capacity)%Z
  /\ hash_map (Finalize_allocate ht) = replicate (Z.to_nat capacity) nullptr
  /\ bitmask (Finalize_allocate ht) = (capacity - 1)%Z
  /\ (forall mem ht' mem',
        Finalize ht mem = Some (ht', mem') ->
        length (hash_map ht') = Z.to_nat capacity /\ bitmask ht' = (capacity - 1)%Z
        /\ finalized ht' = true).
Proof.
  intros HN HB capacity.
  destruct (Finalize_allocate_spec ht HN HB) as (k & Hk & Hcapk & Hcap & Hge & Hmap & Hmask).
  fold capacity in Hcapk, Hcap. rewrite <- Hcapk in Hge, Hmap, Hmask.
  split; [exact Hcap |]. split; [exists k; auto |]. split; [exact Hge |].
  split; [exact Hmap |]. split; [exact Hmask |].
  intros mem ht' mem' Hfin. unfold Finalize in Hfin.
  destruct (Finalize_blocks _ _ _) as [[ht1 mem1] |] eqn:Hblocks; [| discriminate].
  injection Hfin as <- <-. apply Finalize_blocks_same_shape in Hblocks.
  destruct Hblocks as (Hb & Hl & _). cbn [hash_map bitmask finalized with_finalized].
  rewrite Hl, Hb, Hmap, Hmask, length_replicate. repeat split.
Qed.

(** ** Loops that filter a selection in place *)

Lemma take_insert_snoc {A} (l : list A) n x :
  n < length l -> take (S n) (<[n := x]> l) = take n l ++ [x].
Proof.
  intros Hn. rewrite (take_S_r _ _ x); [| apply list_lookup_insert_eq; exact Hn].
  rewrite take_insert_ge; [reflexivity | lia].
Qed.

Lemma sel_read_insert_below sel (l : list nat) rc x i n :
  rc < i ->
  sel_read sel (<[rc := x]> l) <$> seq i n = sel_read sel l <$> seq i n.
Proof.
  intros Hrc. apply list_fmap_ext. intros k j Hj.
  apply lookup_seq in Hj as [-> _].
  destruct sel; cbn; [reflexivity | | reflexivity].
  apply list_lookup_total_insert_ne. lia.
Qed.

Lemma sel_lanes_aliased (target : list nat) n :
  n <= length target -> sel_lanes AliasedSel target n = take n target.
Proof.
  intros Hn. apply list_eq. intros i. unfold sel_lanes.
  rewrite list_lookup_fmap. destruct (decide (i < n)) as [Hi | Hi].
  - rewrite lookup_seq_lt by exact Hi. rewrite lookup_take_lt by exact Hi. cbn.
    symmetry. apply list_lookup_lookup_total_lt. lia.
  - rewrite lookup_seq_ge by lia. rewrite lookup_take_ge by lia. reflexivity.
Qed.

Lemma sel_lanes_incremental target n : sel_lanes IncrementalSel target n = seq 0 n.
Proof. unfold sel_lanes. cbn. apply list_fmap_id. Qed.

Lemma filter_length_le {A} (f : A -> bool) l : length (List.filter f l) <= length l.
Proof. induction l as [| a l IH]; cbn; [lia |]. destruct (f a); cbn; lia. Qed.

Lemma filter_length_lt_iff {A} (f : A -> bool) l :
  length (List.filter f l) < length l <-> exists a, a ∈ l /\ f a = false.
Proof.
  induction l as [| a l IH]; cbn.
  - split; [lia |]. intros (a & Ha & _). inversion Ha.
  - pose proof (filter_length_le f l) as Hle. destruct (f a) eqn:Hfa; cbn.
    + split.
      * intros H. assert (H' : length (List.filter f l) < length l) by lia.
        apply IH in H' as (b & Hb & Hfb). exists b. split; [right |]; assumption.
      * intros (b & Hb & Hfb). apply elem_of_cons in Hb as [-> | Hb]; [congruence |].
        assert (length (List.filter f l) < length l) by (apply IH; eauto). lia.
    + split; [| lia]. intros _. exists a. split; [left | assumption].
Qed.

(** ** Key preparation *)

Lemma FilterNullValues_from_spec vdata sel n :
  forall i result rc,
    rc <= i -> i + n <= length result ->
    let kept := List.filter (key_is_valid vdata) (sel_read sel result <$> seq i n) in
    exists result',
      FilterNullValues_from vdata sel n i result rc = (result', rc + length kept)
      /\ take (rc + length kept) result' = take rc result ++ kept
      /\ length result' = length result.
Proof.
  induction n as [| n IH]; intros i result rc Hrc Hlen; cbn [FilterNullValues_from seq fmap list_fmap].
  - cbn. exists result. rewrite Nat.add_0_r, app_nil_r. auto.
  - cbn [List.filter]. fold (key_is_valid vdata (sel_read sel result i)).
    destruct (key_is_valid vdata (sel_read sel result i)) eqn:Hvalid.
    + destruct (IH (S i) (<[rc := sel_read sel result i]> result) (S rc)) as (result' & Heq & Htake & Hl);
        [lia | rewrite length_insert; lia |].
      rewrite sel_read_insert_below in Heq, Htake by lia.
      exists result'. cbn [length]. rewrite Nat.add_succ_r.
      split; [exact Heq |]. split; [| rewrite Hl; apply length_insert].
      cbn in Htake. rewrite Htake. rewrite take_insert_snoc by lia.
      rewrite <- app_assoc. reflexivity.
    + destruct (IH (S i) result rc) as (result' & Heq & Htake & Hl); [lia | lia |].
      exists result'. auto.
Qed.

Lemma null_in_keys_true nulls_equal key_data i r :
  null_in_keys nulls_equal key_data i r = true <->
  exists c vdata, key_data !! c = Some vdata /\ nulls_equal !!! (i + c) = false
                  /\ vd_is_null vdata r = true.
Proof.
  revert i. induction key_data as [| vdata rest IH]; intros i; cbn [null_in_keys].
  - split; [discriminate |]. intros (c & v & Hc & _). rewrite lookup_nil in Hc. discriminate.
  - rewrite orb_true_iff, andb_true_iff, negb_true_iff, IH. split.
    + intros [[Hne Hnull] | (c & v & Hc & Hne & Hnull)].
      * exists 0, vdata. rewrite Nat.add_0_r. auto.
      * exists (S c), v. rewrite Nat.add_succ_r. auto.
    + intros (c & v & Hc & Hne & Hnull). destruct c as [| c].
      * left. injection Hc as ->. rewrite Nat.add_0_r in Hne. auto.
      * right. exists c, v. rewrite Nat.add_succ_r in Hne. auto.
Qed.

Lemma filter_filter_andb {A} (f g : A -> bool) l :
  List.filter g (List.filter f l) = List.filter (fun a => f a && g a) l.
Proof.
  induction l as [| a l IH]; cbn; [reflexivity |].
  destruct (f a); cbn; [destruct (g a) |]; rewrite ?IH; reflexivity.
Qed.

Lemma filter_ext_in {A} (f g : A -> bool) l :
  (forall a, a ∈ l -> f a = g a) -> List.filter f l = List.filter g l.
Proof.
  induction l as [| a l IH]; intros H; cbn; [reflexivity |].
  rewrite (H a) by left. rewrite IH; [reflexivity |]. intros b Hb. apply H. right. exact Hb.
Qed.

Lemma filter_all {A} (f : A -> bool) l : (forall a, a ∈ l -> f a = true) -> List.filter f l = l.
Proof.
  induction l as [| a l IH]; intros H; cbn; [reflexivity |].
  rewrite (H a) by left. f_equal. apply IH. intros b Hb. apply H. right. exact Hb.
Qed.

(** The column loop keeps, in order, the lanes without a null in the columns
    it has gone through. *)
Lemma PrepareKeys_columns_spec nulls_equal key_data :
  forall i current_sel added_count sel,
    (forall l, current_sel <> OtherSel l) ->
    added_count <= length sel ->
    exists current_sel' added_count' sel',
      PrepareKeys_columns nulls_equal key_data i current_sel added_count sel
        = (current_sel', added_count', sel')
      /\ (forall l, current_sel' <> OtherSel l)
      /\ added_count' <= length sel'
      /\ length (sel_lanes current_sel' sel' added_count') = added_count'
      /\ sel_lanes current_sel' sel' added_count'
         = List.filter (fun r => negb (null_in_keys nulls_equal key_data i r))
                       (sel_lanes current_sel sel added_count).
Proof.
  induction key_data as [| vdata rest IH]; intros i current_sel added_count sel Hother Hcap;
    cbn [PrepareKeys_columns null_in_keys].
  - exists current_sel, added_count, sel. split; [reflexivity |]. split; [exact Hother |].
    split; [exact Hcap |]. split.
    + unfold sel_lanes. rewrite length_fmap, length_seq. reflexivity.
    + symmetry. apply filter_all. reflexivity.
  - destruct (nulls_equal !!! i) eqn:Hflag; cbn [negb andb orb].
    { apply IH; assumption. }
    destruct (vd_validity vdata) as [bits |] eqn:Hval; cbn [AllValid].
    + unfold FilterNullValues.
      destruct (FilterNullValues_from_spec vdata current_sel added_count 0 sel 0)
        as (sel' & Heq & Htake & Hlen); [lia | lia |].
      cbn [Nat.add] in Heq, Htake. rewrite Heq.
      set (kept := List.filter (key_is_valid vdata) (sel_read current_sel sel <$> seq 0 added_count))
        in *.
      assert (Hkept : length kept <= added_count).
      { subst kept. etransitivity; [apply filter_length_le |].
        rewrite length_fmap, length_seq. reflexivity. }
      destruct (IH (S i) AliasedSel (length kept) sel') as (cs & ac & s' & Hrec & H1 & H2 & H3 & H4);
        [discriminate | lia |].
      exists cs, ac, s'. split; [exact Hrec |]. split; [exact H1 |]. split; [exact H2 |].
      split; [exact H3 |]. rewrite H4. rewrite sel_lanes_aliased by lia.
      rewrite Htake, take_0, app_nil_l. subst kept.
      fold (sel_lanes current_sel sel added_count).
      rewrite filter_filter_andb. apply filter_ext_in. intros r _.
      unfold key_is_valid, vd_is_null. rewrite Hval.
      destruct (RowIsValid _ _); reflexivity.
    + destruct (IH (S i) current_sel added_count sel) as (cs & ac & s' & Hrec & H1 & H2 & H3 & H4);
        [assumption .. |].
      exists cs, ac, s'. split; [exact Hrec |]. split; [exact H1 |]. split; [exact H2 |].
      split; [exact H3 |]. rewrite H4. apply filter_ext_in. intros r _.
      unfold vd_is_null. rewrite Hval. reflexivity.
Qed.

Lemma PrepareKeys_spec ht keys sel build_side :
  size keys <= length sel ->
  exists key_data current_sel sel' added_count,
    PrepareKeys ht keys sel build_side = (key_data, current_sel, sel', added_count)
    /\ key_data = DataChunk_Orrify keys
    /\ (forall l, current_sel <> OtherSel l)
    /\ added_count <= length sel'
    /\ length (sel_lanes current_sel sel' added_count) = added_count
    /\ sel_lanes current_sel sel' added_count
       = if build_side && IsRightOuterJoin (join_type ht) then seq 0 (size keys)
         else surviving_rows ht keys.
Proof.
  intros Hcap. unfold PrepareKeys.
  destruct (build_side && IsRightOuterJoin (join_type ht)).
  - exists (DataChunk_Orrify keys), IncrementalSel, sel, (size keys).
    rewrite sel_lanes_incremental, length_seq. repeat split; [discriminate | exact Hcap].
  - destruct (PrepareKeys_columns_spec (null_values_are_equal ht) (DataChunk_Orrify keys) 0
                IncrementalSel (size keys) sel) as (cs & ac & s' & Heq & H1 & H2 & H3 & H4);
      [discriminate | exact Hcap |].
    rewrite Heq. exists (DataChunk_Orrify keys), cs, s', ac.
    rewrite sel_lanes_incremental in H4. repeat split; assumption.
Qed.

(** ** [has_null] *)

Lemma surviving_rows_lt_iff ht keys :
  length (surviving_rows ht keys) < size keys <->
  existsb (null_in_keys (null_values_are_equal ht) (DataChunk_Orrify keys) 0)
          (seq 0 (size keys)) = true.
Proof.
  unfold surviving_rows.
  pose proof (filter_length_lt_iff
                (fun r => negb (null_in_keys (null_values_are_equal ht) (DataChunk_Orrify keys) 0 r))
                (seq 0 (size keys))) as H.
  rewrite length_seq in H. rewrite H, existsb_exists. clear H. split.
  - intros (r & Hr & Hnull). exists r. split; [apply list_elem_of_In; exact Hr |].
    apply negb_false_iff. exact Hnull.
  - intros (r & Hr & Hnull). exists r. split; [apply list_elem_of_In; exact Hr |].
    rewrite Hnull. reflexivity.
Qed.

(** [Build] leaves the configuration of the table alone, and sets [has_null]
    exactly when the batch loses a row. *)
Lemma Build_has_null ht mem keys payload :
  size keys <= STANDARD_VECTOR_SIZE ->
  let ht' := fst (Build ht mem keys payload) in
  join_type ht' = join_type ht
  /\ null_values_are_equal ht' = null_values_are_equal ht
  /\ equality_types ht' = equality_types ht
  /\ has_null ht' = has_null ht || batch_drops_row ht keys.
Proof.
  intros Hsize. unfold Build, batch_drops_row.
  destruct (decide (size keys = 0)) as [Hzero | Hnonzero].
  { cbn. rewrite Hzero. cbn. rewrite andb_false_r, orb_false_r. auto. }
  set (ht1 := if decide (join_type ht = MARK /\ _) then _ else ht).
  assert (Hht1 : join_type ht1 = join_type ht
                 /\ null_values_are_equal ht1 = null_values_are_equal ht
                 /\ equality_types ht1 = equality_types ht
                 /\ has_null ht1 = has_null ht).
  { subst ht1. destruct (decide _); repeat split. }
  destruct Hht1 as (Hjt & Hne & Het & Hhn).
  destruct (PrepareKeys_spec ht1 keys (replicate STANDARD_VECTOR_SIZE 0) true)
    as (kd & cs & sl & ac & HPK & _ & _ & _ & Hlen & Hlanes);
    [rewrite length_replicate; exact Hsize |].
  rewrite HPK. cbn [andb] in Hlanes. rewrite Hjt in Hlanes.
  set (ht2 := if decide (ac < size keys) then with_has_null true ht1 else ht1).
  assert (Hht2 : join_type ht2 = join_type ht
                 /\ null_values_are_equal ht2 = null_values_are_equal ht
                 /\ equality_types ht2 = equality_types ht
                 /\ has_null ht2
                    = has_null ht
                      || negb (IsRightOuterJoin (join_type ht))
                         && existsb (null_in_keys (null_values_are_equal ht)
                                                  (DataChunk_Orrify keys) 0)
                                    (seq 0 (size keys))).
  { split; [subst ht2; destruct (decide (ac < size keys)); exact Hjt |].
    split; [subst ht2; destruct (decide (ac < size keys)); exact Hne |].
    split; [subst ht2; destruct (decide (ac < size keys)); exact Het |].
    assert (Hac : ac = length (if IsRightOuterJoin (join_type ht) then seq 0 (size keys)
                               else surviving_rows ht1 keys)).
    { rewrite <- Hlanes. symmetry. exact Hlen. }
    subst ht2. destruct (IsRightOuterJoin (join_type ht)); cbn [negb andb].
    - rewrite length_seq in Hac. destruct (decide (ac < size keys)); [lia |].
      rewrite orb_false_r. exact Hhn.
    - pose proof (surviving_rows_lt_iff ht1 keys) as Hiff. rewrite Hne, <- Hac in Hiff.
      destruct (decide (ac < size keys)) as [Hlt | Hge]; cbn [has_null with_has_null].
      + apply Hiff in Hlt. rewrite Hlt, orb_true_r. reflexivity.
      + destruct (existsb _ _) eqn:Hex; [exfalso; apply Hge, Hiff; reflexivity |].
        rewrite orb_false_r. exact Hhn. }
  destruct (decide (ac = 0)); [exact Hht2 |].
  destruct (RowDataCollection_Build _ _) as [collection key_locations].
  destruct (Scatter _ _ _ _ _ _ _ _) as [heap mem']. exact Hht2.
Qed.

Lemma existsb_pointwise {A} (f g : A -> bool) l :
  (forall a, f a = g a) -> existsb f l = existsb g l.
Proof. intros H. induction l as [| a l IH]; cbn; [reflexivity |]. rewrite H, IH. reflexivity. Qed.

Lemma Build_all_has_null batches :
  forall ht mem,
    Forall (fun b => size (fst b) <= STANDARD_VECTOR_SIZE) batches ->
    let ht' := fst (Build_all ht mem batches) in
    join_type ht' = join_type ht
    /\ null_values_are_equal ht' = null_values_are_equal ht
    /\ has_null ht' = has_null ht || existsb (fun b => batch_drops_row ht (fst b)) batches.
Proof.
  induction batches as [| [keys payload] rest IH]; intros ht mem Hall; cbn.
  - rewrite orb_false_r. auto.
  - inversion Hall as [| ? ? Hsize Hrest]; subst. cbn in Hsize.
    destruct (Build_has_null ht mem keys payload Hsize) as (Hjt & Hne & _ & Hhn).
    unfold Build_all in IH. cbn [foldl].
    destruct (Build ht mem keys payload) as [ht1 mem1]. cbn [fst snd] in *.
    destruct (IH ht1 mem1 Hrest) as (Hjt' & Hne' & Hhn').
    split; [congruence |]. split; [congruence |].
    rewrite Hhn', Hhn, <- orb_assoc. f_equal. f_equal.
    apply existsb_pointwise. intros [k p]. unfold batch_drops_row. cbn. rewrite Hjt, Hne. reflexivity.
Qed.

Lemma batch_drops_row_iff ht keys :
  batch_drops_row ht keys = true <-> exists r, row_dropped ht keys r.
Proof.
  unfold batch_drops_row, row_dropped.
  rewrite andb_true_iff, negb_true_iff, existsb_exists. split.
  - intros (Hjt & r & Hr & Hnull). exists r. split; [exact Hjt |].
    apply in_seq in Hr. split; [lia |]. apply null_in_keys_true in Hnull. exact Hnull.
  - intros (r & Hjt & Hr & Hnull). split; [exact Hjt |]. exists r.
    split; [apply in_seq; lia |]. apply null_in_keys_true. exact Hnull.
Qed.

(** C6, as the code has it: after any sequence of [Build] calls on a table
    whose [has_null] was false, [has_null] is true if and only if some row of
    some batch was dropped by key preparation, that is, had a null in a column
    of the key chunk (of an equality or of any other condition) whose
    null-equals flag is false; for right and full outer joins nothing is
    dropped and [has_null] stays false. *)
Theorem has_null_iff_row_dropped (ht : JoinHashTable) (mem : Memory)
    (batches : list (DataChunk * DataChunk)) :
  has_null ht = false ->
  Forall (fun b => size (fst b) <= STANDARD_VECTOR_SIZE) batches ->
  (has_null (fst (Build_all ht mem batches)) = true
   <-> exists keys payload r, (keys, payload) ∈ batches /\ row_dropped ht keys r)
  /\ (IsRightOuterJoin (join_type ht) = true ->
      has_null (fst (Build_all ht mem batches)) = false).
Proof.
  intros Hinit Hall.
  destruct (Build_all_has_null batches ht mem Hall) as (_ & _ & Hhn).
  rewrite Hhn, Hinit. cbn [orb]. split.
  - rewrite existsb_exists. split.
    + intros ([keys payload] & Hin & Hdrop). apply batch_drops_row_iff in Hdrop as [r Hr].
      exists keys, payload, r. split; [apply list_elem_of_In; exact Hin | exact Hr].
    + intros (keys & payload & r & Hin & Hr). exists (keys, payload).
      split; [apply list_elem_of_In; exact Hin |]. apply batch_drops_row_iff. eauto.
  - intros Hright. apply not_true_is_false. rewrite existsb_exists.
    intros (b & _ & Hdrop). unfold batch_drops_row in Hdrop. rewrite Hright in Hdrop.
    discriminate.
Qed.

(** ** Advancing the pointers *)

Lemma AdvancePointers_from_spec ht mem sel n :
  forall i ptrs sel_vector new_count,
    new_count <= i -> i + n <= length sel_vector ->
    let lanes := sel_read sel sel_vector <$> seq i n in
    NoDup lanes ->
    (forall idx, idx ∈ lanes -> idx < length ptrs) ->
    let survivors := List.filter (lane_survives ht mem ptrs) lanes in
    exists ptrs' sel_vector',
      AdvancePointers_from ht mem sel n i ptrs sel_vector new_count
        = (ptrs', sel_vector', new_count + length survivors)
      /\ take (new_count + length survivors) sel_vector' = take new_count sel_vector ++ survivors
      /\ length sel_vector' = length sel_vector
      /\ length ptrs' = length ptrs
      /\ (forall idx, idx ∈ lanes -> ptrs' !!! idx = Load mem (ptrs !!! idx + pointer_offset ht)%Z)
      /\ (forall idx, idx ∉ lanes -> ptrs' !!! idx = ptrs !!! idx).
Proof.
  induction n as [| n IH]; intros i ptrs sv nc Hnc Hlen lanes Hnodup Hrange survivors.
  - subst survivors lanes. cbn. exists ptrs, sv. rewrite Nat.add_0_r, app_nil_r.
    repeat split; try reflexivity. intros idx Hidx. inversion Hidx.
  - subst survivors lanes. cbn [AdvancePointers_from seq fmap list_fmap] in *.
    set (idx0 := sel_read sel sv i) in *.
    set (next := Load mem (ptrs !!! idx0 + pointer_offset ht)%Z).
    apply NoDup_cons in Hnodup as [Hfresh Hnodup].
    assert (Hidx0 : idx0 < length ptrs) by (apply Hrange; left).
    assert (Hread : <[idx0 := next]> ptrs !!! idx0 = next)
      by (apply list_lookup_total_insert_eq; exact Hidx0).
    assert (Hfilter :
              List.filter (lane_survives ht mem (<[idx0 := next]> ptrs))
                          (sel_read sel sv <$> seq (S i) n)
              = List.filter (lane_survives ht mem ptrs) (sel_read sel sv <$> seq (S i) n)).
    { apply filter_ext_in. intros idx Hidx. unfold lane_survives.
      rewrite list_lookup_total_insert_ne; [reflexivity |]. intros ->. contradiction. }
    rewrite Hread. cbn [List.filter].
    assert (Hsurv : lane_survives ht mem ptrs idx0 = bool_decide (next <> nullptr))
      by reflexivity.
    rewrite Hsurv. clear Hsurv.
    destruct (decide (next <> nullptr)) as [Hlive | Hdead].
    + rewrite bool_decide_eq_true_2 by exact Hlive.
      destruct (IH (S i) (<[idx0 := next]> ptrs) (<[nc := idx0]> sv) (S nc))
        as (ptrs' & sv' & Heq & Htake & Hl1 & Hl2 & Hin & Hout).
      * lia.
      * rewrite length_insert. lia.
      * rewrite sel_read_insert_below by lia. exact Hnodup.
      * intros idx Hidx. rewrite sel_read_insert_below in Hidx by lia.
        rewrite length_insert. apply Hrange. right. exact Hidx.
      * rewrite sel_read_insert_below in Heq, Htake, Hin, Hout by lia.
        rewrite Hfilter in Heq, Htake.
        exists ptrs', sv'. cbn [length]. rewrite Nat.add_succ_r.
        split; [exact Heq |]. split.
        { cbn in Htake. rewrite Htake, take_insert_snoc by lia.
          rewrite <- app_assoc. reflexivity. }
        split; [rewrite Hl1; apply length_insert |].
        split; [rewrite Hl2; apply length_insert |]. split.
        { intros idx Hidx. apply elem_of_cons in Hidx as [-> | Hidx].
          - rewrite Hout by exact Hfresh. exact Hread.
          - rewrite Hin by exact Hidx. rewrite list_lookup_total_insert_ne; [reflexivity |].
            intros ->. contradiction. }
        { intros idx Hidx. apply not_elem_of_cons in Hidx as [Hne Hidx].
          rewrite Hout by exact Hidx. apply list_lookup_total_insert_ne. congruence. }
    + rewrite bool_decide_eq_false_2 by exact Hdead.
      destruct (IH (S i) (<[idx0 := next]> ptrs) sv nc)
        as (ptrs' & sv' & Heq & Htake & Hl1 & Hl2 & Hin & Hout).
      * lia.
      * lia.
      * exact Hnodup.
      * intros idx Hidx. rewrite length_insert. apply Hrange. right. exact Hidx.
      * rewrite Hfilter in Heq, Htake.
        exists ptrs', sv'. split; [exact Heq |]. split; [exact Htake |].
        split; [exact Hl1 |]. split; [rewrite Hl2; apply length_insert |]. split.
        { intros idx Hidx. apply elem_of_cons in Hidx as [-> | Hidx].
          - rewrite Hout by exact Hfresh. exact Hread.
          - rewrite Hin by exact Hidx. rewrite list_lookup_total_insert_ne; [reflexivity |].
            intros ->. contradiction. }
        { intros idx Hidx. apply not_elem_of_cons in Hidx as [Hne Hidx].
          rewrite Hout by exact Hidx. apply list_lookup_total_insert_ne. congruence. }
Qed.

Lemma elem_of_List_filter {A} (f : A -> bool) l a :
  a ∈ List.filter f l <-> a ∈ l /\ f a = true.
Proof. rewrite !list_elem_of_In. apply filter_In. Qed.

Lemma NoDup_List_filter {A} (f : A -> bool) l : NoDup l -> NoDup (List.filter f l).
Proof.
  induction 1 as [| a l Hfresh Hnodup IH]; cbn; [constructor |].
  destruct (f a); [| exact IH]. constructor; [| exact IH].
  rewrite elem_of_List_filter. tauto.
Qed.

Lemma sublist_List_filter {A} (f : A -> bool) l : sublist (List.filter f l) l.
Proof.
  induction l as [| a l IH]; cbn; [constructor |].
  destruct (f a); [apply sublist_skip | apply sublist_cons]; exact IH.
Qed.

Lemma sel_lanes_other l target : sel_lanes (OtherSel l) target (length l) = l.
Proof.
  apply list_eq. intros i. unfold sel_lanes. rewrite list_lookup_fmap.
  destruct (decide (i < length l)) as [Hi | Hi].
  - rewrite lookup_seq_lt by exact Hi. cbn. symmetry. apply list_lookup_lookup_total_lt. exact Hi.
  - rewrite lookup_seq_ge by lia. symmetry. apply lookup_ge_None. lia.
Qed.

Lemma AdvancePointers_spec ht mem sel sel_count ss :
  sel_count <= length (sel_vector ss) ->
  let lanes := sel_lanes sel (sel_vector ss) sel_count in
  NoDup lanes ->
  (forall idx, idx ∈ lanes -> idx < length (pointers ss)) ->
  let ss' := AdvancePointers ht mem sel sel_count ss in
  let survivors := List.filter (lane_survives ht mem (pointers ss)) lanes in
  ss_count ss' = length survivors
  /\ live_lanes ss' = survivors
  /\ length (sel_vector ss') = length (sel_vector ss)
  /\ length (pointers ss') = length (pointers ss)
  /\ (forall idx, idx ∈ lanes ->
        pointers ss' !!! idx = Load mem (pointers ss !!! idx + pointer_offset ht)%Z)
  /\ (forall idx, idx ∉ lanes -> pointers ss' !!! idx = pointers ss !!! idx)
  /\ found_match ss' = found_match ss /\ finished ss' = finished ss
  /\ key_data ss' = key_data ss.
Proof.
  intros Hcap lanes Hnodup Hrange. unfold AdvancePointers.
  destruct (AdvancePointers_from_spec ht mem sel sel_count 0 (pointers ss) (sel_vector ss) 0)
    as (ptrs' & sv' & Heq & Htake & Hl1 & Hl2 & Hin & Hout);
    [lia | lia | exact Hnodup | exact Hrange |].
  rewrite Heq. cbn [Nat.add] in *. unfold live_lanes. cbn.
  rewrite Htake, take_0. repeat split; assumption.
Qed.

Lemma chain_within_next ht mem d p :
  p <> nullptr -> chain_within ht mem (S d) p = true ->
  chain_within ht mem d (Load mem (p + pointer_offset ht)%Z) = true.
Proof.
  intros Hp. cbn [chain_within].
  destruct (decide (p = nullptr)); [contradiction | intros H; exact H].
Qed.

Lemma AdvancePointers_chains_within ht mem d sel sel_count ss :
  sel_count <= length (sel_vector ss) ->
  let lanes := sel_lanes sel (sel_vector ss) sel_count in
  NoDup lanes ->
  (forall idx, idx ∈ lanes ->
     idx < length (pointers ss) /\ pointers ss !!! idx <> nullptr
     /\ chain_within ht mem (S d) (pointers ss !!! idx) = true) ->
  chains_within ht mem d (AdvancePointers ht mem sel sel_count ss).
Proof.
  intros Hcap lanes Hnodup Hlanes.
  destruct (AdvancePointers_spec ht mem sel sel_count ss Hcap Hnodup)
    as (Hcount & Hlive & Hl1 & Hl2 & Hin & _); [intros idx Hidx; apply Hlanes; exact Hidx |].
  unfold chains_within. rewrite Hlive, Hcount, Hl1, Hl2. split.
  - etransitivity; [apply filter_length_le |]. unfold lanes, sel_lanes.
    rewrite length_fmap, length_seq. exact Hcap.
  - split; [apply NoDup_List_filter; exact Hnodup |].
    intros idx Hidx. apply elem_of_List_filter in Hidx as [Hidx Hsurv].
    destruct (Hlanes idx Hidx) as (Hrange & Hnonnull & Hchain).
    rewrite (Hin idx Hidx). split; [exact Hrange |]. split.
    + unfold lane_survives in Hsurv. apply bool_decide_eq_true in Hsurv. exact Hsurv.
    + apply chain_within_next; assumption.
Qed.

Lemma chains_within_live ht mem d ss :
  chains_within ht mem d ss ->
  NoDup (sel_lanes AliasedSel (sel_vector ss) (ss_count ss))
  /\ forall idx, idx ∈ sel_lanes AliasedSel (sel_vector ss) (ss_count ss) ->
       idx < length (pointers ss) /\ pointers ss !!! idx <> nullptr
       /\ chain_within ht mem d (pointers ss !!! idx) = true.
Proof.
  intros (Hcap & Hnodup & Hlanes). rewrite sel_lanes_aliased by exact Hcap. auto.
Qed.

Lemma chains_within_zero ht mem ss : chains_within ht mem 0 ss -> ss_count ss = 0.
Proof.
  intros (Hcap & _ & Hlanes). destruct (ss_count ss) as [| n] eqn:Hcount; [reflexivity |].
  exfalso. unfold live_lanes in Hlanes. rewrite Hcount in Hlanes.
  destruct (sel_vector ss) as [| idx sv]; [cbn in Hcap; lia |].
  destruct (Hlanes idx) as (_ & Hnonnull & Hchain); [cbn; left |].
  cbn in Hchain. destruct (decide _); [contradiction | discriminate].
Qed.

Lemma AdvancePointers_live_chains_within ht mem d ss :
  chains_within ht mem (S d) ss -> chains_within ht mem d (AdvancePointers_live ht mem ss).
Proof.
  intros Hss. pose proof Hss as (Hcap & _). apply chains_within_live in Hss as [Hnodup Hlanes].
  apply AdvancePointers_chains_within; assumption.
Qed.

Lemma advance_live_exhausts ht mem d :
  forall ss, chains_within ht mem d ss -> ss_count (advance_live ht mem d ss) = 0.
Proof.
  induction d as [| d IH]; intros ss Hss; cbn [advance_live].
  - eapply chains_within_zero. exact Hss.
  - apply IH. apply AdvancePointers_live_chains_within. exact Hss.
Qed.

Lemma advance_live_chains_within ht mem d :
  forall ss k, chains_within ht mem d ss -> k <= d ->
               chains_within ht mem (d - k) (advance_live ht mem k ss).
Proof.
  induction d as [| d IH]; intros ss k Hss Hk.
  - assert (k = 0) as -> by lia. exact Hss.
  - destruct k as [| k]; [exact Hss |]. cbn [advance_live].
    replace (S d - S k) with (d - k) by lia. apply IH; [| lia].
    apply AdvancePointers_live_chains_within. exact Hss.
Qed.

(** C9: [AdvancePointers] on a selection of [sel_count] distinct lanes leaves
    at most [sel_count] lanes live; the surviving lanes are, in the order of
    the input selection, exactly the lanes whose next pointer, loaded from the
    current row at [pointer_offset], is not null, and each selected lane now
    points at that next row.  When the chains of the selected rows end within
    [d + 1] loads, those of the surviving lanes end within [d], so repeated
    advancing empties the set of live lanes: the walk comes to an end. *)
Theorem AdvancePointers_filters_live_lanes (ht : JoinHashTable) (mem : Memory) (sel : SelArg)
    (sel_count : nat) (ss : ScanStructure) :
  sel_count <= length (sel_vector ss) ->
  let lanes := sel_lanes sel (sel_vector ss) sel_count in
  NoDup lanes ->
  (forall idx, idx ∈ lanes -> idx < length (pointers ss)) ->
  let ss' := AdvancePointers ht mem sel sel_count ss in
  ss_count ss' <= sel_count
  /\ live_lanes ss' = List.filter (lane_survives ht mem (pointers ss)) lanes
  /\ sublist (live_lanes ss') lanes
  /\ (forall idx, idx ∈ live_lanes ss' <->
        idx ∈ lanes /\ Load mem (pointers ss !!! idx + pointer_offset ht)%Z <> nullptr)
  /\ (forall idx, idx ∈ lanes ->
        pointers ss' !!! idx = Load mem (pointers ss !!! idx + pointer_offset ht)%Z)
  /\ (forall d,
        (forall idx, idx ∈ lanes ->
           pointers ss !!! idx <> nullptr
           /\ chain_within ht mem (S d) (pointers ss !!! idx) = true) ->
        chains_within ht mem d ss'
        /\ (forall k, k <= d -> chains_within ht mem (d - k) (advance_live ht mem k ss'))
        /\ ss_count (advance_live ht mem d ss') = 0).
Proof.
  intros Hcap lanes Hnodup Hrange ss'.
  destruct (AdvancePointers_spec ht mem sel sel_count ss Hcap Hnodup Hrange)
    as (Hcount & Hlive & _ & _ & Hin & _).
  fold ss' in Hcount, Hlive, Hin. rewrite Hlive, Hcount.
  split.
  { etransitivity; [apply filter_length_le |]. unfold lanes, sel_lanes.
    rewrite length_fmap, length_seq. reflexivity. }
  split; [reflexivity |]. split; [apply sublist_List_filter |]. split.
  { intros idx. rewrite elem_of_List_filter. unfold lane_survives.
    rewrite bool_decide_eq_true. reflexivity. }
  split; [exact Hin |].
  intros d Hchains.
  assert (Hss' : chains_within ht mem d ss').
  { apply AdvancePointers_chains_within; [exact Hcap | exact Hnodup |].
    intros idx Hidx. split; [apply Hrange; exact Hidx | apply Hchains; exact Hidx]. }
  split; [exact Hss' |]. split; [| apply advance_live_exhausts; exact Hss'].
  intros k Hk. apply advance_live_chains_within; assumption.
Qed.

(** ** Single-pass join kinds *)

(** The contract of [RowOperations::Match]: the lanes it is given are split
    into the matches and the rest. *)
Hypothesis Match_partition :
  forall ht keys key_data mem ptrs lanes,
    fst (Match ht keys key_data mem ptrs lanes) ++ snd (Match ht keys key_data mem ptrs lanes)
      ≡ₚ lanes.

Lemma AdvancePointers_finished ht mem sel sel_count ss :
  finished (AdvancePointers ht mem sel sel_count ss) = finished ss.
Proof.
  unfold AdvancePointers. destruct (AdvancePointers_from _ _ _ _ _ _ _ _) as [[? ?] ?].
  reflexivity.
Qed.

(** One round of a scan over the lanes without a match keeps the chains
    bounded, one load shorter. *)
Lemma scan_round_chains_within ht mem keys d ss fm :
  chains_within ht mem (S d) ss ->
  let match_sel := fst (ResolvePredicates ht mem keys ss) in
  let no_match_sel := snd (ResolvePredicates ht mem keys ss) in
  chains_within ht mem d
    (AdvancePointers ht mem (OtherSel no_match_sel) (ss_count ss - length match_sel)
                     (with_found_match fm ss)).
Proof using Match_partition.
  intros (Hcap & Hnodup & Hlanes) match_sel no_match_sel.
  pose proof (Match_partition ht keys (key_data ss) mem (pointers ss)
                              (take (ss_count ss) (sel_vector ss))) as Hperm.
  fold (ResolvePredicates ht mem keys ss) in Hperm. fold match_sel no_match_sel in Hperm.
  assert (Hlen : length match_sel + length no_match_sel = ss_count ss).
  { apply Permutation_length in Hperm. rewrite length_app, length_take_le in Hperm; lia. }
  replace (ss_count ss - length match_sel) with (length no_match_sel) by lia.
  assert (Hsub : forall idx, idx ∈ no_match_sel -> idx ∈ live_lanes ss).
  { intros idx Hidx. unfold live_lanes. rewrite <- Hperm. apply elem_of_app. right. exact Hidx. }
  apply AdvancePointers_chains_within; cbn [sel_vector pointers with_found_match].
  - lia.
  - rewrite sel_lanes_other. unfold live_lanes in Hnodup. rewrite <- Hperm in Hnodup.
    apply NoDup_app in Hnodup as (_ & _ & Hnodup). exact Hnodup.
  - rewrite sel_lanes_other. intros idx Hidx. apply Hlanes, Hsub. exact Hidx.
Qed.

Lemma ScanKeyMatches_unfold fuel ht mem keys ss :
  ScanKeyMatches fuel ht mem keys ss
  = if decide (0 < ss_count ss) then
      match fuel with
      | O => None
      | S fuel' =>
          let '(match_sel, no_match_sel) := ResolvePredicates ht mem keys ss in
          ScanKeyMatches fuel' ht mem keys
            (AdvancePointers ht mem (OtherSel no_match_sel) (ss_count ss - length match_sel)
               (with_found_match ((fun fm => mark_found fm match_sel) <$> found_match ss) ss))
      end
    else Some ss.
Proof. destruct fuel; reflexivity. Qed.

Lemma ScanKeyMatches_terminates ht mem keys d :
  forall fuel ss,
    chains_within ht mem d ss -> d <= fuel ->
    exists ss', ScanKeyMatches fuel ht mem keys ss = Some ss'
                /\ ss_count ss' = 0 /\ finished ss' = finished ss.
Proof using Match_partition.
  induction d as [| d IH]; intros fuel ss Hss Hfuel; rewrite ScanKeyMatches_unfold.
  - apply chains_within_zero in Hss. destruct (decide (0 < ss_count ss)); [lia |]. eauto.
  - destruct (decide (0 < ss_count ss)) as [Hlive | Hdone]; [| exists ss; split; [| split]; [reflexivity | lia | reflexivity]].
    destruct fuel as [| fuel]; [lia |].
    pose proof (scan_round_chains_within ht mem keys d ss
                  ((fun fm => mark_found fm (fst (ResolvePredicates ht mem keys ss)))
                     <$> found_match ss) Hss) as Hround.
    destruct (ResolvePredicates ht mem keys ss) as [match_sel no_match_sel]. cbn [fst snd] in Hround.
    destruct (IH fuel _ Hround) as (ss' & Heq & Hcount & Hfin); [lia |].
    exists ss'. split; [exact Heq |]. split; [exact Hcount |].
    rewrite Hfin, AdvancePointers_finished. reflexivity.
Qed.

Lemma NextSingleJoin_scan_unfold fuel ht mem keys ss result_sel :
  NextSingleJoin_scan fuel ht mem keys ss result_sel
  = if decide (0 < ss_count ss) then
      match fuel with
      | O => None
      | S fuel' =>
          let '(match_sel, no_match_sel) := ResolvePredicates ht mem keys ss in
          NextSingleJoin_scan fuel' ht mem keys
            (AdvancePointers ht mem (OtherSel no_match_sel) (ss_count ss - length match_sel)
               (with_found_match ((fun fm => mark_found fm match_sel) <$> found_match ss) ss))
            (result_sel ++ match_sel)
      end
    else Some (ss, result_sel).
Proof. destruct fuel; reflexivity. Qed.

Lemma NextSingleJoin_scan_terminates ht mem keys d :
  forall fuel ss result_sel,
    chains_within ht mem d ss -> d <= fuel ->
    exists ss' result_sel',
      NextSingleJoin_scan fuel ht mem keys ss result_sel = Some (ss', result_sel')
      /\ ss_count ss' = 0 /\ finished ss' = finished ss.
Proof using Match_partition.
  induction d as [| d IH]; intros fuel ss result_sel Hss Hfuel; rewrite NextSingleJoin_scan_unfold.
  - apply chains_within_zero in Hss. destruct (decide (0 < ss_count ss)); [lia |]. eauto.
  - destruct (decide (0 < ss_count ss)) as [Hlive | Hdone];
      [| exists ss, result_sel; split; [| split]; [reflexivity | lia | reflexivity]].
    destruct fuel as [| fuel]; [lia |].
    pose proof (scan_round_chains_within ht mem keys d ss
                  ((fun fm => mark_found fm (fst (ResolvePredicates ht mem keys ss)))
                     <$> found_match ss) Hss) as Hround.
    destruct (ResolvePredicates ht mem keys ss) as [match_sel no_match_sel]. cbn [fst snd] in Hround.
    destruct (IH fuel _ (result_sel ++ match_sel) Hround) as (ss' & rs & Heq & Hcount & Hfin);
      [lia |].
    exists ss', rs. split; [exact Heq |]. split; [exact Hcount |].
    rewrite Hfin, AdvancePointers_finished. reflexivity.
Qed.

Lemma Next_finished_returns fuel ht mem keys left result ss :
  finished ss = true -> Next fuel ht mem keys left result ss = Returns (ss, mem, result).
Proof. intros Hfin. unfold Next. rewrite Hfin. reflexivity. Qed.

Lemma Next_single_pass_first_call d fuel ht mem keys left result ss :
  single_pass (join_type ht) = true ->
  finished ss = false ->
  chains_within ht mem d ss ->
  d <= fuel ->
  exists ss' result',
    Next fuel ht mem keys left result ss = Returns (ss', mem, result')
    /\ finished ss' = true /\ ss_count ss' = 0.
Proof using Match_partition.
  intros Hkind Hfresh Hss Hfuel. unfold Next. rewrite Hfresh.
  destruct (join_type ht) eqn:Htype; try discriminate Hkind.
  - (* SEMI *)
    unfold NextSemiJoin.
    destruct (ScanKeyMatches_terminates ht mem keys d fuel ss Hss Hfuel) as (ss1 & -> & Hcount & _).
    cbn. eexists _, _. split; [reflexivity |]. split; [reflexivity | exact Hcount].
  - (* ANTI *)
    unfold NextAntiJoin.
    destruct (ScanKeyMatches_terminates ht mem keys d fuel ss Hss Hfuel) as (ss1 & -> & Hcount & _).
    cbn. eexists _, _. split; [reflexivity |]. split; [reflexivity | exact Hcount].
  - (* MARK *)
    unfold NextMarkJoin.
    destruct (ScanKeyMatches_terminates ht mem keys d fuel ss Hss Hfuel) as (ss1 & -> & Hcount & _).
    cbn. eexists _, _. split; [reflexivity |]. split; [reflexivity | exact Hcount].
  - (* SINGLE *)
    unfold NextSingleJoin.
    destruct (NextSingleJoin_scan_terminates ht mem keys d fuel ss [] Hss Hfuel)
      as (ss1 & rs & -> & Hcount & _).
    cbn. eexists _, _. split; [reflexivity |]. split; [reflexivity | exact Hcount].
Qed.

(** C7: for the join kinds SEMI, ANTI, MARK and SINGLE one call of [Next] on
    a batch returns with [finished] set, however long the chains of the live
    lanes are ([d] bounds them, and fuel [d] is enough for the loop); every
    later call of [Next] on that cursor returns the cursor, the row memory and
    the result chunk as they were passed in. *)
Theorem Next_single_pass_finishes (d fuel : nat) (ht : JoinHashTable) (mem : Memory)
    (keys left result : DataChunk) (ss : ScanStructure) :
  single_pass (join_type ht) = true ->
  finished ss = false ->
  chains_within ht mem d ss ->
  d <= fuel ->
  exists ss' result',
    Next fuel ht mem keys left result ss = Returns (ss', mem, result')
    /\ finished ss' = true
    /\ ss_count ss' = 0
    /\ forall fuel' mem' keys' left' result'',
         Next fuel' ht mem' keys' left' result'' ss' = Returns (ss', mem', result'').
Proof using Match_partition.
  intros Hkind Hfresh Hss Hfuel.
  destruct (Next_single_pass_first_call d fuel ht mem keys left result ss Hkind Hfresh Hss Hfuel)
    as (ss' & result' & Heq & Hfin & Hcount).
  exists ss', result'. split; [exact Heq |]. split; [exact Hfin |]. split; [exact Hcount |].
  intros fuel' mem' keys' left' result''. apply Next_finished_returns. exact Hfin.
Qed.

(** ** Chains are pushed on their head *)

Lemma Load_Store_eq v addr mem : Load (Store v addr mem) addr = v.
Proof. unfold Load, Store. rewrite lookup_insert_eq. reflexivity. Qed.

Lemma Load_Store_ne v addr addr' mem : addr <> addr' -> Load (Store v addr mem) addr' = Load mem addr'.
Proof. intros Hne. unfold Load, Store. rewrite lookup_insert_ne by exact Hne. reflexivity. Qed.

Lemma chain_walk_unfold offset mem fuel p :
  chain_walk offset mem fuel p
  = if decide (p = nullptr) then Some []
    else match fuel with
         | O => None
         | S fuel' => cons p <$> chain_walk offset mem fuel' (Load mem (p + offset)%Z)
         end.
Proof. destruct fuel; reflexivity. Qed.

(** A walk that succeeds needs as many loads as it meets rows, and more fuel
    does not change it. *)
Lemma chain_walk_fuel offset mem fuel :
  forall p l, chain_walk offset mem fuel p = Some l ->
              length l <= fuel /\ forall fuel', length l <= fuel' -> chain_walk offset mem fuel' p = Some l.
Proof.
  induction fuel as [| fuel IH]; intros p l; rewrite chain_walk_unfold;
    destruct (decide (p = nullptr)) as [Hp | Hp]; try discriminate.
  - intros [= <-]. split; [cbn; lia |]. intros fuel' _. rewrite chain_walk_unfold.
    destruct (decide (p = nullptr)); [reflexivity | contradiction].
  - intros [= <-]. split; [cbn; lia |]. intros fuel' _. rewrite chain_walk_unfold.
    destruct (decide (p = nullptr)); [reflexivity | contradiction].
  - destruct (chain_walk offset mem fuel _) as [rest |] eqn:Hrest; [| discriminate].
    intros [= <-]. apply IH in Hrest as [Hlen Hmore]. split; [cbn; lia |].
    intros fuel' Hfuel'. cbn in Hfuel'. destruct fuel' as [| fuel']; [lia |].
    rewrite chain_walk_unfold. destruct (decide (p = nullptr)); [contradiction |].
    rewrite Hmore by lia. reflexivity.
Qed.

(** Writing the next pointer of a row that is not on a chain leaves the
    chain as it was. *)
Lemma chain_walk_frame offset mem v a fuel :
  forall p l, chain_walk offset mem fuel p = Some l -> a ∉ l ->
              chain_walk offset (Store v (a + offset)%Z mem) fuel p = Some l.
Proof.
  induction fuel as [| fuel IH]; intros p l;
    rewrite (chain_walk_unfold offset mem _ p), (chain_walk_unfold offset (Store _ _ _) _ p);
    destruct (decide (p = nullptr)) as [Hp | Hp]; try discriminate; try (intros; assumption).
  destruct (chain_walk offset mem fuel (Load mem (p + offset)%Z)) as [rest |] eqn:Hrest;
    [| discriminate].
  intros [= <-] Hfresh. apply not_elem_of_cons in Hfresh as [Hne Hfresh].
  rewrite Load_Store_ne by lia. rewrite (IH _ _ Hrest Hfresh). reflexivity.
Qed.

Lemma InsertHashes_from_push_rows ht indices key_locations n :
  forall i pointers mem,
    InsertHashes_from ht indices key_locations n i pointers mem
    = push_rows (pointer_offset ht) ((fun j => (Z.to_nat (indices !!! j), key_locations !!! j)) <$> seq i n)
                (pointers, mem).
Proof.
  induction n as [| n IH]; intros i pointers mem; cbn [InsertHashes_from seq fmap list_fmap].
  - reflexivity.
  - rewrite IH. reflexivity.
Qed.

Lemma push_row_heads_chains offset pointers mem chains s0 a :
  heads_chains offset pointers mem chains ->
  s0 < length pointers -> a <> nullptr ->
  (forall s, s < length pointers -> a ∉ chains s) ->
  heads_chains offset (fst (push_row offset (pointers, mem) (s0, a)))
               (snd (push_row offset (pointers, mem) (s0, a)))
               (fun s => if decide (s = s0) then a :: chains s0 else chains s).
Proof.
  intros Hheads Hs0 Ha Hfresh s Hs. cbn [push_row fst snd] in *.
  rewrite length_insert in Hs. destruct (decide (s = s0)) as [-> | Hne].
  - rewrite list_lookup_total_insert_eq by exact Hs0. cbn [length].
    rewrite chain_walk_unfold. destruct (decide (a = nullptr)); [contradiction |].
    rewrite Load_Store_eq.
    rewrite (chain_walk_frame offset mem _ a _ _ _ (Hheads s0 Hs0) (Hfresh s0 Hs0)). reflexivity.
  - rewrite list_lookup_total_insert_ne by congruence.
    apply chain_walk_frame; [apply Hheads; exact Hs | apply Hfresh; exact Hs].
Qed.

Lemma rows_of_slot_snoc rows s0 a s :
  rows_of_slot (rows ++ [(s0, a)]) s
  = rows_of_slot rows s ++ (if decide (s0 = s) then [a] else []).
Proof.
  unfold rows_of_slot. rewrite List.filter_app, fmap_app. cbn.
  destruct (decide (s0 = s)) as [-> | Hne].
  - rewrite bool_decide_eq_true_2 by reflexivity. reflexivity.
  - rewrite bool_decide_eq_false_2 by exact Hne. reflexivity.
Qed.

(** Pushing rows that are new, not null and pairwise distinct puts them in
    front of the chain of their slot, the last one first. *)
Lemma push_rows_heads_chains offset rows :
  forall pointers mem chains,
    heads_chains offset pointers mem chains ->
    Forall (fun row => fst row < length pointers /\ snd row <> nullptr
                       /\ forall s, s < length pointers -> snd row ∉ chains s) rows ->
    NoDup (snd <$> rows) ->
    length (fst (push_rows offset rows (pointers, mem))) = length pointers
    /\ heads_chains offset (fst (push_rows offset rows (pointers, mem)))
                    (snd (push_rows offset rows (pointers, mem)))
                    (fun s => reverse (rows_of_slot rows s) ++ chains s).
Proof.
  induction rows as [| [s0 a] rows IH] using rev_ind; intros pointers mem chains Hheads Hrows Hnodup.
  - cbn. split; [reflexivity |]. exact Hheads.
  - apply Forall_app in Hrows as [Hrows Hrow]. apply Forall_cons in Hrow as [(Hs0 & Ha & Hfresh) _].
    cbn [fst snd] in *. rewrite fmap_app in Hnodup. apply NoDup_app in Hnodup as (Hnodup & Hdisj & _).
    destruct (IH pointers mem chains Hheads Hrows Hnodup) as [Hlen IHheads].
    unfold push_rows in *. rewrite foldl_snoc.
    destruct (foldl (push_row offset) (pointers, mem) rows) as [pointers1 mem1] eqn:Hfold.
    cbn [fst snd push_row] in *. split; [rewrite length_insert; exact Hlen |].
    pose proof (push_row_heads_chains offset pointers1 mem1 _ s0 a IHheads) as Hpush.
    cbn [push_row fst snd] in Hpush.
    intros s Hs. rewrite length_insert in Hs.
    specialize (Hpush ltac:(lia) Ha).
    assert (Hnew : forall s', s' < length pointers1 ->
                              a ∉ reverse (rows_of_slot rows s') ++ chains s').
    { intros s' Hs' Hin. apply elem_of_app in Hin as [Hin | Hin].
      - rewrite elem_of_reverse in Hin. unfold rows_of_slot in Hin.
        apply list_elem_of_fmap_1 in Hin as ([s1 a1] & -> & Hin).
        apply elem_of_List_filter in Hin as [Hin _].
        apply (Hdisj a1); [apply list_elem_of_fmap; exists (s1, a1); auto | cbn; left]. 
      - apply (Hfresh s'); [lia | exact Hin]. }
    specialize (Hpush Hnew s). rewrite length_insert in Hpush. specialize (Hpush Hs).
    rewrite rows_of_slot_snoc. destruct (decide (s = s0)) as [-> | Hne].
    + destruct (decide (s0 = s0)); [| contradiction].
      rewrite reverse_app. cbn. cbn in Hpush. exact Hpush.
    + destruct (decide (s0 = s)); [congruence |]. rewrite app_nil_r. exact Hpush.
Qed.

(** *** The rows of the table, in the order [Finalize] inserts them *)

Lemma block_rows_same_shape ht ht' mem block entry n :
  same_shape ht ht' -> block_rows ht' mem block entry n = block_rows ht mem block entry n.
Proof.
  intros (Hmask & _ & Hsize & Hoff & _). unfold block_rows, row_addr, slot_of.
  rewrite Hmask, Hsize, Hoff. reflexivity.
Qed.

Lemma push_rows_length offset rows :
  forall st, length (fst (push_rows offset rows st)) = length (fst st).
Proof.
  induction rows as [| row rows IH]; intros st; [reflexivity |].
  unfold push_rows in *. cbn [foldl]. rewrite IH. cbn [push_row fst]. apply length_insert.
Qed.

Lemma push_rows_app offset rows1 rows2 st :
  push_rows offset (rows1 ++ rows2) st = push_rows offset rows2 (push_rows offset rows1 st).
Proof. unfold push_rows. apply foldl_app. Qed.

(** Pushing rows writes the next-pointer slots of those rows only. *)
Lemma push_rows_Load_other offset rows :
  forall st addr,
    (forall row, row ∈ rows -> (snd row + offset)%Z <> addr) ->
    Load (snd (push_rows offset rows st)) addr = Load (snd st) addr.
Proof.
  induction rows as [| row rows IH]; intros st addr Hother; [reflexivity |].
  unfold push_rows in *. cbn [foldl]. rewrite IH.
  - cbn [push_row snd]. apply Load_Store_ne. apply Hother. left.
  - intros r Hr. apply Hother. right. exact Hr.
Qed.

Lemma InsertHashes_flat ht hashes validity count key_locations mem :
  count <= length hashes ->
  let st' := push_rows (pointer_offset ht)
               ((fun j => (slot_of ht (hashes !!! j), key_locations !!! j)) <$> seq 0 count)
               (hash_map ht, mem) in
  InsertHashes ht (FLAT_VECTOR hashes validity) count key_locations mem
  = (with_hash_map (fst st') (bitmask ht) ht, snd st').
Proof.
  intros Hcount st'. unfold InsertHashes. cbn [ApplyBitmask Normalify FlatVector_GetData].
  rewrite InsertHashes_from_push_rows.
  assert (Hrows :
    (fun j => (Z.to_nat ((((fun h => Z.land h (bitmask ht)) <$> take count hashes)
                            ++ drop count hashes) !!! j), key_locations !!! j))
      <$> seq 0 count
    = (fun j => (slot_of ht (hashes !!! j), key_locations !!! j)) <$> seq 0 count).
  { apply list_fmap_ext. intros i j Hj. apply lookup_seq in Hj as [-> Hi]. cbn [Nat.add].
    unfold slot_of. f_equal. f_equal.
    rewrite lookup_total_app_l by (rewrite length_fmap, length_take_le; lia).
    rewrite (list_lookup_total_fmap (fun h => Z.land h (bitmask ht)))
      by (rewrite length_take_le; lia).
    rewrite lookup_total_take_lt by exact Hi. reflexivity. }
  rewrite Hrows. fold st'. destruct st' as [pointers mem']. reflexivity.
Qed.

Lemma fmap_seq_shift {A} (f : nat -> A) entry n :
  f <$> seq entry n = (fun j => f (entry + j)) <$> seq 0 n.
Proof.
  replace (seq entry n) with (seq (entry + 0) n) by (rewrite Nat.add_0_r; reflexivity).
  rewrite <- fmap_add_seq, <- list_fmap_compose. reflexivity.
Qed.

Lemma lookup_total_fmap_seq {B} `{!Inhabited B} (f : nat -> B) i n :
  i < n -> (f <$> seq 0 n) !!! i = f i.
Proof.
  intros Hi. apply list_lookup_total_correct.
  rewrite list_lookup_fmap, lookup_seq_lt by exact Hi. reflexivity.
Qed.

Lemma block_rows_app ht mem block entry n m :
  block_rows ht mem block entry (n + m)
  = block_rows ht mem block entry n ++ block_rows ht mem block (entry + n) m.
Proof. unfold block_rows. rewrite seq_app, fmap_app. reflexivity. Qed.

Lemma row_addr_add ht block entry n :
  (row_addr ht block entry + Z.of_nat n * entry_size ht)%Z = row_addr ht block (entry + n).
Proof. unfold row_addr. lia. Qed.

Lemma Finalize_block_spec mem0 block :
  0 < STANDARD_VECTOR_SIZE ->
  forall fuel ht mem entry,
    block_count block - entry <= fuel ->
    (forall k, entry <= k < block_count block ->
               Load mem (row_addr ht block k + pointer_offset ht)%Z
               = Load mem0 (row_addr ht block k + pointer_offset ht)%Z) ->
    NoDup (row_addr ht block <$> seq entry (block_count block - entry)) ->
    exists ht' mem',
      Finalize_block fuel ht mem block (row_addr ht block entry) entry = Some (ht', mem')
      /\ same_shape ht ht'
      /\ (hash_map ht', mem')
         = push_rows (pointer_offset ht)
                     (block_rows ht mem0 block entry (block_count block - entry))
                     (hash_map ht, mem).
Proof.
  intros Hvec. induction fuel as [| fuel IH]; intros ht mem entry Hfuel Hloads Hnodup;
    cbn [Finalize_block]; destruct (decide (entry < block_count block)) as [Hlt | Hge].
  - lia.
  - exists ht, mem. replace (block_count block - entry) with 0 by lia.
    split; [reflexivity |]. split; [apply same_shape_refl | reflexivity].
  - set (next := STANDARD_VECTOR_SIZE `min` (block_count block - entry)).
    assert (Hnext : 0 < next <= block_count block - entry) by (subst next; lia).
    rewrite InsertHashes_flat by (rewrite length_fmap, length_seq; reflexivity).
    set (batch := (fun j => (slot_of ht (_ !!! j), _ !!! j)) <$> seq 0 next).
    assert (Hbatch : batch = block_rows ht mem0 block entry next).
    { subst batch. unfold block_rows. rewrite (fmap_seq_shift _ entry next).
      apply list_fmap_ext. intros i j Hj. apply lookup_seq in Hj as [-> Hi]. cbn [Nat.add].
      rewrite !lookup_total_fmap_seq by exact Hi.
      rewrite row_addr_add. rewrite Hloads by lia. reflexivity. }
    rewrite Hbatch. clear batch Hbatch.
    set (st1 := push_rows (pointer_offset ht) (block_rows ht mem0 block entry next)
                          (hash_map ht, mem)).
    set (ht1 := with_hash_map (fst st1) (bitmask ht) ht).
    assert (Hshape : same_shape ht ht1).
    { subst ht1. repeat split. cbn [hash_map with_hash_map].
      apply (push_rows_length (pointer_offset ht) (block_rows ht mem0 block entry next)
                              (hash_map ht, mem)). }
    rewrite row_addr_add.
    replace (row_addr ht block (entry + next)) with (row_addr ht1 block (entry + next))
      by reflexivity.
    replace (block_count block - entry) with (next + (block_count block - (entry + next)))
      in Hnodup |- * by lia.
    rewrite seq_app, fmap_app in Hnodup. apply NoDup_app in Hnodup as (_ & Hdisj & Hnodup).
    destruct (IH ht1 (snd st1) (entry + next)) as (ht' & mem' & Heq & Hshape' & Hstate).
    + lia.
    + intros k Hk. replace (row_addr ht1 block k) with (row_addr ht block k) by reflexivity.
      replace (pointer_offset ht1) with (pointer_offset ht) by reflexivity.
      rewrite <- Hloads by lia. subst st1. apply push_rows_Load_other.
      intros row Hrow. unfold block_rows in Hrow.
      apply list_elem_of_fmap_1 in Hrow as (j & -> & Hj). cbn [snd].
      intros Heq. apply (Hdisj (row_addr ht block j)).
      * apply list_elem_of_fmap_2. exact Hj.
      * replace (row_addr ht block j) with (row_addr ht block k) by lia.
        apply list_elem_of_fmap_2. apply elem_of_seq. lia.
    + exact Hnodup.
    + exists ht', mem'. split; [exact Heq |].
      split; [eapply same_shape_trans; eassumption |].
      rewrite Hstate, block_rows_app, push_rows_app.
      rewrite (block_rows_same_shape ht ht1) by exact Hshape.
      replace (pointer_offset ht1) with (pointer_offset ht) by reflexivity.
      fold st1. subst ht1. cbn [hash_map with_hash_map]. destruct st1 as [pointers1 mem1].
      reflexivity.
  - exists ht, mem. replace (block_count block - entry) with 0 by lia.
    split; [reflexivity |]. split; [apply same_shape_refl | reflexivity].
Qed.

Lemma blocks_rows_same_shape ht ht' mem bs :
  same_shape ht ht' -> blocks_rows ht' mem bs = blocks_rows ht mem bs.
Proof.
  intros Hshape. unfold blocks_rows. f_equal. apply list_fmap_ext. intros i block _.
  apply block_rows_same_shape. exact Hshape.
Qed.

Lemma snd_block_rows ht mem block entry n :
  snd <$> block_rows ht mem block entry n = row_addr ht block <$> seq entry n.
Proof. unfold block_rows. rewrite <- list_fmap_compose. reflexivity. Qed.

Lemma Finalize_blocks_spec mem0 :
  0 < STANDARD_VECTOR_SIZE ->
  forall bs ht mem,
    (forall row, row ∈ blocks_rows ht mem0 bs ->
                 Load mem (snd row + pointer_offset ht)%Z
                 = Load mem0 (snd row + pointer_offset ht)%Z) ->
    NoDup (snd <$> blocks_rows ht mem0 bs) ->
    exists ht' mem',
      Finalize_blocks ht mem bs = Some (ht', mem')
      /\ same_shape ht ht'
      /\ (hash_map ht', mem')
         = push_rows (pointer_offset ht) (blocks_rows ht mem0 bs) (hash_map ht, mem).
Proof.
  intros Hvec. induction bs as [| block rest IH]; intros ht mem Hloads Hnodup;
    cbn [Finalize_blocks].
  - exists ht, mem. split; [reflexivity |]. split; [apply same_shape_refl | reflexivity].
  - unfold blocks_rows in Hloads, Hnodup |- *. cbn [fmap list_fmap concat] in Hloads, Hnodup |- *.
    fold (blocks_rows ht mem0 rest) in Hloads, Hnodup |- *.
    rewrite fmap_app in Hnodup. apply NoDup_app in Hnodup as (Hnodup1 & Hdisj & Hnodup2).
    rewrite snd_block_rows in Hnodup1.
    replace (block_ptr block) with (row_addr ht block 0) by (unfold row_addr; lia).
    destruct (Finalize_block_spec mem0 block Hvec (block_count block) ht mem 0)
      as (ht1 & mem1 & Heq & Hshape & Hstate).
    + lia.
    + intros k Hk.
      apply (Hloads (slot_of ht (Load mem0 (row_addr ht block k + pointer_offset ht)%Z),
                     row_addr ht block k)).
      apply elem_of_app. left. unfold block_rows.
      apply list_elem_of_fmap. exists k. split; [reflexivity |]. apply elem_of_seq. lia.
    + rewrite Nat.sub_0_r. exact Hnodup1.
    + rewrite Heq. rewrite Nat.sub_0_r in Hstate.
      set (ht2 := with_pinned_handles _ ht1).
      assert (Hshape2 : same_shape ht ht2).
      { eapply same_shape_trans; [exact Hshape |]. subst ht2. repeat split. }
      destruct (IH ht2 mem1) as (ht' & mem' & Heq' & Hshape' & Hstate').
      * intros row Hrow. rewrite (blocks_rows_same_shape ht ht2) in Hrow by exact Hshape2.
        destruct Hshape2 as (_ & _ & _ & -> & _).
        rewrite <- Hloads by (apply elem_of_app; right; exact Hrow).
        replace mem1 with (snd (hash_map ht1, mem1)) by reflexivity. rewrite Hstate.
        apply push_rows_Load_other. intros row1 Hrow1 Heq1.
        apply (Hdisj (snd row1)); [apply list_elem_of_fmap_2; exact Hrow1 |].
        replace (snd row1) with (snd row) by lia. apply list_elem_of_fmap_2. exact Hrow.
      * rewrite (blocks_rows_same_shape ht ht2) by exact Hshape2. exact Hnodup2.
      * exists ht', mem'. split; [exact Heq' |].
        split; [eapply same_shape_trans; eassumption |].
        rewrite Hstate', push_rows_app, <- Hstate.
        rewrite (blocks_rows_same_shape ht ht2) by exact Hshape2.
        destruct Hshape2 as (_ & _ & _ & -> & _). reflexivity.
Qed.

Lemma slot_of_lt ht hash k :
  (0 <= k)%Z -> bitmask ht = (2 ^ k - 1)%Z -> slot_of ht hash < Z.to_nat (2 ^ k).
Proof.
  intros Hk Hmask. unfold slot_of. rewrite Hmask.
  replace (2 ^ k - 1)%Z with (Z.ones k) by (rewrite Z.ones_equiv; lia).
  rewrite Z.land_ones by exact Hk.
  assert (0 < 2 ^ k)%Z by (apply Z.pow_pos_nonneg; lia).
  pose proof (Z.mod_pos_bound hash (2 ^ k)%Z ltac:(lia)). lia.
Qed.

(** One row: the old head of the slot goes to the next-pointer slot of the
    row, and the row becomes the head. *)
Lemma InsertHashes_one_row ht hash validity key_location mem :
  InsertHashes ht (FLAT_VECTOR [hash] validity) 1 [key_location] mem
  = (with_hash_map (<[slot_of ht hash := key_location]> (hash_map ht)) (bitmask ht) ht,
     Store (hash_map ht !!! slot_of ht hash) (key_location + pointer_offset ht)%Z mem).
Proof. rewrite InsertHashes_flat by (cbn; lia). reflexivity. Qed.

(** C4: [Finalize] inserts the rows of the blocks one after the other; each
    insertion takes [slot = hash & bitmask], writes the head of that slot to
    the next-pointer slot of the row at [pointer_offset] and makes the row
    the head ([push_row]).  Hence the walk from the head of any slot meets
    the rows of that slot in the reverse of the order of insertion.  The rows
    lie at distinct addresses, none of them null. *)
Theorem Finalize_chains_are_LIFO (ht : JoinHashTable) (mem : Memory) :
  (Z.of_nat (Count ht) < 2 ^ 62)%Z ->
  (0 <= BLOCK_SIZE < 2 ^ 64)%Z ->
  0 < STANDARD_VECTOR_SIZE ->
  let rows := table_rows (Finalize_allocate ht) mem in
  NoDup (snd <$> rows) ->
  Forall (fun row => snd row <> nullptr) rows ->
  (forall ht0 hash key_location mem0,
     InsertHashes ht0 (FLAT_VECTOR [hash] None) 1 [key_location] mem0
     = (with_hash_map (<[Z.to_nat (Z.land hash (bitmask ht0)) := key_location]> (hash_map ht0))
                      (bitmask ht0) ht0,
        Store (hash_map ht0 !!! Z.to_nat (Z.land hash (bitmask ht0)))
              (key_location + pointer_offset ht0)%Z mem0))
  /\ exists ht' mem',
       Finalize ht mem = Some (ht', mem')
       /\ (hash_map ht', mem')
          = push_rows (pointer_offset ht) rows (hash_map (Finalize_allocate ht), mem)
       /\ forall s, s < length (hash_map ht') ->
            chain_walk (pointer_offset ht) mem' (length (rows_of_slot rows s))
                       (hash_map ht' !!! s)
            = Some (reverse (rows_of_slot rows s)).
Proof.
  intros HN HB Hvec rows Hnodup Hnonnull. subst rows. unfold table_rows in *.
  replace (blocks (block_collection (Finalize_allocate ht))) with (blocks (block_collection ht))
    in * by reflexivity.
  set (rows := blocks_rows (Finalize_allocate ht) mem (blocks (block_collection ht))) in *.
  split; [intros; apply InsertHashes_one_row |].
  destruct (Finalize_allocate_spec ht HN HB) as (k & Hk & _ & _ & _ & Hmap & Hmask).
  destruct (Finalize_blocks_spec mem Hvec (blocks (block_collection ht)) (Finalize_allocate ht) mem)
    as (ht1 & mem1 & Heq & Hshape & Hstate); [reflexivity | exact Hnodup |].
  unfold Finalize. rewrite Heq. exists (with_finalized true ht1), mem1.
  split; [reflexivity |]. cbn [hash_map with_finalized].
  fold rows in Hstate.
  replace (pointer_offset (Finalize_allocate ht)) with (pointer_offset ht) in Hstate
    by reflexivity.
  split; [exact Hstate |].
  destruct (push_rows_heads_chains (pointer_offset ht) rows (hash_map (Finalize_allocate ht)) mem
                                   (fun _ => [])) as [Hlen Hheads].
  - intros s Hs. rewrite Hmap in Hs |- *. rewrite length_replicate in Hs.
    rewrite lookup_total_replicate_2 by exact Hs. reflexivity.
  - rewrite Forall_forall in Hnonnull |- *. intros [s a] Hrow. cbn [fst snd].
    split; [| split; [apply (Hnonnull _ Hrow) | intros ? _ Hin; inversion Hin]].
    rewrite Hmap, length_replicate. unfold rows, blocks_rows in Hrow.
    apply list_elem_of_In, in_concat in Hrow as (l & Hl & Hrow).
    apply list_elem_of_In in Hl, Hrow.
    apply list_elem_of_fmap_1 in Hl as (block & -> & _). unfold block_rows in Hrow.
    apply list_elem_of_fmap_1 in Hrow as (j & [= -> ->] & _).
    apply slot_of_lt; [lia | exact Hmask].
  - exact Hnodup.
  - rewrite <- Hstate in Hlen, Hheads. cbn [fst snd] in Hlen, Hheads.
    intros s Hs. specialize (Hheads s Hs). cbn beta in Hheads.
    rewrite app_nil_r, length_reverse in Hheads. exact Hheads.
Qed.

(** ** The scan for unmatched build rows *)

Lemma take_min_app {A} (l1 l2 : list A) n :
  length l1 <= n -> take n (l1 ++ l2) = l1 ++ take (n - length l1) l2.
Proof. intros Hlen. rewrite take_app, take_ge by exact Hlen. reflexivity. Qed.

Lemma ScanFullOuter_block_spec ht mem baseptr n :
  forall pos key_locations found_entries,
    found_entries < STANDARD_VECTOR_SIZE ->
    STANDARD_VECTOR_SIZE <= length key_locations ->
    let todo := List.filter (unfound ht mem) (scan_block_rows ht baseptr pos n) in
    exists pos' key_locations' found_entries',
      ScanFullOuter_block ht mem baseptr n pos key_locations found_entries
        = (pos', key_locations', found_entries')
      /\ found_entries' = STANDARD_VECTOR_SIZE `min` (found_entries + length todo)
      /\ take found_entries' key_locations'
         = take found_entries key_locations ++ take (STANDARD_VECTOR_SIZE - found_entries) todo
      /\ length key_locations' = length key_locations
      /\ pos <= pos' <= pos + n
      /\ List.filter (unfound ht mem) (scan_block_rows ht baseptr pos' (pos + n - pos'))
         = drop (STANDARD_VECTOR_SIZE - found_entries) todo
      /\ (found_entries' < STANDARD_VECTOR_SIZE -> pos' = pos + n).
Proof.
  induction n as [| n IH]; intros pos kl fe Hroom Hcap todo.
  - exists pos, kl, fe. subst todo. replace (pos + 0 - pos) with 0 by lia.
    cbn. rewrite take_nil, drop_nil, app_nil_r. repeat split; lia.
  - assert (Hrows : scan_block_rows ht baseptr pos (S n)
                    = (baseptr + Z.of_nat pos * entry_size ht)%Z
                        :: scan_block_rows ht baseptr (S pos) n) by reflexivity.
    subst todo. rewrite Hrows. clear Hrows. cbn [ScanFullOuter_block List.filter].
    set (row := (baseptr + Z.of_nat pos * entry_size ht)%Z).
    assert (Hflag : unfound ht mem row = bool_decide (Load mem (row + tuple_size ht)%Z = 0%Z))
      by reflexivity.
    rewrite Hflag. clear Hflag.
    set (rest := List.filter (unfound ht mem) (scan_block_rows ht baseptr (S pos) n)).
    destruct (decide (Load mem (row + tuple_size ht)%Z = 0%Z)) as [Hunfound | Hfound].
    + rewrite bool_decide_eq_true_2 by exact Hunfound.
      destruct (decide (S fe = STANDARD_VECTOR_SIZE)) as [Hfull | Hmore].
      * exists (S pos), (<[fe := row]> kl), (S fe).
        split; [reflexivity |]. split; [cbn [length]; lia |].
        replace (STANDARD_VECTOR_SIZE - fe) with 1 by lia.
        split; [rewrite take_insert_snoc by lia; cbn; rewrite take_0; reflexivity |].
        split; [apply length_insert |]. split; [lia |].
        split; [| lia]. replace (pos + S n - S pos) with n by lia. reflexivity.
      * destruct (IH (S pos) (<[fe := row]> kl) (S fe)) as (pos' & kl' & fe' & Heq & Hfe & Htake & Hlen & Hpos & Hrest & Hall);
          [lia | rewrite length_insert; exact Hcap |].
        fold rest in Hfe, Htake, Hrest.
        exists pos', kl', fe'. split; [exact Heq |]. split; [cbn [length]; lia |].
        split.
        { rewrite Htake, take_insert_snoc by lia.
          replace (STANDARD_VECTOR_SIZE - fe) with (S (STANDARD_VECTOR_SIZE - S fe)) by lia.
          cbn [take]. rewrite <- app_assoc. reflexivity. }
        split; [rewrite Hlen; apply length_insert |]. split; [lia |].
        split; [| intros H; rewrite Hall by exact H; lia].
        replace (pos + S n - pos') with (S pos + n - pos') by lia. rewrite Hrest.
        replace (STANDARD_VECTOR_SIZE - fe) with (S (STANDARD_VECTOR_SIZE - S fe)) by lia.
        reflexivity.
    + rewrite bool_decide_eq_false_2 by exact Hfound.
      destruct (IH (S pos) kl fe Hroom Hcap) as (pos' & kl' & fe' & Heq & Hfe & Htake & Hlen & Hpos & Hrest & Hall).
      fold rest in Hfe, Htake, Hrest.
      exists pos', kl', fe'. split; [exact Heq |]. split; [exact Hfe |].
      split; [exact Htake |]. split; [exact Hlen |]. split; [lia |].
      split; [| intros H; rewrite Hall by exact H; lia].
      replace (pos + S n - pos') with (S pos + n - pos') by lia. exact Hrest.
Qed.

Lemma ScanFullOuter_blocks_spec ht mem :
  0 < STANDARD_VECTOR_SIZE ->
  forall n state key_locations found_entries,
    n = length (blocks (block_collection ht)) - block_position state ->
    found_entries < STANDARD_VECTOR_SIZE ->
    STANDARD_VECTOR_SIZE <= length key_locations ->
    let todo := unmatched_rows ht mem state in
    exists state' key_locations' found_entries',
      ScanFullOuter_blocks ht mem n state key_locations found_entries
        = (state', key_locations', found_entries')
      /\ found_entries' = STANDARD_VECTOR_SIZE `min` (found_entries + length todo)
      /\ take found_entries' key_locations'
         = take found_entries key_locations ++ take (STANDARD_VECTOR_SIZE - found_entries) todo
      /\ length key_locations' = length key_locations
      /\ unmatched_rows ht mem state' = drop (STANDARD_VECTOR_SIZE - found_entries) todo.
Proof.
  intros Hvec. induction n as [| n IH]; intros [pos bp] kl fe Hn Hroom Hcap;
    unfold unmatched_rows, rows_to_scan; cbn [block_position position] in *; rewrite <- Hn;
    cbn [ScanFullOuter_blocks scan_rows block_position position].
  - exists {| position := pos; block_position := bp |}, kl, fe.
    cbn [block_position position]. rewrite <- Hn. cbn.
    rewrite take_nil, drop_nil, app_nil_r. repeat split; lia.
  - destruct (blocks (block_collection ht) !! bp) as [block |] eqn:Hblock;
      [| apply lookup_ge_None in Hblock; lia].
    rewrite List.filter_app.
    set (here := List.filter (unfound ht mem)
                   (scan_block_rows ht (pinned_handles ht !!! bp) pos (block_count block - pos))).
    set (later := List.filter (unfound ht mem) (scan_rows ht n (S bp) 0)).
    destruct (ScanFullOuter_block_spec ht mem (pinned_handles ht !!! bp) (block_count block - pos)
                                       pos kl fe Hroom Hcap)
      as (pos' & kl' & fe' & Heq & Hfe & Htake & Hlen & Hpos & Hrest & Hall).
    fold here in Hfe, Htake, Hrest. rewrite Heq.
    destruct (decide (fe' = STANDARD_VECTOR_SIZE)) as [Hfull | Hmore].
    + exists {| position := pos'; block_position := bp |}, kl', fe'.
      split; [reflexivity |]. split; [rewrite length_app; lia |].
      assert (Hhere : STANDARD_VECTOR_SIZE - fe <= length here) by lia.
      split; [rewrite Htake, take_app_le by exact Hhere; reflexivity |].
      split; [exact Hlen |].
      cbn [block_position position]. rewrite <- Hn. cbn [scan_rows]. rewrite Hblock.
      rewrite List.filter_app. fold later.
      replace (block_count block - pos') with (pos + (block_count block - pos) - pos') by lia.
      rewrite Hrest, drop_app_le by exact Hhere. reflexivity.
    + assert (Hfe' : fe' = fe + length here) by lia.
      assert (Hhere : length here < STANDARD_VECTOR_SIZE - fe) by lia.
      destruct (IH {| position := 0; block_position := S bp |} kl' fe')
        as (state' & kl'' & fe'' & Heq' & Hfe'' & Htake' & Hlen' & Hrest');
        [cbn; lia | lia | lia |].
      unfold unmatched_rows, rows_to_scan in Hfe'', Htake', Hrest'.
      cbn [block_position position] in Hfe'', Htake', Hrest'.
      replace (length (blocks (block_collection ht)) - S bp) with n in Hfe'', Htake', Hrest' by lia.
      fold later in Hfe'', Htake', Hrest'.
      exists state', kl'', fe''. split; [exact Heq' |].
      split; [rewrite length_app; lia |]. split.
      { rewrite Htake', Htake, Hfe'. rewrite (take_ge here) by lia.
        rewrite take_min_app by lia. rewrite <- app_assoc. f_equal. f_equal. f_equal. lia. }
      split; [lia |].
      unfold unmatched_rows, rows_to_scan. rewrite Hrest', Hfe'.
      rewrite drop_app_ge by lia. f_equal. lia.
Qed.

Lemma lookup_alter_columns (f : nat -> Vector -> Vector) first nb :
  forall (columns : list Vector) j,
    foldl (fun cols i => alter (f i) (first + i) cols) columns (seq 0 nb) !! j
    = if decide (first <= j < first + nb) then f (j - first) <$> columns !! j else columns !! j.
Proof.
  induction nb as [| nb IH]; intros columns j.
  - cbn. destruct (decide _); [lia | reflexivity].
  - rewrite seq_S, foldl_app. cbn [foldl Nat.add].
    destruct (decide (j = first + nb)) as [-> | Hne].
    + rewrite list_lookup_alter_eq, IH.
      destruct (decide (first <= first + nb < first + nb)); [lia |].
      destruct (decide (first <= first + nb < first + S nb)); [| lia].
      replace (first + nb - first) with nb by lia. reflexivity.
    + rewrite list_lookup_alter_ne by congruence. rewrite IH.
      destruct (decide (first <= j < first + nb)), (decide (first <= j < first + S nb));
        try lia; reflexivity.
Qed.

Lemma lookup_gather_build_columns ht first f columns j :
  gather_build_columns ht first f columns !! j
  = if decide (first <= j < first + length (build_types ht))
    then f (j - first) <$> columns !! j else columns !! j.
Proof. apply lookup_alter_columns. Qed.

Lemma length_alter_columns (f : nat -> Vector -> Vector) first l :
  forall columns : list Vector,
    length (foldl (fun cols i => alter (f i) (first + i) cols) columns l) = length columns.
Proof.
  induction l as [| i l IH]; intros columns; cbn [foldl]; [reflexivity |].
  rewrite IH. apply length_alter.
Qed.

(** One call of [ScanFullOuter]. *)
Lemma ScanFullOuter_spec ht mem result state addresses :
  0 < STANDARD_VECTOR_SIZE ->
  STANDARD_VECTOR_SIZE <= length addresses ->
  let todo := unmatched_rows ht mem state in
  exists chunk state' key_locations,
    ScanFullOuter ht mem result state addresses = (chunk, state', key_locations)
    /\ size chunk = STANDARD_VECTOR_SIZE `min` length todo
    /\ take (size chunk) key_locations = take STANDARD_VECTOR_SIZE todo
    /\ unmatched_rows ht mem state' = drop STANDARD_VECTOR_SIZE todo
    /\ (0 < size chunk -> full_outer_columns ht mem result chunk key_locations).
Proof.
  intros Hvec Hcap todo. unfold ScanFullOuter.
  destruct (ScanFullOuter_blocks_spec ht mem Hvec
              (length (blocks (block_collection ht)) - block_position state) state addresses 0)
    as (state' & kl & fe & Heq & Hfe & Htake & _ & Hrest); [reflexivity | lia | exact Hcap |].
  fold todo in Hfe, Htake, Hrest. rewrite Nat.sub_0_r in Htake, Hrest.
  rewrite take_0 in Htake. cbn [Nat.add app] in Hfe, Htake. rewrite Heq.
  eexists _, state', kl. split; [reflexivity |].
  destruct (decide (0 < fe)) as [Hsome | Hnone]; cbn [size].
  - split; [exact Hfe |]. split; [exact Htake |]. split; [exact Hrest |].
    intros _. unfold full_outer_columns, ColumnCount. cbn [data size].
    set (left_column_count := length (data result) - length (build_types ht)).
    split.
    { unfold gather_build_columns. rewrite length_alter_columns, length_app, length_fmap.
      rewrite length_take, length_drop. lia. }
    split.
    + intros i Hi. rewrite lookup_gather_build_columns.
      destruct (decide (left_column_count <= i < _)); [lia |].
      rewrite lookup_app_l by (rewrite length_fmap, length_take; lia).
      rewrite list_lookup_fmap, lookup_take_lt by exact Hi.
      destruct (data result !! i) eqn:Hcol; [reflexivity |].
      apply lookup_ge_None in Hcol. lia.
    + intros i vector Hi Hcol. rewrite lookup_gather_build_columns.
      destruct (decide (left_column_count <= left_column_count + i < _)); [| lia].
      assert (Hleft : length ((fun _ : Vector => CONSTANT_VECTOR 0 true)
                                <$> take left_column_count (data result)) = left_column_count).
      { rewrite length_fmap, length_take. apply lookup_lt_Some in Hcol. lia. }
      rewrite lookup_app_r by lia. rewrite Hleft, lookup_drop.
      replace (left_column_count + (left_column_count + i - left_column_count))
        with (left_column_count + i) by lia.
      rewrite Hcol. cbn [fmap option_fmap option_map].
      replace (left_column_count + i - left_column_count) with i by lia. reflexivity.
  - split; [exact Hfe |]. split; [exact Htake |]. split; [exact Hrest |]. lia.
Qed.

Lemma ScanFullOuter_all_spec ht mem result :
  0 < STANDARD_VECTOR_SIZE ->
  forall fuel state,
    length (unmatched_rows ht mem state) < fuel ->
    exists chunks,
      ScanFullOuter_all fuel ht mem result state = Some chunks
      /\ concat (snd <$> chunks) = unmatched_rows ht mem state
      /\ Forall (fun out =>
                   0 < size (fst out) <= STANDARD_VECTOR_SIZE
                   /\ length (snd out) = size (fst out)
                   /\ exists key_locations,
                        take (size (fst out)) key_locations = snd out
                        /\ full_outer_columns ht mem result (fst out) key_locations)
                chunks.
Proof.
  intros Hvec. induction fuel as [| fuel IH]; intros state Hfuel; [lia |].
  cbn [ScanFullOuter_all].
  destruct (ScanFullOuter_spec ht mem result state (replicate STANDARD_VECTOR_SIZE 0%Z) Hvec)
    as (chunk & state' & kl & Heq & Hsize & Htake & Hrest & Hcolumns);
    [rewrite length_replicate; reflexivity |].
  rewrite Heq. set (todo := unmatched_rows ht mem state) in *.
  destruct (decide (size chunk = 0)) as [Hempty | Hsome].
  - exists []. split; [reflexivity |]. split; [| constructor].
    destruct todo; [reflexivity | cbn in Hsize; lia].
  - destruct (IH state') as (chunks & Hall & Hconcat & Hchunks).
    { rewrite Hrest, length_drop. lia. }
    rewrite Hall. exists ((chunk, take (size chunk) kl) :: chunks).
    split; [reflexivity |]. split.
    + cbn [fmap list_fmap concat snd]. rewrite Hconcat, Hrest, Htake. apply take_drop.
    + constructor; [| exact Hchunks]. cbn [fst snd].
      split; [lia |]. split; [rewrite Htake, length_take; lia |].
      exists kl. split; [reflexivity |]. apply Hcolumns. lia.
Qed.

(** C3: once the probe side is exhausted, the calls of [ScanFullOuter] from
    the start of the table visit every build row and emit, in the order of
    the rows, exactly the rows whose found flag is false; a row whose flag is
    true is not emitted.  In every chunk emitted the probe-side columns are a
    constant NULL and the build-side columns are gathered from the rows. *)
Theorem ScanFullOuter_emits_unmatched_rows (ht : JoinHashTable) (mem : Memory)
    (result : DataChunk) (fuel : nat) :
  0 < STANDARD_VECTOR_SIZE ->
  let start := {| position := 0; block_position := 0 |} in
  let all_rows := rows_to_scan ht start in
  length (List.filter (unfound ht mem) all_rows) < fuel ->
  exists chunks,
    ScanFullOuter_all fuel ht mem result start = Some chunks
    /\ concat (snd <$> chunks) = List.filter (unfound ht mem) all_rows
    /\ (forall addr, addr ∈ concat (snd <$> chunks) <->
                     addr ∈ all_rows /\ Load mem (addr + tuple_size ht)%Z = 0%Z)
    /\ Forall (fun out =>
                 0 < size (fst out) <= STANDARD_VECTOR_SIZE
                 /\ length (snd out) = size (fst out)
                 /\ exists key_locations,
                      take (size (fst out)) key_locations = snd out
                      /\ full_outer_columns ht mem result (fst out) key_locations)
              chunks.
Proof.
  intros Hvec start all_rows Hfuel.
  destruct (ScanFullOuter_all_spec ht mem result Hvec fuel start Hfuel)
    as (chunks & Hall & Hconcat & Hchunks).
  exists chunks. split; [exact Hall |]. split; [exact Hconcat |]. split; [| exact Hchunks].
  intros addr. rewrite Hconcat. unfold unmatched_rows. fold all_rows.
  rewrite elem_of_List_filter. unfold unfound. rewrite bool_decide_eq_true. reflexivity.
Qed.

(** ** Probing an empty table *)

Lemma lookup_total_replicate_nullptr n slot : replicate n nullptr !!! slot = nullptr.
Proof.
  destruct (decide (slot < n)) as [Hlt | Hge].
  - apply lookup_total_replicate_2. exact Hlt.
  - rewrite list_lookup_total_alt, (proj1 (lookup_replicate_None _ _ _)) by lia. reflexivity.
Qed.

Lemma InitializeSelectionVector_from_empty ht current_sel n :
  all_slots_null ht ->
  forall i ptrs sel_vector non_empty_count reads,
    exists ptrs' reads',
      InitializeSelectionVector_from ht current_sel n i ptrs sel_vector non_empty_count reads
        = (ptrs', sel_vector, non_empty_count, reads')
      /\ length reads' = length reads + n.
Proof.
  intros Hnull. induction n as [| n IH]; intros i ptrs sel_vector nc reads;
    cbn [InitializeSelectionVector_from].
  - exists ptrs, reads. split; [reflexivity | lia].
  - set (idx := sel_read current_sel sel_vector i).
    set (slot := Z.to_nat (ptrs !!! idx)).
    assert (Hhead : <[idx := hash_map ht !!! slot]> ptrs !!! idx = nullptr).
    { rewrite Hnull. destruct (decide (idx < length ptrs)) as [Hlt | Hge].
      - apply list_lookup_total_insert_eq. exact Hlt.
      - rewrite list_insert_ge by lia. rewrite list_lookup_total_alt.
        rewrite (proj2 (lookup_ge_None _ _)) by lia. reflexivity. }
    rewrite Hhead. destruct (decide (nullptr <> nullptr)); [contradiction |].
    destruct (IH (S i) (<[idx := hash_map ht !!! slot]> ptrs) sel_vector nc (reads ++ [slot]))
      as (ptrs' & reads' & Heq & Hlen).
    exists ptrs', reads'. split; [exact Heq |]. rewrite Hlen, length_app. cbn. lia.
Qed.

(** A table without rows, finalized. *)
Lemma Finalize_empty ht mem :
  blocks (block_collection ht) = [] ->
  Finalize ht mem = Some (with_finalized true (Finalize_allocate ht), mem)
  /\ all_slots_null (with_finalized true (Finalize_allocate ht)).
Proof.
  intros Hblocks. unfold Finalize. rewrite Hblocks. split; [reflexivity |].
  intros slot. apply lookup_total_replicate_nullptr.
Qed.

(** C8, as the code has it: [Build] with no rows leaves a table that
    [Finalize] finishes with every slot of the hash map null.  [Probe] asserts
    that the table has rows, the empty table being the caller's to handle,
    and with the assertion checked it fails.  With the assertion compiled out
    [Probe] returns a cursor with [count = 0]; it reads one slot of the hash
    map for every row of the batch that survives key preparation (none when
    no row survives) and finds it null.  [Probe] does not write the hash map,
    which it only takes as an argument. *)
Theorem Probe_empty_table (ht : JoinHashTable) (mem : Memory) (keys : DataChunk) :
  Count ht = 0 ->
  blocks (block_collection ht) = [] ->
  size keys <= STANDARD_VECTOR_SIZE ->
  exists ht',
    Finalize ht mem = Some (ht', mem)
    /\ finalized ht' = true /\ Count ht' = 0 /\ all_slots_null ht'
    /\ Probe true ht' keys = None
    /\ exists ss reads,
         Probe false ht' keys = Some (ss, reads)
         /\ ss_count ss = 0
         /\ length reads = length (surviving_rows ht keys)
         /\ (surviving_rows ht keys = [] -> reads = []).
Proof.
  intros Hcount Hblocks Hsize.
  destruct (Finalize_empty ht mem Hblocks) as [Hfin Hnull].
  set (ht' := with_finalized true (Finalize_allocate ht)) in *.
  exists ht'. split; [exact Hfin |]. split; [reflexivity |]. split; [exact Hcount |].
  split; [exact Hnull |].
  assert (Hcount' : Count ht' = 0) by exact Hcount.
  split.
  { unfold Probe, InitializeScanStructure. rewrite Hcount'. reflexivity. }
  unfold Probe, InitializeScanStructure. cbn [andb].
  destruct (PrepareKeys_spec ht' keys (replicate STANDARD_VECTOR_SIZE 0) false)
    as (kd & cs & sl & ac & HPK & _ & _ & _ & Hlen & Hlanes);
    [rewrite length_replicate; exact Hsize |].
  rewrite HPK. cbn [andb] in Hlanes. cbn [ss_count sel_vector pointers].
  assert (Hac : ac = length (surviving_rows ht keys)).
  { rewrite <- Hlen, Hlanes. reflexivity. }
  destruct (decide (ac = 0)) as [Hzero | Hnonzero].
  - eexists _, []. split; [reflexivity |]. cbn [ss_count]. split; [exact Hzero |].
    split; [cbn; lia | reflexivity].
  - unfold InitializeSelectionVector. cbn [ss_count sel_vector pointers with_cursor].
    match goal with
    | |- context [InitializeSelectionVector_from ht' cs ac 0 ?ptrs sl 0 []] =>
        destruct (InitializeSelectionVector_from_empty ht' cs ac Hnull 0 ptrs sl 0 [])
          as (ptrs' & reads' & Heq & Hreads)
    end.
    rewrite Heq. eexists _, reads'. split; [reflexivity |]. cbn [ss_count with_cursor].
    split; [reflexivity |]. split; [cbn in Hreads; lia |].
    intros Hnone. rewrite Hnone in Hac. cbn in Hac. lia.
Qed.

(** ** The mark of a mark join *)

Lemma SetInvalid_spec mask i j :
  mask_covers mask -> i < STANDARD_VECTOR_SIZE ->
  mask_covers (SetInvalid STANDARD_VECTOR_SIZE mask i)
  /\ RowIsValid (SetInvalid STANDARD_VECTOR_SIZE mask i) j
     = RowIsValid mask j && negb (bool_decide (j = i)).
Proof.
  intros Hcovers Hi. destruct mask as [bits |]; cbn [SetInvalid RowIsValid mask_covers] in *.
  - split; [rewrite length_insert; exact Hcovers |]. case_bool_decide as Hj.
    + subst j. rewrite list_lookup_insert_eq by lia. rewrite andb_false_r. reflexivity.
    + rewrite list_lookup_insert_ne by congruence. rewrite andb_true_r. reflexivity.
  - split; [rewrite length_insert, length_replicate; reflexivity |]. case_bool_decide as Hj.
    + subst j. rewrite list_lookup_insert_eq by (rewrite length_replicate; lia). reflexivity.
    + rewrite list_lookup_insert_ne by congruence.
      destruct (replicate STANDARD_VECTOR_SIZE true !! j) as [b |] eqn:Hb; [| reflexivity].
      apply lookup_replicate in Hb as [-> _]. reflexivity.
Qed.

Lemma ValiditySet_spec mask i valid j :
  mask_covers mask -> i < STANDARD_VECTOR_SIZE ->
  mask_covers (ValiditySet STANDARD_VECTOR_SIZE mask i valid)
  /\ RowIsValid (ValiditySet STANDARD_VECTOR_SIZE mask i valid) j
     = if bool_decide (j = i) then valid else RowIsValid mask j.
Proof.
  intros Hcovers Hi. destruct valid; cbn [ValiditySet].
  - destruct mask as [bits |]; cbn [SetValid RowIsValid mask_covers] in *.
    + split; [rewrite length_insert; exact Hcovers |]. case_bool_decide as Hj.
      * subst j. rewrite list_lookup_insert_eq by lia. reflexivity.
      * rewrite list_lookup_insert_ne by congruence. reflexivity.
    + split; [exact I |]. case_bool_decide; reflexivity.
  - destruct (SetInvalid_spec mask i j Hcovers Hi) as [Hc ->]. split; [exact Hc |].
    case_bool_decide; [apply andb_false_r | apply andb_true_r].
Qed.

(** The loop over one key column writes the validity of the column over the
    mask, row by row. *)
Lemma mark_column_nulls_spec jdata n :
  n <= STANDARD_VECTOR_SIZE ->
  forall mask j,
    mask_covers mask ->
    mask_covers (mark_column_nulls jdata n mask)
    /\ RowIsValid (mark_column_nulls jdata n mask) j
       = if bool_decide (j < n) then negb (vd_is_null jdata j) else RowIsValid mask j.
Proof.
  unfold mark_column_nulls. induction n as [| n IH]; intros Hn mask j Hcovers.
  - cbn. split; [exact Hcovers |]. case_bool_decide; [lia | reflexivity].
  - rewrite seq_S, foldl_app. cbn [foldl Nat.add].
    destruct (IH ltac:(lia) mask j Hcovers) as [Hcovers' Hvalid].
    match goal with
    | |- context [ValiditySet _ ?m n ?b] =>
        destruct (ValiditySet_spec m n b j Hcovers' ltac:(lia)) as [Hc Hv]
    end.
    split; [exact Hc |]. rewrite Hv, Hvalid. unfold vd_is_null, RowIsValidUnsafe.
    repeat case_bool_decide; subst; try lia; rewrite ?negb_involutive; reflexivity.
Qed.

(** The loop for a build side with nulls turns every FALSE into NULL. *)
Lemma mark_has_null_spec (bool_result : list Z) n :
  n <= STANDARD_VECTOR_SIZE ->
  forall mask j,
    mask_covers mask ->
    let mask' :=
      foldl (fun m i =>
               if decide (bool_result !!! i = 0%Z) then SetInvalid STANDARD_VECTOR_SIZE m i else m)
            mask (seq 0 n) in
    mask_covers mask'
    /\ RowIsValid mask' j
       = RowIsValid mask j
         && negb (bool_decide (j < n) && bool_decide (bool_result !!! j = 0%Z)).
Proof.
  induction n as [| n IH]; intros Hn mask j Hcovers.
  - cbn. split; [exact Hcovers |]. case_bool_decide; [lia |]. cbn. rewrite andb_true_r. reflexivity.
  - cbn zeta. rewrite seq_S, foldl_app. cbn [foldl Nat.add].
    destruct (IH ltac:(lia) mask j Hcovers) as [Hcovers' Hvalid]. cbn zeta in Hcovers', Hvalid.
    destruct (decide (bool_result !!! n = 0%Z)) as [Hzero | Hone].
    + match goal with
      | |- context [SetInvalid _ ?m n] =>
          destruct (SetInvalid_spec m n j Hcovers' ltac:(lia)) as [Hc Hv]
      end.
      split; [exact Hc |]. rewrite Hv, Hvalid.
      repeat case_bool_decide; subst; try lia; try contradiction;
        destruct (RowIsValid mask j); reflexivity.
    + split; [exact Hcovers' |]. rewrite Hvalid.
      repeat case_bool_decide; subst; try lia; try contradiction;
        destruct (RowIsValid mask j); try reflexivity.
      all: assert (j = n) by lia; subst; contradiction.
Qed.

Lemma found_to_bool_result (fm : list bool) n :
  forall (bool_result : list Z) j,
    n <= length bool_result ->
    foldl (fun r i => <[i := Z.b2z (fm !!! i)]> r) bool_result (seq 0 n) !!! j
    = if bool_decide (j < n) then Z.b2z (fm !!! j) else bool_result !!! j.
Proof.
  induction n as [| n IH]; intros bool_result j Hn.
  - cbn. case_bool_decide; [lia | reflexivity].
  - rewrite seq_S, foldl_app. cbn [foldl Nat.add].
    assert (Hlen : forall m (r : list Z),
              length (foldl (fun r i => <[i := Z.b2z (fm !!! i)]> r) r (seq 0 m)) = length r).
    { clear. induction m as [| m IHm]; intros r; [reflexivity |].
      rewrite seq_S, foldl_app. cbn [foldl]. rewrite length_insert. apply IHm. }
    destruct (decide (j = n)) as [-> | Hne].
    + rewrite list_lookup_total_insert_eq by (rewrite Hlen; lia).
      case_bool_decide; [reflexivity | lia].
    + rewrite list_lookup_total_insert_ne by congruence. rewrite IH by lia.
      repeat case_bool_decide; try lia; reflexivity.
Qed.

(** With a single key column the mark is three-valued as C1 says: NULL when
    the key of the row is null or when the build side has a null and the row
    found no match, and otherwise [true] exactly when the row found a match. *)
Lemma ConstructMarkJoinResult_single_key ht ss column child buffer fm :
  found_match ss = Some fm ->
  null_values_are_equal ht !!! 0 = false ->
  size child <= STANDARD_VECTOR_SIZE ->
  size child <= length buffer ->
  let join_keys := {| data := [column]; size := size child |} in
  let mark := ConstructMarkJoinResult_mark ht ss join_keys child (FLAT_VECTOR buffer None) in
  forall i, i < size child ->
    fst mark !!! i = Z.b2z (fm !!! i)
    /\ (RowIsValid (snd mark) i = false
        <-> vd_is_null (Orrify column (size child)) i = true
            \/ (has_null ht = true /\ fm !!! i = false)).
Proof.
  intros Hfound Hflag Hsize Hbuffer join_keys mark. subst mark.
  unfold ConstructMarkJoinResult_mark. cbn [SetVectorType_FLAT]. rewrite Hfound.
  subst join_keys. cbn [data size mark_key_nulls]. rewrite Hflag.
  set (jdata := Orrify column (size child)).
  set (mask1 := if negb (AllValid (vd_validity jdata))
                then mark_column_nulls jdata (size child) None else None).
  assert (Hmask1 : mask_covers mask1
                   /\ forall j, j < size child -> RowIsValid mask1 j = negb (vd_is_null jdata j)).
  { subst mask1. destruct (vd_validity jdata) as [bits |] eqn:Hvalidity; cbn [AllValid negb].
    - split; [apply (mark_column_nulls_spec jdata (size child) Hsize None 0 I) |].
      intros j Hj. destruct (mark_column_nulls_spec jdata (size child) Hsize None j I) as [_ ->].
      case_bool_decide; [reflexivity | lia].
    - split; [exact I |]. intros j _. unfold vd_is_null. rewrite Hvalidity. reflexivity. }
  destruct Hmask1 as [Hcovers Hmask1].
  set (bool_result := foldl (fun (r : list Z) i0 => <[i0 := Z.b2z (fm !!! i0)]> r) buffer
                           (seq 0 (size child))).
  assert (Hbool : forall j, j < size child -> bool_result !!! j = Z.b2z (fm !!! j)).
  { intros j Hj. subst bool_result. rewrite found_to_bool_result by exact Hbuffer.
    case_bool_decide; [reflexivity | lia]. }
  intros i Hi. cbn [fst snd]. split; [apply Hbool; exact Hi |].
  destruct (has_null ht).
  - destruct (mark_has_null_spec bool_result (size child) Hsize mask1 i Hcovers) as [_ Hvalid].
    cbn zeta in Hvalid. rewrite Hvalid, Hbool, Hmask1 by exact Hi.
    rewrite bool_decide_eq_true_2 by exact Hi.
    destruct (fm !!! i), (vd_is_null jdata i); cbn; split; intros H;
      try reflexivity; try discriminate; try (left; reflexivity); try (right; split; reflexivity).
    all: destruct H as [H | [_ H]]; discriminate.
  - rewrite Hmask1 by exact Hi. destruct (vd_is_null jdata i); cbn; split; intros H;
      try reflexivity; try discriminate; try (left; reflexivity).
    destruct H as [H | [H _]]; discriminate.
Qed.

(** ** A table as constructed, and what [Finalize] pins *)

Lemma JoinHashTable_new_fresh conditions btypes type :
  let ht := JoinHashTable_new conditions btypes type in
  has_null ht = false /\ finalized ht = false /\ Count ht = 0
  /\ blocks (block_collection ht) = [] /\ join_type ht = type.
Proof. repeat split. Qed.

(** Batches without rows leave the table as it was. *)
Lemma Build_all_zero_rows batches :
  forall ht mem,
    Forall (fun b => size (fst b) = 0) batches -> Build_all ht mem batches = (ht, mem).
Proof.
  induction batches as [| [keys payload] rest IH]; intros ht mem Hall; [reflexivity |].
  inversion Hall as [| ? ? Hsize Hrest]; subst. cbn [fst] in Hsize.
  unfold Build_all in *. cbn [foldl fst snd]. unfold Build at 2.
  destruct (decide (size keys = 0)); [| contradiction]. apply IH. exact Hrest.
Qed.

Lemma InsertHashes_pinned_handles ht hashes count key_locations mem :
  pinned_handles (fst (InsertHashes ht hashes count key_locations mem)) = pinned_handles ht.
Proof.
  unfold InsertHashes. destruct (InsertHashes_from _ _ _ _ _ _ _) as [pointers mem'].
  reflexivity.
Qed.

Lemma Finalize_block_pinned_handles fuel :
  forall ht mem block dataptr entry ht' mem',
    Finalize_block fuel ht mem block dataptr entry = Some (ht', mem') ->
    pinned_handles ht' = pinned_handles ht.
Proof.
  induction fuel as [| fuel IH]; intros ht mem block dataptr entry ht' mem';
    cbn [Finalize_block]; destruct (decide (entry < block_count block)); try discriminate;
    try (intros [= <- <-]; reflexivity).
  match goal with
  | |- context [InsertHashes ht ?h ?c ?k mem] =>
      pose proof (InsertHashes_pinned_handles ht h c k mem) as Hpinned;
      destruct (InsertHashes ht h c k mem) as [ht1 mem1]
  end.
  cbn [fst] in Hpinned. intros H. apply IH in H. congruence.
Qed.

Lemma Finalize_blocks_pinned_handles bs :
  forall ht mem ht' mem',
    Finalize_blocks ht mem bs = Some (ht', mem') ->
    pinned_handles ht' = pinned_handles ht ++ (block_ptr <$> bs).
Proof.
  induction bs as [| block rest IH]; intros ht mem ht' mem'; cbn [Finalize_blocks].
  - intros [= <- <-]. rewrite app_nil_r. reflexivity.
  - destruct (Finalize_block _ _ _ _ _ _) as [[ht1 mem1] |] eqn:Hblock; [| discriminate].
    apply Finalize_block_pinned_handles in Hblock. intros H. apply IH in H.
    rewrite H. cbn [pinned_handles with_pinned_handles fmap list_fmap].
    rewrite Hblock, <- app_assoc. reflexivity.
Qed.

(** [Finalize] keeps the blocks and pins every one of them, in order: the
    scan for unmatched rows reads the blocks at the addresses the rows were
    inserted from. *)
Lemma Finalize_pins_blocks ht mem ht' mem' :
  Finalize ht mem = Some (ht', mem') ->
  block_collection ht' = block_collection ht
  /\ entry_size ht' = entry_size ht
  /\ pinned_handles ht' = pinned_handles ht ++ (block_ptr <$> blocks (block_collection ht)).
Proof.
  unfold Finalize.
  destruct (Finalize_blocks _ _ _) as [[ht1 mem1] |] eqn:Hblocks; [| discriminate].
  intros [= <- <-]. pose proof (Finalize_blocks_same_shape _ _ _ _ _ Hblocks) as (_ & _ & He & _ & Hb).
  apply Finalize_blocks_pinned_handles in Hblocks. auto.
Qed.

(** With every block pinned at its own address, the scan goes through the
    rows of the table in the order in which [Finalize] inserted them. *)
Lemma scan_rows_blocks_rows ht mem :
  pinned_handles ht = block_ptr <$> blocks (block_collection ht) ->
  forall n bp,
    n = length (blocks (block_collection ht)) - bp ->
    scan_rows ht n bp 0 = snd <$> blocks_rows ht mem (drop bp (blocks (block_collection ht))).
Proof.
  intros Hpinned. induction n as [| n IH]; intros bp Hn; cbn [scan_rows].
  - rewrite drop_ge by lia. reflexivity.
  - destruct (blocks (block_collection ht) !! bp) as [block |] eqn:Hblock;
      [| apply lookup_ge_None in Hblock; lia].
    rewrite (drop_S _ _ _ Hblock). unfold blocks_rows. cbn [fmap list_fmap concat].
    fold (blocks_rows ht mem (drop (S bp) (blocks (block_collection ht)))).
    rewrite fmap_app, snd_block_rows, <- IH by lia. f_equal.
    rewrite Hpinned, Nat.sub_0_r.
    rewrite (list_lookup_total_correct _ _ (block_ptr block))
      by (rewrite list_lookup_fmap, Hblock; reflexivity).
    reflexivity.
Qed.

Lemma rows_to_scan_table_rows ht mem :
  pinned_handles ht = block_ptr <$> blocks (block_collection ht) ->
  rows_to_scan ht {| position := 0; block_position := 0 |} = snd <$> table_rows ht mem.
Proof.
  intros Hpinned. unfold rows_to_scan, table_rows. cbn [block_position position].
  rewrite (scan_rows_blocks_rows ht mem Hpinned) by reflexivity. reflexivity.
Qed.

(** ** The rows that key preparation selects *)

(** X1: [PrepareKeys] selects, in the order of the batch, exactly the rows
    that have no null in any column of the key chunk whose null-equals flag is
    false, and [added_count] is their number; on the build side of a right or
    full outer join it selects every row.  The selection buffer holds a whole
    batch. *)
Theorem PrepareKeys_selects_rows_without_null (ht : JoinHashTable) (keys : DataChunk)
    (sel : list nat) (build_side : bool) :
  size keys <= length sel ->
  exists key_data current_sel sel' added_count,
    PrepareKeys ht keys sel build_side = (key_data, current_sel, sel', added_count)
    /\ key_data = DataChunk_Orrify keys
    /\ length (sel_lanes current_sel sel' added_count) = added_count
    /\ added_count <= size keys
    /\ sublist (sel_lanes current_sel sel' added_count) (seq 0 (size keys))
    /\ forall r,
         r ∈ sel_lanes current_sel sel' added_count
         <-> r < size keys
             /\ (build_side && IsRightOuterJoin (join_type ht) = true
                 \/ forall c vdata,
                      DataChunk_Orrify keys !! c = Some vdata ->
                      null_values_are_equal ht !!! c = false ->
                      vd_is_null vdata r = false).
Proof.
  intros Hcap.
  destruct (PrepareKeys_spec ht keys sel build_side Hcap)
    as (key_data & current_sel & sel' & added_count & Heq & Hdata & _ & _ & Hlen & Hlanes).
  exists key_data, current_sel, sel', added_count.
  split; [exact Heq |]. split; [exact Hdata |]. split; [exact Hlen |].
  assert (added_count <= size keys /\ sublist (sel_lanes current_sel sel' added_count)
                                               (seq 0 (size keys))) as [Hle Hsub].
  { rewrite <- Hlen at 1. rewrite Hlanes.
    destruct (build_side && IsRightOuterJoin (join_type ht)).
    - rewrite length_seq. split; [lia | reflexivity].
    - unfold surviving_rows. split; [| apply sublist_List_filter].
      etransitivity; [apply filter_length_le |]. rewrite length_seq. reflexivity. }
  split; [exact Hle |]. split; [exact Hsub |]. rewrite Hlanes.
  destruct (build_side && IsRightOuterJoin (join_type ht)) eqn:Hkeep.
  - intros r. rewrite elem_of_seq. split.
    + intros Hr. split; [lia | left; reflexivity].
    + intros [Hr _]. lia.
  - unfold surviving_rows.
    intros r. rewrite elem_of_List_filter, elem_of_seq, negb_true_iff. split.
    + intros [Hr Hnull]. split; [lia |]. right. intros c vdata Hc Hflag.
      destruct (vd_is_null vdata r) eqn:Hv; [| reflexivity].
      assert (null_in_keys (null_values_are_equal ht) (DataChunk_Orrify keys) 0 r = true) as Htrue.
      { apply null_in_keys_true. exists c, vdata. cbn [Nat.add]. auto. }
      congruence.
    + intros [Hr [Hfalse | Hvalid]]; [discriminate |]. split; [lia |].
      destruct (null_in_keys (null_values_are_equal ht) (DataChunk_Orrify keys) 0 r) eqn:Hn;
        [| reflexivity].
      apply null_in_keys_true in Hn. destruct Hn as (c & vdata & Hc & Hflag & Hv).
      cbn [Nat.add] in Hflag. rewrite (Hvalid c vdata Hc Hflag) in Hv. discriminate.
Qed.

(** ** What [Finalize] changes *)

Lemma with_hash_map_idem hm mask ht :
  with_hash_map hm mask (with_hash_map (hash_map ht) (bitmask ht) ht) = with_hash_map hm mask ht.
Proof. reflexivity. Qed.

Lemma InsertHashes_table ht hashes count key_locations mem :
  fst (InsertHashes ht hashes count key_locations mem)
  = with_hash_map (hash_map (fst (InsertHashes ht hashes count key_locations mem))) (bitmask ht) ht.
Proof.
  unfold InsertHashes. destruct (InsertHashes_from _ _ _ _ _ _ _) as [pointers mem'].
  reflexivity.
Qed.

Lemma Finalize_block_table fuel :
  forall ht mem block dataptr entry ht' mem',
    Finalize_block fuel ht mem block dataptr entry = Some (ht', mem') ->
    ht' = with_hash_map (hash_map ht') (bitmask ht) ht.
Proof.
  induction fuel as [| fuel IH]; intros ht mem block dataptr entry ht' mem';
    cbn [Finalize_block]; destruct (decide (entry < block_count block)); try discriminate;
    try (intros [= <- <-]; destruct ht; reflexivity).
  match goal with
  | |- context [InsertHashes ht ?h ?c ?k mem] =>
      pose proof (InsertHashes_table ht h c k mem) as Htable;
      destruct (InsertHashes ht h c k mem) as [ht1 mem1]
  end.
  cbn [fst] in Htable. intros H. apply IH in H. rewrite H, Htable. reflexivity.
Qed.

Lemma Finalize_blocks_table bs :
  forall ht mem ht' mem',
    Finalize_blocks ht mem bs = Some (ht', mem') ->
    ht' = with_pinned_handles (pinned_handles ht ++ (block_ptr <$> bs))
            (with_hash_map (hash_map ht') (bitmask ht) ht).
Proof.
  induction bs as [| block rest IH]; intros ht mem ht' mem'; cbn [Finalize_blocks].
  - intros [= <- <-]. rewrite app_nil_r. destruct ht; reflexivity.
  - destruct (Finalize_block _ _ _ _ _ _) as [[ht1 mem1] |] eqn:Hblock; [| discriminate].
    apply Finalize_block_table in Hblock. intros H. apply IH in H.
    rewrite H, Hblock. cbn [fmap list_fmap]. cbn [pinned_handles with_pinned_handles with_hash_map bitmask].
    rewrite <- app_assoc. reflexivity.
Qed.

(** The loop over the rows of a block comes to an end: every round inserts
    at least one row. *)
Lemma Finalize_block_returns block :
  0 < STANDARD_VECTOR_SIZE ->
  forall fuel ht mem dataptr entry,
    block_count block - entry <= fuel ->
    exists ht' mem', Finalize_block fuel ht mem block dataptr entry = Some (ht', mem').
Proof.
  intros Hsize. induction fuel as [| fuel IH]; intros ht mem dataptr entry Hfuel;
    cbn [Finalize_block]; destruct (decide (entry < block_count block)); try lia; eauto.
  destruct (InsertHashes _ _ _ _ _) as [ht1 mem1]. apply IH. lia.
Qed.

Lemma Finalize_blocks_returns bs :
  0 < STANDARD_VECTOR_SIZE ->
  forall ht mem, exists ht' mem', Finalize_blocks ht mem bs = Some (ht', mem').
Proof.
  intros Hsize. induction bs as [| block rest IH]; intros ht mem; cbn [Finalize_blocks]; eauto.
  destruct (Finalize_block_returns block Hsize (block_count block) ht mem (block_ptr block) 0)
    as (ht1 & mem1 & ->); [lia |].
  apply IH.
Qed.

(** X2: [Finalize] returns for every table (the vector size is not zero).  It
    allocates the hash map, pins every block in order and sets [finalized];
    every other field of the table (the conditions and types, the layout, the
    blocks and the string heap, the histogram, [has_null], the join type) is
    as it was. *)
Theorem Finalize_changes_only_the_hash_map (ht : JoinHashTable) (mem : Memory) :
  0 < STANDARD_VECTOR_SIZE ->
  exists ht' mem',
    Finalize ht mem = Some (ht', mem')
    /\ ht' = with_finalized true
               (with_pinned_handles
                  (pinned_handles ht ++ (block_ptr <$> blocks (block_collection ht)))
                  (with_hash_map (hash_map ht') (wrap64 (Finalize_capacity ht - 1)) ht))
    /\ length (hash_map ht') = Z.to_nat (Finalize_capacity ht).
Proof.
  intros Hsize. unfold Finalize.
  destruct (Finalize_blocks_returns (blocks (block_collection ht)) Hsize (Finalize_allocate ht) mem)
    as (ht1 & mem1 & Hblocks).
  rewrite Hblocks. exists (with_finalized true ht1), mem1. split; [reflexivity |].
  pose proof (Finalize_blocks_same_shape _ _ _ _ _ Hblocks) as (_ & Hlen & _).
  apply Finalize_blocks_table in Hblocks. split.
  - rewrite Hblocks at 1. reflexivity.
  - cbn [hash_map with_finalized]. rewrite Hlen. unfold Finalize_allocate.
    cbn [hash_map with_hash_map]. apply length_replicate.
Qed.

(** The rows of a block from [dataptr] on lie at [dataptr + k * entry_size]. *)
Lemma Finalize_block_frame fuel :
  forall ht mem block dataptr entry ht' mem' addr,
    Finalize_block fuel ht mem block dataptr entry = Some (ht', mem') ->
    (forall k, k < block_count block - entry ->
               (dataptr + Z.of_nat k * entry_size ht + pointer_offset ht)%Z <> addr) ->
    Load mem' addr = Load mem addr.
Proof.
  induction fuel as [| fuel IH]; intros ht mem block dataptr entry ht' mem' addr;
    cbn [Finalize_block]; destruct (decide (entry < block_count block)); try discriminate;
    try (intros [= <- <-]; reflexivity).
  set (next := STANDARD_VECTOR_SIZE `min` (block_count block - entry)).
  set (hash_data := (fun i => Load mem (dataptr + Z.of_nat i * entry_size ht + pointer_offset ht)%Z)
                      <$> seq 0 next).
  set (key_locations := (fun i => (dataptr + Z.of_nat i * entry_size ht)%Z) <$> seq 0 next).
  rewrite (InsertHashes_flat ht hash_data None next key_locations mem)
    by (subst hash_data; rewrite length_fmap, length_seq; reflexivity).
  intros Hrest Hother.
  eapply IH in Hrest.
  - rewrite Hrest. apply push_rows_Load_other. intros row Hrow.
    apply list_elem_of_fmap in Hrow as (j & -> & Hj). apply elem_of_seq in Hj.
    cbn [snd]. subst key_locations.
    rewrite lookup_total_fmap_seq by lia. apply Hother. subst next. lia.
  - cbn [entry_size pointer_offset with_hash_map]. intros k Hk.
    replace (dataptr + Z.of_nat next * entry_size ht + Z.of_nat k * entry_size ht)%Z
      with (dataptr + Z.of_nat (next + k) * entry_size ht)%Z by lia.
    apply Hother. subst next. lia.
Qed.

Lemma Finalize_blocks_frame bs :
  forall ht mem ht' mem' addr,
    Finalize_blocks ht mem bs = Some (ht', mem') ->
    (forall block k, block ∈ bs -> k < block_count block ->
                     (row_addr ht block k + pointer_offset ht)%Z <> addr) ->
    Load mem' addr = Load mem addr.
Proof.
  induction bs as [| block rest IH]; intros ht mem ht' mem' addr; cbn [Finalize_blocks].
  - intros [= <- <-] _. reflexivity.
  - destruct (Finalize_block _ _ _ _ _ _) as [[ht1 mem1] |] eqn:Hblock; [| discriminate].
    intros Hrest Hother.
    pose proof (Finalize_block_same_shape _ _ _ _ _ _ _ _ Hblock) as (_ & _ & Hes & Hoff & _).
    eapply IH in Hrest.
    + rewrite Hrest. eapply Finalize_block_frame; [exact Hblock |].
      intros k Hk. apply (Hother block k); [left | lia].
    + intros b k Hb Hk. unfold row_addr.
      cbn [entry_size pointer_offset with_pinned_handles]. rewrite Hes, Hoff.
      apply (Hother b k); [right; exact Hb | exact Hk].
Qed.

(** X3: the only words of the row memory that [Finalize] writes are the
    next-pointer slots, at [pointer_offset], of the rows of the table: the
    keys, the payload and the found flag of every row are as [Build] left
    them. *)
Theorem Finalize_writes_only_next_pointers (ht : JoinHashTable) (mem : Memory)
    (ht' : JoinHashTable) (mem' : Memory) (addr : data_ptr_t) :
  Finalize ht mem = Some (ht', mem') ->
  (forall block k, block ∈ blocks (block_collection ht) -> k < block_count block ->
                   (row_addr ht block k + pointer_offset ht)%Z <> addr) ->
  Load mem' addr = Load mem addr.
Proof.
  unfold Finalize.
  destruct (Finalize_blocks _ _ _) as [[ht1 mem1] |] eqn:Hblocks; [| discriminate].
  intros [= <- <-] Hother. eapply Finalize_blocks_frame; [exact Hblocks |].
  exact Hother.
Qed.

(** ** What [Probe] sets up *)

Lemma get_index_sel_deref sel target i :
  get_index (sel_deref sel target) i = sel_read sel target i.
Proof. destruct sel; reflexivity. Qed.

(** A loop that writes [f idx] at every index [idx] of a list of indices. *)
Lemma foldl_insert_lookup_in {A} `{!Inhabited A} (f : nat -> A) (l : list nat) :
  forall (init : list A) idx,
    idx ∈ l -> idx < length init ->
    foldl (fun acc i => <[i := f i]> acc) init l !!! idx = f idx.
Proof.
  induction l as [| x l IH] using rev_ind; intros init idx Hin Hlen.
  - inversion Hin.
  - rewrite foldl_app. cbn [foldl].
    assert (Hl : forall acc : list A,
               length (foldl (fun acc i => <[i := f i]> acc) acc l) = length acc).
    { clear. induction l as [| y l IH]; intros acc; cbn [foldl]; [reflexivity |].
      rewrite IH. apply length_insert. }
    destruct (decide (idx = x)) as [-> | Hne].
    + apply list_lookup_total_insert_eq. rewrite Hl. exact Hlen.
    + rewrite list_lookup_total_insert_ne by congruence. apply IH; [| exact Hlen].
      apply elem_of_app in Hin as [Hin | Hin]; [exact Hin |].
      apply list_elem_of_singleton in Hin. congruence.
Qed.

Lemma foldl_insert_lookup_out {A} `{!Inhabited A} (f : nat -> A) (l : list nat) :
  forall (init : list A) idx,
    idx ∉ l -> foldl (fun acc i => <[i := f i]> acc) init l !!! idx = init !!! idx.
Proof.
  induction l as [| x l IH]; intros init idx Hout; cbn [foldl]; [reflexivity |].
  apply not_elem_of_cons in Hout as [Hne Hout].
  rewrite IH by exact Hout. apply list_lookup_total_insert_ne. congruence.
Qed.

Lemma foldl_insert_length {A} (f : nat -> A) (l : list nat) :
  forall init : list A, length (foldl (fun acc i => <[i := f i]> acc) init l) = length init.
Proof.
  induction l as [| x l IH]; intros init; cbn [foldl]; [reflexivity |].
  rewrite IH. apply length_insert.
Qed.

Lemma foldl_fmap {A B C} (g : B -> C) (step : A -> C -> A) (l : list B) :
  forall init, foldl (fun acc i => step acc (g i)) init l = foldl step init (g <$> l).
Proof. induction l as [| x l IH]; intros init; cbn; [reflexivity | apply IH]. Qed.

(** [Hash] writes the hash of every selected row at the index of the row. *)
Lemma Hash_lanes ht keys sel target n idx :
  size keys <= STANDARD_VECTOR_SIZE ->
  (forall r, r ∈ sel_lanes sel target n -> r < size keys) ->
  idx ∈ sel_lanes sel target n ->
  Hash ht keys (sel_deref sel target) n !!! idx = lane_hash ht keys idx.
Proof.
  intros Hsize Hrange Hidx. unfold Hash, lane_hash.
  destruct (decide (n = size keys)) as [_ | _].
  - apply lookup_total_fmap_seq. apply Hrange. exact Hidx.
  - rewrite (foldl_fmap (get_index (sel_deref sel target))
               (fun hashes i => <[i := HashOp keys (length (equality_types ht)) i]> hashes)).
    assert (Hlanes : get_index (sel_deref sel target) <$> seq 0 n = sel_lanes sel target n).
    { unfold sel_lanes. apply list_fmap_ext. intros i j _. apply get_index_sel_deref. }
    rewrite Hlanes. apply foldl_insert_lookup_in; [exact Hidx |].
    rewrite length_replicate. specialize (Hrange idx Hidx). lia.
Qed.

(** [ApplyBitmask] with a selection points every selected lane at its slot. *)
Lemma ApplyBitmask_pointers_lanes ht hashes sel target n ptrs :
  let ptrs' := ApplyBitmask_pointers ht (FLAT_VECTOR hashes None) (sel_deref sel target) n ptrs in
  length ptrs' = length ptrs
  /\ (forall idx, idx ∈ sel_lanes sel target n -> idx < length ptrs ->
                  ptrs' !!! idx = Z.land (hashes !!! idx) (bitmask ht))
  /\ (forall idx, idx ∉ sel_lanes sel target n -> ptrs' !!! idx = ptrs !!! idx).
Proof.
  unfold ApplyBitmask_pointers. cbn [Orrify vd_sel vd_data get_index].
  rewrite (foldl_fmap (get_index (sel_deref sel target))
             (fun result_data i => <[i := Z.land (hashes !!! i) (bitmask ht)]> result_data)).
  assert (Hlanes : get_index (sel_deref sel target) <$> seq 0 n = sel_lanes sel target n).
  { unfold sel_lanes. apply list_fmap_ext. intros i j _. apply get_index_sel_deref. }
  rewrite Hlanes. split; [apply foldl_insert_length |]. split.
  - intros idx Hin Hlen. apply (foldl_insert_lookup_in (fun i => Z.land (hashes !!! i) (bitmask ht)));
      assumption.
  - intros idx Hout. apply (foldl_insert_lookup_out (fun i => Z.land (hashes !!! i) (bitmask ht))).
    exact Hout.
Qed.

(** The loop of [InitializeSelectionVector] loads the head of the slot of
    every selected lane and keeps, in order, the lanes whose slot holds a
    row. *)
Lemma InitializeSelectionVector_from_spec ht sel n :
  forall i ptrs sel_vector non_empty_count reads,
    non_empty_count <= i -> i + n <= length sel_vector ->
    let lanes := sel_read sel sel_vector <$> seq i n in
    NoDup lanes ->
    (forall idx, idx ∈ lanes -> idx < length ptrs) ->
    let occupied := List.filter (slot_occupied ht ptrs) lanes in
    exists ptrs' sel_vector',
      InitializeSelectionVector_from ht sel n i ptrs sel_vector non_empty_count reads
        = (ptrs', sel_vector', non_empty_count + length occupied,
           reads ++ ((fun idx => Z.to_nat (ptrs !!! idx)) <$> lanes))
      /\ take (non_empty_count + length occupied) sel_vector'
         = take non_empty_count sel_vector ++ occupied
      /\ length sel_vector' = length sel_vector
      /\ length ptrs' = length ptrs
      /\ (forall idx, idx ∈ lanes -> ptrs' !!! idx = hash_map ht !!! Z.to_nat (ptrs !!! idx))
      /\ (forall idx, idx ∉ lanes -> ptrs' !!! idx = ptrs !!! idx).
Proof.
  induction n as [| n IH]; intros i ptrs sv nc reads Hnc Hlen lanes Hnodup Hrange occupied.
  - subst occupied lanes. cbn. exists ptrs, sv. rewrite Nat.add_0_r, !app_nil_r.
    repeat split; try reflexivity. intros idx Hidx. inversion Hidx.
  - subst occupied lanes. cbn [InitializeSelectionVector_from seq fmap list_fmap] in *.
    set (idx0 := sel_read sel sv i) in *.
    set (head := hash_map ht !!! Z.to_nat (ptrs !!! idx0)).
    apply NoDup_cons in Hnodup as [Hfresh Hnodup].
    assert (Hidx0 : idx0 < length ptrs) by (apply Hrange; left).
    assert (Hread : <[idx0 := head]> ptrs !!! idx0 = head)
      by (apply list_lookup_total_insert_eq; exact Hidx0).
    assert (Hfilter :
              List.filter (slot_occupied ht (<[idx0 := head]> ptrs))
                          (sel_read sel sv <$> seq (S i) n)
              = List.filter (slot_occupied ht ptrs) (sel_read sel sv <$> seq (S i) n)).
    { apply filter_ext_in. intros idx Hidx. unfold slot_occupied.
      rewrite list_lookup_total_insert_ne; [reflexivity |]. intros ->. contradiction. }
    assert (Hreads :
              (fun idx => Z.to_nat (<[idx0 := head]> ptrs !!! idx)) <$> (sel_read sel sv <$> seq (S i) n)
              = (fun idx => Z.to_nat (ptrs !!! idx)) <$> (sel_read sel sv <$> seq (S i) n)).
    { apply list_fmap_ext. intros k idx Hk. apply list_elem_of_lookup_2 in Hk.
      rewrite list_lookup_total_insert_ne; [reflexivity |]. intros ->. contradiction. }
    rewrite Hread. cbn [List.filter].
    assert (Hocc : slot_occupied ht ptrs idx0 = bool_decide (head <> nullptr)) by reflexivity.
    rewrite Hocc. clear Hocc.
    destruct (decide (head <> nullptr)) as [Hlive | Hdead].
    + rewrite bool_decide_eq_true_2 by exact Hlive.
      destruct (IH (S i) (<[idx0 := head]> ptrs) (<[nc := idx0]> sv) (S nc)
                   (reads ++ [Z.to_nat (ptrs !!! idx0)]))
        as (ptrs' & sv' & Heq & Htake & Hl1 & Hl2 & Hin & Hout).
      * lia.
      * rewrite length_insert. lia.
      * rewrite sel_read_insert_below by lia. exact Hnodup.
      * intros idx Hidx. rewrite sel_read_insert_below in Hidx by lia.
        rewrite length_insert. apply Hrange. right. exact Hidx.
      * rewrite sel_read_insert_below in Heq, Htake, Hin, Hout by lia.
        rewrite Hfilter in Heq, Htake. rewrite Hreads, <- app_assoc in Heq.
        exists ptrs', sv'. cbn [length]. rewrite Nat.add_succ_r.
        split; [exact Heq |]. split.
        { cbn in Htake. rewrite Htake, take_insert_snoc by lia.
          rewrite <- app_assoc. reflexivity. }
        split; [rewrite Hl1; apply length_insert |].
        split; [rewrite Hl2; apply length_insert |]. split.
        { intros idx Hidx. apply elem_of_cons in Hidx as [-> | Hidx].
          - rewrite Hout by exact Hfresh. exact Hread.
          - rewrite Hin by exact Hidx. rewrite list_lookup_total_insert_ne; [reflexivity |].
            intros ->. contradiction. }
        { intros idx Hidx. apply not_elem_of_cons in Hidx as [Hne Hidx].
          rewrite Hout by exact Hidx. apply list_lookup_total_insert_ne. congruence. }
    + rewrite bool_decide_eq_false_2 by exact Hdead.
      destruct (IH (S i) (<[idx0 := head]> ptrs) sv nc (reads ++ [Z.to_nat (ptrs !!! idx0)]))
        as (ptrs' & sv' & Heq & Htake & Hl1 & Hl2 & Hin & Hout).
      * lia.
      * lia.
      * exact Hnodup.
      * intros idx Hidx. rewrite length_insert. apply Hrange. right. exact Hidx.
      * rewrite Hfilter in Heq, Htake. rewrite Hreads, <- app_assoc in Heq.
        exists ptrs', sv'. split; [exact Heq |]. split; [exact Htake |].
        split; [exact Hl1 |]. split; [rewrite Hl2; apply length_insert |]. split.
        { intros idx Hidx. apply elem_of_cons in Hidx as [-> | Hidx].
          - rewrite Hout by exact Hfresh. exact Hread.
          - rewrite Hin by exact Hidx. rewrite list_lookup_total_insert_ne; [reflexivity |].
            intros ->. contradiction. }
        { intros idx Hidx. apply not_elem_of_cons in Hidx as [Hne Hidx].
          rewrite Hout by exact Hidx. apply list_lookup_total_insert_ne. congruence. }
Qed.

Lemma surviving_rows_lt ht keys r : r ∈ surviving_rows ht keys -> r < size keys.
Proof.
  unfold surviving_rows. rewrite elem_of_List_filter, elem_of_seq. lia.
Qed.

Lemma NoDup_surviving_rows ht keys : NoDup (surviving_rows ht keys).
Proof. apply NoDup_List_filter, NoDup_seq. Qed.

(** The cursor that [Probe] returns. *)
Lemma Probe_spec debug ht keys :
  size keys <= STANDARD_VECTOR_SIZE ->
  (debug = true -> 0 < Count ht /\ finalized ht = true) ->
  exists ss reads,
    Probe debug ht keys = Some (ss, reads)
    /\ live_lanes ss
       = List.filter (fun idx => bool_decide (lane_head ht keys idx <> nullptr))
                     (surviving_rows ht keys)
    /\ ss_count ss = length (live_lanes ss)
    /\ ss_count ss <= length (sel_vector ss)
    /\ length (pointers ss) = STANDARD_VECTOR_SIZE
    /\ (forall idx, idx ∈ surviving_rows ht keys -> pointers ss !!! idx = lane_head ht keys idx)
    /\ reads = lane_slot ht keys <$> surviving_rows ht keys
    /\ key_data ss = DataChunk_Orrify keys
    /\ found_match ss
       = (if decide (join_type ht <> INNER) then Some (replicate STANDARD_VECTOR_SIZE false)
          else None)
    /\ finished ss = false.
Proof.
  intros Hsize Hdebug. unfold Probe, InitializeScanStructure.
  assert (Hguard : debug && negb (bool_decide (0 < Count ht) && finalized ht) = false).
  { destruct debug; [| reflexivity]. destruct (Hdebug eq_refl) as [Hcount ->].
    rewrite bool_decide_eq_true_2 by exact Hcount. reflexivity. }
  rewrite Hguard.
  destruct (PrepareKeys_spec ht keys (replicate STANDARD_VECTOR_SIZE 0) false)
    as (kd & cs & sel' & count & Heq & Hkd & Hother & Hcap & Hlen & Hlanes);
    [rewrite length_replicate; exact Hsize |].
  rewrite Heq. cbn [andb] in Hlanes. cbn [ss_count sel_vector pointers].
  destruct (decide (count = 0)) as [-> | Hcount].
  - eexists _, _. split; [reflexivity |].
    unfold sel_lanes in Hlanes. cbn in Hlanes. rewrite <- Hlanes.
    unfold live_lanes. cbn. rewrite length_replicate. repeat split; try lia; try assumption.
    intros idx Hidx. inversion Hidx.
  - set (hashes := Hash ht keys (sel_deref cs sel') count).
    set (ptrs := ApplyBitmask_pointers ht (FLAT_VECTOR hashes None) (sel_deref cs sel') count
                   (replicate STANDARD_VECTOR_SIZE 0%Z)).
    destruct (ApplyBitmask_pointers_lanes ht hashes cs sel' count
                (replicate STANDARD_VECTOR_SIZE 0%Z)) as (Hplen & Hpin & _).
    fold ptrs in Hplen, Hpin. rewrite length_replicate in Hplen, Hpin.
    assert (Hrange : forall idx, idx ∈ sel_lanes cs sel' count -> idx < size keys).
    { intros idx Hidx. rewrite Hlanes in Hidx. eapply surviving_rows_lt. exact Hidx. }
    assert (Hptr : forall idx, idx ∈ sel_lanes cs sel' count ->
                               ptrs !!! idx = Z.land (lane_hash ht keys idx) (bitmask ht)).
    { intros idx Hidx. rewrite Hpin; [| exact Hidx | specialize (Hrange idx Hidx); lia].
      subst hashes. rewrite Hash_lanes; [reflexivity | exact Hsize | exact Hrange | exact Hidx]. }
    unfold InitializeSelectionVector. cbn [ss_count pointers sel_vector with_cursor].
    destruct (InitializeSelectionVector_from_spec ht cs count 0 ptrs sel' 0 [])
      as (ptrs' & sv' & Hinit & Htake & Hl1 & Hl2 & Hin & Hout).
    + lia.
    + cbn. exact Hcap.
    + fold (sel_lanes cs sel' count). rewrite Hlanes. apply NoDup_surviving_rows.
    + fold (sel_lanes cs sel' count). intros idx Hidx. specialize (Hrange idx Hidx). lia.
    + fold (sel_lanes cs sel' count) in Hinit, Htake, Hin, Hout.
      rewrite Hinit. cbn [Nat.add app] in *. eexists _, _. split; [reflexivity |].
      unfold live_lanes. cbn [ss_count sel_vector pointers key_data found_match finished
                                with_cursor].
      rewrite Htake, take_0. cbn [app].
      assert (Hocc : List.filter (slot_occupied ht ptrs) (sel_lanes cs sel' count)
                     = List.filter (fun idx => bool_decide (lane_head ht keys idx <> nullptr))
                                   (surviving_rows ht keys)).
      { rewrite <- Hlanes. apply filter_ext_in. intros idx Hidx.
        unfold slot_occupied, lane_head, lane_slot, slot_of. rewrite Hptr by exact Hidx.
        reflexivity. }
      split; [exact Hocc |]. split; [reflexivity |]. split.
      { rewrite Hl1. etransitivity; [apply filter_length_le |]. rewrite Hlen. exact Hcap. }
      split; [rewrite Hl2; exact Hplen |]. split.
      { intros idx Hidx. rewrite <- Hlanes in Hidx. rewrite Hin by exact Hidx.
        unfold lane_head, lane_slot, slot_of. rewrite Hptr by exact Hidx. reflexivity. }
      split.
      { rewrite <- Hlanes. apply list_fmap_ext. intros k idx Hk.
        apply list_elem_of_lookup_2 in Hk. unfold lane_slot, slot_of.
        rewrite Hptr by exact Hk. reflexivity. }
      repeat split; assumption.
Qed.

(** X4: [Probe] on a batch of at most a vector of rows returns a cursor in
    which every row that survived key preparation points at the head of the
    chain of its slot, [hash_map[hash & bitmask]]; the live lanes are, in the
    order of the batch, the surviving rows whose slot holds a row, and [count]
    is their number.  Exactly the slots of the surviving rows are read.  The
    cursor is not finished, and its match flags are all false (an inner join
    has none). *)
Theorem Probe_points_lanes_at_slot_heads (debug : bool) (ht : JoinHashTable) (keys : DataChunk) :
  size keys <= STANDARD_VECTOR_SIZE ->
  (debug = true -> 0 < Count ht /\ finalized ht = true) ->
  exists ss reads,
    Probe debug ht keys = Some (ss, reads)
    /\ live_lanes ss
       = List.filter (fun idx => bool_decide (lane_head ht keys idx <> nullptr))
                     (surviving_rows ht keys)
    /\ ss_count ss = length (live_lanes ss)
    /\ (forall idx, idx ∈ surviving_rows ht keys ->
                    pointers ss !!! idx = hash_map ht !!! slot_of ht (lane_hash ht keys idx))
    /\ reads = lane_slot ht keys <$> surviving_rows ht keys
    /\ found_match ss
       = (if decide (join_type ht <> INNER) then Some (replicate STANDARD_VECTOR_SIZE false)
          else None)
    /\ finished ss = false.
Proof.
  intros Hsize Hdebug.
  destruct (Probe_spec debug ht keys Hsize Hdebug)
    as (ss & reads & Heq & Hlive & Hcount & _ & _ & Hptr & Hreads & _ & Hfound & Hfin).
  exists ss, reads. repeat split; assumption.
Qed.

(** ** From [Finalize] to [Probe] *)

Lemma Finalize_table ht mem ht' mem' :
  Finalize ht mem = Some (ht', mem') ->
  ht' = with_finalized true
          (with_pinned_handles (pinned_handles ht ++ (block_ptr <$> blocks (block_collection ht)))
             (with_hash_map (hash_map ht') (bitmask (Finalize_allocate ht)) ht)).
Proof.
  unfold Finalize.
  destruct (Finalize_blocks _ _ _) as [[ht1 mem1] |] eqn:Hblocks; [| discriminate].
  intros [= <- <-]. apply Finalize_blocks_table in Hblocks. rewrite Hblocks at 1. reflexivity.
Qed.

(** The chains that [Finalize] builds, slot by slot. *)
Lemma Finalize_chains ht mem :
  (Z.of_nat (Count ht) < 2 ^ 62)%Z ->
  (0 <= BLOCK_SIZE < 2 ^ 64)%Z ->
  0 < STANDARD_VECTOR_SIZE ->
  let rows := table_rows (Finalize_allocate ht) mem in
  NoDup (snd <$> rows) ->
  Forall (fun row => snd row <> nullptr) rows ->
  exists ht' mem' k,
    Finalize ht mem = Some (ht', mem')
    /\ (0 <= k)%Z /\ bitmask ht' = (2 ^ k - 1)%Z /\ length (hash_map ht') = Z.to_nat (2 ^ k)
    /\ heads_chains (pointer_offset ht) (hash_map ht') mem'
                    (fun s => reverse (rows_of_slot rows s)).
Proof.
  intros HN HB Hvec rows Hnodup Hnonnull. subst rows. unfold table_rows in *.
  replace (blocks (block_collection (Finalize_allocate ht))) with (blocks (block_collection ht))
    in * by reflexivity.
  set (rows := blocks_rows (Finalize_allocate ht) mem (blocks (block_collection ht))) in *.
  destruct (Finalize_allocate_spec ht HN HB) as (k & Hk & _ & _ & _ & Hmap & Hmask).
  destruct (Finalize_blocks_spec mem Hvec (blocks (block_collection ht)) (Finalize_allocate ht) mem)
    as (ht1 & mem1 & Heq & Hshape & Hstate); [reflexivity | exact Hnodup |].
  unfold Finalize. rewrite Heq. exists (with_finalized true ht1), mem1, k.
  split; [reflexivity |]. cbn [hash_map bitmask with_finalized].
  fold rows in Hstate.
  replace (pointer_offset (Finalize_allocate ht)) with (pointer_offset ht) in Hstate
    by reflexivity.
  destruct Hshape as (Hmask1 & Hlen1 & _).
  split; [lia |]. split; [congruence |].
  split; [rewrite Hlen1, Hmap; apply length_replicate |].
  destruct (push_rows_heads_chains (pointer_offset ht) rows (hash_map (Finalize_allocate ht)) mem
                                   (fun _ => [])) as [Hlen Hheads].
  - intros s Hs. rewrite Hmap in Hs |- *. rewrite length_replicate in Hs.
    rewrite lookup_total_replicate_2 by exact Hs. reflexivity.
  - rewrite Forall_forall in Hnonnull |- *. intros [s a] Hrow. cbn [fst snd].
    split; [| split; [apply (Hnonnull _ Hrow) | intros ? _ Hin; inversion Hin]].
    rewrite Hmap, length_replicate. unfold rows, blocks_rows in Hrow.
    apply list_elem_of_In, in_concat in Hrow as (l & Hl & Hrow).
    apply list_elem_of_In in Hl, Hrow.
    apply list_elem_of_fmap_1 in Hl as (block & -> & _). unfold block_rows in Hrow.
    apply list_elem_of_fmap_1 in Hrow as (j & [= -> ->] & _).
    apply slot_of_lt; [lia | exact Hmask].
  - exact Hnodup.
  - rewrite <- Hstate in Hlen, Hheads. cbn [fst snd] in Hlen, Hheads.
    intros s Hs. specialize (Hheads s Hs). cbn beta in Hheads.
    rewrite app_nil_r in Hheads. exact Hheads.
Qed.

Lemma elem_of_rows_of_slot rows s a : a ∈ rows_of_slot rows s <-> (s, a) ∈ rows.
Proof.
  unfold rows_of_slot. rewrite list_elem_of_fmap. split.
  - intros ([s' a'] & -> & Hin). apply elem_of_List_filter in Hin as [Hin Hs].
    apply bool_decide_eq_true in Hs. cbn in Hs. subst s'. exact Hin.
  - intros Hin. exists (s, a). split; [reflexivity |]. apply elem_of_List_filter.
    split; [exact Hin |]. apply bool_decide_eq_true. reflexivity.
Qed.

(** X5: insertion and lookup.  On the table that [Finalize] builds, [Probe]
    points every probe row that survived key preparation at a chain that
    holds exactly the build rows whose stored hash falls in the slot of the
    hash of the probe row, the row inserted last first; the probe row is live
    if and only if there is such a build row.  The build rows lie at distinct
    addresses, none of them null, and a batch holds at most a vector of
    rows. *)
Theorem Probe_after_Finalize_walks_slot_rows (ht : JoinHashTable) (mem : Memory)
    (keys : DataChunk) :
  (Z.of_nat (Count ht) < 2 ^ 62)%Z ->
  (0 <= BLOCK_SIZE < 2 ^ 64)%Z ->
  0 < STANDARD_VECTOR_SIZE ->
  let rows := table_rows (Finalize_allocate ht) mem in
  NoDup (snd <$> rows) ->
  Forall (fun row => snd row <> nullptr) rows ->
  size keys <= STANDARD_VECTOR_SIZE ->
  exists ht' mem' ss reads,
    Finalize ht mem = Some (ht', mem')
    /\ Probe false ht' keys = Some (ss, reads)
    /\ forall idx, idx ∈ surviving_rows ht keys ->
         let chain := reverse (rows_of_slot rows (lane_slot ht' keys idx)) in
         chain_walk (pointer_offset ht) mem' (length chain) (pointers ss !!! idx) = Some chain
         /\ (forall a, a ∈ chain <-> (lane_slot ht' keys idx, a) ∈ rows)
         /\ (idx ∈ live_lanes ss <-> chain <> []).
Proof.
  intros HN HB Hvec rows Hnodup Hnonnull Hsize.
  destruct (Finalize_chains ht mem HN HB Hvec Hnodup Hnonnull)
    as (ht' & mem' & k & Hfin & Hk & Hmask & Hlen & Hheads).
  fold rows in Hheads.
  destruct (Probe_spec false ht' keys Hsize) as (ss & reads & Hprobe & Hlive & _ & _ & _ & Hptr & _);
    [discriminate |].
  exists ht', mem', ss, reads. split; [exact Hfin |]. split; [exact Hprobe |].
  assert (Hsurv : surviving_rows ht' keys = surviving_rows ht keys).
  { rewrite (Finalize_table _ _ _ _ Hfin). reflexivity. }
  rewrite Hsurv in Hlive, Hptr.
  intros idx Hidx chain.
  assert (Hslot : lane_slot ht' keys idx < length (hash_map ht')).
  { rewrite Hlen. apply slot_of_lt; assumption. }
  assert (Hwalk : chain_walk (pointer_offset ht) mem' (length chain) (pointers ss !!! idx)
                  = Some chain).
  { rewrite (Hptr idx Hidx). apply (Hheads _ Hslot). }
  split; [exact Hwalk |]. split.
  { intros a. subst chain. rewrite elem_of_reverse. apply elem_of_rows_of_slot. }
  rewrite Hlive, elem_of_List_filter, bool_decide_eq_true.
  rewrite <- (Hptr idx Hidx). rewrite chain_walk_unfold in Hwalk.
  destruct (decide (pointers ss !!! idx = nullptr)) as [Hnull | Hhead].
  - injection Hwalk as <-. split; [intros [_ Hne]; contradiction | intros Hne; contradiction].
  - destruct (length chain) eqn:Hl; [discriminate |].
    destruct chain; [discriminate |]. split; [discriminate | intros _; split; assumption].
Qed.

(** ** The rows that find a match *)

(** The contract of [RowOperations::Match], lane by lane: the matches are the
    lanes whose row satisfies the predicates, the rest are the other lanes,
    both in the order given. *)
Hypothesis Match_rows :
  forall ht keys key_data mem ptrs lanes,
    Match ht keys key_data mem ptrs lanes
    = (List.filter (fun idx => row_matches ht keys mem (ptrs !!! idx) idx) lanes,
       List.filter (fun idx => negb (row_matches ht keys mem (ptrs !!! idx) idx)) lanes).

Lemma chain_matches_walk ht keys mem idx d :
  forall p rows,
    chain_walk (pointer_offset ht) mem d p = Some rows ->
    chain_matches ht keys mem d p idx = existsb (fun a => row_matches ht keys mem a idx) rows.
Proof.
  induction d as [| d IH]; intros p rows; cbn [chain_walk chain_matches];
    destruct (decide (p = nullptr)); try discriminate; try (intros [= <-]; reflexivity).
  destruct (chain_walk _ _ _ _) as [rest |] eqn:Hrest; [| discriminate].
  intros [= <-]. cbn [existsb]. rewrite (IH _ _ Hrest). reflexivity.
Qed.

Lemma mark_found_length fm sel : length (mark_found fm sel) = length fm.
Proof. apply (foldl_insert_length (fun _ => true)). Qed.

Lemma mark_found_lookup fm sel idx :
  idx < length fm -> mark_found fm sel !!! idx = fm !!! idx || bool_decide (idx ∈ sel).
Proof.
  intros Hidx. unfold mark_found. destruct (decide (idx ∈ sel)) as [Hin | Hout].
  - rewrite (foldl_insert_lookup_in (fun _ => true)) by assumption.
    rewrite bool_decide_eq_true_2 by exact Hin. symmetry. apply orb_true_r.
  - rewrite (foldl_insert_lookup_out (fun _ => true)) by assumption.
    rewrite bool_decide_eq_false_2 by exact Hout. symmetry. apply orb_false_r.
Qed.

(** [ScanKeyMatches] sets the flag of exactly the live lanes that have a
    matching row on their chain, and keeps the flags that were set. *)
Lemma ScanKeyMatches_found ht mem keys d :
  forall fuel ss fm,
    chains_within ht mem d ss -> d <= fuel ->
    found_match ss = Some fm ->
    (forall idx, idx ∈ live_lanes ss -> idx < length fm) ->
    exists ss' fm',
      ScanKeyMatches fuel ht mem keys ss = Some ss'
      /\ found_match ss' = Some fm' /\ length fm' = length fm
      /\ ss_count ss' = 0 /\ finished ss' = finished ss
      /\ forall idx, idx < length fm ->
           fm' !!! idx = fm !!! idx || lane_finds_match ht keys mem d ss idx.
Proof using Match_partition Match_rows.
  induction d as [| d IH]; intros fuel ss fm Hchains Hfuel Hfm Hrange;
    rewrite ScanKeyMatches_unfold.
  - pose proof (chains_within_zero _ _ _ Hchains) as Hzero.
    destruct (decide (0 < ss_count ss)); [lia |].
    exists ss, fm. repeat split; try assumption; try lia.
    intros idx _. unfold lane_finds_match, live_lanes. rewrite Hzero, take_0.
    rewrite bool_decide_eq_false_2 by (intros Hin; inversion Hin).
    symmetry. apply orb_false_r.
  - destruct (decide (0 < ss_count ss)) as [Hpos | Hzero].
    2: { exists ss, fm. repeat split; try assumption; try lia.
         intros idx _. unfold lane_finds_match, live_lanes.
         replace (ss_count ss) with 0 by lia. rewrite take_0.
         rewrite bool_decide_eq_false_2 by (intros Hin; inversion Hin).
         symmetry. apply orb_false_r. }
    destruct fuel as [| fuel]; [lia |].
    pose proof (scan_round_chains_within ht mem keys d ss
                  ((fun fm => mark_found fm (fst (ResolvePredicates ht mem keys ss)))
                     <$> found_match ss) Hchains) as Hnext.
    cbn zeta in Hnext.
    destruct Hchains as (Hcap & Hnodup & Hlanes).
    unfold ResolvePredicates in Hnext |- *. fold (live_lanes ss) in Hnext |- *.
    rewrite Match_rows in Hnext |- *. cbn [fst snd] in Hnext.
    set (rm := fun idx => row_matches ht keys mem (pointers ss !!! idx) idx) in *.
    set (match_sel := List.filter rm (live_lanes ss)) in *.
    set (no_match_sel := List.filter (fun idx => negb (rm idx)) (live_lanes ss)) in *.
    assert (Hlen : length match_sel + length no_match_sel = ss_count ss).
    { subst match_sel no_match_sel. rewrite List.filter_length. unfold live_lanes.
      apply length_take_le. exact Hcap. }
    rewrite Hfm in Hnext |- *. cbn [fmap option_fmap option_map] in Hnext |- *.
    set (ss1 := AdvancePointers ht mem (OtherSel no_match_sel) (ss_count ss - length match_sel)
                  (with_found_match (Some (mark_found fm match_sel)) ss)) in *.
    assert (Hspec := AdvancePointers_spec ht mem (OtherSel no_match_sel)
                       (ss_count ss - length match_sel)
                       (with_found_match (Some (mark_found fm match_sel)) ss)).
    cbn [sel_vector pointers with_found_match] in Hspec. fold ss1 in Hspec.
    replace (ss_count ss - length match_sel) with (length no_match_sel) in Hspec by lia.
    rewrite sel_lanes_other in Hspec.
    assert (Hsub : forall idx, idx ∈ no_match_sel -> idx ∈ live_lanes ss).
    { intros idx Hidx. subst no_match_sel. apply elem_of_List_filter in Hidx. exact (proj1 Hidx). }
    destruct Hspec as (_ & Hlive1 & _ & _ & Hin & Hout & Hfm1 & Hfin1 & _).
    { lia. }
    { subst no_match_sel. apply NoDup_List_filter. exact Hnodup. }
    { intros idx Hidx. apply Hlanes, Hsub. exact Hidx. }
    cbn [found_match finished with_found_match] in Hfm1, Hfin1.
    destruct (IH fuel ss1 (mark_found fm match_sel) Hnext ltac:(lia) Hfm1)
      as (ss' & fm' & Heq & Hfm' & Hlen' & Hcount' & Hfin' & Hfound).
    { intros idx Hidx. rewrite mark_found_length. apply Hrange, Hsub.
      rewrite Hlive1 in Hidx. apply elem_of_List_filter in Hidx. exact (proj1 Hidx). }
    exists ss', fm'. split; [exact Heq |]. split; [exact Hfm' |].
    split; [rewrite Hlen'; apply mark_found_length |]. split; [exact Hcount' |].
    split; [congruence |].
    intros idx Hidx. rewrite Hfound by (rewrite mark_found_length; exact Hidx).
    rewrite mark_found_lookup by exact Hidx. unfold lane_finds_match.
    rewrite Hlive1. cbn [chain_matches].
    destruct (decide (idx ∈ live_lanes ss)) as [Hlive | Hdead].
    + destruct (Hlanes idx Hlive) as (_ & Hnonnull & _).
      rewrite (bool_decide_eq_true_2 (idx ∈ live_lanes ss)) by exact Hlive.
      destruct (decide (pointers ss !!! idx = nullptr)); [contradiction |].
      fold (rm idx). destruct (rm idx) eqn:Hrm.
      * rewrite (bool_decide_eq_true_2 (idx ∈ match_sel))
          by (apply elem_of_List_filter; split; assumption).
        destruct (fm !!! idx); reflexivity.
      * assert (Hno : idx ∈ no_match_sel).
        { apply elem_of_List_filter. split; [exact Hlive |]. rewrite Hrm. reflexivity. }
        rewrite (bool_decide_eq_false_2 (idx ∈ match_sel)).
        2: { intros Hm. apply elem_of_List_filter in Hm as [_ Hm]. congruence. }
        rewrite orb_false_r. cbn [orb andb]. rewrite (Hin idx Hno). f_equal.
        unfold lane_survives.
        destruct (decide (Load mem (pointers ss !!! idx + pointer_offset ht)%Z = nullptr))
          as [Hend | Hmore].
        -- rewrite Hend. rewrite andb_comm.
           destruct d; cbn [chain_matches]; (destruct (decide (nullptr = nullptr)); [| congruence]);
             reflexivity.
        -- rewrite bool_decide_eq_true_2; [reflexivity |].
           apply elem_of_List_filter. split; [exact Hno |].
           apply bool_decide_eq_true. exact Hmore.
    + rewrite (bool_decide_eq_false_2 (idx ∈ live_lanes ss)) by exact Hdead.
      rewrite (bool_decide_eq_false_2 (idx ∈ match_sel)).
      2: { intros Hm. apply elem_of_List_filter in Hm as [Hm _]. contradiction. }
      rewrite bool_decide_eq_false_2.
      2: { intros Hm. apply elem_of_List_filter in Hm as [Hm _]. apply Hdead, Hsub. exact Hm. }
      destruct (fm !!! idx); reflexivity.
Qed.

Lemma found_at_lookup (fm : list bool) i : i < length fm -> found_at (Some fm) i = fm !!! i.
Proof.
  intros Hi. cbn [found_at]. destruct (lookup_lt_is_Some_2 fm i Hi) as [b Hb].
  rewrite Hb. symmetry. apply list_lookup_total_correct. exact Hb.
Qed.

(** The rows that [NextSemiOrAntiJoin] selects once the scan has set the
    flags of the rows with a match. *)
Lemma select_found_matches ht keys mem d ss (fm fm' : list bool) MATCH n :
  (forall idx, idx < n -> idx < length fm /\ fm !!! idx = false) ->
  length fm' = length fm ->
  (forall idx, idx < length fm ->
               fm' !!! idx = fm !!! idx || lane_finds_match ht keys mem d ss idx) ->
  select_found (Some fm') MATCH n
  = List.filter (fun idx => Bool.eqb (lane_finds_match ht keys mem d ss idx) MATCH) (seq 0 n).
Proof.
  intros Hclear Hlen Hfound. unfold select_found. apply filter_ext_in. intros idx Hidx.
  apply elem_of_seq in Hidx. destruct (Hclear idx ltac:(lia)) as [Hlt Hfalse].
  rewrite found_at_lookup by lia. rewrite Hfound by exact Hlt. rewrite Hfalse. reflexivity.
Qed.

(** X6: the semi join and the anti join.  On a cursor whose match flags are
    clear, one call of [NextSemiJoin] returns, with the cursor finished, the
    rows of the batch that are followed by the cursor and have a row on their
    chain that satisfies the join predicates, in the order of the batch;
    [NextAntiJoin] returns all the other rows of the batch.  Between them the
    two emit every row of the batch exactly once.  A result without rows is
    the result chunk as it was passed in. *)
Theorem NextSemiJoin_emits_rows_with_a_match (d fuel : nat) (ht : JoinHashTable) (mem : Memory)
    (keys left result : DataChunk) (ss : ScanStructure) (fm : list bool) :
  chains_within ht mem d ss ->
  d <= fuel ->
  found_match ss = Some fm ->
  (forall idx, idx < size keys -> idx < length fm /\ fm !!! idx = false) ->
  (forall idx, idx ∈ live_lanes ss -> idx < size keys) ->
  let matched := List.filter (lane_finds_match ht keys mem d ss) (seq 0 (size keys)) in
  let unmatched :=
    List.filter (fun idx => negb (lane_finds_match ht keys mem d ss idx)) (seq 0 (size keys)) in
  exists ss1,
    ss_count ss1 = 0
    /\ NextSemiJoin fuel ht mem keys left result ss
       = Some (with_finished true ss1,
               if decide (0 < length matched)
               then DataChunk_Slice result left matched (length matched) else result)
    /\ NextAntiJoin fuel ht mem keys left result ss
       = Some (with_finished true ss1,
               if decide (0 < length unmatched)
               then DataChunk_Slice result left unmatched (length unmatched) else result)
    /\ length matched + length unmatched = size keys
    /\ (forall idx, idx < size keys -> idx ∈ matched <-> idx ∉ unmatched).
Proof using Match_partition Match_rows.
  intros Hchains Hfuel Hfm Hclear Hlanes matched unmatched.
  destruct (ScanKeyMatches_found ht mem keys d fuel ss fm Hchains Hfuel Hfm)
    as (ss1 & fm' & Hscan & Hfm' & Hlen & Hcount & _ & Hfound).
  { intros idx Hidx. apply Hclear, Hlanes. exact Hidx. }
  exists ss1. split; [exact Hcount |].
  unfold NextSemiJoin, NextAntiJoin, NextSemiOrAntiJoin. rewrite Hscan, Hfm'.
  rewrite !(select_found_matches ht keys mem d ss fm fm') by assumption.
  assert (Htrue : List.filter (fun idx => Bool.eqb (lane_finds_match ht keys mem d ss idx) true)
                              (seq 0 (size keys)) = matched).
  { apply filter_ext_in. intros idx _. destruct (lane_finds_match _ _ _ _ _ _); reflexivity. }
  assert (Hfalse : List.filter (fun idx => Bool.eqb (lane_finds_match ht keys mem d ss idx) false)
                               (seq 0 (size keys)) = unmatched).
  { apply filter_ext_in. intros idx _. destruct (lane_finds_match _ _ _ _ _ _); reflexivity. }
  rewrite Htrue, Hfalse. split; [reflexivity |]. split; [reflexivity |]. split.
  - subst matched unmatched. rewrite List.filter_length. apply length_seq.
  - intros idx Hidx. subst matched unmatched. rewrite !elem_of_List_filter, elem_of_seq.
    destruct (lane_finds_match ht keys mem d ss idx); split.
    + intros _ [_ Hneg]. discriminate.
    + intros _. split; [lia | reflexivity].
    + intros [_ Hneg]. discriminate.
    + intros Hout. exfalso. apply Hout. split; [lia | reflexivity].
Qed.

(** ** A semi join from [Finalize] to [Next] *)

Lemma chain_walk_within ht mem d :
  forall p rows,
    chain_walk (pointer_offset ht) mem d p = Some rows -> chain_within ht mem d p = true.
Proof.
  induction d as [| d IH]; intros p rows; cbn [chain_walk chain_within];
    destruct (decide (p = nullptr)); try discriminate; try reflexivity.
  destruct (chain_walk _ _ _ _) as [rest |] eqn:Hrest; [| discriminate].
  intros _. eapply IH. exact Hrest.
Qed.

Lemma existsb_reverse {A} (f : A -> bool) l : existsb f (reverse l) = existsb f l.
Proof.
  apply Bool.eq_iff_eq_true. rewrite !existsb_exists. split.
  - intros (a & Hin & Hf). exists a. split; [| exact Hf].
    apply list_elem_of_In. apply list_elem_of_In in Hin. rewrite elem_of_reverse in Hin. exact Hin.
  - intros (a & Hin & Hf). exists a. split; [| exact Hf].
    apply list_elem_of_In. rewrite elem_of_reverse. apply list_elem_of_In. exact Hin.
Qed.

Lemma rows_of_slot_length rows s : length (rows_of_slot rows s) <= length rows.
Proof. unfold rows_of_slot. rewrite length_fmap. apply filter_length_le. Qed.

(** The cursor that [Probe] returns on the table that [Finalize] has built:
    every surviving row walks the rows of its slot, and the live lanes have
    chains no longer than the table. *)
Lemma Probe_after_Finalize ht mem keys :
  (Z.of_nat (Count ht) < 2 ^ 62)%Z ->
  (0 <= BLOCK_SIZE < 2 ^ 64)%Z ->
  0 < STANDARD_VECTOR_SIZE ->
  let rows := table_rows (Finalize_allocate ht) mem in
  NoDup (snd <$> rows) ->
  Forall (fun row => snd row <> nullptr) rows ->
  size keys <= STANDARD_VECTOR_SIZE ->
  exists ht' mem' ss reads,
    Finalize ht mem = Some (ht', mem')
    /\ Probe false ht' keys = Some (ss, reads)
    /\ join_type ht' = join_type ht
    /\ chains_within ht' mem' (length rows) ss
    /\ found_match ss
       = (if decide (join_type ht <> INNER) then Some (replicate STANDARD_VECTOR_SIZE false)
          else None)
    /\ finished ss = false
    /\ (forall idx, idx ∈ live_lanes ss -> idx ∈ surviving_rows ht keys)
    /\ forall idx, idx ∈ surviving_rows ht keys ->
         chain_walk (pointer_offset ht') mem' (length rows) (pointers ss !!! idx)
         = Some (reverse (rows_of_slot rows (lane_slot ht' keys idx)))
         /\ (idx ∈ live_lanes ss <-> rows_of_slot rows (lane_slot ht' keys idx) <> []).
Proof.
  intros HN HB Hvec rows Hnodup Hnonnull Hsize.
  destruct (Finalize_chains ht mem HN HB Hvec Hnodup Hnonnull)
    as (ht' & mem' & k & Hfin & Hk & Hmask & Hlen & Hheads).
  fold rows in Hheads.
  destruct (Probe_spec false ht' keys Hsize)
    as (ss & reads & Hprobe & Hlive & _ & Hcap & Hplen & Hptr & _ & _ & Hfound & Hfinished);
    [discriminate |].
  exists ht', mem', ss, reads. split; [exact Hfin |]. split; [exact Hprobe |].
  pose proof (Finalize_table _ _ _ _ Hfin) as Htable.
  assert (Hsurv : surviving_rows ht' keys = surviving_rows ht keys)
    by (rewrite Htable; reflexivity).
  assert (Htype : join_type ht' = join_type ht) by (rewrite Htable; reflexivity).
  assert (Hoff : pointer_offset ht' = pointer_offset ht) by (rewrite Htable; reflexivity).
  rewrite Hsurv in Hlive, Hptr. rewrite Htype in Hfound. rewrite Hoff.
  split; [exact Htype |].
  assert (Hwalk : forall idx, idx ∈ surviving_rows ht keys ->
            chain_walk (pointer_offset ht) mem' (length rows) (pointers ss !!! idx)
            = Some (reverse (rows_of_slot rows (lane_slot ht' keys idx)))).
  { intros idx Hidx. rewrite (Hptr idx Hidx).
    assert (Hslot : lane_slot ht' keys idx < length (hash_map ht')).
    { rewrite Hlen. apply slot_of_lt; assumption. }
    pose proof (Hheads _ Hslot) as Hchain. cbn beta in Hchain.
    apply chain_walk_fuel in Hchain as [_ Hmore]. apply Hmore.
    rewrite length_reverse. apply rows_of_slot_length. }
  assert (Hlive_iff : forall idx, idx ∈ surviving_rows ht keys ->
            (idx ∈ live_lanes ss <-> rows_of_slot rows (lane_slot ht' keys idx) <> [])).
  { intros idx Hidx. specialize (Hwalk idx Hidx).
    rewrite Hlive, elem_of_List_filter, bool_decide_eq_true, <- (Hptr idx Hidx).
    rewrite chain_walk_unfold in Hwalk.
    destruct (decide (pointers ss !!! idx = nullptr)) as [Hnull | Hhead].
    - injection Hwalk as Hwalk. symmetry in Hwalk. apply (f_equal reverse) in Hwalk.
      rewrite reverse_involutive in Hwalk. rewrite Hwalk.
      split; [intros [_ Hne]; contradiction | intros Hne; contradiction].
    - split; [| intros _; split; assumption]. intros _ Hempty. rewrite Hempty in Hwalk.
      destruct (length rows); [discriminate |].
      destruct (chain_walk _ _ _ _); discriminate. }
  split.
  { split; [exact Hcap |]. split.
    - rewrite Hlive. apply NoDup_List_filter, NoDup_surviving_rows.
    - intros idx Hidx. rewrite Hlive in Hidx. apply elem_of_List_filter in Hidx as [Hidx Hhead].
      apply bool_decide_eq_true in Hhead. rewrite <- (Hptr idx Hidx) in Hhead.
      split; [rewrite Hplen; apply surviving_rows_lt in Hidx; lia |].
      split; [exact Hhead |].
      replace (chain_within ht' mem' (length rows) (pointers ss !!! idx))
        with (chain_within ht mem' (length rows) (pointers ss !!! idx)).
      + eapply chain_walk_within. apply Hwalk. exact Hidx.
      + clear -Hoff. generalize (pointers ss !!! idx). induction (length rows) as [| n IH];
          intros p; cbn [chain_within]; [reflexivity |].
        rewrite Hoff, IH. reflexivity. }
  split; [exact Hfound |]. split; [exact Hfinished |]. split.
  { intros idx Hidx. rewrite Hlive in Hidx. apply elem_of_List_filter in Hidx. exact (proj1 Hidx). }
  intros idx Hidx. split; [apply Hwalk | apply Hlive_iff]; exact Hidx.
Qed.

(** X7: a semi join, from the finalized table to the result.  [Finalize],
    [Probe] on a batch and one call of [Next] emit, in the order of the batch,
    exactly the probe rows that have no null in a key column whose
    null-equals flag is false and for which some build row in the slot of
    their hash satisfies the join predicates; the cursor is then finished.
    The build rows lie at distinct addresses, none of them null. *)
Theorem semi_join_emits_rows_with_a_matching_build_row (ht : JoinHashTable) (mem : Memory)
    (keys left result : DataChunk) :
  (Z.of_nat (Count ht) < 2 ^ 62)%Z ->
  (0 <= BLOCK_SIZE < 2 ^ 64)%Z ->
  0 < STANDARD_VECTOR_SIZE ->
  let rows := table_rows (Finalize_allocate ht) mem in
  NoDup (snd <$> rows) ->
  Forall (fun row => snd row <> nullptr) rows ->
  size keys <= STANDARD_VECTOR_SIZE ->
  join_type ht = SEMI ->
  exists ht' mem' ss reads ss',
    Finalize ht mem = Some (ht', mem')
    /\ Probe false ht' keys = Some (ss, reads)
    /\ let emitted :=
         List.filter
           (fun idx =>
              bool_decide (idx ∈ surviving_rows ht keys)
              && existsb (fun a => row_matches ht' keys mem' a idx)
                         (rows_of_slot rows (lane_slot ht' keys idx)))
           (seq 0 (size keys)) in
       Next (length rows) ht' mem' keys left result ss
       = Returns (ss', mem',
                  if decide (0 < length emitted)
                  then DataChunk_Slice result left emitted (length emitted) else result)
       /\ finished ss' = true.
Proof using Match_partition Match_rows.
  intros HN HB Hvec rows Hnodup Hnonnull Hsize Hsemi.
  destruct (Probe_after_Finalize ht mem keys HN HB Hvec Hnodup Hnonnull Hsize)
    as (ht' & mem' & ss & reads & Hfin & Hprobe & Htype & Hchains & Hfound & Hfinished
        & Hlive & Hwalk).
  fold rows in Hchains, Hwalk.
  rewrite Hsemi in Hfound, Htype. cbn in Hfound.
  destruct (ScanKeyMatches_found ht' mem' keys (length rows) (length rows) ss
              (replicate STANDARD_VECTOR_SIZE false) Hchains (le_n _) Hfound)
    as (ss1 & fm' & Hscan & Hfm' & Hlen & _ & _ & Hflags).
  { intros idx Hidx. rewrite length_replicate. apply Hlive, surviving_rows_lt in Hidx. lia. }
  exists ht', mem', ss, reads, (with_finished true ss1).
  split; [exact Hfin |]. split; [exact Hprobe |]. cbn zeta. split; [| reflexivity].
  unfold Next. rewrite Hfinished, Htype. unfold NextSemiJoin, NextSemiOrAntiJoin.
  rewrite Hscan, Hfm'. cbn [of_fuel Outcome_bind fst snd].
  rewrite (select_found_matches ht' keys mem' (length rows) ss
             (replicate STANDARD_VECTOR_SIZE false) fm').
  - assert (Hsel :
      List.filter (fun idx => Bool.eqb (lane_finds_match ht' keys mem' (length rows) ss idx) true)
                  (seq 0 (size keys))
      = List.filter
          (fun idx =>
             bool_decide (idx ∈ surviving_rows ht keys)
             && existsb (fun a => row_matches ht' keys mem' a idx)
                        (rows_of_slot rows (lane_slot ht' keys idx)))
          (seq 0 (size keys))).
    { apply filter_ext_in. intros idx _. unfold lane_finds_match.
      destruct (decide (idx ∈ surviving_rows ht keys)) as [Hidx | Hidx].
      - rewrite (bool_decide_eq_true_2 (idx ∈ surviving_rows ht keys)) by exact Hidx.
        destruct (Hwalk idx Hidx) as [Hchain Hiff].
        rewrite (chain_matches_walk _ _ _ _ _ _ _ Hchain), existsb_reverse.
        destruct (decide (idx ∈ live_lanes ss)) as [Hin | Hout].
        + rewrite bool_decide_eq_true_2 by exact Hin.
          destruct (existsb _ _); reflexivity.
        + rewrite bool_decide_eq_false_2 by exact Hout.
          destruct (rows_of_slot rows (lane_slot ht' keys idx)) eqn:Hslot; [reflexivity |].
          exfalso. apply Hout, Hiff. discriminate.
      - rewrite (bool_decide_eq_false_2 (idx ∈ surviving_rows ht keys)) by exact Hidx.
        rewrite bool_decide_eq_false_2; [reflexivity |].
        intros Hin. apply Hidx, Hlive. exact Hin. }
    rewrite Hsel. reflexivity.
  - intros idx Hidx. rewrite length_replicate. split; [lia |].
    apply lookup_total_replicate_2. lia.
  - exact Hlen.
  - exact Hflags.
Qed.

(** ** The inner join *)

Lemma with_found_match_same ss : with_found_match (found_match ss) ss = ss.
Proof. destruct ss; reflexivity. Qed.

Lemma with_matches_found_nil ss : with_matches_found [] ss = ss.
Proof.
  unfold with_matches_found. destruct ss as [kd ptrs n sv [fm |] fin]; reflexivity.
Qed.

Lemma ResolvePredicates_matching ht mem keys ss :
  fst (ResolvePredicates ht mem keys ss) = matching_lanes ht keys mem ss.
Proof using Match_rows. unfold ResolvePredicates. rewrite Match_rows. reflexivity. Qed.

Lemma ScanInnerJoin_unfold fuel ht mem keys ss :
  ScanInnerJoin (S fuel) ht mem keys ss
  = let rv := fst (ResolvePredicates ht mem keys ss) in
    if decide (0 < length rv) then Some (with_matches_found rv ss, rv, length rv)
    else if decide (ss_count (AdvancePointers_live ht mem (with_matches_found rv ss)) = 0)
         then Some (AdvancePointers_live ht mem (with_matches_found rv ss), rv, 0)
         else ScanInnerJoin fuel ht mem keys (AdvancePointers_live ht mem (with_matches_found rv ss)).
Proof.
  cbn [ScanInnerJoin]. unfold with_matches_found.
  destruct (found_match ss) as [fm |] eqn:Hfm; cbn [fmap option_fmap option_map].
  - reflexivity.
  - rewrite <- Hfm, with_found_match_same. reflexivity.
Qed.

(** [ScanInnerJoin] advances the live lanes, all together, to the first
    depth at which some lane matches its row, and returns the lanes that
    match there; when no lane matches at any depth it returns no lane and a
    cursor without live lanes. *)
Lemma ScanInnerJoin_spec ht mem keys d :
  forall fuel ss,
    chains_within ht mem d ss -> d < fuel ->
    exists k,
      k <= d
      /\ (forall j, j < k -> matching_lanes ht keys mem (advance_live ht mem j ss) = [])
      /\ let rv := matching_lanes ht keys mem (advance_live ht mem k ss) in
         (rv <> []
          /\ ScanInnerJoin fuel ht mem keys ss
             = Some (with_matches_found rv (advance_live ht mem k ss), rv, length rv))
         \/ (rv = []
             /\ ss_count (advance_live ht mem (S k) ss) = 0
             /\ ScanInnerJoin fuel ht mem keys ss = Some (advance_live ht mem (S k) ss, [], 0)).
Proof using Match_rows.
  induction d as [| d IH]; intros fuel ss Hchains Hfuel;
    (destruct fuel as [| fuel]; [lia |]); rewrite ScanInnerJoin_unfold; cbn zeta;
    rewrite ResolvePredicates_matching.
  - pose proof (chains_within_zero _ _ _ Hchains) as Hzero.
    assert (Hnone : matching_lanes ht keys mem ss = []).
    { unfold matching_lanes, live_lanes. rewrite Hzero, take_0. reflexivity. }
    exists 0. split; [lia |]. split; [intros j Hj; lia |]. cbn [advance_live].
    right. split; [exact Hnone |]. rewrite Hnone, with_matches_found_nil. cbn [length].
    destruct (decide (0 < 0)); [lia |].
    assert (Hcount : ss_count (AdvancePointers_live ht mem ss) = 0).
    { unfold AdvancePointers_live. rewrite Hzero. reflexivity. }
    split; [exact Hcount |]. destruct (decide _); [reflexivity | contradiction].
  - destruct (matching_lanes ht keys mem ss) as [| idx rest] eqn:Hrv.
    + rewrite with_matches_found_nil. cbn [length]. destruct (decide (0 < 0)); [lia |].
      pose proof (AdvancePointers_live_chains_within _ _ _ _ Hchains) as Hnext.
      destruct (decide (ss_count (AdvancePointers_live ht mem ss) = 0)) as [Hzero | Hmore].
      * exists 0. split; [lia |]. split; [intros j Hj; lia |]. cbn [advance_live].
        right. rewrite Hrv. split; [reflexivity |]. split; [exact Hzero | reflexivity].
      * destruct (IH fuel (AdvancePointers_live ht mem ss) Hnext ltac:(lia))
          as (k & Hk & Hbefore & Hcase).
        exists (S k). split; [lia |]. split.
        { intros [| j] Hj; [exact Hrv | apply Hbefore; lia]. }
        exact Hcase.
    + exists 0. split; [lia |]. split; [intros j Hj; lia |]. cbn [advance_live].
      left. rewrite Hrv. split; [discriminate |].
      destruct (decide (0 < length (idx :: rest))) as [_ | Hlen]; [reflexivity |].
      cbn in Hlen. lia.
Qed.


(** ** Found flags *)

Lemma foldl_Store_one (addrs : list data_ptr_t) :
  forall mem addr,
    Load (foldl (fun m a => Store 1 a m) mem addrs) addr
    = if bool_decide (addr ∈ addrs) then 1%Z else Load mem addr.
Proof.
  induction addrs as [| a addrs IH] using rev_ind; intros mem addr.
  - cbn. rewrite bool_decide_eq_false_2 by (intros Hin; inversion Hin). reflexivity.
  - rewrite foldl_app. cbn [foldl]. destruct (decide (addr = a)) as [-> | Hne].
    + rewrite Load_Store_eq. rewrite bool_decide_eq_true_2; [reflexivity |].
      apply elem_of_app. right. left.
    + rewrite Load_Store_ne by congruence. rewrite IH.
      destruct (decide (addr ∈ addrs)) as [Hin | Hout].
      * rewrite !bool_decide_eq_true_2; [reflexivity | | exact Hin].
        apply elem_of_app. left. exact Hin.
      * rewrite !bool_decide_eq_false_2; [reflexivity | | exact Hout].
        intros Hin. apply elem_of_app in Hin as [Hin | Hin]; [contradiction |].
        apply list_elem_of_singleton in Hin. contradiction.
Qed.

Lemma mark_rows_found_Load ht ptrs rv mem addr :
  Load (mark_rows_found ht ptrs rv mem) addr
  = if IsRightOuterJoin (join_type ht)
       && bool_decide (addr ∈ (fun idx => (ptrs !!! idx + tuple_size ht)%Z) <$> rv)
    then 1%Z else Load mem addr.
Proof.
  unfold mark_rows_found. destruct (IsRightOuterJoin (join_type ht)); [| reflexivity].
  cbn [andb].
  rewrite (foldl_fmap (fun idx => (ptrs !!! idx + tuple_size ht)%Z) (fun m a => Store 1 a m)).
  apply foldl_Store_one.
Qed.

(** The row memory that [NextInnerJoin] returns. *)
Lemma NextInnerJoin_memory fuel ht mem keys left result ss ss' mem' result' :
  NextInnerJoin fuel ht mem keys left result ss = Some (ss', mem', result') ->
  mem' = mem \/ exists ptrs rv, mem' = mark_rows_found ht ptrs rv mem.
Proof.
  unfold NextInnerJoin. destruct (decide (ss_count ss = 0)); [intros [= _ <- _]; left; reflexivity |].
  destruct (ScanInnerJoin fuel ht mem keys ss) as [[[ss1 rv] count] |]; [| discriminate].
  destruct (decide (0 < count)); intros [= _ <- _]; [| left; reflexivity].
  right. exists (pointers ss1), (take count rv). reflexivity.
Qed.

(** X9: the only words of the row memory that [NextInnerJoin] writes are
    found flags, and the only value it writes is [true]: for a join that is
    neither a right nor a full outer join the row memory is as it was; in any
    case a word either keeps its value or becomes 1, so a found flag that is
    set stays set, and the rows still unmatched after the call were unmatched
    before it. *)
Theorem NextInnerJoin_only_sets_found_flags (fuel : nat) (ht : JoinHashTable) (mem : Memory)
    (keys left result : DataChunk) (ss ss' : ScanStructure) (mem' : Memory)
    (result' : DataChunk) :
  NextInnerJoin fuel ht mem keys left result ss = Some (ss', mem', result') ->
  (IsRightOuterJoin (join_type ht) = false -> mem' = mem)
  /\ (forall addr, Load mem' addr = Load mem addr \/ Load mem' addr = 1%Z)
  /\ (forall addr, unfound ht mem' addr = true -> unfound ht mem addr = true)
  /\ (forall state, sublist (unmatched_rows ht mem' state) (unmatched_rows ht mem state)).
Proof.
  intros Hnext. apply NextInnerJoin_memory in Hnext.
  assert (Hloads : forall addr, Load mem' addr = Load mem addr \/ Load mem' addr = 1%Z).
  { intros addr. destruct Hnext as [-> | (ptrs & rv & ->)]; [left; reflexivity |].
    rewrite mark_rows_found_Load. destruct (_ && _); [right | left]; reflexivity. }
  assert (Hflags : forall addr, unfound ht mem' addr = true -> unfound ht mem addr = true).
  { intros addr. unfold unfound. rewrite !bool_decide_eq_true.
    destruct (Hloads (addr + tuple_size ht)%Z) as [-> | ->]; [intros H; exact H | discriminate]. }
  split.
  { intros Hinner. destruct Hnext as [-> | (ptrs & rv & ->)]; [reflexivity |].
    unfold mark_rows_found. rewrite Hinner. reflexivity. }
  split; [exact Hloads |]. split; [exact Hflags |].
  intros state. unfold unmatched_rows. induction (rows_to_scan ht state) as [| a l IH];
    cbn [List.filter]; [constructor |].
  destruct (unfound ht mem' a) eqn:Hafter.
  - rewrite (Hflags a Hafter). apply sublist_skip. exact IH.
  - destruct (unfound ht mem a); [apply sublist_cons |]; exact IH.
Qed.


(** ** The left outer join *)



Lemma advance_live_finished ht mem n :
  forall ss, finished (advance_live ht mem n ss) = finished ss.
Proof.
  induction n as [| n IH]; intros ss; cbn [advance_live]; [reflexivity |].
  rewrite IH. apply AdvancePointers_finished.
Qed.


(** ** The dispatch of [Next] *)

(** X12: [Next] throws its internal exception exactly when the cursor is not
    finished and the join type is not one of INNER, RIGHT, SEMI, MARK, ANTI,
    OUTER, LEFT and SINGLE; a finished cursor never throws. *)
Theorem Next_throws_only_for_an_unhandled_join_type (fuel : nat) (ht : JoinHashTable)
    (mem : Memory) (keys left result : DataChunk) (ss : ScanStructure) :
  Next fuel ht mem keys left result ss = InternalException
  <-> finished ss = false /\ join_type ht = INVALID.
Proof.
  unfold Next. destruct (finished ss).
  { split; [discriminate | intros [Hfin _]; discriminate]. }
  destruct (join_type ht);
    try (split; [| intros [_ Htype]; discriminate]);
    try (split; [intros _; split; reflexivity | reflexivity]).
  - destruct (NextLeftJoin _ _ _ _ _ _ _) as [[[? ?] ?] |]; discriminate.
  - destruct (NextInnerJoin _ _ _ _ _ _ _) as [[[? ?] ?] |]; discriminate.
  - destruct (NextInnerJoin _ _ _ _ _ _ _) as [[[? ?] ?] |]; discriminate.
  - destruct (NextLeftJoin _ _ _ _ _ _ _) as [[[? ?] ?] |]; discriminate.
  - destruct (NextSemiJoin _ _ _ _ _ _ _) as [[? ?] |]; discriminate.
  - destruct (NextAntiJoin _ _ _ _ _ _ _) as [[? ?] |]; discriminate.
  - destruct (NextMarkJoin _ _ _ _ _ _ _) as [[? ?] |]; discriminate.
  - destruct (NextSingleJoin _ _ _ _ _ _ _) as [[? ?] |]; discriminate.
Qed.

(** X13: for an inner or a right outer join every call of [Next] returns,
    however long the chains are ([d] bounds them, and fuel [d + 1] is enough),
    and it never sets [finished]: the end of a batch shows as a result without
    rows.  A call on a cursor without live lanes returns the cursor, the row
    memory and the result chunk as they were passed in. *)
Theorem Next_inner_join_returns_unfinished (d fuel : nat) (ht : JoinHashTable) (mem : Memory)
    (keys left result : DataChunk) (ss : ScanStructure) :
  join_type ht = INNER \/ join_type ht = RIGHT ->
  finished ss = false ->
  chains_within ht mem d ss ->
  d < fuel ->
  exists ss' mem' result',
    Next fuel ht mem keys left result ss = Returns (ss', mem', result')
    /\ finished ss' = false
    /\ (ss_count ss = 0 -> ss' = ss /\ mem' = mem /\ result' = result).
Proof using Match_rows.
  intros Htype Hfin Hchains Hfuel.
  assert (Hinner : exists ss' mem' result',
            NextInnerJoin fuel ht mem keys left result ss = Some (ss', mem', result')
            /\ finished ss' = false
            /\ (ss_count ss = 0 -> ss' = ss /\ mem' = mem /\ result' = result)).
  { unfold NextInnerJoin. destruct (decide (ss_count ss = 0)) as [Hzero | Hlive].
    { exists ss, mem, result. repeat split; assumption. }
    destruct (ScanInnerJoin_spec ht mem keys d fuel ss Hchains Hfuel) as (k & _ & _ & Hcase).
    cbn zeta in Hcase.
    destruct Hcase as [[Hrv Hscan] | (Hrv & Hcount & Hscan)]; rewrite Hscan.
    - destruct (decide _); eexists _, _, _; (split; [reflexivity |]);
        (split; [| intros Hzero; contradiction]).
      + unfold AdvancePointers_live. rewrite AdvancePointers_finished.
        unfold with_matches_found. cbn [finished with_found_match].
        rewrite advance_live_finished. exact Hfin.
      + unfold with_matches_found. cbn [finished with_found_match].
        rewrite advance_live_finished. exact Hfin.
    - destruct (decide (0 < 0)); [lia |]. eexists _, _, _. split; [reflexivity |].
      split; [| intros Hzero; contradiction].
      rewrite advance_live_finished. exact Hfin. }
  destruct Hinner as (ss' & mem' & result' & Heq & Hunfinished & Hidle).
  exists ss', mem', result'. unfold Next. rewrite Hfin.
  destruct Htype as [-> | ->]; rewrite Heq; repeat split; try assumption;
    apply Hidle; assumption.
Qed.

(** ** The mark, column by column *)

(** The loop over the key columns leaves in the mark the validity of the last
    column that has nulls to report. *)
Lemma mark_key_nulls_spec nulls_equal n :
  n <= STANDARD_VECTOR_SIZE ->
  forall columns col_idx mask j,
    mask_covers mask ->
    mask_covers (mark_key_nulls nulls_equal columns col_idx n mask)
    /\ RowIsValid (mark_key_nulls nulls_equal columns col_idx n mask) j
       = match last_nullable_key nulls_equal columns col_idx n with
         | Some jdata =>
             if bool_decide (j < n) then negb (vd_is_null jdata j) else RowIsValid mask j
         | None => RowIsValid mask j
         end.
Proof.
  intros Hn. induction columns as [| column rest IH]; intros col_idx mask j Hcovers;
    cbn [mark_key_nulls last_nullable_key].
  - split; [exact Hcovers | reflexivity].
  - destruct (nulls_equal !!! col_idx) eqn:Hflag; cbn [negb andb].
    { destruct (IH (S col_idx) mask j Hcovers) as [Hc Hv]. split; [exact Hc |].
      rewrite Hv. destruct (last_nullable_key _ _ _ _); reflexivity. }
    destruct (AllValid (vd_validity (Orrify column n))) eqn:Hall; cbn [negb].
    { destruct (IH (S col_idx) mask j Hcovers) as [Hc Hv]. split; [exact Hc |].
      rewrite Hv. destruct (last_nullable_key _ _ _ _); reflexivity. }
    destruct (mark_column_nulls_spec (Orrify column n) n Hn mask j Hcovers) as [Hc1 Hv1].
    destruct (IH (S col_idx) (mark_column_nulls (Orrify column n) n mask) j Hc1) as [Hc Hv].
    split; [exact Hc |]. rewrite Hv, Hv1.
    destruct (last_nullable_key _ _ _ _); [| reflexivity].
    case_bool_decide; reflexivity.
Qed.

(** X14: the mark of a mark join without correlated columns, as
    [ConstructMarkJoinResult] computes it into a fresh vector.  For every row
    the value is the match flag of the row.  The mark is NULL exactly when the
    last key column that has a validity buffer and whose null-equals flag is
    false holds a null in that row, or when the build side recorded a null
    and the row found no match: of several such key columns only the last one
    counts, its validity being written over that of the others. *)
Theorem ConstructMarkJoinResult_mark_of_the_last_nullable_key (ht : JoinHashTable)
    (ss : ScanStructure) (join_keys child : DataChunk) (buffer : list Z) (fm : list bool) :
  found_match ss = Some fm ->
  size join_keys = size child ->
  size child <= STANDARD_VECTOR_SIZE ->
  size child <= length buffer ->
  let mark := ConstructMarkJoinResult_mark ht ss join_keys child (FLAT_VECTOR buffer None) in
  forall i, i < size child ->
    fst mark !!! i = Z.b2z (fm !!! i)
    /\ (RowIsValid (snd mark) i = false
        <-> (exists jdata,
               last_nullable_key (null_values_are_equal ht) (data join_keys) 0 (size join_keys)
               = Some jdata
               /\ vd_is_null jdata i = true)
            \/ (has_null ht = true /\ fm !!! i = false)).
Proof.
  intros Hfound Hkeys Hsize Hbuffer mark. subst mark.
  unfold ConstructMarkJoinResult_mark. cbn [SetVectorType_FLAT]. rewrite Hfound, Hkeys.
  set (mask1 := mark_key_nulls (null_values_are_equal ht) (data join_keys) 0 (size child) None).
  assert (Hmask1 : mask_covers mask1
            /\ forall j, j < size child ->
                 RowIsValid mask1 j
                 = match last_nullable_key (null_values_are_equal ht) (data join_keys) 0
                                           (size child) with
                   | Some jdata => negb (vd_is_null jdata j)
                   | None => true
                   end).
  { split; [apply (mark_key_nulls_spec (null_values_are_equal ht) _ Hsize (data join_keys) 0 None 0 I) |].
    intros j Hj. subst mask1.
    destruct (mark_key_nulls_spec (null_values_are_equal ht) _ Hsize (data join_keys) 0 None j I)
      as [_ ->].
    destruct (last_nullable_key _ _ _ _); [| reflexivity].
    case_bool_decide; [reflexivity | lia]. }
  destruct Hmask1 as [Hcovers Hmask1].
  set (bool_result := foldl (fun (r : list Z) i0 => <[i0 := Z.b2z (fm !!! i0)]> r) buffer
                           (seq 0 (size child))).
  assert (Hbool : forall j, j < size child -> bool_result !!! j = Z.b2z (fm !!! j)).
  { intros j Hj. subst bool_result. rewrite found_to_bool_result by exact Hbuffer.
    case_bool_decide; [reflexivity | lia]. }
  intros i Hi. cbn [fst snd]. split; [apply Hbool; exact Hi |].
  assert (Hkey : RowIsValid mask1 i = false
                 <-> exists jdata,
                       last_nullable_key (null_values_are_equal ht) (data join_keys) 0
                                         (size child) = Some jdata
                       /\ vd_is_null jdata i = true).
  { rewrite Hmask1 by exact Hi.
    destruct (last_nullable_key _ _ _ _) as [jdata |].
    - split.
      + intros Hnull. exists jdata. split; [reflexivity |].
        destruct (vd_is_null jdata i); [reflexivity | discriminate].
      + intros (jdata' & [= <-] & ->). reflexivity.
    - split; [discriminate | intros (jdata & Hnone & _); discriminate]. }
  destruct (has_null ht).
  - destruct (mark_has_null_spec bool_result (size child) Hsize mask1 i Hcovers) as [_ Hvalid].
    cbn zeta in Hvalid. rewrite Hvalid, Hbool by exact Hi.
    rewrite bool_decide_eq_true_2 by exact Hi. rewrite <- Hkey.
    destruct (fm !!! i), (RowIsValid mask1 i); cbn; split; intros H;
      try reflexivity; try discriminate; try (left; reflexivity); try (right; split; reflexivity).
    all: destruct H as [H | [_ H]]; discriminate.
  - rewrite <- Hkey. split; [intros H; left; exact H |].
    intros [H | [H _]]; [exact H | discriminate].
Qed.

(** ** The mark of a correlated mark join *)

Lemma SetValid_spec mask i j :
  mask_covers mask -> i < STANDARD_VECTOR_SIZE ->
  mask_covers (SetValid mask i)
  /\ RowIsValid (SetValid mask i) j = RowIsValid mask j || bool_decide (j = i).
Proof.
  intros Hcovers Hi. destruct mask as [bits |]; cbn [SetValid RowIsValid mask_covers] in *.
  - split; [rewrite length_insert; exact Hcovers |]. case_bool_decide as Hj.
    + subst j. rewrite list_lookup_insert_eq by lia. rewrite orb_true_r. reflexivity.
    + rewrite list_lookup_insert_ne by congruence. rewrite orb_false_r. reflexivity.
  - split; [exact I | reflexivity].
Qed.

(** The loop over the rows of a correlated mark join: row by row, the value
    is the match flag; a row without a match whose group has more rows than
    non-null keys becomes NULL, and a row whose group is empty becomes
    valid. *)
Lemma correlated_mark_loop (fm : option (list bool)) (count_star count : list Z) n :
  n <= STANDARD_VECTOR_SIZE ->
  forall (r : list Z) mask j,
    n <= length r -> mask_covers mask ->
    let st :=
      foldl (fun (st : list Z * ValidityMask) i =>
               let '(r, m) := st in
               let b := found_at fm i in
               let r' := <[i := Z.b2z b]> r in
               let m1 :=
                 if negb b && (count !!! i <? count_star !!! i)%Z
                 then SetInvalid STANDARD_VECTOR_SIZE m i else m in
               let m2 := if decide (count_star !!! i = 0%Z) then SetValid m1 i else m1 in
               (r', m2))
            (r, mask) (seq 0 n) in
    mask_covers (snd st) /\ length (fst st) = length r
    /\ fst st !!! j = (if bool_decide (j < n) then Z.b2z (found_at fm j) else r !!! j)
    /\ RowIsValid (snd st) j
       = if bool_decide (j < n)
         then (if decide (count_star !!! j = 0%Z) then true
               else RowIsValid mask j
                    && negb (negb (found_at fm j) && (count !!! j <? count_star !!! j)%Z))
         else RowIsValid mask j.
Proof.
  induction n as [| n IH]; intros Hn r mask j Hr Hcovers.
  - cbn. split; [exact Hcovers |]. split; [reflexivity |].
    case_bool_decide; [lia |]. split; reflexivity.
  - cbn zeta. rewrite seq_S, foldl_app. cbn [foldl Nat.add].
    destruct (IH ltac:(lia) r mask j ltac:(lia) Hcovers) as (Hc & Hl & Hv & Hm).
    cbn zeta in Hc, Hl, Hv, Hm.
    destruct (foldl _ (r, mask) (seq 0 n)) as [r0 m0]. cbn [fst snd] in *.
    set (b := found_at fm n).
    set (m1 := if negb b && (count !!! n <? count_star !!! n)%Z
               then SetInvalid STANDARD_VECTOR_SIZE m0 n else m0).
    assert (Hm1 : mask_covers m1
                  /\ RowIsValid m1 j
                     = RowIsValid m0 j
                       && negb (bool_decide (j = n)
                                && (negb b && (count !!! n <? count_star !!! n)%Z))).
    { subst m1. destruct (negb b && (count !!! n <? count_star !!! n)%Z).
      - destruct (SetInvalid_spec m0 n j Hc ltac:(lia)) as [Hc1 ->]. split; [exact Hc1 |].
        rewrite andb_true_r. reflexivity.
      - split; [exact Hc |]. rewrite andb_false_r, andb_true_r. reflexivity. }
    destruct Hm1 as [Hc1 Hm1].
    set (m2 := if decide (count_star !!! n = 0%Z) then SetValid m1 n else m1).
    assert (Hm2 : mask_covers m2
                  /\ RowIsValid m2 j
                     = RowIsValid m1 j
                       || (bool_decide (j = n) && bool_decide (count_star !!! n = 0%Z))).
    { subst m2. destruct (decide (count_star !!! n = 0%Z)) as [Hzero | Hsome].
      - destruct (SetValid_spec m1 n j Hc1 ltac:(lia)) as [Hc2 ->]. split; [exact Hc2 |].
        rewrite (bool_decide_eq_true_2 _ Hzero), andb_true_r. reflexivity.
      - split; [exact Hc1 |]. rewrite (bool_decide_eq_false_2 _ Hsome), andb_false_r, orb_false_r.
        reflexivity. }
    destruct Hm2 as [Hc2 Hm2].
    split; [exact Hc2 |]. split; [rewrite length_insert; exact Hl |]. split.
    + destruct (decide (j = n)) as [-> | Hne].
      * rewrite list_lookup_total_insert_eq by lia.
        rewrite (bool_decide_eq_true_2 (n < S n)) by lia. reflexivity.
      * rewrite list_lookup_total_insert_ne by congruence. rewrite Hv.
        destruct (decide (j < n)) as [Hlt | Hge].
        -- rewrite !bool_decide_eq_true_2 by lia. reflexivity.
        -- rewrite !bool_decide_eq_false_2 by lia. reflexivity.
    + rewrite Hm2, Hm1, Hm. destruct (decide (j = n)) as [-> | Hne].
      * rewrite (bool_decide_eq_false_2 (n < n)) by lia.
        rewrite (bool_decide_eq_true_2 (n < S n)) by lia.
        rewrite (bool_decide_eq_true_2 (n = n)) by reflexivity. cbn [andb]. fold b.
        destruct (decide (count_star !!! n = 0%Z)) as [Hzero | Hsome].
        -- rewrite (bool_decide_eq_true_2 _ Hzero). apply orb_true_r.
        -- rewrite (bool_decide_eq_false_2 _ Hsome). apply orb_false_r.
      * rewrite (bool_decide_eq_false_2 (j = n)) by exact Hne. cbn [andb negb].
        rewrite andb_true_r, orb_false_r.
        destruct (decide (j < n)) as [Hlt | Hge].
        -- rewrite !bool_decide_eq_true_2 by lia. reflexivity.
        -- rewrite !bool_decide_eq_false_2 by lia. reflexivity.
Qed.

(** X15: the mark of a correlated mark join, computed into a fresh vector
    from the counts that the aggregate table returns for the group of every
    probe row.  The value is the match flag of the row.  A row whose group is
    empty, [count_star = 0], has a valid mark.  For a row of a group with
    rows the mark is NULL when the last key of the row is null, and when the
    row found no match and the group holds a null key, [count < count_star];
    otherwise it is valid. *)
Theorem NextMarkJoin_correlated_mark (ht : JoinHashTable) (ss : ScanStructure)
    (keys input result : DataChunk) (buffer count_star count : list Z) :
  ColumnCount result = ColumnCount input + 1 ->
  data result !! ColumnCount input = Some (FLAT_VECTOR buffer None) ->
  size keys = size input ->
  size input <= STANDARD_VECTOR_SIZE ->
  size input <= length buffer ->
  (forall d validity,
     List.last (data keys) (FLAT_VECTOR [] None) = FLAT_VECTOR d validity ->
     mask_covers validity) ->
  FetchAggregates (correlated_counts (correlated_mark_join_info ht))
                  {| data := take (length (correlated_types (correlated_mark_join_info ht)))
                                  (data keys);
                     size := size keys |}
  = (count_star, count) ->
  let last_key := Orrify (List.last (data keys) (FLAT_VECTOR [] None)) (size keys) in
  exists bool_result mask,
    data (NextMarkJoin_correlated ht ss keys input result) !! ColumnCount input
    = Some (FLAT_VECTOR bool_result mask)
    /\ size (NextMarkJoin_correlated ht ss keys input result) = size input
    /\ forall i, i < size input ->
         bool_result !!! i = Z.b2z (found_at (found_match ss) i)
         /\ RowIsValid mask i
            = if decide (count_star !!! i = 0%Z) then true
              else negb (vd_is_null last_key i)
                   && (found_at (found_match ss) i || negb (count !!! i <? count_star !!! i)%Z).
Proof.
  intros Hcolumns Hmark Hkeys Hsize Hbuffer Hflat Hcounts last_key.
  unfold NextMarkJoin_correlated. rewrite Hcounts.
  assert (Hcols : DataChunk_Reference result input = data input ++ [FLAT_VECTOR buffer None]).
  { unfold DataChunk_Reference. f_equal. unfold ColumnCount in *.
    apply list_eq. intros [| i].
    - rewrite lookup_drop, Nat.add_0_r. exact Hmark.
    - rewrite lookup_drop. cbn. apply lookup_ge_None. lia. }
  rewrite Hcols, last_last. cbn [SetVectorType_FLAT].
  set (key := List.last (data keys) (FLAT_VECTOR [] None)) in *.
  set (mask1 := match key with
                | CONSTANT_VECTOR _ is_null =>
                    if is_null then SetAllInvalid STANDARD_VECTOR_SIZE (size input) else None
                | FLAT_VECTOR _ validity => validity
                | DICTIONARY_VECTOR _ _ _ =>
                    foldl (fun m i =>
                             ValiditySet STANDARD_VECTOR_SIZE m i
                               (RowIsValid (vd_validity (Orrify key (size keys)))
                                           (get_index (vd_sel (Orrify key (size keys))) i)))
                          None (seq 0 (size input))
                end).
  assert (Hmask1 : mask_covers mask1
                   /\ forall i, i < size input -> RowIsValid mask1 i = negb (vd_is_null last_key i)).
  { subst mask1 last_key. destruct key as [d validity | value [|] | sel d validity] eqn:Hkey.
    - split; [apply (Hflat d validity); reflexivity |]. intros i _.
      unfold vd_is_null. cbn. rewrite negb_involutive. reflexivity.
    - split.
      + cbn. rewrite length_app, !length_replicate. lia.
      + intros i Hi. unfold vd_is_null. cbn [Orrify vd_validity vd_sel get_index].
        rewrite lookup_total_replicate_2 by lia. cbn.
        rewrite lookup_app_l by (rewrite length_replicate; exact Hi).
        rewrite lookup_replicate_2 by exact Hi. reflexivity.
    - split; [exact I |]. intros i _. reflexivity.
    - change (foldl _ None (seq 0 (size input)))
        with (mark_column_nulls (Orrify (DICTIONARY_VECTOR sel d validity) (size keys))
                                (size input) None).
      split; [apply (mark_column_nulls_spec _ _ Hsize None 0 I) |].
      intros i Hi. destruct (mark_column_nulls_spec
                               (Orrify (DICTIONARY_VECTOR sel d validity) (size keys))
                               (size input) Hsize None i I) as [_ ->].
      rewrite bool_decide_eq_true_2 by exact Hi. reflexivity. }
  destruct Hmask1 as [Hcovers Hmask1]. fold mask1.
  destruct (correlated_mark_loop (found_match ss) count_star count (size input) Hsize buffer mask1 0
                                 Hbuffer Hcovers) as (_ & Hlen & _ & _).
  cbn zeta in Hlen.
  pose proof (fun j => correlated_mark_loop (found_match ss) count_star count (size input) Hsize
                         buffer mask1 j Hbuffer Hcovers) as Hloop.
  cbn zeta in Hloop.
  destruct (foldl _ (buffer, mask1) (seq 0 (size input))) as [bool_result mask2].
  cbn [fst snd] in *.
  exists bool_result, mask2. cbn [data size]. split.
  { rewrite length_app. cbn [length]. rewrite Nat.add_sub.
    unfold ColumnCount. rewrite list_lookup_insert_eq; [reflexivity |].
    rewrite length_app. cbn. lia. }
  split; [reflexivity |].
  intros i Hi. destruct (Hloop i) as (_ & _ & Hv & Hm).
  rewrite bool_decide_eq_true_2 in Hv, Hm by exact Hi. split; [exact Hv |].
  rewrite Hm, Hmask1 by exact Hi.
  destruct (decide (count_star !!! i = 0%Z)); [reflexivity |].
  destruct (found_at (found_match ss) i), (count !!! i <? count_star !!! i)%Z,
    (vd_is_null last_key i); reflexivity.
Qed.

(** ** From [Finalize] to [ScanFullOuter] *)

Lemma Finalize_frame ht mem ht' mem' addr :
  Finalize ht mem = Some (ht', mem') ->
  (forall block k, block ∈ blocks (block_collection ht) -> k < block_count block ->
                   (row_addr ht block k + pointer_offset ht)%Z <> addr) ->
  Load mem' addr = Load mem addr.
Proof.
  unfold Finalize.
  destruct (Finalize_blocks _ _ _) as [[ht1 mem1] |] eqn:Hblocks; [| discriminate].
  intros [= <- <-] Hother. eapply Finalize_blocks_frame; [exact Hblocks |].
  exact Hother.
Qed.

Lemma snd_blocks_rows ht mem bs :
  snd <$> blocks_rows ht mem bs
  = concat ((fun block => row_addr ht block <$> seq 0 (block_count block)) <$> bs).
Proof.
  unfold blocks_rows. induction bs as [| block rest IH]; cbn [fmap list_fmap concat];
    [reflexivity |].
  rewrite fmap_app, snd_block_rows. f_equal. exact IH.
Qed.

Lemma elem_of_table_rows ht mem a :
  a ∈ snd <$> table_rows ht mem
  <-> exists block k, block ∈ blocks (block_collection ht) /\ k < block_count block
                      /\ a = row_addr ht block k.
Proof.
  unfold table_rows, blocks_rows. split.
  - intros Ha. apply list_elem_of_fmap in Ha as ([s a'] & -> & Hrow).
    apply list_elem_of_In, in_concat in Hrow as (l & Hl & Hrow).
    apply list_elem_of_In in Hl, Hrow.
    apply list_elem_of_fmap in Hl as (block & -> & Hblock). unfold block_rows in Hrow.
    apply list_elem_of_fmap in Hrow as (k & [= -> ->] & Hk). apply elem_of_seq in Hk.
    exists block, k. split; [exact Hblock |]. split; [lia | reflexivity].
  - intros (block & k & Hblock & Hk & ->). apply list_elem_of_fmap.
    exists (slot_of ht (Load mem (row_addr ht block k + pointer_offset ht)%Z), row_addr ht block k).
    split; [reflexivity |]. apply list_elem_of_In, in_concat.
    exists (block_rows ht mem block 0 (block_count block)). split.
    + apply list_elem_of_In, list_elem_of_fmap. exists block. split; [reflexivity | exact Hblock].
    + apply list_elem_of_In. unfold block_rows. apply list_elem_of_fmap. exists k.
      split; [reflexivity |]. apply elem_of_seq. lia.
Qed.

(** X16: from [Finalize] to the scan for unmatched rows.  On a table that
    had no block pinned, [Finalize] pins the blocks at the addresses the rows
    were inserted from, so that the [ScanFullOuter] calls that follow return
    the rows of the table whose found flag is false, in the order in which
    [Finalize] inserted them.  When no found flag lies in the next-pointer
    slot of a row, [Finalize] has left the flags as [Build] wrote them. *)
Theorem ScanFullOuter_after_Finalize_scans_the_table (ht : JoinHashTable) (mem : Memory)
    (ht' : JoinHashTable) (mem' : Memory) (result : DataChunk) (fuel : nat) :
  0 < STANDARD_VECTOR_SIZE ->
  pinned_handles ht = [] ->
  Finalize ht mem = Some (ht', mem') ->
  let rows := snd <$> table_rows ht mem in
  length (List.filter (unfound ht mem') rows) < fuel ->
  exists chunks,
    ScanFullOuter_all fuel ht' mem' result {| position := 0; block_position := 0 |} = Some chunks
    /\ concat (snd <$> chunks) = List.filter (unfound ht mem') rows
    /\ ((forall a b, a ∈ rows -> b ∈ rows -> (a + tuple_size ht)%Z <> (b + pointer_offset ht)%Z) ->
        List.filter (unfound ht mem') rows = List.filter (unfound ht mem) rows).
Proof.
  intros Hvec Hpinned Hfin rows Hfuel.
  pose proof (Finalize_table _ _ _ _ Hfin) as Htable.
  assert (Hscan : rows_to_scan ht' {| position := 0; block_position := 0 |} = rows).
  { rewrite (rows_to_scan_table_rows ht' mem).
    - subst rows. unfold table_rows. rewrite !snd_blocks_rows, Htable. reflexivity.
    - rewrite Htable at 1. cbn [pinned_handles with_finalized with_pinned_handles].
      rewrite Hpinned. rewrite Htable. reflexivity. }
  assert (Hunfound : forall a, unfound ht' mem' a = unfound ht mem' a)
    by (intros a; rewrite Htable; reflexivity).
  assert (Hrows : unmatched_rows ht' mem' {| position := 0; block_position := 0 |}
                  = List.filter (unfound ht mem') rows).
  { unfold unmatched_rows. rewrite Hscan. apply filter_ext_in. intros a _. apply Hunfound. }
  destruct (ScanFullOuter_all_spec ht' mem' result Hvec fuel
              {| position := 0; block_position := 0 |}) as (chunks & Hall & Hconcat & _).
  { rewrite Hrows. exact Hfuel. }
  exists chunks. split; [exact Hall |]. split; [rewrite Hconcat; exact Hrows |].
  intros Hapart. apply filter_ext_in. intros a Ha. unfold unfound.
  rewrite (Finalize_frame ht mem ht' mem' (a + tuple_size ht)%Z Hfin); [reflexivity |].
  intros block k Hblock Hk Heq.
  apply (Hapart a (row_addr ht block k)); [exact Ha | | lia].
  apply elem_of_table_rows. exists block, k. auto.
Qed.

(** ** The table that the constructor builds *)

(** X17: the capacity of the blocks of a new table.  It is a multiple of
    [TMP_BUF_SIZE] that lies above [max(STANDARD_VECTOR_SIZE,
    BLOCK_SIZE / entry_size + 1)] by at most [TMP_BUF_SIZE]: a block holds more
    than a vector of rows and more rows than fit a storage block.  The rows
    of the block collection have the width of the layout; the string heap has
    blocks of [BLOCK_SIZE] bytes.  The rows are not empty. *)
Theorem JoinHashTable_new_block_capacity (conditions : list JoinCondition)
    (btypes : list LogicalType) (type : JoinType) :
  (0 < TMP_BUF_SIZE)%Z ->
  let ht := JoinHashTable_new conditions btypes type in
  (0 < entry_size ht)%Z ->
  let least := Z.max (Z.of_nat STANDARD_VECTOR_SIZE) (BLOCK_SIZE / entry_size ht + 1) in
  let capacity := block_capacity (block_collection ht) in
  (capacity mod TMP_BUF_SIZE = 0)%Z
  /\ (least < capacity <= least + TMP_BUF_SIZE)%Z
  /\ (Z.of_nat STANDARD_VECTOR_SIZE < capacity)%Z
  /\ (BLOCK_SIZE < capacity * entry_size ht)%Z
  /\ rdc_entry_size (block_collection ht) = GetRowWidth (layout ht)
  /\ entry_size ht = GetRowWidth (layout ht)
  /\ block_capacity (string_heap ht) = BLOCK_SIZE
  /\ rdc_entry_size (string_heap ht) = 1%Z.
Proof.
  intros Htmp ht Hwidth least capacity. subst capacity least ht.
  cbn [JoinHashTable_new block_collection string_heap block_capacity rdc_entry_size entry_size
         layout] in *.
  set (width := GetRowWidth (RowLayout_Initialize _)) in *.
  set (least := Z.max (Z.of_nat STANDARD_VECTOR_SIZE) (BLOCK_SIZE / width + 1)).
  pose proof (Z.mod_pos_bound least TMP_BUF_SIZE Htmp) as Hmod.
  split.
  { replace (least + (TMP_BUF_SIZE - least mod TMP_BUF_SIZE))%Z
      with (least - least mod TMP_BUF_SIZE + 1 * TMP_BUF_SIZE)%Z by lia.
    rewrite Z.mod_add by lia. rewrite Zminus_mod, Zmod_mod, Z.sub_diag. reflexivity. }
  split; [lia |]. split; [lia |]. split.
  { pose proof (Z.mul_succ_div_gt BLOCK_SIZE width Hwidth) as Hdiv. nia. }
  repeat split; reflexivity.
Qed.



(** ** The addresses of all rows *)

Lemma FillWithHTOffsets_block_spec ht base_ptr n :
  forall pos key_locations key_count,
    key_count + n <= length key_locations ->
    exists key_locations',
      FillWithHTOffsets_block ht base_ptr n pos key_locations key_count
      = (pos + n, key_locations', key_count + n)
      /\ take (key_count + n) key_locations'
         = take key_count key_locations
           ++ ((fun k => (base_ptr + Z.of_nat k * entry_size ht)%Z) <$> seq pos n)
      /\ length key_locations' = length key_locations.
Proof.
  induction n as [| n IH]; intros pos kl kc Hlen; cbn [FillWithHTOffsets_block].
  - exists kl. rewrite !Nat.add_0_r, app_nil_r. repeat split.
  - destruct (IH (S pos) (<[kc := (base_ptr + Z.of_nat pos * entry_size ht)%Z]> kl) (S kc))
      as (kl' & Heq & Htake & Hl); [rewrite length_insert; lia |].
    exists kl'. rewrite Heq. replace (S pos + n) with (pos + S n) by lia.
    replace (S kc + n) with (kc + S n) in * by lia. split; [reflexivity |].
    split; [| rewrite Hl; apply length_insert].
    rewrite Htake, take_insert_snoc by lia. cbn [seq fmap list_fmap].
    rewrite <- app_assoc. reflexivity.
Qed.

Lemma FillWithHTOffsets_blocks_spec ht :
  forall n state key_locations key_count,
    n = length (blocks (block_collection ht)) - block_position state ->
    key_count + length (addresses_from_state ht state) <= length key_locations ->
    exists key_locations',
      FillWithHTOffsets_blocks ht n state key_locations key_count
      = (if decide (n = 0) then state
         else {| position := 0; block_position := length (blocks (block_collection ht)) |},
         key_locations', key_count + length (addresses_from_state ht state))
      /\ take (key_count + length (addresses_from_state ht state)) key_locations'
         = take key_count key_locations ++ addresses_from_state ht state
      /\ length key_locations' = length key_locations.
Proof.
  induction n as [| n IH]; intros state kl kc Hn Hlen; cbn [FillWithHTOffsets_blocks].
  - unfold addresses_from_state in *. rewrite drop_ge in * by lia. cbn [addresses_from length] in *.
    exists kl. rewrite Nat.add_0_r, app_nil_r. repeat split.
  - destruct (blocks (block_collection ht) !! block_position state) as [block |] eqn:Hblock;
      [| apply lookup_ge_None in Hblock; lia].
    unfold addresses_from_state in Hlen |- *.
    rewrite (drop_S _ _ _ Hblock) in Hlen |- *. cbn [addresses_from] in Hlen |- *.
    rewrite length_app in Hlen |- *. unfold block_addresses in Hlen |- * at 1 2.
    rewrite length_fmap, length_seq in Hlen |- *.
    destruct (FillWithHTOffsets_block_spec ht (block_ptr block) (block_count block - position state)
                (position state) kl kc) as (kl1 & Heq1 & Htake1 & Hl1); [lia |].
    rewrite Heq1.
    destruct (IH {| position := 0; block_position := S (block_position state) |} kl1
                 (kc + (block_count block - position state)))
      as (kl' & Heq & Htake & Hl).
    + cbn [block_position]. lia.
    + unfold addresses_from_state. cbn [block_position position]. rewrite Hl1. lia.
    + unfold addresses_from_state in Heq, Htake. cbn [block_position position] in Heq, Htake.
      exists kl'. rewrite Heq. split.
      { replace (kc + (block_count block - position state
                       + length (addresses_from ht (drop (S (block_position state))
                                                         (blocks (block_collection ht))) 0)))
          with (kc + (block_count block - position state)
                + length (addresses_from ht (drop (S (block_position state))
                                                  (blocks (block_collection ht))) 0)) by lia.
        destruct (decide (n = 0)) as [-> | Hmore]; [| reflexivity].
        f_equal. f_equal. f_equal. lia. }
      split; [| congruence].
      rewrite Nat.add_assoc, Htake, Htake1, <- app_assoc. reflexivity.
Qed.

Lemma addresses_from_table_rows ht mem :
  addresses_from ht (blocks (block_collection ht)) 0 = snd <$> table_rows ht mem.
Proof.
  unfold table_rows. rewrite snd_blocks_rows.
  induction (blocks (block_collection ht)) as [| block rest IH];
    cbn [addresses_from fmap list_fmap concat]; [reflexivity |].
  rewrite IH. unfold block_addresses. rewrite Nat.sub_0_r. reflexivity.
Qed.

(** X19: [FillWithHTOffsets] on an array that has room for them writes the
    addresses of all the rows of the table from the scan state on, in the
    order of the blocks and of the rows in a block, and returns their number;
    from the start of the table these are the rows in the order in which
    [Finalize] inserts them.  The scan state is left at the end of the
    blocks, so that a second call returns 0 and writes nothing. *)
Theorem FillWithHTOffsets_lists_every_row (ht : JoinHashTable) (key_locations : list data_ptr_t)
    (state : JoinHTScanState) :
  length (addresses_from_state ht state) <= length key_locations ->
  exists key_locations' state',
    FillWithHTOffsets ht key_locations state
    = (length (addresses_from_state ht state), key_locations', state')
    /\ take (length (addresses_from_state ht state)) key_locations' = addresses_from_state ht state
    /\ length key_locations' = length key_locations
    /\ (block_position state < length (blocks (block_collection ht)) ->
        state' = {| position := 0; block_position := length (blocks (block_collection ht)) |})
    /\ FillWithHTOffsets ht key_locations' state' = (0, key_locations', state')
    /\ (forall mem,
          addresses_from_state ht {| position := 0; block_position := 0 |}
          = snd <$> table_rows ht mem).
Proof.
  intros Hlen. unfold FillWithHTOffsets.
  destruct (FillWithHTOffsets_blocks_spec ht
              (length (blocks (block_collection ht)) - block_position state) state key_locations 0
              eq_refl Hlen) as (kl' & Heq & Htake & Hl).
  rewrite Heq. cbn [Nat.add] in *. rewrite take_0 in Htake. cbn [app] in Htake.
  eexists _, _. split; [reflexivity |]. split; [exact Htake |]. split; [exact Hl |].
  split.
  { intros Hbp. destruct (decide _); [lia | reflexivity]. }
  split.
  { set (state' := if decide (length (blocks (block_collection ht)) - block_position state = 0)
                   then state
                   else {| position := 0;
                           block_position := length (blocks (block_collection ht)) |}).
    assert (Hend : length (blocks (block_collection ht)) - block_position state' = 0).
    { subst state'. destruct (decide _); cbn [block_position]; lia. }
    rewrite Hend. reflexivity. }
  intros mem. unfold addresses_from_state. cbn [block_position position]. rewrite drop_0.
  apply addresses_from_table_rows.
Qed.

(** ** The indices of a scan *)

Lemma GetScanIndices_blocks_count ht :
  forall n state count,
    n = length (blocks (block_collection ht)) - block_position state ->
    count <= STANDARD_VECTOR_SIZE ->
    (count = STANDARD_VECTOR_SIZE -> n = 0) ->
    snd (GetScanIndices_blocks ht n state count)
    = STANDARD_VECTOR_SIZE `min` (count + rows_in_blocks_from ht state).
Proof.
  induction n as [| n IH]; intros state count Hn Hcount Hfull; cbn [GetScanIndices_blocks].
  - unfold rows_in_blocks_from. rewrite drop_ge by lia. cbn. lia.
  - destruct (blocks (block_collection ht) !! block_position state) as [block |] eqn:Hblock;
      [| apply lookup_ge_None in Hblock; lia].
    unfold rows_in_blocks_from. rewrite (drop_S _ _ _ Hblock). cbn [fmap list_fmap sum_list].
    change (id (block_count block)) with (block_count block).
    destruct (decide (count + block_count block `min` (STANDARD_VECTOR_SIZE - count)
                      = STANDARD_VECTOR_SIZE)) as [Heq | Hne]; cbn [snd]; [lia |].
    rewrite IH.
    + unfold rows_in_blocks_from. cbn [block_position]. lia.
    + cbn [block_position]. lia.
    + lia.
    + intros Hfull'. lia.
Qed.

(** X20: [GetScanIndices] reports the position of the scan state at the
    call, and the count it returns is the number of rows that the blocks from
    [block_position] on hold, cut at a vector: the row [position] inside the
    first block does not enter the count.  While the block at
    [block_position] holds at least a vector of rows, a call returns a full
    vector, adds a vector to [position] and stays in that block. *)
Theorem GetScanIndices_counts_the_rows_of_the_blocks (ht : JoinHashTable)
    (state : JoinHTScanState) :
  0 < STANDARD_VECTOR_SIZE ->
  (exists state',
     GetScanIndices ht state
     = (STANDARD_VECTOR_SIZE `min` rows_in_blocks_from ht state, position state,
        block_position state, state'))
  /\ (forall block,
        blocks (block_collection ht) !! block_position state = Some block ->
        STANDARD_VECTOR_SIZE <= block_count block ->
        GetScanIndices ht state
        = (STANDARD_VECTOR_SIZE, position state, block_position state,
           {| position := position state + STANDARD_VECTOR_SIZE;
              block_position := block_position state |})).
Proof.
  intros Hvec. unfold GetScanIndices. split.
  - pose proof (GetScanIndices_blocks_count ht
                  (length (blocks (block_collection ht)) - block_position state) state 0
                  eq_refl ltac:(lia) ltac:(lia)) as Hcount.
    destruct (GetScanIndices_blocks _ _ _ _) as [state' count]. cbn [snd Nat.add] in Hcount.
    exists state'. rewrite Hcount. reflexivity.
  - intros block Hblock Hfull.
    pose proof (lookup_lt_Some _ _ _ Hblock) as Hlt.
    destruct (length (blocks (block_collection ht)) - block_position state) as [| n] eqn:Hn;
      [lia |].
    cbn [GetScanIndices_blocks]. rewrite Hblock. cbn [Nat.add].
    rewrite Nat.sub_0_r, Nat.min_r by exact Hfull.
    destruct (decide (STANDARD_VECTOR_SIZE = STANDARD_VECTOR_SIZE)); [reflexivity | contradiction].
Qed.

(** ** The rows of a probe chunk *)





(** ** Merging histograms *)

(** A loop that adds to every entry of an array, entry by entry. *)
Lemma foldl_add_lookup (other : list Z) n :
  forall (histogram : list Z) i,
    foldl (fun histogram i => <[i := wrap64 (histogram !!! i + other !!! i)]> histogram)
          histogram (seq 0 n) !!! i
    = if bool_decide (i < n /\ i < length histogram)
      then wrap64 (histogram !!! i + other !!! i) else histogram !!! i.
Proof.
  induction n as [| n IH]; intros histogram i.
  - cbn. rewrite bool_decide_eq_false_2 by lia. reflexivity.
  - rewrite seq_S, foldl_app. cbn [foldl Nat.add].
    set (before := foldl _ histogram (seq 0 n)).
    assert (Hlen : length before = length histogram).
    { subst before. clear. generalize histogram. induction (seq 0 n) as [| j l IHl];
        intros h; cbn [foldl]; [reflexivity |]. rewrite IHl. apply length_insert. }
    destruct (decide (i = n)) as [-> | Hne].
    + destruct (decide (n < length histogram)) as [Hin | Hout].
      * rewrite list_lookup_total_insert_eq by lia. subst before. rewrite IH.
        rewrite bool_decide_eq_false_2 by lia. rewrite bool_decide_eq_true_2 by lia. reflexivity.
      * rewrite list_insert_ge by lia. subst before. rewrite IH.
        rewrite !bool_decide_eq_false_2 by lia. reflexivity.
    + rewrite list_lookup_total_insert_ne by congruence. subst before. rewrite IH.
      destruct (decide (i < n /\ i < length histogram)) as [Hin | Hout].
      * rewrite !bool_decide_eq_true_2 by lia. reflexivity.
      * rewrite !bool_decide_eq_false_2 by lia. reflexivity.
Qed.

Lemma foldl_add_length (other : list Z) (l : list nat) :
  forall histogram : list Z,
    length (foldl (fun histogram i => <[i := wrap64 (histogram !!! i + other !!! i)]> histogram)
                  histogram l) = length histogram.
Proof.
  induction l as [| j l IH]; intros histogram; cbn [foldl]; [reflexivity |].
  rewrite IH. apply length_insert.
Qed.

Lemma list_eq_lookup_total (l k : list Z) :
  length l = length k -> (forall i, l !!! i = k !!! i) -> l = k.
Proof.
  intros Hlen Heq. apply list_eq. intros i.
  destruct (decide (i < length l)) as [Hlt | Hge].
  - rewrite !(list_lookup_lookup_total_lt _ i) by lia. f_equal. apply Heq.
  - rewrite !(proj2 (lookup_ge_None _ _)) by lia. reflexivity.
Qed.

(** X22: [MergeHistogram] adds the counters of the other table to those of
    this table, partition by partition and in 64-bit arithmetic, and changes
    nothing else of the table.  Merging two tables one after the other gives
    the same histogram in either order, and merging a table whose counters
    are all zero, such as a table fresh from the constructor, gives back the
    histogram when its counters are 64-bit values. *)
Theorem MergeHistogram_adds_the_counters (ht a b : JoinHashTable) :
  MergeHistogram ht a = with_histogram_ptr (histogram_ptr (MergeHistogram ht a)) ht
  /\ length (histogram_ptr (MergeHistogram ht a)) = length (histogram_ptr ht)
  /\ (forall i,
        histogram_ptr (MergeHistogram ht a) !!! i
        = if bool_decide (i < NUM_PARTITIONS /\ i < length (histogram_ptr ht))
          then wrap64 (histogram_ptr ht !!! i + histogram_ptr a !!! i)
          else histogram_ptr ht !!! i)
  /\ histogram_ptr (MergeHistogram (MergeHistogram ht a) b)
     = histogram_ptr (MergeHistogram (MergeHistogram ht b) a)
  /\ ((forall i, histogram_ptr a !!! i = 0%Z) ->
      (forall i, 0 <= histogram_ptr ht !!! i < 2 ^ 64)%Z ->
      histogram_ptr (MergeHistogram ht a) = histogram_ptr ht)
  /\ (forall conditions btypes type i,
        histogram_ptr (JoinHashTable_new conditions btypes type) !!! i = 0%Z).
Proof.
  unfold MergeHistogram. cbn [histogram_ptr with_histogram_ptr].
  split; [reflexivity |]. split; [apply foldl_add_length |].
  split; [intros i; apply foldl_add_lookup |]. split; [| split].
  - apply list_eq_lookup_total; [rewrite !foldl_add_length; reflexivity |].
    intros i. rewrite !foldl_add_lookup, !foldl_add_length.
    destruct (decide (i < NUM_PARTITIONS /\ i < length (histogram_ptr ht))) as [Hin | Hout].
    + rewrite !bool_decide_eq_true_2 by exact Hin. unfold wrap64.
      rewrite !Zplus_mod_idemp_l. f_equal. lia.
    + rewrite !bool_decide_eq_false_2 by exact Hout. reflexivity.
  - intros Hzero Hrange. apply list_eq_lookup_total; [apply foldl_add_length |].
    intros i. rewrite foldl_add_lookup, Hzero, Z.add_0_r.
    destruct (bool_decide _); [| reflexivity]. apply wrap64_small, Hrange.
  - intros conds btypes type i. cbn [JoinHashTable_new histogram_ptr]. unfold InitializeHistogram.
    rewrite list_lookup_total_alt.
    destruct (replicate _ 0%Z !! i) as [z |] eqn:Hz; [| reflexivity].
    apply lookup_replicate in Hz as [-> _]. reflexivity.
Qed.

(** ** What [Build] changes *)

Lemma Build_table ht mem keys payload :
  exists collection heap histogram null counts,
    fst (Build ht mem keys payload)
    = with_histogram_ptr histogram
        (with_collections collection heap (with_has_null null (with_correlated_counts counts ht)))
    /\ (has_null ht = true -> null = true)
    /\ (~ (join_type ht = MARK /\ length (correlated_types (correlated_mark_join_info ht)) <> 0) ->
        counts = correlated_counts (correlated_mark_join_info ht)).
Proof.
  unfold Build. destruct (decide (size keys = 0)).
  { exists (block_collection ht), (string_heap ht), (histogram_ptr ht), (has_null ht),
      (correlated_counts (correlated_mark_join_info ht)).
    split; [destruct ht as [? ? ? ? ? ? ? ? ? ? ? ? ? ? ? ? ? ? ? []]; reflexivity |].
    split; [intros H; exact H | reflexivity]. }
  set (ht1 := if decide (join_type ht = MARK /\ _) then _ else ht).
  assert (Hht1 : exists counts,
            ht1 = with_correlated_counts counts ht
            /\ (~ (join_type ht = MARK
                   /\ length (correlated_types (correlated_mark_join_info ht)) <> 0) ->
                counts = correlated_counts (correlated_mark_join_info ht))).
  { subst ht1. destruct (decide _) as [Hmark | Hplain].
    - eexists. split; [reflexivity |]. intros Hno. contradiction.
    - exists (correlated_counts (correlated_mark_join_info ht)).
      split; [destruct ht as [? ? ? ? ? ? ? ? ? ? ? ? ? ? ? ? ? ? ? []]; reflexivity |].
      reflexivity. }
  destruct Hht1 as (counts & Hht1 & Hcounts). clearbody ht1.
  destruct (PrepareKeys ht1 keys _ true) as [[[kd cs] sl] ac].
  set (ht2 := if decide (ac < size keys) then with_has_null true ht1 else ht1).
  assert (Hht2 : exists null, ht2 = with_has_null null ht1 /\ (has_null ht = true -> null = true)).
  { subst ht2. destruct (decide _).
    - exists true. split; [reflexivity | reflexivity].
    - exists (has_null ht1). split; [destruct ht1; reflexivity |].
      rewrite Hht1. intros H; exact H. }
  destruct Hht2 as (null & Hht2 & Hnull). clearbody ht2.
  destruct (decide (ac = 0)).
  { exists (block_collection ht), (string_heap ht), (histogram_ptr ht), null, counts.
    split; [| split; assumption]. cbn [fst]. rewrite Hht2, Hht1.
    destruct ht as [? ? ? ? ? ? ? ? ? ? ? ? ? ? ? ? ? ? ? []]; reflexivity. }
  destruct (RowDataCollection_Build _ _) as [collection key_locations].
  destruct (Scatter _ _ _ _ _ _ _ _) as [heap mem']. cbn [fst].
  eexists collection, heap, _, null, counts. split; [| split; assumption].
  rewrite Hht2, Hht1. reflexivity.
Qed.

(** X23: [Build] changes only what holds the rows: the block collection, the
    string heap, the histogram, [has_null] and the counts of a correlated mark
    join.  The conditions, types and layout, the join type, the hash map and
    its bitmask, the pinned handles and [finalized] are as they were.
    [has_null], once set, stays set, and only a correlated mark join has its
    counts fed. *)
Theorem Build_changes_only_the_rows (ht : JoinHashTable) (mem : Memory)
    (keys payload : DataChunk) :
  exists collection heap histogram null counts,
    fst (Build ht mem keys payload)
    = with_histogram_ptr histogram
        (with_collections collection heap (with_has_null null (with_correlated_counts counts ht)))
    /\ (has_null ht = true -> null = true)
    /\ (~ (join_type ht = MARK /\ length (correlated_types (correlated_mark_join_info ht)) <> 0) ->
        counts = correlated_counts (correlated_mark_join_info ht)).
Proof. apply Build_table. Qed.

(** ** A copy of a table *)

Lemma conditions_JoinHashTable_new conds btypes type :
  conditions (JoinHashTable_new conds btypes type) = conds.
Proof.
  unfold conditions. cbn [JoinHashTable_new condition_types predicates].
  induction conds as [| [t c] rest IH]; cbn; [reflexivity |]. f_equal. exact IH.
Qed.

Lemma CopyEmpty_Build ht mem keys payload :
  CopyEmpty (fst (Build ht mem keys payload)) = CopyEmpty ht.
Proof.
  destruct (Build_table ht mem keys payload) as (? & ? & ? & ? & ? & -> & _). reflexivity.
Qed.

Lemma CopyEmpty_Build_all batches :
  forall ht mem, CopyEmpty (fst (Build_all ht mem batches)) = CopyEmpty ht.
Proof.
  unfold Build_all. induction batches as [| [keys payload] rest IH]; intros ht mem;
    cbn [foldl fst snd]; [reflexivity |].
  pose proof (CopyEmpty_Build ht mem keys payload) as Hone.
  destruct (Build ht mem keys payload) as [ht1 mem1]. cbn [fst snd] in *.
  rewrite IH. exact Hone.
Qed.

(** X24: [CopyEmpty] of a table that has gone through any number of [Build]
    calls and through [Finalize] is the table as its constructor built it:
    without rows, not finalized, [has_null] not set, with an empty hash map
    and the histogram at zero.  In particular a copy of a fresh table is that
    table. *)
Theorem CopyEmpty_is_the_table_as_constructed (conds : list JoinCondition)
    (btypes : list LogicalType) (type : JoinType) (mem : Memory)
    (batches : list (DataChunk * DataChunk)) :
  let ht0 := JoinHashTable_new conds btypes type in
  CopyEmpty ht0 = ht0
  /\ CopyEmpty (fst (Build_all ht0 mem batches)) = ht0
  /\ (forall ht' mem',
        Finalize (fst (Build_all ht0 mem batches)) (snd (Build_all ht0 mem batches))
        = Some (ht', mem') ->
        CopyEmpty ht' = ht0)
  /\ Count ht0 = 0 /\ finalized ht0 = false /\ has_null ht0 = false /\ hash_map ht0 = [].
Proof.
  intros ht0.
  assert (Hfresh : CopyEmpty ht0 = ht0).
  { unfold CopyEmpty. subst ht0. rewrite conditions_JoinHashTable_new. reflexivity. }
  split; [exact Hfresh |]. split; [rewrite CopyEmpty_Build_all; exact Hfresh |].
  split; [| repeat split].
  intros ht' mem' Hfin. apply Finalize_table in Hfin. rewrite Hfin.
  transitivity (CopyEmpty (fst (Build_all ht0 mem batches))); [reflexivity |].
  rewrite CopyEmpty_Build_all. exact Hfresh.
Qed.

(** ** The external build *)

Lemma PinPartitions_loop_spec (todo : list RowDataCollection) :
  forall (ext : ExternalJoinHashTable) (done hdone htodo : list RowDataCollection),
    partition_block_collections ext = done ++ todo ->
    (AllConstant (layout (table ext)) = false ->
       partition_string_heaps ext = hdone ++ htodo
       /\ length hdone = length done /\ length todo <= length htodo) ->
    exists ext',
      PinPartitions_loop ext (seq (length done) (length todo)) = Some ext'
      /\ table ext' = table ext
      /\ string_heap_pinned_blocks ext' = string_heap_pinned_blocks ext
      /\ swizzled_block_collection ext'
         = {| blocks := blocks (swizzled_block_collection ext) ++ concat (blocks <$> todo);
              rdc_count := rdc_count (swizzled_block_collection ext)
                           + sum_list (rdc_count <$> todo);
              block_capacity := block_capacity (swizzled_block_collection ext);
              rdc_entry_size := rdc_entry_size (swizzled_block_collection ext) |}
      /\ partition_block_collections ext' = done ++ (RowDataCollection_Clear <$> todo)
      /\ (AllConstant (layout (table ext)) = true ->
            swizzled_string_heap ext' = swizzled_string_heap ext
            /\ partition_string_heaps ext' = partition_string_heaps ext)
      /\ (AllConstant (layout (table ext)) = false ->
            swizzled_string_heap ext'
            = {| blocks := blocks (swizzled_string_heap ext)
                           ++ concat (blocks <$> take (length todo) htodo);
                 rdc_count := rdc_count (swizzled_string_heap ext)
                              + sum_list (rdc_count <$> take (length todo) htodo);
                 block_capacity := block_capacity (swizzled_string_heap ext);
                 rdc_entry_size := rdc_entry_size (swizzled_string_heap ext) |}
            /\ partition_string_heaps ext'
               = hdone ++ (RowDataCollection_Clear <$> take (length todo) htodo)
                       ++ drop (length todo) htodo).
Proof.
  induction todo as [| p todo IH]; intros ext done hdone htodo Hp Hh.
  - exists ext. cbn [length seq PinPartitions_loop fmap list_fmap concat sum_list take drop app].
    rewrite !app_nil_r, !Nat.add_0_r.
    split; [reflexivity |]. split; [reflexivity |]. split; [reflexivity |].
    split; [destruct (swizzled_block_collection ext); reflexivity |].
    split; [rewrite Hp, app_nil_r; reflexivity |].
    split; [intros _; split; reflexivity |].
    intros Hc. destruct (Hh Hc) as (Hhs & _ & _).
    split; [destruct (swizzled_string_heap ext); reflexivity | exact Hhs].
  - cbn [length seq PinPartitions_loop].
    unfold PinPartitions_partition at 1.
    rewrite Hp, (list_lookup_middle done todo p (length done) eq_refl).
    cbn [RowDataCollection_Merge].
    cbn [table with_partition_block_collections with_swizzled_block_collection
         partition_string_heaps swizzled_string_heap].
    destruct (AllConstant (layout (table ext))) eqn:Hc; cbn [negb].
    + set (ext1 := with_partition_block_collections _ _).
      destruct (IH ext1 (done ++ [RowDataCollection_Clear p]) [] [])
        as (ext' & Hrun & Ht & Hpin & Hs & Hpb & Hconst & _).
      { subst ext1. cbn [partition_block_collections with_partition_block_collections].
        rewrite insert_app_r_alt by lia. rewrite Nat.sub_diag. cbn [insert list_insert].
        rewrite <- app_assoc. reflexivity. }
      { subst ext1. cbn [table with_partition_block_collections with_swizzled_block_collection].
        rewrite Hc. discriminate. }
      rewrite length_app, Nat.add_1_r in Hrun.
      exists ext'. split; [exact Hrun |].
      split; [rewrite Ht; reflexivity |]. split; [rewrite Hpin; reflexivity |].
      split.
      { rewrite Hs. subst ext1.
        cbn [swizzled_block_collection with_partition_block_collections
             with_swizzled_block_collection blocks rdc_count block_capacity rdc_entry_size
             fmap list_fmap concat sum_list].
        f_equal; [rewrite <- app_assoc; reflexivity | unfold id; lia]. }
      split.
      { rewrite Hpb, <- app_assoc. reflexivity. }
      split; [| discriminate].
      intros _. apply Hconst. subst ext1.
      cbn [table with_partition_block_collections with_swizzled_block_collection]. exact Hc.
    + destruct (Hh eq_refl) as (Hhs & Hlen & Hle).
      destruct htodo as [| h htodo]; [cbn [length] in Hle; lia |].
      rewrite Hhs, (list_lookup_middle hdone htodo h (length done) (eq_sym Hlen)).
      cbn [RowDataCollection_Merge].
      set (ext1 := with_partition_string_heaps _ _).
      destruct (IH ext1 (done ++ [RowDataCollection_Clear p])
                   (hdone ++ [RowDataCollection_Clear h]) htodo)
        as (ext' & Hrun & Ht & Hpin & Hs & Hpb & _ & Hvar).
      { subst ext1. cbn [partition_block_collections with_partition_block_collections
                         with_partition_string_heaps with_swizzled_string_heap].
        rewrite insert_app_r_alt by lia. rewrite Nat.sub_diag. cbn [insert list_insert].
        rewrite <- app_assoc. reflexivity. }
      { intros _. subst ext1.
        cbn [partition_string_heaps with_partition_string_heaps].
        rewrite insert_app_r_alt by lia. rewrite Hlen, Nat.sub_diag. cbn [insert list_insert].
        rewrite <- app_assoc, !length_app. cbn [length] in *.
        split; [reflexivity |]. split; lia. }
      rewrite length_app, Nat.add_1_r in Hrun.
      exists ext'. split; [exact Hrun |].
      split; [rewrite Ht; reflexivity |]. split; [rewrite Hpin; reflexivity |].
      split.
      { rewrite Hs. subst ext1.
        cbn [swizzled_block_collection with_partition_block_collections
             with_partition_string_heaps with_swizzled_string_heap
             with_swizzled_block_collection blocks rdc_count block_capacity rdc_entry_size
             fmap list_fmap concat sum_list].
        f_equal; [rewrite <- app_assoc; reflexivity | unfold id; lia]. }
      split.
      { rewrite Hpb, <- app_assoc. reflexivity. }
      split; [discriminate |].
      intros _.
      destruct Hvar as [Hsh Hps].
      { subst ext1. cbn [table with_partition_block_collections with_partition_string_heaps
                         with_swizzled_string_heap with_swizzled_block_collection]. exact Hc. }
      split.
      { rewrite Hsh. subst ext1.
        cbn [swizzled_string_heap with_partition_string_heaps with_swizzled_string_heap
             blocks rdc_count block_capacity rdc_entry_size length take
             fmap list_fmap concat sum_list].
        f_equal; [rewrite <- app_assoc; reflexivity | unfold id; lia]. }
      rewrite Hps, <- app_assoc. reflexivity.
Qed.

Lemma with_moved_blocks_nil (ext : ExternalJoinHashTable) :
  with_moved_blocks [] [] ext = ext.
Proof.
  destruct ext as [ht sbc ssh pbc psh pinned].
  destruct ht; cbn. unfold with_moved_blocks, with_string_heap_pinned_blocks, with_table,
    with_collections, append_blocks. cbn.
  rewrite !app_nil_r.
  repeat match goal with c : RowDataCollection |- _ => destruct c end. reflexivity.
Qed.

Lemma UnswizzleBlocks_loop_spec (todo : list RowDataBlock) :
  forall (ext : ExternalJoinHashTable) (mem : Memory) (done hs hdone hrest : list RowDataBlock),
    blocks (swizzled_block_collection ext) = done ++ todo ->
    (if AllConstant (layout (table ext)) then hs = []
     else blocks (swizzled_string_heap ext) = hdone ++ hs ++ hrest
          /\ length hdone = length done /\ length hs = length todo) ->
    UnswizzleBlocks_loop (ext, mem) (seq (length done) (length todo))
    = Some (with_moved_blocks todo hs ext,
            unswizzle_all (layout (table ext)) mem (zip todo hs)).
Proof.
  induction todo as [| d todo IH]; intros ext mem done hs hdone hrest Hb Hh.
  - assert (hs = []) as ->.
    { destruct (AllConstant (layout (table ext))); [exact Hh |].
      destruct Hh as (_ & _ & Hlen). destruct hs; [reflexivity | discriminate]. }
    cbn [length seq UnswizzleBlocks_loop zip_with unswizzle_all foldl].
    rewrite with_moved_blocks_nil. reflexivity.
  - cbn [length seq UnswizzleBlocks_loop].
    unfold UnswizzleBlocks_block at 1.
    rewrite Hb, (list_lookup_middle done todo d (length done) eq_refl).
    destruct (AllConstant (layout (table ext))) eqn:Hc; cbn [negb].
    + subst hs.
      set (ext1 := with_table _ ext).
      replace (S (length done)) with (length (done ++ [d]))
        by (rewrite length_app; cbn [length]; lia).
      rewrite (IH ext1 mem (done ++ [d]) [] [] []).
      * f_equal. f_equal.
        -- subst ext1. destruct ext as [ht sbc ssh pbc psh pinned]. destruct ht.
           unfold with_moved_blocks, with_string_heap_pinned_blocks, with_table,
             with_block_collection, with_collections, append_blocks, push_block. cbn.
           rewrite <- !app_assoc. reflexivity.
        -- destruct todo; reflexivity.
      * subst ext1. cbn [swizzled_block_collection with_table].
        rewrite Hb, <- app_assoc. reflexivity.
      * subst ext1. cbn [table with_table with_block_collection with_collections layout].
        rewrite Hc. reflexivity.
    + destruct Hh as (Hhs & Hlen & Hlen').
      destruct hs as [| h hs]; [discriminate |].
      rewrite Hhs.
      change (hdone ++ (h :: hs) ++ hrest) with (hdone ++ h :: (hs ++ hrest)).
      rewrite (list_lookup_middle hdone (hs ++ hrest) h (length done) (eq_sym Hlen)).
      set (ext1 := with_table _ _).
      replace (S (length done)) with (length (done ++ [d]))
        by (rewrite length_app; cbn [length]; lia).
      rewrite (IH ext1 _ (done ++ [d]) hs (hdone ++ [h]) hrest).
      * f_equal. f_equal.
        subst ext1. destruct ext as [ht sbc ssh pbc psh pinned]. destruct ht.
        unfold with_moved_blocks, with_string_heap_pinned_blocks, with_table,
          with_block_collection, with_string_heap, with_collections, append_blocks,
          push_block. cbn.
        rewrite <- !app_assoc. reflexivity.
      * subst ext1. cbn [swizzled_block_collection with_table with_string_heap_pinned_blocks].
        rewrite Hb, <- app_assoc. reflexivity.
      * subst ext1.
        cbn [table with_table with_block_collection with_string_heap with_collections layout
             with_string_heap_pinned_blocks swizzled_string_heap].
        rewrite Hc, Hhs, <- app_assoc, !length_app. cbn [length] in *.
        split; [reflexivity |]. split; lia.
Qed.

Lemma PinPartitions_spec (ext : ExternalJoinHashTable) :
  (AllConstant (layout (table ext)) = false ->
     length (partition_block_collections ext) <= length (partition_string_heaps ext)) ->
  exists ext',
    PinPartitions ext = Some ext'
    /\ table ext' = table ext
    /\ string_heap_pinned_blocks ext' = string_heap_pinned_blocks ext
    /\ swizzled_block_collection ext'
       = {| blocks := blocks (swizzled_block_collection ext)
                      ++ concat (blocks <$> partition_block_collections ext);
            rdc_count := rdc_count (swizzled_block_collection ext)
                         + sum_list (rdc_count <$> partition_block_collections ext);
            block_capacity := block_capacity (swizzled_block_collection ext);
            rdc_entry_size := rdc_entry_size (swizzled_block_collection ext) |}
    /\ partition_block_collections ext'
       = RowDataCollection_Clear <$> partition_block_collections ext
    /\ (AllConstant (layout (table ext)) = true ->
          swizzled_string_heap ext' = swizzled_string_heap ext
          /\ partition_string_heaps ext' = partition_string_heaps ext)
    /\ (AllConstant (layout (table ext)) = false ->
          let moved :=
            take (length (partition_block_collections ext)) (partition_string_heaps ext) in
          swizzled_string_heap ext'
          = {| blocks := blocks (swizzled_string_heap ext) ++ concat (blocks <$> moved);
               rdc_count := rdc_count (swizzled_string_heap ext)
                            + sum_list (rdc_count <$> moved);
               block_capacity := block_capacity (swizzled_string_heap ext);
               rdc_entry_size := rdc_entry_size (swizzled_string_heap ext) |}
          /\ partition_string_heaps ext'
             = (RowDataCollection_Clear <$> moved)
                 ++ drop (length (partition_block_collections ext))
                         (partition_string_heaps ext)).
Proof.
  intros Hh.
  destruct (PinPartitions_loop_spec (partition_block_collections ext) ext [] []
              (partition_string_heaps ext) eq_refl)
    as (ext' & Hrun & Hrest).
  { intros Hc. split; [reflexivity |]. split; [reflexivity | exact (Hh Hc)]. }
  exists ext'. split; [exact Hrun | exact Hrest].
Qed.

(** X25: [PinPartitions] moves the rows of every partition to the swizzled
    collection, partition after partition, and each partition is left
    empty; the table itself is not touched.  With a layout of constant size
    the heaps stay as they are; with any other layout the heap of each
    partition goes to the swizzled heap in the same way, which needs a heap
    for every partition. *)
Theorem PinPartitions_moves_every_partition (ext : ExternalJoinHashTable) :
  (AllConstant (layout (table ext)) = false ->
     length (partition_block_collections ext) <= length (partition_string_heaps ext)) ->
  exists ext',
    PinPartitions ext = Some ext'
    /\ table ext' = table ext
    /\ blocks (swizzled_block_collection ext')
       = blocks (swizzled_block_collection ext)
           ++ concat (blocks <$> partition_block_collections ext)
    /\ rdc_count (swizzled_block_collection ext')
       = rdc_count (swizzled_block_collection ext)
         + sum_list (rdc_count <$> partition_block_collections ext)
    /\ partition_block_collections ext'
       = RowDataCollection_Clear <$> partition_block_collections ext
    /\ (AllConstant (layout (table ext)) = true ->
          swizzled_string_heap ext' = swizzled_string_heap ext
          /\ partition_string_heaps ext' = partition_string_heaps ext)
    /\ (AllConstant (layout (table ext)) = false ->
          let moved :=
            take (length (partition_block_collections ext)) (partition_string_heaps ext) in
          blocks (swizzled_string_heap ext')
          = blocks (swizzled_string_heap ext) ++ concat (blocks <$> moved)
          /\ rdc_count (swizzled_string_heap ext')
             = rdc_count (swizzled_string_heap ext) + sum_list (rdc_count <$> moved)
          /\ partition_string_heaps ext'
             = (RowDataCollection_Clear <$> moved)
                 ++ drop (length (partition_block_collections ext))
                         (partition_string_heaps ext)).
Proof.
  intros Hh.
  destruct (PinPartitions_spec ext Hh) as (ext' & Hrun & Ht & _ & Hs & Hp & Hconst & Hvar).
  exists ext'. split; [exact Hrun |]. split; [exact Ht |].
  split; [rewrite Hs; reflexivity |]. split; [rewrite Hs; reflexivity |].
  split; [exact Hp |]. split; [exact Hconst |].
  intros Hc. destruct (Hvar Hc) as [Hsh Hps].
  split; [rewrite Hsh; reflexivity |]. split; [rewrite Hsh; reflexivity | exact Hps].
Qed.

Lemma UnswizzleBlocks_spec (debug : bool) (ext : ExternalJoinHashTable) (mem : Memory) :
  (debug = true ->
     length (blocks (swizzled_block_collection ext))
     = length (blocks (swizzled_string_heap ext))) ->
  (AllConstant (layout (table ext)) = false ->
     length (blocks (swizzled_block_collection ext))
     <= length (blocks (swizzled_string_heap ext))) ->
  UnswizzleBlocks debug ext mem
  = Some (with_swizzled_string_heap
            (RowDataCollection_Clear (swizzled_string_heap ext))
            (with_swizzled_block_collection
               (RowDataCollection_Clear (swizzled_block_collection ext))
               (with_string_heap_pinned_blocks
                  (string_heap_pinned_blocks ext ++ (block_ptr <$> moved_heap_blocks ext))
                  (with_table
                     (with_collections
                        (with_rdc_count
                           (rdc_count (swizzled_block_collection ext))
                           (append_blocks (blocks (swizzled_block_collection ext))
                                          (block_collection (table ext))))
                        (with_rdc_count
                           (rdc_count (swizzled_string_heap ext))
                           (append_blocks (moved_heap_blocks ext) (string_heap (table ext))))
                        (table ext))
                     ext))),
          unswizzle_all (layout (table ext)) mem
                        (zip (blocks (swizzled_block_collection ext)) (moved_heap_blocks ext))).
Proof.
  intros Hdebug Hvar. unfold UnswizzleBlocks.
  assert (Hguard : debug && negb (bool_decide
                     (length (blocks (swizzled_block_collection ext))
                      = length (blocks (swizzled_string_heap ext)))) = false).
  { destruct debug; [| reflexivity].
    rewrite (bool_decide_eq_true_2 _ (Hdebug eq_refl)). reflexivity. }
  rewrite Hguard.
  pose proof (UnswizzleBlocks_loop_spec (blocks (swizzled_block_collection ext)) ext mem []
                (moved_heap_blocks ext) []
                (drop (length (blocks (swizzled_block_collection ext)))
                      (blocks (swizzled_string_heap ext))) eq_refl) as Hloop.
  cbn [length] in Hloop. rewrite Hloop.
  - reflexivity.
  - unfold moved_heap_blocks.
    destruct (AllConstant (layout (table ext))) eqn:Hc; [reflexivity |].
    cbn [app]. rewrite take_drop. split; [reflexivity |]. split; [reflexivity |].
    rewrite length_take. specialize (Hvar eq_refl). lia.
Qed.

(** X26: [UnswizzleBlocks].  The data blocks of the swizzled collection are
    appended to the blocks of the table, and with a layout that is not of
    constant size one heap block for each data block is appended to the
    string heap and pinned, the row memory going through [UnswizzlePointers]
    block by block.  The row counts of the table are overwritten with those
    of the swizzled collections, not added to, and the swizzled collections
    are left empty. *)
Theorem UnswizzleBlocks_moves_the_blocks_and_overwrites_the_counts
    (debug : bool) (ext : ExternalJoinHashTable) (mem : Memory) :
  (debug = true ->
     length (blocks (swizzled_block_collection ext))
     = length (blocks (swizzled_string_heap ext))) ->
  (AllConstant (layout (table ext)) = false ->
     length (blocks (swizzled_block_collection ext))
     <= length (blocks (swizzled_string_heap ext))) ->
  exists ext',
    UnswizzleBlocks debug ext mem
    = Some (ext',
            unswizzle_all (layout (table ext)) mem
              (zip (blocks (swizzled_block_collection ext)) (moved_heap_blocks ext)))
    /\ blocks (block_collection (table ext'))
       = blocks (block_collection (table ext)) ++ blocks (swizzled_block_collection ext)
    /\ Count (table ext') = rdc_count (swizzled_block_collection ext)
    /\ blocks (string_heap (table ext'))
       = blocks (string_heap (table ext)) ++ moved_heap_blocks ext
    /\ rdc_count (string_heap (table ext')) = rdc_count (swizzled_string_heap ext)
    /\ string_heap_pinned_blocks ext'
       = string_heap_pinned_blocks ext ++ (block_ptr <$> moved_heap_blocks ext)
    /\ blocks (swizzled_block_collection ext') = []
    /\ rdc_count (swizzled_block_collection ext') = 0
    /\ blocks (swizzled_string_heap ext') = []
    /\ rdc_count (swizzled_string_heap ext') = 0
    /\ partition_block_collections ext' = partition_block_collections ext
    /\ partition_string_heaps ext' = partition_string_heaps ext.
Proof.
  intros Hdebug Hvar. eexists. split; [apply (UnswizzleBlocks_spec debug ext mem Hdebug Hvar) |].
  cbn. repeat split; reflexivity.
Qed.

(** X27: with the assertions compiled in, [UnswizzleBlocks] goes through
    exactly when the swizzled heap has as many blocks as the swizzled
    collection has data blocks, whatever the layout: a table of
    constant-size rows whose swizzled heap has no block fails the assertion
    as soon as it has a data block. *)
Theorem UnswizzleBlocks_asserts_a_heap_block_for_each_data_block
    (ext : ExternalJoinHashTable) (mem : Memory) :
  UnswizzleBlocks true ext mem = None
  <-> length (blocks (swizzled_block_collection ext))
      <> length (blocks (swizzled_string_heap ext)).
Proof.
  split.
  - intros Hnone Hlen.
    rewrite (UnswizzleBlocks_spec true ext mem) in Hnone; [discriminate | | ].
    + intros _. exact Hlen.
    + intros _. rewrite Hlen. reflexivity.
  - intros Hlen. unfold UnswizzleBlocks.
    rewrite (bool_decide_eq_false_2 _ Hlen). reflexivity.
Qed.

Lemma Finalize_sets_finalized (ht ht' : JoinHashTable) (mem mem' : Memory) :
  Finalize ht mem = Some (ht', mem') -> finalized ht' = true.
Proof.
  unfold Finalize. intros H.
  destruct (Finalize_blocks _ _ _) as [[ht1 mem1] |]; [| discriminate].
  injection H as <- _. reflexivity.
Qed.

(** X28: for a table that is not finalized and has a layout of constant
    size, [FinalizeExternal] is [Finalize] on the table that holds the blocks
    of the table, of the swizzled collection and of every partition, with
    the rows of the swizzled collection and of the partitions as its count:
    it fails when that fails, and else gives the same table and row memory.
    With the assertions compiled in, the swizzled heap holds a block for
    each data block of the swizzled collection and of the partitions. *)
Theorem FinalizeExternal_finalizes_the_blocks_of_the_partitions
    (debug : bool) (ext : ExternalJoinHashTable) (mem : Memory) :
  finalized (table ext) = false ->
  AllConstant (layout (table ext)) = true ->
  (debug = true ->
     length (blocks (swizzled_block_collection ext)
             ++ concat (blocks <$> partition_block_collections ext))
     = length (blocks (swizzled_string_heap ext))) ->
  (fun result => (table (fst result), snd result)) <$> FinalizeExternal debug ext mem
  = Finalize (table_of_all_blocks ext) mem.
Proof.
  intros Hfin Hc Hdebug. unfold FinalizeExternal. rewrite Hfin.
  destruct (PinPartitions_spec ext) as (ext1 & -> & Ht & Hpin & Hs & Hp & Hconst & _).
  { rewrite Hc. discriminate. }
  destruct (Hconst Hc) as [Hsh Hps].
  rewrite (UnswizzleBlocks_spec debug ext1 mem).
  - cbn [table with_swizzled_string_heap with_swizzled_block_collection
         with_string_heap_pinned_blocks with_table].
    assert (Heq : with_collections
                    (with_rdc_count (rdc_count (swizzled_block_collection ext1))
                       (append_blocks (blocks (swizzled_block_collection ext1))
                                      (block_collection (table ext1))))
                    (with_rdc_count (rdc_count (swizzled_string_heap ext1))
                       (append_blocks (moved_heap_blocks ext1) (string_heap (table ext1))))
                    (table ext1)
                  = table_of_all_blocks ext).
    { unfold moved_heap_blocks. rewrite Ht, Hc, Hs, Hsh.
      unfold table_of_all_blocks, with_rdc_count, append_blocks. cbn.
      rewrite app_nil_r. reflexivity. }
    rewrite Heq.
    replace (unswizzle_all _ mem _) with mem.
    + destruct (Finalize (table_of_all_blocks ext) mem) as [[ht' mem'] |]; reflexivity.
    + unfold moved_heap_blocks. rewrite Ht, Hc.
      destruct (blocks (swizzled_block_collection ext1)); reflexivity.
  - intros Hd. rewrite Hs, Hsh. cbn [blocks]. exact (Hdebug Hd).
  - rewrite Ht, Hc. discriminate.
Qed.

(** X29: a call of [FinalizeExternal] that returns leaves the table
    finalized, and a second call changes neither the table nor the row
    memory, with or without the assertions. *)
Theorem FinalizeExternal_twice
    (debug debug' : bool) (ext ext' : ExternalJoinHashTable) (mem mem' : Memory) :
  FinalizeExternal debug ext mem = Some (ext', mem') ->
  finalized (table ext') = true
  /\ FinalizeExternal debug' ext' mem' = Some (ext', mem').
Proof.
  intros H.
  assert (Hfin : finalized (table ext') = true).
  { unfold FinalizeExternal in H.
    destruct (finalized (table ext)) eqn:Hf.
    - injection H as <- _. exact Hf.
    - destruct (PinPartitions ext) as [ext1 |]; [| discriminate].
      destruct (UnswizzleBlocks debug ext1 mem) as [[ext2 mem2] |]; [| discriminate].
      destruct (Finalize (table ext2) mem2) as [[ht3 mem3] |] eqn:Hf3; [| discriminate].
      injection H as <- _. cbn [table with_table].
      exact (Finalize_sets_finalized _ _ _ _ Hf3). }
  split; [exact Hfin |].
  unfold FinalizeExternal. rewrite Hfin. reflexivity.
Qed.

Lemma sum_list_insert_rdc_count (l : list RowDataCollection) (idx : nat)
    (old new : RowDataCollection) :
  l !! idx = Some old ->
  sum_list (rdc_count <$> <[idx := new]> l) + rdc_count old
  = sum_list (rdc_count <$> l) + rdc_count new.
Proof.
  revert idx. induction l as [| c l IH]; intros [| idx] H; try discriminate.
  - injection H as ->. cbn. unfold id. lia.
  - cbn in H. specialize (IH idx H).
    change (sum_list (rdc_count <$> <[S idx := new]> (c :: l)))
      with (rdc_count c + sum_list (rdc_count <$> <[idx := new]> l)).
    change (sum_list (rdc_count <$> c :: l)) with (rdc_count c + sum_list (rdc_count <$> l)).
    lia.
Qed.

Lemma sum_list_rdc_count_zero (l : list RowDataCollection) :
  Forall (fun c => rdc_count c = 0) l -> sum_list (rdc_count <$> l) = 0.
Proof.
  induction 1 as [| c l Hc _ IH]; [reflexivity |].
  change (sum_list (rdc_count <$> c :: l)) with (rdc_count c + sum_list (rdc_count <$> l)).
  lia.
Qed.

Lemma Merge_move_loop_spec (todo : list RowDataCollection) :
  forall (other this : ExternalJoinHashTable) (done hs hdone hrest : list RowDataCollection),
    partition_block_collections other = done ++ todo ->
    (if AllConstant (layout (table this)) then hs = []
     else partition_string_heaps other = hdone ++ hs ++ hrest
          /\ length hdone = length done /\ length hs = length todo) ->
    Merge_move_loop other this (seq (length done) (length todo))
    = Some (with_partition_string_heaps (partition_string_heaps this ++ hs)
              (with_partition_block_collections (partition_block_collections this ++ todo)
                                                this)).
Proof.
  induction todo as [| p todo IH]; intros other this done hs hdone hrest Hp Hh.
  - assert (hs = []) as ->.
    { destruct (AllConstant (layout (table this))); [exact Hh |].
      destruct Hh as (_ & _ & Hlen). destruct hs; [reflexivity | discriminate]. }
    cbn [length seq Merge_move_loop]. f_equal.
    destruct this. unfold with_partition_string_heaps, with_partition_block_collections.
    cbn. rewrite !app_nil_r. reflexivity.
  - cbn [length seq Merge_move_loop].
    unfold Merge_move_partition at 1.
    rewrite Hp, (list_lookup_middle done todo p (length done) eq_refl).
    cbn [table with_partition_block_collections].
    destruct (AllConstant (layout (table this))) eqn:Hc; cbn [negb].
    + subst hs.
      replace (S (length done)) with (length (done ++ [p]))
        by (rewrite length_app; cbn [length]; lia).
      rewrite (IH other _ (done ++ [p]) [] [] []).
      * f_equal. destruct this.
        unfold with_partition_string_heaps, with_partition_block_collections. cbn.
        rewrite <- !app_assoc. reflexivity.
      * rewrite Hp, <- app_assoc. reflexivity.
      * cbn [table with_partition_block_collections]. rewrite Hc. reflexivity.
    + destruct Hh as (Hhs & Hlen & Hlen').
      destruct hs as [| h hs]; [discriminate |].
      rewrite Hhs.
      change (hdone ++ (h :: hs) ++ hrest) with (hdone ++ h :: (hs ++ hrest)).
      rewrite (list_lookup_middle hdone (hs ++ hrest) h (length done) (eq_sym Hlen)).
      replace (S (length done)) with (length (done ++ [p]))
        by (rewrite length_app; cbn [length]; lia).
      rewrite (IH other _ (done ++ [p]) hs (hdone ++ [h]) hrest).
      * f_equal. destruct this.
        unfold with_partition_string_heaps, with_partition_block_collections. cbn.
        rewrite <- !app_assoc. reflexivity.
      * rewrite Hp, <- app_assoc. reflexivity.
      * cbn [table with_partition_block_collections with_partition_string_heaps].
        rewrite Hc, Hhs, <- app_assoc, !length_app. cbn [length] in *.
        split; [reflexivity |]. split; lia.
Qed.

Lemma Merge_merge_partition_spec (this other this' other' : ExternalJoinHashTable)
    (idx : nat) :
  Merge_merge_partition (this, other) idx = Some (this', other') ->
  exists mine theirs,
    partition_block_collections this !! idx = Some mine
    /\ partition_block_collections other !! idx = Some theirs
    /\ partition_block_collections this'
       = <[idx := fst (RowDataCollection_Merge mine theirs)]>
           (partition_block_collections this)
    /\ partition_block_collections other'
       = <[idx := RowDataCollection_Clear theirs]> (partition_block_collections other)
    /\ table this' = table this
    /\ swizzled_block_collection this' = swizzled_block_collection this
    /\ table other' = table other
    /\ swizzled_block_collection other' = swizzled_block_collection other
    /\ length (partition_string_heaps this') = length (partition_string_heaps this)
    /\ length (partition_string_heaps other') = length (partition_string_heaps other).
Proof.
  unfold Merge_merge_partition. intros H.
  destruct (partition_block_collections this !! idx) as [mine |] eqn:Hm; [| discriminate].
  destruct (partition_block_collections other !! idx) as [theirs |] eqn:Ho; [| discriminate].
  exists mine, theirs. split; [reflexivity |]. split; [reflexivity |].
  cbn [RowDataCollection_Merge table with_partition_block_collections
       partition_string_heaps] in H.
  destruct (negb (AllConstant (layout (table this)))).
  - destruct (partition_string_heaps this !! idx) as [my_heap |]; [| discriminate].
    destruct (partition_string_heaps other !! idx) as [their_heap |]; [| discriminate].
    injection H as <- <-. cbn. rewrite !length_insert. repeat split; reflexivity.
  - injection H as <- <-. cbn. repeat split; reflexivity.
Qed.

Lemma Merge_merge_loop_spec (indices : list nat) :
  forall this other this' other' : ExternalJoinHashTable,
    Merge_merge_loop (this, other) indices = Some (this', other') ->
    table this' = table this
    /\ swizzled_block_collection this' = swizzled_block_collection this
    /\ table other' = table other
    /\ swizzled_block_collection other' = swizzled_block_collection other
    /\ partition_rows this' + partition_rows other'
       = partition_rows this + partition_rows other
    /\ length (partition_block_collections other')
       = length (partition_block_collections other)
    /\ forall j, j ∈ indices \/ partition_empty other j -> partition_empty other' j.
Proof.
  induction indices as [| idx indices IH]; intros this other this' other' H.
  - injection H as <- <-. repeat split; try reflexivity.
    intros j [Hin | Hj]; [inversion Hin | exact Hj].
  - cbn [Merge_merge_loop] in H.
    destruct (Merge_merge_partition (this, other) idx) as [[this1 other1] |] eqn:Hstep;
      [| discriminate].
    destruct (Merge_merge_partition_spec _ _ _ _ _ Hstep)
      as (mine & theirs & Hm & Ho & Hpm & Hpo & Ht & Hs & Hto & Hso & _ & _).
    destruct (IH _ _ _ _ H) as (Ht' & Hs' & Hto' & Hso' & Hsum & Hlen & Hempty).
    split; [rewrite Ht', Ht; reflexivity |]. split; [rewrite Hs', Hs; reflexivity |].
    split; [rewrite Hto', Hto; reflexivity |]. split; [rewrite Hso', Hso; reflexivity |].
    split.
    { rewrite Hsum. unfold partition_rows. rewrite Hpm, Hpo.
      pose proof (sum_list_insert_rdc_count _ idx mine
                    (fst (RowDataCollection_Merge mine theirs)) Hm) as H1.
      pose proof (sum_list_insert_rdc_count _ idx theirs
                    (RowDataCollection_Clear theirs) Ho) as H2.
      change (rdc_count (fst (RowDataCollection_Merge mine theirs)))
        with (rdc_count mine + rdc_count theirs) in H1.
      change (rdc_count (RowDataCollection_Clear theirs)) with 0 in H2. lia. }
    split; [rewrite Hlen, Hpo, length_insert; reflexivity |].
    intros j Hj. apply Hempty.
    destruct (decide (j = idx)) as [-> | Hne].
    + right. exists (RowDataCollection_Clear theirs). rewrite Hpo.
      split; [| split; reflexivity].
      apply list_lookup_insert_eq. apply lookup_lt_Some in Ho. exact Ho.
    + destruct Hj as [Hin | (c & Hc & Hb & Hr)].
      * left. apply elem_of_cons in Hin. destruct Hin as [-> | Hin]; [contradiction | exact Hin].
      * right. exists c. rewrite Hpo, list_lookup_insert_ne by congruence.
        split; [exact Hc |]. split; [exact Hb | exact Hr].
Qed.

Lemma Merge_merge_loop_runs (indices : list nat) :
  forall this other : ExternalJoinHashTable,
    (forall i, i ∈ indices ->
       i < length (partition_block_collections this)
       /\ i < length (partition_block_collections other)
       /\ (AllConstant (layout (table this)) = false ->
             i < length (partition_string_heaps this)
             /\ i < length (partition_string_heaps other))) ->
    is_Some (Merge_merge_loop (this, other) indices).
Proof.
  induction indices as [| idx indices IH]; intros this other Hin.
  - eexists. reflexivity.
  - cbn [Merge_merge_loop].
    assert (Hstep : is_Some (Merge_merge_partition (this, other) idx)).
    { destruct (Hin idx) as (Hm & Ho & Hh); [left |].
      apply lookup_lt_is_Some in Hm, Ho. destruct Hm as [mine Hm], Ho as [theirs Ho].
      unfold Merge_merge_partition. rewrite Hm, Ho.
      cbn [RowDataCollection_Merge table with_partition_block_collections
           partition_string_heaps].
      destruct (AllConstant (layout (table this))); cbn [negb]; [eexists; reflexivity |].
      destruct (Hh eq_refl) as [Hhm Hho].
      apply lookup_lt_is_Some in Hhm, Hho. destruct Hhm as [? ->], Hho as [? ->].
      eexists. reflexivity. }
    destruct Hstep as [[this1 other1] Hstep]. rewrite Hstep.
    destruct (Merge_merge_partition_spec _ _ _ _ _ Hstep)
      as (mine & theirs & _ & _ & Hpm & Hpo & Ht & _ & _ & _ & Hlm & Hlo).
    apply IH. intros i Hi. rewrite Hpm, Hpo, !length_insert, Ht, Hlm, Hlo.
    apply Hin. right. exact Hi.
Qed.

Lemma Merge_collections_spec (this other this1 other1 : ExternalJoinHashTable) :
  Merge_collections this other = (this1, other1) ->
  block_collection (table this1)
  = fst (RowDataCollection_Merge (block_collection (table this))
                                 (block_collection (table other)))
  /\ swizzled_block_collection this1
     = fst (RowDataCollection_Merge (swizzled_block_collection this)
                                    (swizzled_block_collection other))
  /\ block_collection (table other1) = RowDataCollection_Clear (block_collection (table other))
  /\ swizzled_block_collection other1
     = RowDataCollection_Clear (swizzled_block_collection other)
  /\ layout (table this1) = layout (table this)
  /\ partition_block_collections this1 = partition_block_collections this
  /\ partition_string_heaps this1 = partition_string_heaps this
  /\ partition_block_collections other1 = partition_block_collections other
  /\ partition_string_heaps other1 = partition_string_heaps other.
Proof.
  unfold Merge_collections. cbn [RowDataCollection_Merge].
  cbn [table with_table with_swizzled_block_collection with_block_collection
       with_collections layout].
  destruct (negb (AllConstant (layout (table this)))); intros H; injection H as <- <-;
    cbn; repeat split; reflexivity.
Qed.

(** X30: [Merge] goes through for a table without partitions, and for one
    with as many partitions and heaps as the other table, when a layout that
    is not of constant size has a heap for every partition of the other
    table.  The blocks and the rows of the other table's collection and
    swizzled collection are added to this table's, the rows of its
    partitions to this table's partitions, and the other table is left
    without blocks and without rows. *)
Theorem Merge_moves_the_rows_of_the_other_table
    (debug : bool) (this other : ExternalJoinHashTable) :
  (partition_block_collections this = [] /\ partition_string_heaps this = []
   \/ partition_block_collections this <> []
      /\ length (partition_block_collections this)
         = length (partition_block_collections other)
      /\ length (partition_string_heaps this) = length (partition_string_heaps other)) ->
  (AllConstant (layout (table this)) = false ->
     length (partition_block_collections other) <= length (partition_string_heaps other)) ->
  exists this' other',
    Merge debug this other = Some (this', other')
    /\ blocks (block_collection (table this'))
       = blocks (block_collection (table this)) ++ blocks (block_collection (table other))
    /\ Count (table this') = Count (table this) + Count (table other)
    /\ blocks (swizzled_block_collection this')
       = blocks (swizzled_block_collection this) ++ blocks (swizzled_block_collection other)
    /\ rdc_count (swizzled_block_collection this')
       = rdc_count (swizzled_block_collection this)
         + rdc_count (swizzled_block_collection other)
    /\ partition_rows this' = partition_rows this + partition_rows other
    /\ blocks (block_collection (table other')) = []
    /\ Count (table other') = 0
    /\ blocks (swizzled_block_collection other') = []
    /\ rdc_count (swizzled_block_collection other') = 0
    /\ partition_rows other' = 0.
Proof.
  intros Hshape Hheaps. unfold Merge.
  destruct (Merge_collections this other) as [this1 other1] eqn:Hcoll.
  destruct (Merge_collections_spec _ _ _ _ Hcoll)
    as (Hbc & Hsbc & Hobc & Hosbc & Hlay & Hpm & Hhm & Hpo & Hho).
  rewrite Hpm, Hhm.
  destruct Hshape as [[Hnil Hhnil] | (Hne & Hlen & Hhlen)].
  - rewrite Hnil, Hhnil.
    rewrite (bool_decide_eq_true_2 ([] = []) eq_refl), andb_false_r.
    pose proof (Merge_move_loop_spec (partition_block_collections other1) other1 this1 []
                  (if AllConstant (layout (table this1)) then []
                   else take (length (partition_block_collections other1))
                             (partition_string_heaps other1))
                  []
                  (drop (length (partition_block_collections other1))
                        (partition_string_heaps other1)) eq_refl) as Hloop.
    cbn [length] in Hloop. rewrite Hloop.
    + eexists _, _. split; [reflexivity |].
      unfold Count, partition_rows. cbn. rewrite Hbc, Hsbc, Hobc, Hosbc, Hpm, Hpo, Hnil.
      cbn. repeat split; reflexivity.
    + rewrite Hlay. destruct (AllConstant (layout (table this))) eqn:Hc; [reflexivity |].
      cbn [app]. rewrite take_drop. split; [reflexivity |]. split; [reflexivity |].
      rewrite length_take, Hpo, Hho. specialize (Hheaps eq_refl). lia.
  - rewrite (bool_decide_eq_false_2 _ Hne).
    rewrite Hpo, Hho, (bool_decide_eq_true_2 _ Hlen), (bool_decide_eq_true_2 _ Hhlen).
    cbn [andb negb]. rewrite andb_false_r.
    destruct (Merge_merge_loop_runs (seq 0 (length (partition_block_collections other)))
                this1 other1) as [[this' other'] Hrun].
    { intros i Hi. apply elem_of_seq in Hi. rewrite Hpm, Hpo, Hhm, Hho, Hlay.
      split; [lia |]. split; [lia |]. intros Hc. specialize (Hheaps Hc). lia. }
    exists this', other'. split; [exact Hrun |].
    destruct (Merge_merge_loop_spec _ _ _ _ _ Hrun)
      as (Ht & Hs & Hto & Hso & Hsum & Hlen' & Hempty).
    assert (Hzero : partition_rows other' = 0).
    { unfold partition_rows.
      assert (Hall : Forall (fun c => rdc_count c = 0) (partition_block_collections other')).
      { apply Forall_lookup_2. intros j c Hj.
        destruct (Hempty j) as (c' & Hc' & _ & Hr).
        - left. apply elem_of_seq. apply lookup_lt_Some in Hj. rewrite Hlen', Hpo in Hj. lia.
        - congruence. }
      exact (sum_list_rdc_count_zero _ Hall). }
    unfold Count. rewrite Ht, Hs, Hto, Hso, Hbc, Hsbc, Hobc, Hosbc. cbn.
    repeat split; try reflexivity; try exact Hzero.
    rewrite Hzero in Hsum. unfold partition_rows in *. rewrite Hpm, Hpo in Hsum. lia.
Qed.

End Model.

(** * Concrete tables *)

Module Examples.

(** ** Constants, collaborators and inputs *)

(** Constants and collaborators, small enough to evaluate. *)
Definition vector_size : nat := 4.
Definition block_size : Z := 64.
Definition radix_bits : Z := 2.
Definition tmp_buf_size : Z := 8.

(** Every column is eight bytes wide. *)
Definition layout_of (types : list LogicalType) : RowLayout :=
  {| GetTypes := types;
     GetOffsets := (fun i => (8 * Z.of_nat i)%Z) <$> seq 0 (length types);
     GetRowWidth := (8 * Z.of_nat (length types))%Z;
     AllConstant := true |}.

(** Rows go to a new block of their own. *)
Definition append_block (collection : RowDataCollection) (n : nat)
    : RowDataCollection * list Z :=
  let base := (4096 * (1 + Z.of_nat (length (blocks collection))))%Z in
  ({| blocks := blocks collection ++ [{| block_ptr := base; block_count := n |}];
      rdc_count := rdc_count collection + n;
      block_capacity := block_capacity collection;
      rdc_entry_size := rdc_entry_size collection |},
   (fun i => (base + Z.of_nat i * rdc_entry_size collection)%Z) <$> seq 0 n).

(** The hash of a row is the value of its first key column. *)
Definition first_key_hash (keys : DataChunk) (_ row : nat) : Z :=
  match data keys with
  | v :: _ => vd_data (Orrify v (size keys)) !!! get_index (vd_sel (Orrify v (size keys))) row
  | [] => 0%Z
  end.

Definition keep_histogram (_ : VectorData) (_ : nat) (_ : bool) (histogram : list Z) (_ : Z)
    : list Z := histogram.

Definition no_scatter (_ : DataChunk) (_ : list VectorData) (_ : RowLayout) (_ : list Z)
    (_ : SelectionVector) (_ : nat) (heap : RowDataCollection) (mem : gmap Z Z)
    : RowDataCollection * gmap Z Z := (heap, mem).

Definition gather_words (mem : gmap Z Z) (rows : list Z) (_ : SelectionVector) (_ : Vector)
    (_ : SelectionVector) (count : nat) (col_offset : Z) (_ : nat) : Vector :=
  FLAT_VECTOR ((fun addr => Load mem (addr + col_offset)%Z) <$> take count rows) None.

(** A lane matches the row it points at when the first key column of the row
    holds the first key of the lane. *)
Definition first_key_matches (keys : DataChunk) (mem : gmap Z Z) (ptrs : list Z) (idx : nat)
    : bool :=
  bool_decide (Load mem (ptrs !!! idx) = first_key_hash keys 0 idx).

Definition match_first_key (_ : JoinHashTable) (keys : DataChunk) (_ : list VectorData)
    (mem : gmap Z Z) (ptrs : list Z) (lanes : list nat) : list nat * list nat :=
  (List.filter (first_key_matches keys mem ptrs) lanes,
   List.filter (fun idx => negb (first_key_matches keys mem ptrs idx)) lanes).

Definition no_aggregates (_ : list (DataChunk * DataChunk)) (_ : DataChunk) : list Z * list Z :=
  ([], []).

Definition new_table (conditions : list ExpressionType) (btypes : list LogicalType)
    (type : JoinType) : JoinHashTable :=
  JoinHashTable_new vector_size block_size radix_bits tmp_buf_size layout_of
    ((fun c => {| return_type := BIGINT; comparison := c |}) <$> conditions) btypes type.

Definition column (values : list (option Z)) : Vector :=
  FLAT_VECTOR ((fun v => default 0%Z v) <$> values)
              (if forallb (fun v => bool_decide (is_Some v)) values then None
               else Some ((fun v => bool_decide (is_Some v)) <$> values)).

Definition chunk (columns : list (list (option Z))) (n : nat) : DataChunk :=
  {| data := column <$> columns; size := n |}.

Definition build := Build vector_size radix_bits append_block first_key_hash keep_histogram no_scatter.
Definition build_all :=
  Build_all vector_size radix_bits append_block first_key_hash keep_histogram no_scatter.

Definition equality_and_range_table : JoinHashTable :=
  new_table [COMPARE_EQUAL; COMPARE_LESSTHAN] [] INNER.

(** A batch of one row, [(1, NULL)]: the key of the equality condition is
    there, the key of the range condition is null. *)
Definition null_range_key_batch : DataChunk * DataChunk :=
  (chunk [[Some 1%Z]; [None]] 1, chunk [] 1).

(** Two rows, the second with a null equality key. *)
Definition null_equality_key_batch : DataChunk * DataChunk :=
  (chunk [[Some 1%Z; None]; [Some 2%Z; Some 2%Z]] 2, chunk [] 2).

Definition finalize := Finalize vector_size block_size.

(** Four partitions of one row each, rows of 24 bytes and no strings. *)
Definition four_partitions : JoinHashTable :=
  with_histogram_ptr [1; 1; 1; 1]%Z equality_and_range_table.

Definition mark_table : JoinHashTable := new_table [COMPARE_EQUAL; COMPARE_EQUAL] [] MARK.

(** Probe rows [(NULL, 7)] and [(5, NULL)]; neither can match. *)
Definition mark_keys : DataChunk := chunk [[None; Some 5%Z]; [Some 7%Z; None]] 2.

Definition mark_cursor : ScanStructure :=
  {| key_data := DataChunk_Orrify mark_keys;
     pointers := replicate vector_size 0%Z;
     ss_count := 0;
     sel_vector := replicate vector_size 0;
     found_match := Some (replicate vector_size false);
     finished := false |}.

Definition fresh_mark_vector : Vector := FLAT_VECTOR (replicate vector_size 0%Z) None.

Definition probe := Probe vector_size first_key_hash.

(** Two probe rows; the second has a null range key and is filtered out. *)
Definition probe_keys : DataChunk := chunk [[Some 5%Z; Some 6%Z]; [Some 1%Z; None]] 2.

(** Rows of a key, a payload and the hash: 24 bytes, the hash (later the
    next pointer) at offset 16.  The hashes 1, 17 and 2 put the first two
    rows in slot 1 of a map of 16 slots. *)
Definition three_rows : JoinHashTable :=
  with_collections
    {| blocks := [{| block_ptr := 4096; block_count := 3 |}]; rdc_count := 3;
       block_capacity := 8; rdc_entry_size := 24 |}
    (string_heap (new_table [COMPARE_EQUAL] [BIGINT] SEMI))
    (new_table [COMPARE_EQUAL] [BIGINT] SEMI).

Definition three_rows_memory : gmap Z Z :=
  list_to_map [(4096, 10); (4104, 100); (4112, 1);
               (4120, 20); (4128, 200); (4136, 17);
               (4144, 30); (4152, 300); (4160, 2)]%Z.

(** The memory once [Finalize] has chained the rows: the second row points
    at the first. *)
Definition chained_memory : gmap Z Z :=
  list_to_map [(4096, 10); (4104, 100); (4112, 0);
               (4120, 20); (4128, 200); (4136, 4096);
               (4144, 30); (4152, 300); (4160, 0)]%Z.

(** Lane 0 points at the second row and lane 1 at the first. *)
Definition two_lanes : ScanStructure :=
  {| key_data := [];
     pointers := [4120; 4096; 0; 0]%Z;
     ss_count := 2;
     sel_vector := [0; 1; 0; 0];
     found_match := Some (replicate vector_size false);
     finished := false |}.

Definition next := Next vector_size gather_words match_first_key no_aggregates.

(** Lane 0 looks for key 10, which the first row holds, and lane 1 for key
    99, which no row holds. *)
Definition semi_keys : DataChunk := chunk [[Some 10%Z; Some 99%Z]] 2.

Definition empty_result : DataChunk := {| data := [FLAT_VECTOR [] None]; size := 0 |}.

(** Rows of a key, a payload, the found flag and the hash: 32 bytes, the
    flag at offset 16.  A probe row has matched the second row. *)
Definition outer_rows : JoinHashTable :=
  with_pinned_handles [4096%Z]
    (with_collections
       {| blocks := [{| block_ptr := 4096; block_count := 3 |}]; rdc_count := 3;
          block_capacity := 8; rdc_entry_size := 32 |}
       (string_heap (new_table [COMPARE_EQUAL] [BIGINT] RIGHT))
       (new_table [COMPARE_EQUAL] [BIGINT] RIGHT)).

Definition outer_memory : gmap Z Z :=
  list_to_map [(4096, 10); (4104, 100); (4112, 0); (4120, 0);
               (4128, 20); (4136, 200); (4144, 1); (4152, 0);
               (4160, 30); (4168, 300); (4176, 0); (4184, 0)]%Z.

Definition scan_full_outer_all := ScanFullOuter_all vector_size gather_words.

(** One probe column and one build column. *)
Definition outer_result : DataChunk :=
  {| data := [FLAT_VECTOR [] None; FLAT_VECTOR [] None]; size := 0 |}.

(** The rows of [three_rows] with the hash of a row equal to its key: the
    keys 1 and 17 share slot 1, the key 2 has slot 2. *)
Definition keyed_memory : gmap Z Z :=
  list_to_map [(4096, 1); (4104, 100); (4112, 1);
               (4120, 17); (4128, 200); (4136, 17);
               (4144, 2); (4152, 300); (4160, 2)]%Z.

(** Probe rows with the keys 1, 99 and 17: the first and the last have a
    build row, the second has an empty slot. *)
Definition slot_keys : DataChunk := chunk [[Some 1%Z; Some 99%Z; Some 17%Z]] 3.

(** The table of [three_rows] once finalized over [keyed_memory]. *)
Definition three_rows_finalized : JoinHashTable :=
  match finalize three_rows keyed_memory with
  | Some (ht', _) => ht'
  | None => three_rows
  end.

(** The build row at an address matches a probe row when its first column
    holds the first key of the probe row. *)
Definition first_key_row_matches (_ : JoinHashTable) (keys : DataChunk) (mem : gmap Z Z)
    (ptr : Z) (idx : nat) : bool :=
  bool_decide (Load mem ptr = first_key_hash keys 0 idx).

(** Three rows of a key, a payload and the hash, as [three_rows], in a table
    of another join type. *)
Definition rows_table (type : JoinType) : JoinHashTable :=
  with_collections
    {| blocks := [{| block_ptr := 4096; block_count := 3 |}]; rdc_count := 3;
       block_capacity := 8; rdc_entry_size := 24 |}
    (string_heap (new_table [COMPARE_EQUAL] [BIGINT] type))
    (new_table [COMPARE_EQUAL] [BIGINT] type).

Definition inner_rows : JoinHashTable := rows_table INNER.

(** The cursor of an inner join keeps no match flags. *)
Definition inner_lanes : ScanStructure := with_found_match None two_lanes.

(** Lane 0 points at the first row of [outer_rows] and lane 1 at the
    second; every chain of [outer_memory] has one row. *)
Definition outer_lanes : ScanStructure :=
  {| key_data := [];
     pointers := [4096; 4128; 0; 0]%Z;
     ss_count := 2;
     sel_vector := [0; 1; 0; 0];
     found_match := Some (replicate vector_size false);
     finished := false |}.

Definition next_inner_join := NextInnerJoin gather_words match_first_key.

(** Four probe rows of a correlated mark join; the key of the third is
    null. *)
Definition correlated_keys : DataChunk :=
  chunk [[Some 1%Z; Some 2%Z; None; Some 4%Z]] 4.

(** The first probe row has found a match. *)
Definition correlated_cursor : ScanStructure :=
  {| key_data := DataChunk_Orrify correlated_keys;
     pointers := replicate vector_size 0%Z;
     ss_count := 0;
     sel_vector := replicate vector_size 0;
     found_match := Some [true; false; false; false];
     finished := false |}.

(** The group of the second row is empty; the groups of the others hold two
    rows, one of them with a null key for the last two. *)
Definition counted_aggregates (_ : list (DataChunk * DataChunk)) (_ : DataChunk)
    : list Z * list Z :=
  ([2; 0; 2; 2]%Z, [2; 0; 1; 1]%Z).

Definition correlated_result : DataChunk :=
  {| data := [column [Some 1%Z; Some 2%Z; None; Some 4%Z]; fresh_mark_vector]; size := 0 |}.

(** [outer_rows] before [Finalize] has pinned its block. *)
Definition outer_rows_built : JoinHashTable := with_pinned_handles [] outer_rows.




(** A layout with a column that is not of constant size. *)
Definition varlen_layout_of (types : list LogicalType) : RowLayout :=
  {| GetTypes := types;
     GetOffsets := (fun i => (8 * Z.of_nat i)%Z) <$> seq 0 (length types);
     GetRowWidth := (8 * Z.of_nat (length types))%Z;
     AllConstant := false |}.

Definition collection_of (bs : list RowDataBlock) (count : nat) : RowDataCollection :=
  {| blocks := bs; rdc_count := count; block_capacity := 8; rdc_entry_size := 24 |}.

(** A table of constant-size rows after partitioning: two rows in the first
    partition, one in the second, nothing else. *)
Definition partitioned : ExternalJoinHashTable :=
  {| table := new_table [COMPARE_EQUAL] [BIGINT] SEMI;
     swizzled_block_collection := collection_of [] 0;
     swizzled_string_heap := collection_of [] 0;
     partition_block_collections :=
       [collection_of [{| block_ptr := 4096; block_count := 2 |}] 2;
        collection_of [{| block_ptr := 8192; block_count := 1 |}] 1];
     partition_string_heaps := [];
     string_heap_pinned_blocks := [] |}.

(** The rows of the partitions, the hash of a row equal to its key. *)
Definition partition_memory : gmap Z Z :=
  list_to_map [(4096, 1); (4104, 100); (4112, 1);
               (4120, 17); (4128, 200); (4136, 17);
               (8192, 2); (8200, 300); (8208, 2)]%Z.

(** Another table with two partitions, of one row and of two. *)
Definition local_partitioned : ExternalJoinHashTable :=
  {| table := new_table [COMPARE_EQUAL] [BIGINT] SEMI;
     swizzled_block_collection := collection_of [] 0;
     swizzled_string_heap := collection_of [] 0;
     partition_block_collections :=
       [collection_of [{| block_ptr := 12288; block_count := 1 |}] 1;
        collection_of [{| block_ptr := 16384; block_count := 2 |}] 2];
     partition_string_heaps := [];
     string_heap_pinned_blocks := [] |}.

(** A table with strings: each partition has a heap, and the swizzled
    collections hold one data block and its heap block already. *)
Definition strings : ExternalJoinHashTable :=
  {| table :=
       JoinHashTable_new vector_size block_size radix_bits tmp_buf_size varlen_layout_of
         [{| return_type := VARCHAR; comparison := COMPARE_EQUAL |}] [] SEMI;
     swizzled_block_collection :=
       collection_of [{| block_ptr := 4096; block_count := 2 |}] 2;
     swizzled_string_heap :=
       collection_of [{| block_ptr := 32768; block_count := 2 |}] 2;
     partition_block_collections :=
       [collection_of [{| block_ptr := 8192; block_count := 1 |}] 1;
        collection_of [{| block_ptr := 12288; block_count := 3 |}] 3];
     partition_string_heaps :=
       [collection_of [{| block_ptr := 36864; block_count := 1 |}] 1;
        collection_of [{| block_ptr := 40960; block_count := 3 |}] 3];
     string_heap_pinned_blocks := [] |}.

(** [UnswizzlePointers] that records at the address of each block the
    address of its heap block. *)
Definition record_heap_block (_ : RowLayout) (data_ptr heap_ptr : Z) (_ : nat)
    (mem : gmap Z Z) : gmap Z Z :=
  Store heap_ptr data_ptr mem.

(** ** Evaluations, witnesses and counterexamples *)

Lemma match_first_key_partition ht keys key_data mem ptrs lanes :
  fst (match_first_key ht keys key_data mem ptrs lanes)
    ++ snd (match_first_key ht keys key_data mem ptrs lanes) ≡ₚ lanes.
Proof.
  cbn [match_first_key fst snd]. induction lanes as [| idx lanes IH]; cbn; [reflexivity |].
  destruct (first_key_matches keys mem ptrs idx); cbn.
  - constructor. exact IH.
  - rewrite <- Permutation_middle. constructor. exact IH.
Qed.

Lemma Build_size_zero_is_noop_witness :
  build equality_and_range_table ∅ (chunk [[]; []] 0) (chunk [] 0)
  = (equality_and_range_table, ∅).
Proof. apply Build_size_zero_is_noop. reflexivity. Defined.

Lemma has_null_iff_row_dropped_witness :
  (has_null (fst (build_all equality_and_range_table ∅ [null_equality_key_batch])) = true
   <-> exists keys payload r,
         (keys, payload) ∈ [null_equality_key_batch]
         /\ row_dropped equality_and_range_table keys r)
  /\ (IsRightOuterJoin (join_type equality_and_range_table) = true ->
      has_null (fst (build_all equality_and_range_table ∅ [null_equality_key_batch])) = false).
Proof.
  apply has_null_iff_row_dropped.
  - reflexivity.
  - repeat constructor; cbn; unfold vector_size; lia.
Defined.

(** The claim of C6 as it is worded, with "equality column", fails: the row
    [(1, NULL)] is dropped for the null key of its range condition, [has_null]
    becomes true, and no row has a null in an equality column. *)
Lemma has_null_without_null_equality_key :
  ~ (has_null (fst (build_all equality_and_range_table ∅ [null_range_key_batch])) = true
     <-> exists keys payload r,
           (keys, payload) ∈ [null_range_key_batch]
           /\ row_dropped_on_equality_key equality_and_range_table keys r).
Proof.
  intros [Hdropped _].
  destruct Hdropped as (keys & payload & r & Hin & _ & _ & c & vdata & Hc & Hcol & _ & Hnull);
    [vm_compute; reflexivity |].
  apply list_elem_of_singleton in Hin. injection Hin as -> ->.
  assert (c = 0) as -> by (cbn in Hc; lia).
  injection Hcol as <-. vm_compute in Hnull. discriminate.
Qed.

Lemma Finalize_capacity_power_of_two_witness :
  let ht := equality_and_range_table in
  let capacity := Finalize_capacity block_size ht in
  capacity = NextPowerOfTwo (Z.max (2 * Z.of_nat (Count ht)) (block_size / 8 + 1))
  /\ (exists k, (0 <= k <= 63)%Z /\ capacity = (2 ^ k)%Z)
  /\ (Z.max (2 * Z.of_nat (Count ht)) (block_size / 8 + 1) <= capacity)%Z
  /\ hash_map (Finalize_allocate block_size ht) = replicate (Z.to_nat capacity) nullptr
  /\ bitmask (Finalize_allocate block_size ht) = (capacity - 1)%Z
  /\ (forall mem ht' mem',
        finalize ht mem = Some (ht', mem') ->
        length (hash_map ht') = Z.to_nat capacity /\ bitmask ht' = (capacity - 1)%Z
        /\ finalized ht' = true).
Proof.
  apply (Finalize_capacity_power_of_two vector_size block_size equality_and_range_table).
  - vm_compute. reflexivity.
  - unfold block_size. lia.
Defined.

(** C2 fails on the code: the two partitions of the reduced histogram hold
    two rows of 24 bytes each and fit a budget of 1000 bytes under the
    estimate, yet [ReduceHistogram] returns with the histogram of four
    partitions, not reduced once. *)
Theorem ReduceHistogram_does_not_reduce :
  let reduced := RadixPartitioning_ReduceHistogram (histogram_ptr four_partitions) 2 1 in
  current_radix_bits four_partitions = 2%Z
  /\ reduced = [2; 2]%Z
  /\ partitions_fit_estimate 1000 reduced (0 + GetRowWidth (layout four_partitions)) = true
  /\ ReduceHistogram 1 0 four_partitions = Some four_partitions
  /\ histogram_ptr four_partitions = [1; 1; 1; 1]%Z.
Proof. vm_compute. repeat split; reflexivity. Qed.

(** C1 fails on the code: row 0 of the batch has a null in its first key
    column (null-equals flag false) and the build side has no null, so the
    mark of row 0 should be NULL.  The loop over the second key column writes
    the validity of that column over the mark, and row 0 comes out as a valid
    FALSE. *)
Theorem ConstructMarkJoinResult_overwrites_null :
  let '(bool_result, mask) :=
    ConstructMarkJoinResult_mark vector_size mark_table mark_cursor mark_keys mark_keys
                                 fresh_mark_vector in
  null_values_are_equal mark_table = [false; false]
  /\ has_null mark_table = false
  /\ (exists vdata, DataChunk_Orrify mark_keys !! 0 = Some vdata /\ vd_is_null vdata 0 = true)
  /\ RowIsValid mask 0 = true
  /\ bool_result !!! 0 = 0%Z
  /\ mask = Some [true; false; true; true].
Proof.
  vm_compute. repeat split; try reflexivity.
  eexists. split; reflexivity.
Qed.

Lemma Probe_empty_table_witness :
  exists ht',
    finalize equality_and_range_table ∅ = Some (ht', ∅)
    /\ finalized ht' = true /\ Count ht' = 0 /\ all_slots_null ht'
    /\ probe true ht' probe_keys = None
    /\ exists ss reads,
         probe false ht' probe_keys = Some (ss, reads)
         /\ ss_count ss = 0
         /\ length reads = length (surviving_rows equality_and_range_table probe_keys)
         /\ (surviving_rows equality_and_range_table probe_keys = [] -> reads = []).
Proof.
  apply (Probe_empty_table vector_size block_size first_key_hash equality_and_range_table ∅
                           probe_keys).
  - reflexivity.
  - reflexivity.
  - cbn. unfold vector_size. lia.
Defined.

(** The claim of C8 as it is worded fails: on the empty finalized table
    [Probe] does not return a cursor without having read the hash map.  With
    its assertion checked it does not return a cursor at all; without, it
    reads slot [5 & bitmask] for the surviving row. *)
Lemma Probe_empty_table_reads_hash_map :
  exists ht',
    finalize equality_and_range_table ∅ = Some (ht', ∅)
    /\ Count ht' = 0
    /\ probe true ht' probe_keys = None
    /\ snd <$> probe false ht' probe_keys = Some [5]
    /\ ~ (exists debug ss, probe debug ht' probe_keys = Some (ss, []) /\ ss_count ss = 0).
Proof.
  eexists. split; [vm_compute; reflexivity |]. split; [reflexivity |].
  split; [vm_compute; reflexivity |]. split; [vm_compute; reflexivity |].
  intros ([|] & ss & Heq & _); vm_compute in Heq; discriminate.
Qed.

Lemma Finalize_chains_are_LIFO_witness :
  let rows := table_rows (Finalize_allocate block_size three_rows) three_rows_memory in
  rows = [(1, 4096%Z); (1, 4120%Z); (2, 4144%Z)]
  /\ exists ht' mem',
       finalize three_rows three_rows_memory = Some (ht', mem')
       /\ (hash_map ht', mem')
          = push_rows (pointer_offset three_rows) rows
                      (hash_map (Finalize_allocate block_size three_rows), three_rows_memory)
       /\ forall s, s < length (hash_map ht') ->
            chain_walk (pointer_offset three_rows) mem' (length (rows_of_slot rows s))
                       (hash_map ht' !!! s)
            = Some (reverse (rows_of_slot rows s)).
Proof.
  split; [vm_compute; reflexivity |].
  apply (Finalize_chains_are_LIFO vector_size block_size three_rows three_rows_memory).
  - vm_compute. reflexivity.
  - unfold block_size. lia.
  - unfold vector_size. lia.
  - apply (bool_decide_unpack _). vm_compute. exact I.
  - apply (bool_decide_unpack _). vm_compute. exact I.
Defined.

Lemma AdvancePointers_filters_live_lanes_witness :
  let ss' := AdvancePointers three_rows chained_memory AliasedSel 2 two_lanes in
  live_lanes ss' = [0] /\ pointers ss' = [4096; 0; 0; 0]%Z
  /\ ss_count ss' <= 2
  /\ live_lanes ss'
     = List.filter (lane_survives three_rows chained_memory (pointers two_lanes))
                   (sel_lanes AliasedSel (sel_vector two_lanes) 2).
Proof.
  split; [vm_compute; reflexivity |]. split; [vm_compute; reflexivity |].
  pose proof (AdvancePointers_filters_live_lanes three_rows chained_memory AliasedSel 2 two_lanes)
    as H.
  destruct H as (Hcount & Hlive & _).
  - cbn. lia.
  - apply (bool_decide_unpack _). vm_compute. exact I.
  - intros idx Hidx. apply list_elem_of_In in Hidx. cbn in Hidx.
    destruct Hidx as [<- | [<- | []]]; cbn; lia.
  - split; [exact Hcount | exact Hlive].
Defined.

Lemma two_lanes_chains_within : chains_within three_rows chained_memory 2 two_lanes.
Proof.
  split; [cbn; lia |]. split; [apply (bool_decide_unpack _); vm_compute; exact I |].
  intros idx Hidx. apply list_elem_of_In in Hidx. cbn in Hidx.
  destruct Hidx as [<- | [<- | []]]; (split; [cbn; lia |]);
    (split; [vm_compute; discriminate |]);
    vm_compute; reflexivity.
Qed.

Lemma Next_single_pass_finishes_witness :
  exists ss' result',
    next 2 three_rows chained_memory semi_keys semi_keys empty_result two_lanes
      = Returns (ss', chained_memory, result')
    /\ finished ss' = true
    /\ ss_count ss' = 0
    /\ forall fuel' mem' keys' left' result'',
         next fuel' three_rows mem' keys' left' result'' ss' = Returns (ss', mem', result'').
Proof.
  apply (Next_single_pass_finishes vector_size gather_words match_first_key no_aggregates
           match_first_key_partition 2 2 three_rows chained_memory semi_keys semi_keys
           empty_result two_lanes).
  - reflexivity.
  - reflexivity.
  - exact two_lanes_chains_within.
  - lia.
Defined.

Lemma ScanFullOuter_emits_unmatched_rows_witness :
  let start := {| position := 0; block_position := 0 |} in
  rows_to_scan outer_rows start = [4096; 4128; 4160]%Z
  /\ exists chunks,
       scan_full_outer_all 3 outer_rows outer_memory outer_result start = Some chunks
       /\ concat (snd <$> chunks)
          = List.filter (unfound outer_rows outer_memory) (rows_to_scan outer_rows start)
       /\ (forall addr, addr ∈ concat (snd <$> chunks) <->
                        addr ∈ rows_to_scan outer_rows start
                        /\ Load outer_memory (addr + tuple_size outer_rows)%Z = 0%Z)
       /\ Forall (fun out =>
                    0 < size (fst out) <= vector_size
                    /\ length (snd out) = size (fst out)
                    /\ exists key_locations,
                         take (size (fst out)) key_locations = snd out
                         /\ full_outer_columns gather_words outer_rows outer_memory outer_result
                                               (fst out) key_locations)
                 chunks.
Proof.
  split; [vm_compute; reflexivity |].
  apply (ScanFullOuter_emits_unmatched_rows vector_size gather_words outer_rows outer_memory
                                            outer_result 3).
  - unfold vector_size. lia.
  - vm_compute. lia.
Defined.

Lemma match_first_key_rows ht keys key_data mem ptrs lanes :
  match_first_key ht keys key_data mem ptrs lanes
  = (List.filter (fun idx => first_key_row_matches ht keys mem (ptrs !!! idx) idx) lanes,
     List.filter (fun idx => negb (first_key_row_matches ht keys mem (ptrs !!! idx) idx)) lanes).
Proof. reflexivity. Qed.

Lemma PrepareKeys_selects_rows_without_null_witness :
  let keys := fst null_equality_key_batch in
  exists key_data current_sel sel' added_count,
    PrepareKeys equality_and_range_table keys (replicate vector_size 0) true
    = (key_data, current_sel, sel', added_count)
    /\ key_data = DataChunk_Orrify keys
    /\ length (sel_lanes current_sel sel' added_count) = added_count
    /\ added_count <= size keys
    /\ sublist (sel_lanes current_sel sel' added_count) (seq 0 (size keys))
    /\ forall r,
         r ∈ sel_lanes current_sel sel' added_count
         <-> r < size keys
             /\ (true && IsRightOuterJoin (join_type equality_and_range_table) = true
                 \/ forall c vdata,
                      DataChunk_Orrify keys !! c = Some vdata ->
                      null_values_are_equal equality_and_range_table !!! c = false ->
                      vd_is_null vdata r = false).
Proof.
  apply (PrepareKeys_selects_rows_without_null equality_and_range_table
           (fst null_equality_key_batch) (replicate vector_size 0) true).
  cbn. lia.
Defined.

Lemma Finalize_changes_only_the_hash_map_witness :
  exists ht' mem',
    finalize three_rows three_rows_memory = Some (ht', mem')
    /\ ht' = with_finalized true
               (with_pinned_handles
                  (pinned_handles three_rows
                   ++ (block_ptr <$> blocks (block_collection three_rows)))
                  (with_hash_map (hash_map ht')
                                 (wrap64 (Finalize_capacity block_size three_rows - 1))
                                 three_rows))
    /\ length (hash_map ht') = Z.to_nat (Finalize_capacity block_size three_rows).
Proof.
  apply (Finalize_changes_only_the_hash_map vector_size block_size three_rows
                                            three_rows_memory).
  unfold vector_size. lia.
Defined.

Lemma Finalize_writes_only_next_pointers_witness :
  exists ht' mem',
    finalize three_rows three_rows_memory = Some (ht', mem')
    /\ Load mem' 4104%Z = Load three_rows_memory 4104%Z.
Proof.
  destruct (finalize three_rows three_rows_memory) as [[ht' mem'] |] eqn:Hfinalize;
    [| vm_compute in Hfinalize; discriminate].
  exists ht', mem'. split; [reflexivity |].
  apply (Finalize_writes_only_next_pointers vector_size block_size three_rows
           three_rows_memory ht' mem' 4104%Z Hfinalize).
  intros block k Hblock Hk. apply list_elem_of_In in Hblock. cbn in Hblock.
  destruct Hblock as [<- | []]. vm_compute in Hk. unfold row_addr.
  change (entry_size three_rows) with 24%Z. change (pointer_offset three_rows) with 16%Z.
  cbn [block_ptr]. lia.
Defined.

Lemma Probe_points_lanes_at_slot_heads_witness :
  exists ss reads,
    probe true three_rows_finalized slot_keys = Some (ss, reads)
    /\ live_lanes ss
       = List.filter
           (fun idx => bool_decide (lane_head first_key_hash three_rows_finalized slot_keys idx
                                    <> nullptr))
           (surviving_rows three_rows_finalized slot_keys)
    /\ ss_count ss = length (live_lanes ss)
    /\ (forall idx, idx ∈ surviving_rows three_rows_finalized slot_keys ->
                    pointers ss !!! idx
                    = hash_map three_rows_finalized
                        !!! slot_of three_rows_finalized
                              (lane_hash first_key_hash three_rows_finalized slot_keys idx))
    /\ reads = lane_slot first_key_hash three_rows_finalized slot_keys
                 <$> surviving_rows three_rows_finalized slot_keys
    /\ found_match ss
       = (if decide (join_type three_rows_finalized <> INNER)
          then Some (replicate vector_size false)
          else None)
    /\ finished ss = false.
Proof.
  apply (Probe_points_lanes_at_slot_heads vector_size first_key_hash true
           three_rows_finalized slot_keys).
  - vm_compute. lia.
  - intros _. split; [vm_compute; lia | reflexivity].
Defined.

Lemma Probe_after_Finalize_walks_slot_rows_witness :
  let rows := table_rows (Finalize_allocate block_size three_rows) keyed_memory in
  exists ht' mem' ss reads,
    finalize three_rows keyed_memory = Some (ht', mem')
    /\ probe false ht' slot_keys = Some (ss, reads)
    /\ forall idx, idx ∈ surviving_rows three_rows slot_keys ->
         let chain := reverse (rows_of_slot rows (lane_slot first_key_hash ht' slot_keys idx)) in
         chain_walk (pointer_offset three_rows) mem' (length chain) (pointers ss !!! idx)
         = Some chain
         /\ (forall a, a ∈ chain <-> (lane_slot first_key_hash ht' slot_keys idx, a) ∈ rows)
         /\ (idx ∈ live_lanes ss <-> chain <> []).
Proof.
  apply (Probe_after_Finalize_walks_slot_rows vector_size block_size first_key_hash
           three_rows keyed_memory slot_keys).
  - vm_compute. reflexivity.
  - unfold block_size. lia.
  - unfold vector_size. lia.
  - apply (bool_decide_unpack _). vm_compute. exact I.
  - apply (bool_decide_unpack _). vm_compute. exact I.
  - vm_compute. lia.
Defined.

Lemma NextSemiJoin_emits_rows_with_a_match_witness :
  let lane_matches :=
    lane_finds_match first_key_row_matches three_rows semi_keys chained_memory 2 two_lanes in
  let matched := List.filter lane_matches (seq 0 (size semi_keys)) in
  let unmatched := List.filter (fun idx => negb (lane_matches idx)) (seq 0 (size semi_keys)) in
  exists ss1,
    ss_count ss1 = 0
    /\ NextSemiJoin match_first_key 2 three_rows chained_memory semi_keys semi_keys
                    empty_result two_lanes
       = Some (with_finished true ss1,
               if decide (0 < length matched)
               then DataChunk_Slice empty_result semi_keys matched (length matched)
               else empty_result)
    /\ NextAntiJoin match_first_key 2 three_rows chained_memory semi_keys semi_keys
                    empty_result two_lanes
       = Some (with_finished true ss1,
               if decide (0 < length unmatched)
               then DataChunk_Slice empty_result semi_keys unmatched (length unmatched)
               else empty_result)
    /\ length matched + length unmatched = size semi_keys
    /\ (forall idx, idx < size semi_keys -> idx ∈ matched <-> idx ∉ unmatched).
Proof.
  apply (NextSemiJoin_emits_rows_with_a_match match_first_key first_key_row_matches
           match_first_key_partition match_first_key_rows 2 2 three_rows chained_memory
           semi_keys semi_keys empty_result two_lanes (replicate vector_size false)).
  - exact two_lanes_chains_within.
  - lia.
  - reflexivity.
  - intros idx Hidx. cbn in Hidx. split; [cbn; lia |].
    destruct idx as [| [| idx]]; [reflexivity | reflexivity | lia].
  - intros idx Hidx. apply list_elem_of_In in Hidx. cbn in Hidx.
    destruct Hidx as [<- | [<- | []]]; cbn; lia.
Defined.

Lemma semi_join_emits_rows_with_a_matching_build_row_witness :
  let rows := table_rows (Finalize_allocate block_size three_rows) keyed_memory in
  exists ht' mem' ss reads ss',
    finalize three_rows keyed_memory = Some (ht', mem')
    /\ probe false ht' slot_keys = Some (ss, reads)
    /\ let emitted :=
         List.filter
           (fun idx =>
              bool_decide (idx ∈ surviving_rows three_rows slot_keys)
              && existsb (fun a => first_key_row_matches ht' slot_keys mem' a idx)
                         (rows_of_slot rows (lane_slot first_key_hash ht' slot_keys idx)))
           (seq 0 (size slot_keys)) in
       next (length rows) ht' mem' slot_keys slot_keys empty_result ss
       = Returns (ss', mem',
                  if decide (0 < length emitted)
                  then DataChunk_Slice empty_result slot_keys emitted (length emitted)
                  else empty_result)
       /\ finished ss' = true.
Proof.
  apply (semi_join_emits_rows_with_a_matching_build_row vector_size block_size first_key_hash
           gather_words match_first_key no_aggregates first_key_row_matches
           match_first_key_partition match_first_key_rows three_rows keyed_memory
           slot_keys slot_keys empty_result).
  - vm_compute. reflexivity.
  - unfold block_size. lia.
  - unfold vector_size. lia.
  - apply (bool_decide_unpack _). vm_compute. exact I.
  - apply (bool_decide_unpack _). vm_compute. exact I.
  - vm_compute. lia.
  - reflexivity.
Defined.

Lemma inner_lanes_chains_within : chains_within inner_rows chained_memory 2 inner_lanes.
Proof.
  split; [cbn; lia |]. split; [apply (bool_decide_unpack _); vm_compute; exact I |].
  intros idx Hidx. apply list_elem_of_In in Hidx. cbn in Hidx.
  destruct Hidx as [<- | [<- | []]]; (split; [cbn; lia |]);
    (split; [vm_compute; discriminate |]);
    vm_compute; reflexivity.
Qed.




Lemma NextInnerJoin_only_sets_found_flags_witness :
  exists ss' mem' result',
    next_inner_join 2 outer_rows outer_memory semi_keys semi_keys outer_result outer_lanes
    = Some (ss', mem', result')
    /\ Load mem' 4112%Z = 1%Z
    /\ (IsRightOuterJoin (join_type outer_rows) = false -> mem' = outer_memory)
    /\ (forall addr, Load mem' addr = Load outer_memory addr \/ Load mem' addr = 1%Z)
    /\ (forall addr, unfound outer_rows mem' addr = true ->
                     unfound outer_rows outer_memory addr = true)
    /\ (forall state, sublist (unmatched_rows outer_rows mem' state)
                              (unmatched_rows outer_rows outer_memory state)).
Proof.
  destruct (next_inner_join 2 outer_rows outer_memory semi_keys semi_keys outer_result
                            outer_lanes) as [[[ss' mem'] result'] |] eqn:Hnext;
    [| vm_compute in Hnext; discriminate].
  exists ss', mem', result'. split; [reflexivity |].
  split.
  - vm_compute in Hnext. injection Hnext as _ <- _. vm_compute. reflexivity.
  - exact (NextInnerJoin_only_sets_found_flags gather_words match_first_key 2 outer_rows
             outer_memory semi_keys semi_keys outer_result outer_lanes ss' mem' result'
             Hnext).
Defined.



Lemma Next_inner_join_returns_unfinished_witness :
  exists ss' mem' result',
    next 3 inner_rows chained_memory semi_keys semi_keys outer_result inner_lanes
    = Returns (ss', mem', result')
    /\ finished ss' = false
    /\ (ss_count inner_lanes = 0 ->
        ss' = inner_lanes /\ mem' = chained_memory /\ result' = outer_result).
Proof.
  apply (Next_inner_join_returns_unfinished vector_size gather_words match_first_key
           no_aggregates first_key_row_matches match_first_key_rows 2 3 inner_rows
           chained_memory semi_keys semi_keys outer_result inner_lanes).
  - left. reflexivity.
  - reflexivity.
  - exact inner_lanes_chains_within.
  - lia.
Defined.

Lemma ConstructMarkJoinResult_mark_of_the_last_nullable_key_witness :
  let fm := replicate vector_size false in
  let mark :=
    ConstructMarkJoinResult_mark vector_size mark_table mark_cursor mark_keys mark_keys
                                 fresh_mark_vector in
  fst mark !!! 0 = Z.b2z (fm !!! 0)
  /\ (RowIsValid (snd mark) 0 = false
      <-> (exists jdata,
             last_nullable_key (null_values_are_equal mark_table) (data mark_keys) 0
                               (size mark_keys)
             = Some jdata
             /\ vd_is_null jdata 0 = true)
          \/ (has_null mark_table = true /\ fm !!! 0 = false)).
Proof.
  apply (ConstructMarkJoinResult_mark_of_the_last_nullable_key vector_size mark_table
           mark_cursor mark_keys mark_keys (replicate vector_size 0%Z)
           (replicate vector_size false)).
  - reflexivity.
  - reflexivity.
  - vm_compute. lia.
  - vm_compute. lia.
  - vm_compute. lia.
Defined.

Lemma NextMarkJoin_correlated_mark_witness :
  let last_key :=
    Orrify (List.last (data correlated_keys) (FLAT_VECTOR [] None)) (size correlated_keys) in
  let result' :=
    NextMarkJoin_correlated vector_size counted_aggregates mark_table correlated_cursor
                            correlated_keys correlated_keys correlated_result in
  exists bool_result mask,
    data result' !! ColumnCount correlated_keys = Some (FLAT_VECTOR bool_result mask)
    /\ size result' = size correlated_keys
    /\ forall i, i < size correlated_keys ->
         bool_result !!! i = Z.b2z (found_at (found_match correlated_cursor) i)
         /\ RowIsValid mask i
            = if decide ([2; 0; 2; 2]%Z !!! i = 0%Z) then true
              else negb (vd_is_null last_key i)
                   && (found_at (found_match correlated_cursor) i
                       || negb ([2; 0; 1; 1]%Z !!! i <? [2; 0; 2; 2]%Z !!! i)%Z).
Proof.
  apply (NextMarkJoin_correlated_mark vector_size counted_aggregates mark_table
           correlated_cursor correlated_keys correlated_keys correlated_result
           (replicate vector_size 0%Z) [2; 0; 2; 2]%Z [2; 0; 1; 1]%Z).
  - reflexivity.
  - reflexivity.
  - reflexivity.
  - vm_compute. lia.
  - vm_compute. lia.
  - intros d validity Hlast. vm_compute in Hlast. injection Hlast as _ <-.
    unfold mask_covers, vector_size. cbn [length]. lia.
  - reflexivity.
Defined.

Lemma ScanFullOuter_after_Finalize_scans_the_table_witness :
  let rows := snd <$> table_rows outer_rows_built outer_memory in
  exists ht' mem' chunks,
    finalize outer_rows_built outer_memory = Some (ht', mem')
    /\ scan_full_outer_all 3 ht' mem' outer_result {| position := 0; block_position := 0 |}
       = Some chunks
    /\ concat (snd <$> chunks) = List.filter (unfound outer_rows_built mem') rows
    /\ ((forall a b, a ∈ rows -> b ∈ rows ->
                     (a + tuple_size outer_rows_built)%Z
                     <> (b + pointer_offset outer_rows_built)%Z) ->
        List.filter (unfound outer_rows_built mem') rows
        = List.filter (unfound outer_rows_built outer_memory) rows).
Proof.
  intros rows.
  destruct (finalize outer_rows_built outer_memory) as [[ht' mem'] |] eqn:Hfinalize;
    [| vm_compute in Hfinalize; discriminate].
  exists ht', mem'.
  destruct (ScanFullOuter_after_Finalize_scans_the_table vector_size block_size gather_words
              outer_rows_built outer_memory ht' mem' outer_result 3)
    as (chunks & Hscan & Hrows & Hflags).
  - unfold vector_size. lia.
  - reflexivity.
  - exact Hfinalize.
  - vm_compute in Hfinalize. injection Hfinalize as _ <-. vm_compute. lia.
  - exists chunks. split; [reflexivity |]. split; [exact Hscan |].
    split; [exact Hrows | exact Hflags].
Defined.

Lemma JoinHashTable_new_block_capacity_witness :
  let ht := new_table [COMPARE_EQUAL] [BIGINT] INNER in
  let least := Z.max (Z.of_nat vector_size) (block_size / entry_size ht + 1) in
  let capacity := block_capacity (block_collection ht) in
  (capacity mod tmp_buf_size = 0)%Z
  /\ (least < capacity <= least + tmp_buf_size)%Z
  /\ (Z.of_nat vector_size < capacity)%Z
  /\ (block_size < capacity * entry_size ht)%Z
  /\ rdc_entry_size (block_collection ht) = GetRowWidth (layout ht)
  /\ entry_size ht = GetRowWidth (layout ht)
  /\ block_capacity (string_heap ht) = block_size
  /\ rdc_entry_size (string_heap ht) = 1%Z.
Proof.
  apply (JoinHashTable_new_block_capacity vector_size block_size radix_bits tmp_buf_size
           layout_of
           ((fun c => {| return_type := BIGINT; comparison := c |}) <$> [COMPARE_EQUAL])
           [BIGINT] INNER).
  - unfold tmp_buf_size. lia.
  - vm_compute. reflexivity.
Defined.

Lemma FillWithHTOffsets_lists_every_row_witness :
  let state := {| position := 0; block_position := 0 |} in
  let key_locations := replicate vector_size 0%Z in
  exists key_locations' state',
    FillWithHTOffsets three_rows key_locations state
    = (length (addresses_from_state three_rows state), key_locations', state')
    /\ take (length (addresses_from_state three_rows state)) key_locations'
       = addresses_from_state three_rows state
    /\ length key_locations' = length key_locations
    /\ (block_position state < length (blocks (block_collection three_rows)) ->
        state' = {| position := 0;
                    block_position := length (blocks (block_collection three_rows)) |})
    /\ FillWithHTOffsets three_rows key_locations' state' = (0, key_locations', state')
    /\ (forall mem,
          addresses_from_state three_rows {| position := 0; block_position := 0 |}
          = snd <$> table_rows three_rows mem).
Proof.
  apply (FillWithHTOffsets_lists_every_row three_rows (replicate vector_size 0%Z)
           {| position := 0; block_position := 0 |}).
  vm_compute. lia.
Defined.

Lemma GetScanIndices_counts_the_rows_of_the_blocks_witness :
  let state := {| position := 0; block_position := 0 |} in
  (exists state',
     GetScanIndices vector_size three_rows state
     = (vector_size `min` rows_in_blocks_from three_rows state, position state,
        block_position state, state'))
  /\ (forall block,
        blocks (block_collection three_rows) !! block_position state = Some block ->
        vector_size <= block_count block ->
        GetScanIndices vector_size three_rows state
        = (vector_size, position state, block_position state,
           {| position := position state + vector_size;
              block_position := block_position state |})).
Proof.
  apply (GetScanIndices_counts_the_rows_of_the_blocks vector_size three_rows
           {| position := 0; block_position := 0 |}).
  unfold vector_size. lia.
Defined.


Lemma PinPartitions_moves_every_partition_witness :
  exists ext',
    PinPartitions strings = Some ext'
    /\ table ext' = table strings
    /\ blocks (swizzled_block_collection ext')
       = blocks (swizzled_block_collection strings)
           ++ concat (blocks <$> partition_block_collections strings)
    /\ rdc_count (swizzled_block_collection ext')
       = rdc_count (swizzled_block_collection strings)
         + sum_list (rdc_count <$> partition_block_collections strings)
    /\ partition_block_collections ext'
       = RowDataCollection_Clear <$> partition_block_collections strings
    /\ (AllConstant (layout (table strings)) = true ->
          swizzled_string_heap ext' = swizzled_string_heap strings
          /\ partition_string_heaps ext' = partition_string_heaps strings)
    /\ (AllConstant (layout (table strings)) = false ->
          let moved :=
            take (length (partition_block_collections strings))
                 (partition_string_heaps strings) in
          blocks (swizzled_string_heap ext')
          = blocks (swizzled_string_heap strings) ++ concat (blocks <$> moved)
          /\ rdc_count (swizzled_string_heap ext')
             = rdc_count (swizzled_string_heap strings) + sum_list (rdc_count <$> moved)
          /\ partition_string_heaps ext'
             = (RowDataCollection_Clear <$> moved)
                 ++ drop (length (partition_block_collections strings))
                         (partition_string_heaps strings)).
Proof.
  apply (PinPartitions_moves_every_partition strings).
  intros _. vm_compute. lia.
Defined.

Lemma UnswizzleBlocks_moves_the_blocks_and_overwrites_the_counts_witness :
  exists ext',
    UnswizzleBlocks record_heap_block true strings partition_memory
    = Some (ext',
            unswizzle_all record_heap_block (layout (table strings)) partition_memory
              (zip (blocks (swizzled_block_collection strings)) (moved_heap_blocks strings)))
    /\ blocks (block_collection (table ext'))
       = blocks (block_collection (table strings))
           ++ blocks (swizzled_block_collection strings)
    /\ Count (table ext') = rdc_count (swizzled_block_collection strings)
    /\ blocks (string_heap (table ext'))
       = blocks (string_heap (table strings)) ++ moved_heap_blocks strings
    /\ rdc_count (string_heap (table ext')) = rdc_count (swizzled_string_heap strings)
    /\ string_heap_pinned_blocks ext'
       = string_heap_pinned_blocks strings ++ (block_ptr <$> moved_heap_blocks strings)
    /\ blocks (swizzled_block_collection ext') = []
    /\ rdc_count (swizzled_block_collection ext') = 0
    /\ blocks (swizzled_string_heap ext') = []
    /\ rdc_count (swizzled_string_heap ext') = 0
    /\ partition_block_collections ext' = partition_block_collections strings
    /\ partition_string_heaps ext' = partition_string_heaps strings.
Proof.
  apply (UnswizzleBlocks_moves_the_blocks_and_overwrites_the_counts record_heap_block true
           strings partition_memory).
  - intros _. reflexivity.
  - intros _. vm_compute. lia.
Defined.

Lemma FinalizeExternal_finalizes_the_blocks_of_the_partitions_witness :
  (fun result => (table (fst result), snd result))
    <$> FinalizeExternal vector_size block_size record_heap_block false partitioned
                         partition_memory
  = Finalize vector_size block_size (table_of_all_blocks partitioned) partition_memory
  /\ Count (table_of_all_blocks partitioned) = 3
  /\ is_Some (FinalizeExternal vector_size block_size record_heap_block false partitioned
                               partition_memory)
  /\ FinalizeExternal vector_size block_size record_heap_block true partitioned
                      partition_memory = None.
Proof.
  split.
  - apply (FinalizeExternal_finalizes_the_blocks_of_the_partitions vector_size block_size
             record_heap_block false partitioned partition_memory).
    + reflexivity.
    + reflexivity.
    + discriminate.
  - split; [reflexivity |]. split; [| vm_compute; reflexivity].
    vm_compute. eexists. reflexivity.
Defined.

Lemma FinalizeExternal_twice_witness :
  exists ext' mem',
    FinalizeExternal vector_size block_size record_heap_block false partitioned
                     partition_memory = Some (ext', mem')
    /\ finalized (table ext') = true
    /\ FinalizeExternal vector_size block_size record_heap_block true ext' mem'
       = Some (ext', mem').
Proof.
  assert (Hsome : is_Some (FinalizeExternal vector_size block_size record_heap_block false
                                            partitioned partition_memory)).
  { vm_compute. eexists. reflexivity. }
  destruct Hsome as [[ext' mem'] Hfinalize].
  exists ext', mem'. split; [exact Hfinalize |].
  exact (FinalizeExternal_twice vector_size block_size record_heap_block false true
           partitioned ext' partition_memory mem' Hfinalize).
Defined.

Lemma Merge_moves_the_rows_of_the_other_table_witness :
  exists this' other',
    Merge true partitioned local_partitioned = Some (this', other')
    /\ blocks (block_collection (table this'))
       = blocks (block_collection (table partitioned))
           ++ blocks (block_collection (table local_partitioned))
    /\ Count (table this') = Count (table partitioned) + Count (table local_partitioned)
    /\ blocks (swizzled_block_collection this')
       = blocks (swizzled_block_collection partitioned)
           ++ blocks (swizzled_block_collection local_partitioned)
    /\ rdc_count (swizzled_block_collection this')
       = rdc_count (swizzled_block_collection partitioned)
         + rdc_count (swizzled_block_collection local_partitioned)
    /\ partition_rows this' = partition_rows partitioned + partition_rows local_partitioned
    /\ blocks (block_collection (table other')) = []
    /\ Count (table other') = 0
    /\ blocks (swizzled_block_collection other') = []
    /\ rdc_count (swizzled_block_collection other') = 0
    /\ partition_rows other' = 0.
Proof.
  apply (Merge_moves_the_rows_of_the_other_table true partitioned local_partitioned).
  - right. split; [discriminate |]. split; reflexivity.
  - discriminate.
Defined.

End Examples.
